(** * loken-hierarchies-ts: nodes, hierarchies and graph traversal

    A shallow embedding of the node linking/ownership model ([node.ts],
    [hierarchy.ts], [nodes.ts]) and of the traversal engine
    ([traverse-types.ts], [traverse-signal] classes) together with the
    properties the specification states about them.

    Conventions.
    - JavaScript object references are natural numbers: a [Node] is an index
      into the store of node records, an [Array] handed to a caller is an index
      into the store of arrays.
    - A computation that can throw is a function from the world to an
      [Outcome] and the world at the moment it returned or threw, so that a
      mutation performed before a [throw] stays visible.
    - JavaScript [Set] and [Map] iterate in insertion order; they are lists
      without duplicates, respectively association lists with unique keys. *)

From stdpp Require Import base option list strings.

Local Open Scope Z_scope.

(** ** Outcomes of calls *)

(** What a [throw] carries: [new Error(msg)] or the engine's [TypeError]. *)
Inductive Thrown : Type :=
  | Error (msg : string)
  | TypeError (msg : string).

(** A call returns, throws, or (for the loops the model bounds by fuel) has not
    finished within the bound. *)
Inductive Outcome (A : Type) : Type :=
  | Ok (a : A)
  | Throw (e : Thrown)
  | OutOfFuel.
Arguments Ok {A} a.
Arguments Throw {A} e.
Arguments OutOfFuel {A}.

Definition returned {A} (o : Outcome A) : Prop := ∃ a, o = Ok a.
Definition threw {A} (o : Outcome A) : Prop := ∃ e, o = Throw e.

(** State-and-exception computations over a state [S]. The state is returned in
    every case: after a [Throw] it is the state reached when the exception was
    raised. *)
Definition M (S A : Type) : Type := S → Outcome A * S.

#[export] Instance M_ret {S} : MRet (M S) := λ A a s, (Ok a, s).
#[export] Instance M_bind {S} : MBind (M S) := λ A B k m s,
  match m s with
  | (Ok a, s') => k a s'
  | (Throw e, s') => (Throw e, s')
  | (OutOfFuel, s') => (OutOfFuel, s')
  end.

Definition throw {S A} (e : Thrown) : M S A := λ s, (Throw e, s).
Definition out_of_fuel {S A} : M S A := λ s, (OutOfFuel, s).
Definition get_state {S} : M S S := λ s, (Ok s, s).
Definition modify {S} (f : S → S) : M S unit := λ s, (Ok tt, f s).

(** ** JavaScript [Set]: insertion-ordered, no duplicates *)
Module JsSet.
Section JsSet.
Context {T : Type} `{EqDecision T}.

Definition has (s : list T) (x : T) : bool := bool_decide (x ∈ s).
Definition add (x : T) (s : list T) : list T :=
  if has s x then s else s ++ [x].
Definition delete (x : T) (s : list T) : list T :=
  filter (λ y, y ≠ x) s.
Definition size (s : list T) : nat := length s.
Definition add_all (xs : list T) (s : list T) : list T :=
  foldl (λ acc x, add x acc) s xs.
End JsSet.
End JsSet.

(** ** JavaScript [Map]: insertion-ordered association list *)
Module JsMap.
Section JsMap.
Context {K V : Type} `{EqDecision K}.

Fixpoint get (m : list (K * V)) (k : K) : option V :=
  match m with
  | [] => None
  | (k', v) :: m' => if decide (k' = k) then Some v else get m' k
  end.
Definition has (m : list (K * V)) (k : K) : bool := bool_decide (is_Some (get m k)).
(** [map.set(k, v)]: an existing key keeps its position. *)
Fixpoint set (k : K) (v : V) (m : list (K * V)) : list (K * V) :=
  match m with
  | [] => [(k, v)]
  | (k', v') :: m' =>
      if decide (k' = k) then (k', v) :: m' else (k', v') :: set k v m'
  end.
Definition delete (k : K) (m : list (K * V)) : list (K * V) :=
  filter (λ kv, kv.1 ≠ k) m.
Definition keys (m : list (K * V)) : list K := m.*1.
Definition values (m : list (K * V)) : list V := m.*2.
End JsMap.
End JsMap.

(** ** Linear buffers *)

(** Modelled from the spec: [collections/stack.ts] and [collections/queue.ts]
    (classes [Stack], [LinearStack], [LinearQueue]) are not among the sources;
    only the interface [ILinear] is. Section 4.1: "attach(items) appends one or
    more items, returns count appended; detach() removes and returns one item,
    failing (non-throwing result) when empty; ... count reflects current size;
    clear() empties. Two variants: stack (LIFO) backing depth-first traversal,
    queue (FIFO) backing breadth-first traversal."

    The buffer is the list of its items in the order they were appended. The
    queue removes at the front (first appended, first removed), the stack at
    the back (last appended, first removed). *)
Module Linear.
Section Linear.
Context {T : Type}.

Record t : Type := mk { isStack : bool; items : list T }.

Definition empty (stack : bool) : t := mk stack [].
Definition count (b : t) : Z := Z.of_nat (length (items b)).
(** [attach(items)]: bulk append, returns how many were appended. *)
Definition attach (xs : list T) (b : t) : Z * t :=
  (Z.of_nat (length xs), mk (isStack b) (items b ++ xs)).
(** [tryDetach()]: [None] is the TryResult [{ success: false }]. *)
Definition tryDetach (b : t) : option T * t :=
  if isStack b then
    match last (items b) with
    | Some x => (Some x, mk true (removelast (items b)))
    | None => (None, b)
    end
  else
    match items b with
    | x :: rest => (Some x, mk false rest)
    | [] => (None, b)
    end.
Definition clear (b : t) : t := mk (isStack b) [].
End Linear.
Arguments t : clear implicits.
End Linear.

(** Modelled from the spec: the class [Stack] of [collections/stack.ts], used
    by [GraphSignal] for its branch counts ([push], [pop], [tryPeek], [count]).
    Section 4.1 gives the failure contract of the single-item operations: the
    [try] forms fail with a non-throwing result when empty, so the plain [pop]
    on an empty stack is the throwing form. The top of the stack is the head of
    the list. *)
Module Stack.
Section Stack.
Context {T : Type}.

Definition push (x : T) (s : list T) : list T := x :: s.
Definition pop (s : list T) : Outcome T * list T :=
  match s with
  | x :: rest => (Ok x, rest)
  | [] => (Throw (Error "The stack is empty."), [])
  end.
Definition tryPeek (s : list T) : option T := head s.
Definition count (s : list T) : Z := Z.of_nat (length s).
End Stack.
End Stack.

(** ** The graph control signal ([traverse-types.ts], class [GraphSignal]) *)

Inductive TraversalType : Type := BreadthFirst | DepthFirst.

Module GraphSignal.
Section GraphSignal.
Context {TNode : Type} `{EqDecision TNode}.

(** The private fields. [branchCount] is only initialised (and only touched)
    in depth-first mode; it is the empty stack otherwise. *)
Record t : Type := mk {
  visited : option (list TNode);
  isDepthFirst : bool;
  nodes : Linear.t TNode;
  depth : Z;
  branchCount : list Z;
  depthCount : Z;
  count : Z;
  skipped : bool
}.

Definition set_visited v s :=
  mk v (isDepthFirst s) (nodes s) (depth s) (branchCount s) (depthCount s) (count s) (skipped s).
Definition set_nodes v s :=
  mk (visited s) (isDepthFirst s) v (depth s) (branchCount s) (depthCount s) (count s) (skipped s).
Definition set_depth v s :=
  mk (visited s) (isDepthFirst s) (nodes s) v (branchCount s) (depthCount s) (count s) (skipped s).
Definition set_branchCount v s :=
  mk (visited s) (isDepthFirst s) (nodes s) (depth s) v (depthCount s) (count s) (skipped s).
Definition set_depthCount v s :=
  mk (visited s) (isDepthFirst s) (nodes s) (depth s) (branchCount s) v (count s) (skipped s).
Definition set_count v s :=
  mk (visited s) (isDepthFirst s) (nodes s) (depth s) (branchCount s) (depthCount s) v (skipped s).
Definition set_skipped v s :=
  mk (visited s) (isDepthFirst s) (nodes s) (depth s) (branchCount s) (depthCount s) (count s) v.

(** [next(nodes)] *)
Definition next (ns : list TNode) (s : t) : t :=
  let '(c, nodes') := Linear.attach ns (nodes s) in
  let s := set_nodes nodes' s in
  if isDepthFirst s && bool_decide (c > 0)
  then set_branchCount (Stack.push c (branchCount s)) s
  else s.

(** [skip()] *)
Definition skip (s : t) : t := set_skipped true s.

(** [end()] *)
Definition end_ (s : t) : t := set_nodes (Linear.clear (nodes s)) s.

(** [constructor(options)]; [detectCycles ?? false] and [type] compared with
    ['depth-first'] are passed already resolved. *)
Definition constructor (roots : list TNode) (detectCycles : bool)
    (type : TraversalType) : t :=
  let visited := if detectCycles then Some [] else None in
  let isDepthFirst := match type with DepthFirst => true | BreadthFirst => false end in
  let '(depthCount, nodes) := Linear.attach roots (Linear.empty isDepthFirst) in
  mk visited isDepthFirst nodes 0
     (if isDepthFirst then Stack.push depthCount [] else [])
     depthCount 0 false.

(** [shouldYield()] *)
Definition shouldYield (s : t) : bool := negb (skipped s).

(** The [while] loop of [cleanup]: pop the frames that are [0]. *)
Fixpoint cleanup_frames (bc : list Z) : list Z :=
  match bc with
  | v :: rest => if bool_decide (v = 0) then cleanup_frames rest else bc
  | [] => bc
  end.

(** [cleanup()] *)
Definition cleanup (s : t) : t :=
  let s := if isDepthFirst s
           then set_branchCount (cleanup_frames (branchCount s)) s
           else s in
  if skipped s then s else set_count (count s + 1) s.

(** [tryGetNextInternal()] *)
Definition tryGetNextInternal : M t (option TNode) := λ s,
  let '(res, nodes') := Linear.tryDetach (nodes s) in
  match res with
  | Some x =>
      let s := set_skipped false (set_nodes nodes' s) in
      if isDepthFirst s then
        let s := set_depth (Stack.count (branchCount s) - 1) s in
        match Stack.pop (branchCount s) with
        | (Ok v, bc) =>
            let s := set_branchCount (Stack.push (v - 1) bc) s in
            (Ok (Some x), set_skipped false s)
        | (Throw e, bc) => (Throw e, set_branchCount bc s)
        | (OutOfFuel, bc) => (OutOfFuel, set_branchCount bc s)
        end
      else
        let old := depthCount s in
        let s := set_depthCount (old - 1) s in
        let s := if bool_decide (old = 0)
                 then set_depthCount (Linear.count (nodes s)) (set_depth (depth s + 1) s)
                 else s in
        (Ok (Some x), set_skipped false s)
  | None => (Ok None, s)
  end.

(** The [while (res.success)] loop of [tryGetNext] in cycle-detecting mode,
    entered with the result of the first [tryGetNextInternal] still to be
    taken; [vs] is the visited set on entry. *)
Fixpoint tryGetNext_loop (fuel : nat) : M t (option TNode) :=
  match fuel with
  | O => out_of_fuel
  | S fuel =>
      res ← tryGetNextInternal;
      match res with
      | Some x =>
          s ← get_state;
          let vs := default [] (visited s) in
          if JsSet.has vs x
          then tryGetNext_loop fuel
          else modify (set_visited (Some (JsSet.add x vs)));; mret (Some x)
      | None => mret None
      end
  end.

(** [tryGetNext()]. Every turn of the loop removes one pending node, so one
    more turn than there are pending nodes always suffices. *)
Definition tryGetNext : M t (option TNode) := λ s,
  match visited s with
  | Some _ => tryGetNext_loop (S (length (Linear.items (nodes s)))) s
  | None => tryGetNextInternal s
  end.
End GraphSignal.
Arguments t : clear implicits.
End GraphSignal.

(** ** The graph traversal driver *)

(** Modelled from the spec: [traversal/traverse-graph.ts] (the generator
    [traverseGraph]) is not among the sources; its callers are. Section 4.4:
    "Pulls from the control signal in a loop: pull candidate -> invoke consumer
    signal callback (or default) -> if signal indicates 'should yield' (not
    skipped), yield the node -> perform cleanup bookkeeping -> repeat until the
    frontier reports empty", and section 4.3: "If no callback is supplied,
    default behavior is: always yield, and advance into the node's intrinsic
    children (via the ambient next accessor)".

    A generator is consumed by a [for ... of] loop (or a spread, which is the
    loop that pushes every yielded node on an array). The model fuses the two:
    [body] is what the consumer does with a yielded node, it runs at the
    [yield], between the callback and the cleanup, on the consumer's state
    [St]. The callback reads that state when it is invoked, because the
    accessor [next: node => node.children] is evaluated lazily, at the pull. *)
Module TraverseGraph.
Section TraverseGraph.
Context {TNode : Type} `{EqDecision TNode} {St : Type}.

(** The [signal] callback of the options: it drives the control signal with
    [next], [skip] and [end]. *)
Definition Callback : Type := St → TNode → GraphSignal.t TNode → GraphSignal.t TNode.

(** The default callback built from the [next] accessor:
    [(node, signal) => signal.next(next(node))]. *)
Definition default_callback (next : St → TNode → list TNode) : Callback :=
  λ st n sig, GraphSignal.next (next st n) sig.

Fixpoint loop (traverse : Callback) (body : TNode → M St unit)
    (fuel : nat) (sig : GraphSignal.t TNode) : M St unit :=
  match fuel with
  | O => out_of_fuel
  | S fuel => λ st,
      match GraphSignal.tryGetNext sig with
      | (Ok (Some n), sig) =>
          let sig := traverse st n sig in
          let yielded := if GraphSignal.shouldYield sig then body n st else (Ok tt, st) in
          match yielded with
          | (Ok _, st) => loop traverse body fuel (GraphSignal.cleanup sig) st
          | other => other
          end
      | (Ok None, _) => (Ok tt, st)
      | (Throw e, _) => (Throw e, st)
      | (OutOfFuel, _) => (OutOfFuel, st)
      end
  end.

(** [for (let node of traverseGraph({ roots, type, detectCycles, signal })) body(node)] *)
Definition for_of (roots : list TNode) (detectCycles : bool) (type : TraversalType)
    (traverse : Callback) (body : TNode → M St unit) (fuel : nat) : M St unit :=
  loop traverse body fuel (GraphSignal.constructor roots detectCycles type).
End TraverseGraph.
End TraverseGraph.

(** [[...traverseGraph(options)]] for a graph given by a pure [next] accessor:
    the consumer's state is the array being filled. *)
Definition traverseGraph_spread {TNode} `{EqDecision TNode}
    (roots : list TNode) (next : TNode → list TNode)
    (detectCycles : bool) (type : TraversalType) (fuel : nat) : Outcome (list TNode) :=
  match TraverseGraph.for_of roots detectCycles type
          (TraverseGraph.default_callback (λ _, next))
          (λ n, modify (λ acc, acc ++ [n])) fuel [] with
  | (Ok _, acc) => Ok acc
  | (Throw e, _) => Throw e
  | (OutOfFuel, _) => OutOfFuel
  end.

(** ** The sequence signal ([SequenceSignal]) and the sequence driver *)

Module SequenceSignal.
Section SequenceSignal.
Context {TEl : Type}.

Record t : Type := mk {
  element : option TEl;
  index : Z;
  count : Z;
  skipped : bool
}.

(** [next(element?)] *)
Definition next (el : option TEl) (s : t) : t := mk el (index s) (count s) (skipped s).
(** [skip()] *)
Definition skip (s : t) : t := mk (element s) (index s) (count s) true.
(** [constructor({ first })] *)
Definition constructor (first : option TEl) : t := mk first (-1) 0 false.
(** [shouldYield()] *)
Definition shouldYield (s : t) : bool := negb (skipped s).
(** [cleanup()] *)
Definition cleanup (s : t) : t :=
  if skipped s then s else mk (element s) (index s) (count s + 1) (skipped s).
(** [tryGetNext()] *)
Definition tryGetNext (s : t) : option TEl * t :=
  match element s with
  | Some el => (Some el, mk None (index s + 1) (count s) false)
  | None => (None, s)
  end.
End SequenceSignal.
Arguments t : clear implicits.
End SequenceSignal.

(** Modelled from the spec: [traversal/traverse-sequence.ts] (the generator
    [traverseSequence]) is not among the sources; its caller
    [Node.traverseAncestors] is. Section 4.2: "Given a first element (possibly
    absent) and a next(element) -> element|absent function, produces a lazy,
    finite (terminates when next yields absent), forward-only sequence starting
    at first (inclusive)". The loop has the shape of the graph driver, over
    the [SequenceSignal] above; as there, the consumer's loop body is fused
    in. *)
Module TraverseSequence.
Section TraverseSequence.
Context {TEl St : Type}.

Fixpoint loop (next : St → TEl → option TEl) (body : TEl → M St unit)
    (fuel : nat) (sig : SequenceSignal.t TEl) : M St unit :=
  match fuel with
  | O => out_of_fuel
  | S fuel => λ st,
      match SequenceSignal.tryGetNext sig with
      | (Some el, sig) =>
          let sig := SequenceSignal.next (next st el) sig in
          let yielded := if SequenceSignal.shouldYield sig then body el st else (Ok tt, st) in
          match yielded with
          | (Ok _, st) => loop next body fuel (SequenceSignal.cleanup sig) st
          | other => other
          end
      | (None, _) => (Ok tt, st)
      end
  end.

Definition for_of (first : option TEl) (next : St → TEl → option TEl)
    (body : TEl → M St unit) (fuel : nat) : M St unit :=
  loop next body fuel (SequenceSignal.constructor first).
End TraverseSequence.
End TraverseSequence.

(** ** Loops over arrays *)

Section ArrayLoops.
Context {S A : Type}.

(** [for (let x of xs) f(x)] *)
Fixpoint for_each (f : A → M S unit) (xs : list A) : M S unit :=
  match xs with
  | [] => mret tt
  | x :: xs => f x;; for_each f xs
  end.

(** [xs.every(p)]: stops at the first element whose test is false. *)
Fixpoint every (p : A → M S bool) (xs : list A) : M S bool :=
  match xs with
  | [] => mret true
  | x :: xs => b ← p x; if b : bool then every p xs else mret false
  end.

(** [xs.some(p)]: stops at the first element whose test is true. *)
Fixpoint some (p : A → M S bool) (xs : list A) : M S bool :=
  match xs with
  | [] => mret false
  | x :: xs => b ← p x; if b : bool then mret true else some p xs
  end.
End ArrayLoops.

(** ** Owners and the store *)

(** A brand is any JavaScript value other than [undefined]. The node class
    does one thing with it: it calls its member [Equals] on another brand. An
    owner is therefore an identity together with its [Equals] method, if it
    has one; the method is given the identity of the other owner. A value
    without a callable [Equals] member (a plain object, a string, [null], an
    instance of a class that declares none) has [owner_Equals = None]. *)
Record Owner : Type := mkOwner {
  owner_id : nat;
  owner_Equals : option (nat → bool)
}.

(** The delegate [() => this.#brand = undefined] returned by [Node.brand]: a
    closure over the node. *)
Record DeBrand : Type := mkDeBrand { debrand_node : nat }.

Section Store.
Context {Item : Type}.

(** The private fields of a [Node<TItem>]. *)
Record NodeRec : Type := mkNode {
  f_item : Item;
  f_parent : option nat;
  f_children : option (list nat);
  f_brand : option Owner
}.

(** Everything that is allocated: the nodes, the arrays returned to callers
    or held in a field and open to aliasing, and a counter of the other
    objects created (hierarchies), whose value is their identity. *)
Record World : Type := mkWorld {
  w_nodes : list NodeRec;
  w_arrays : list (list nat);
  w_objects : nat
}.

Definition set_parent (p : option nat) (n : NodeRec) : NodeRec :=
  mkNode (f_item n) p (f_children n) (f_brand n).
Definition set_children (c : option (list nat)) (n : NodeRec) : NodeRec :=
  mkNode (f_item n) (f_parent n) c (f_brand n).
Definition set_brand (b : option Owner) (n : NodeRec) : NodeRec :=
  mkNode (f_item n) (f_parent n) (f_children n) b.

(** Dereference. A number that is no node stands for [undefined]. *)
Definition read (r : nat) : M World NodeRec := λ w,
  match w_nodes w !! r with
  | Some n => (Ok n, w)
  | None => (Throw (TypeError "Cannot read properties of undefined"), w)
  end.
Definition write (r : nat) (f : NodeRec → NodeRec) : M World unit :=
  modify (λ w, mkWorld (alter f r (w_nodes w)) (w_arrays w) (w_objects w)).

(** [[...xs]], [[]]: a new array. *)
Definition new_array (xs : list nat) : M World nat := λ w,
  (Ok (length (w_arrays w)),
   mkWorld (w_nodes w) (w_arrays w ++ [xs]) (w_objects w)).
Definition array_contents (w : World) (a : nat) : list nat :=
  default [] (w_arrays w !! a).
(** Any in-place change of an array ([push], [pop], [splice], [length = 0],
    an indexed store): its contents become [xs]. *)
Definition array_mutate (a : nat) (xs : list nat) (w : World) : World :=
  mkWorld (w_nodes w) (<[a := xs]> (w_arrays w)) (w_objects w).
Definition new_object : M World nat := λ w,
  (Ok (w_objects w), mkWorld (w_nodes w) (w_arrays w) (S (w_objects w))).

(** What the store holds for a node, for stating properties. *)
Definition parent_of (w : World) (r : nat) : option nat :=
  w_nodes w !! r ≫= f_parent.
Definition children_of (w : World) (r : nat) : list nat :=
  default [] (w_nodes w !! r ≫= f_children).
Definition brand_of (w : World) (r : nat) : option Owner :=
  w_nodes w !! r ≫= f_brand.
Definition item_of (w : World) (r : nat) : option Item :=
  f_item <$> w_nodes w !! r.
End Store.
Arguments NodeRec : clear implicits.
Arguments World : clear implicits.

(** ** Nodes ([node.ts]) *)

Module Node.
Section Node.
Context {Item : Type}.
Abbreviation NodeRec := (NodeRec Item).
Abbreviation World := (World Item).

(** [new Node(item)] *)
Definition constructor (item : Item) : M World nat := λ w,
  (Ok (length (w_nodes w)),
   mkWorld (w_nodes w ++ [mkNode item None None None]) (w_arrays w) (w_objects w)).

(** *** Accessors *)

Definition item (this : nat) : M World Item := n ← read this; mret (f_item n).
Definition parent (this : nat) : M World (option nat) := n ← read this; mret (f_parent n).

(** [this.#children ? [ ...this.#children ] : []] as a value. The node class
    and the traversals consume this array on the spot; for them the model
    reads the elements and allocates nothing. *)
Definition children_list (n : NodeRec) : list nat :=
  match f_children n with Some set => set | None => [] end.
(** The getter [children] as a caller sees it: a new array. *)
Definition children (this : nat) : M World nat :=
  n ← read this; new_array (children_list n).

(** *** Predicates *)

Definition rec_isRoot (n : NodeRec) : bool := bool_decide (f_parent n = None).
Definition rec_isLeaf (n : NodeRec) : bool :=
  match f_children n with
  | None => true
  | Some set => bool_decide (JsSet.size set = 0%nat)
  end.
Definition rec_isBranded (n : NodeRec) : bool :=
  match f_brand n with Some _ => true | None => false end.

Definition isRoot (this : nat) : M World bool := n ← read this; mret (rec_isRoot n).
Definition isLeaf (this : nat) : M World bool := n ← read this; mret (rec_isLeaf n).
Definition isInternal (this : nat) : M World bool := b ← isLeaf this; mret (negb b).
Definition isLinked (this : nat) : M World bool :=
  r ← isRoot this; l ← isLeaf this; mret (negb r || negb l).
Definition isBranded (this : nat) : M World bool := n ← read this; mret (rec_isBranded n).

(** *** Brands *)

(** [this.#brand.Equals(other.#brand)]: calling a member that is not a
    function throws a [TypeError]. *)
Definition call_Equals (mine other : Owner) : M World bool :=
  match owner_Equals mine with
  | Some equals => mret (equals (owner_id other))
  | None => throw (TypeError "this.#brand.Equals is not a function")
  end.

Definition isBrandCompatible (this other : nat) : M World bool :=
  n ← read this;
  o ← read other;
  match f_brand n, f_brand o with
  | None, None => mret true
  | None, Some _ => mret false
  | Some _, None => mret false
  | Some mine, Some theirs => call_Equals mine theirs
  end.

(** [brand(brand)]; [None] is the argument [undefined]. *)
Definition brand (this : nat) (b : option Owner) : M World DeBrand :=
  match b with
  | None => throw (Error "The brand cannot be 'undefined'.")
  | Some o =>
      n ← read this;
      if rec_isBranded n
      then throw (Error "Must clear existing brand using the 'DeBrand' delegate before you can re-brand a node.")
      else write this (set_brand (Some o));; mret (mkDeBrand this)
  end.

(** Calling the delegate: [this.#brand = undefined]. *)
Definition call_DeBrand (d : DeBrand) : M World unit :=
  write (debrand_node d) (set_brand None).

(** *** Links *)

(** [attach(children)]; [children] is the array [spreadMultiple] makes of the
    argument. *)
Definition attach (this : nat) (nodes : list nat) : M World nat :=
  if bool_decide (length nodes = 0%nat)
  then throw (Error "Must provide one or more 'children'.")
  else
    roots ← every isRoot nodes;
    if negb roots
    then throw (Error "Must all be without a 'parent' before attaching to another.")
    else
      compatible ← every (λ node, isBrandCompatible node this) nodes;
      if negb compatible
      then throw (Error "Must all have a compatible brand.")
      else
        n ← read this;
        write this (set_children (Some (children_list n)));;
        for_each (λ child,
          write this (λ n : NodeRec, set_children (Some (JsSet.add child (children_list n))) n);;
          write child (set_parent (Some this))) nodes;;
        mret this.

(** [detach(children)] *)
Definition detach (this : nat) (nodes : list nat) : M World nat :=
  if bool_decide (length nodes = 0%nat)
  then throw (Error "Must provide one or more 'children'.")
  else
    n ← read this;
    if rec_isLeaf n || negb (forallb (JsSet.has (children_list n)) nodes)
    then throw (Error "Must all be 'children'.")
    else
      branded ← some isBranded nodes;
      if branded : bool
      then throw (Error "Must clear brand using the 'DeBrand' delegate before you can detach a branded node.")
      else
        for_each (λ node,
          write this (λ n : NodeRec, set_children (Some (JsSet.delete node (children_list n))) n);;
          write node (set_parent None)) nodes;;
        leaf ← isLeaf this;
        (if leaf : bool then write this (set_children None) else mret tt);;
        mret this.

(** [detachSelf()] *)
Definition detachSelf (this : nat) : M World nat :=
  n ← read this;
  match f_parent n with
  | None => throw (Error "Can't detach a root node as there's nothing to detach it from.")
  | Some p =>
      if rec_isBranded n
      then throw (Error "Must clear brand using the 'DeBrand' delegate before you can detach a branded node.")
      else
        pn ← read p;
        if rec_isLeaf pn || negb (JsSet.has (children_list pn) this)
        then throw (Error "Invalid object state: It should not be possible for the node not to be a child of its parent!.")
        else
          write p (λ pn : NodeRec, set_children (Some (JsSet.delete this (children_list pn))) pn);;
          leaf ← isLeaf p;
          (if leaf : bool then write p (set_children None) else mret tt);;
          write this (set_parent None);;
          mret this
  end.

(** *** Traversal *)

(** The accessor [node => node.children] of [traverseDescendants]. *)
Definition next_children (w : World) (node : nat) : list nat := children_of w node.
(** The accessor [node => node?.parent] of [traverseAncestors]. *)
Definition next_parent (w : World) (node : nat) : option nat := parent_of w node.

(** A computation on the store, run by a consumer whose state [St] contains
    the store. *)
Definition on_world {St A} (view : St → World) (m : M World A) : M St A := λ st,
  match m (view st) with
  | (Ok a, _) => (Ok a, st)
  | (Throw e, _) => (Throw e, st)
  | (OutOfFuel, _) => (OutOfFuel, st)
  end.

(** [for (let node of this.traverseDescendants(options)) body(node)];
    [traverseDescendants] passes no [detectCycles]. The consumer's state
    contains the store ([view]), which the accessor reads at each pull. *)
Definition for_descendants {St} (view : St → World)
    (this : nat) (excludeSelf : bool) (type : TraversalType)
    (body : nat → M St unit) (fuel : nat) : M St unit :=
  roots ← on_world view
    (if excludeSelf then n ← read this; mret (children_list n) else mret [this]);
  TraverseGraph.for_of roots false type
    (TraverseGraph.default_callback (λ st, next_children (view st))) body fuel.

(** [for (let node of this.traverseAncestors(options)) body(node)] *)
Definition for_ancestors {St} (view : St → World)
    (this : nat) (excludeSelf : bool)
    (body : nat → M St unit) (fuel : nat) : M St unit :=
  first ← on_world view (if excludeSelf then parent this else mret (Some this));
  TraverseSequence.for_of first (λ st, next_parent (view st)) body fuel.

(** Filling an array from a traversal: [[...traversal]], or the loops of
    [nodesToItems] and [nodesToIds] that push [f(node)] for each node. The
    consumer's state is the store and the array being filled. *)
Definition push_each {A} (f : World → nat → Outcome A) (node : nat)
    : M (World * list A) unit := λ st,
  match f st.1 node with
  | Ok a => (Ok tt, (st.1, st.2 ++ [a]))
  | Throw e => (Throw e, st)
  | OutOfFuel => (OutOfFuel, st)
  end.
Definition filled {A} (loop : M (World * list A) unit) : M World (list A) := λ w,
  match loop (w, []) with
  | (Ok _, (w, acc)) => (Ok acc, w)
  | (Throw e, (w, _)) => (Throw e, w)
  | (OutOfFuel, (w, _)) => (OutOfFuel, w)
  end.

(** [getAncestors(options)] and [getDescendants(options)], as the elements
    of the array they return. *)
Definition getAncestors (this : nat) (excludeSelf : bool) (fuel : nat)
    : M World (list nat) :=
  filled (for_ancestors fst this excludeSelf (push_each (λ _ n, Ok n)) fuel).
Definition getDescendants (this : nat) (excludeSelf : bool) (type : TraversalType)
    (fuel : nat) : M World (list nat) :=
  filled (for_descendants fst this excludeSelf type (push_each (λ _ n, Ok n)) fuel).

(** [dismantle(includeAncestry)]. The fuel bounds the recursion up the
    ancestry and each traversal. *)
Fixpoint dismantle (fuel : nat) (this : nat) (includeAncestry : bool) : M World nat :=
  match fuel with
  | O => out_of_fuel
  | S fuel =>
      n ← read this;
      (match f_parent n with
       | Some parent =>
           if includeAncestry
           then detachSelf this;; dismantle fuel parent true;; mret tt
           else mret tt
       | None => mret tt
       end);;
      for_descendants id this true BreadthFirst (λ descendant, detachSelf descendant;; mret tt) fuel;;
      mret this
  end.
End Node.
End Node.


(** ** Hierarchies ([hierarchy.ts]) *)

Module Hierarchy.
Section Hierarchy.
Context {Item Id : Type} `{EqDecision Id}.
Abbreviation World := (World Item).

(** The private fields of a [Hierarchy<TItem, TId>], and the identity of the
    object. [#roots] is an array: the field holds a reference into the store
    of arrays. The two maps are never handed out, they are held by value. *)
Record t : Type := mk {
  self : nat;
  f_identify : Item → Id;
  f_roots : nat;
  f_nodes : list (Id * nat);
  f_debrand : list (Id * DeBrand)
}.

Definition set_nodes v h := mk (self h) (f_identify h) (f_roots h) v (f_debrand h).
Definition set_debrand v h := mk (self h) (f_identify h) (f_roots h) (f_nodes h) v.

(** The hierarchy as a brand, [node.brand(this)]: the class declares no
    member [Equals]. *)
Definition as_owner (h : t) : Owner := mkOwner (self h) None.

(** The methods run on the hierarchy and the store. *)
Definition State : Type := t * World.

Definition in_world {A} (m : M World A) : M State A := λ st,
  match m st.2 with (o, w) => (o, (st.1, w)) end.
Definition this : M State t := λ st, (Ok st.1, st).
Definition update (f : t → t) : M State unit := modify (λ st, (f st.1, st.2)).

(** [new Hierarchy(identify)] *)
Definition constructor (identify : Item → Id) : M World t :=
  me ← new_object;
  roots ← new_array [];
  mret (mk me identify roots [] []).

(** The getters [roots] and [nodes]: new arrays. *)
Definition roots : M State nat :=
  h ← this;
  in_world (w ← get_state; new_array (array_contents w (f_roots h))).
Definition nodes : M State nat :=
  h ← this;
  in_world (new_array (JsMap.values (f_nodes h))).

(** [getNode(id)] *)
Definition getNode (id : Id) : M State nat :=
  h ← this;
  match JsMap.get (f_nodes h) id with
  | Some node => mret node
  | None => throw (Error "The 'id' must be a hierarchy member.")
  end.

(** [get(id)] *)
Definition get (id : Id) : M State Item :=
  node ← getNode id; in_world (Node.item node).

(** [#addNodes(nodes)] *)
Definition addNodes (nodes : list nat) (fuel : nat) : M State unit :=
  TraverseGraph.for_of nodes false BreadthFirst
    (TraverseGraph.default_callback (λ st : State, Node.next_children st.2))
    (λ node,
       h ← this;
       item ← in_world (Node.item node);
       let id := f_identify h item in
       release ← in_world (Node.brand node (Some (as_owner h)));
       update (λ h, set_debrand (JsMap.set id release (f_debrand h)) h);;
       update (λ h, set_nodes (JsMap.set id node (f_nodes h)) h))
    fuel.

(** [attachRoot(roots)] *)
Definition attachRoot (nodes : list nat) (fuel : nat) : M State unit :=
  allRoots ← in_world (every Node.isRoot nodes);
  if negb allRoots
  then throw (Error "The 'roots' all be roots!")
  else
    addNodes nodes fuel;;
    h ← this;
    in_world (modify (λ w,
      array_mutate (f_roots h) (array_contents w (f_roots h) ++ nodes) w)).

(** [attach(parentId, children)] *)
Definition attach (parentId : Id) (nodes : list nat) (fuel : nat) : M State unit :=
  h ← this;
  if JsMap.has (f_nodes h) parentId
  then throw (Error "The 'parentId' must be a hierarchy member.")
  else
    addNodes nodes fuel;;
    h ← this;
    match JsMap.get (f_nodes h) parentId with
    | Some parent => in_world (Node.attach parent nodes);; mret tt
    | None => throw (TypeError "Cannot read properties of undefined (reading 'attach')")
    end.

(** [nodesToIds(nodes, identify)] ([node-conversion.ts]) pushes
    [identify?.(node.item) ?? node.item] for every node; with the identify
    function of a hierarchy, which is defined and returns an [Id], that is
    [identify(node.item)]. *)
Definition nodeToId (identify : Item → Id) (w : World) (node : nat) : Outcome Id :=
  match item_of w node with
  | Some item => Ok (identify item)
  | None => Throw (TypeError "Cannot read properties of undefined")
  end.

(** [getAncestorNodes(options)] *)
Definition getAncestorNodes (id : Id) (excludeSelf : bool) (fuel : nat)
    : M State (list nat) :=
  node ← getNode id; in_world (Node.getAncestors node excludeSelf fuel).

(** [getAncestorIds(options)] *)
Definition getAncestorIds (id : Id) (excludeSelf : bool) (fuel : nat)
    : M State (list Id) :=
  h ← this;
  node ← getNode id;
  in_world (Node.filled
    (Node.for_ancestors fst node excludeSelf
       (Node.push_each (nodeToId (f_identify h))) fuel)).

(** [getDescendantIds(options)]; the options of the hierarchy's queries carry
    no traversal type. *)
Definition getDescendantIds (id : Id) (excludeSelf : bool) (fuel : nat)
    : M State (list Id) :=
  h ← this;
  node ← getNode id;
  in_world (Node.filled
    (Node.for_descendants fst node excludeSelf BreadthFirst
       (Node.push_each (nodeToId (f_identify h))) fuel)).
End Hierarchy.
Arguments t : clear implicits.
Arguments State : clear implicits.
End Hierarchy.

(** ** Child maps ([multi-map.ts]) and assembling nodes ([nodes.ts]) *)

(** Modelled from the spec: [collections/map.ts] ([mapGetLazy]) is not among
    the sources. The spec counts the map helpers as glue (section 1) and does
    not describe this one; from its two call sites it is get-or-create:
    [mapGetLazy(map, key, create)] returns the value at [key], after storing
    [create()] there when the key is absent. *)
Definition mapGetLazy {K V S} `{EqDecision K} (map : list (K * V)) (key : K)
    (create : M S V) : M S (V * list (K * V)) :=
  match JsMap.get map key with
  | Some v => mret (v, map)
  | None => v ← create; mret (v, JsMap.set key v map)
  end.

Module MultiMap.
Section MultiMap.
Context {T : Type} `{EqDecision T}.

(** [MultiMap<T>] extends [Map<T, Set<T>>]. *)
Definition t : Type := list (T * list T).

(** [add(key, values)]: the map afterwards and the number of values. *)
Definition add (key : T) (values : list T) (map : t) : nat * t :=
  let set := default [] (JsMap.get map key) in
  (length values, JsMap.set key (JsSet.add_all values set) map).

(** [remove(key, values)]: the values that were in the set, in the order of
    their removal, and the map afterwards. The set is the one at [key], or a
    new one that [mapGetLazy] stores there; one value after the other is
    deleted from it; it is deleted from the map when it ends up empty. *)
Definition remove (key : T) (values : list T) (map : t) : list T * t :=
  let set := default [] (JsMap.get map key) in
  let map := JsMap.set key set map in
  let '(removed, set) :=
    foldl (λ '(removed, set) value,
             if JsSet.has set value
             then (removed ++ [value], JsSet.delete value set)
             else (removed, set))
          ([], set) values in
  (removed,
   if bool_decide (JsSet.size set = 0%nat)
   then JsMap.delete key map
   else JsMap.set key set map).
End MultiMap.
Arguments t : clear implicits.
End MultiMap.

(** ** Relations ([relations.ts]) *)

Module Relations.
Section Relations.
Context {TId : Type} `{EqDecision TId}.

(** [fromChildMap(childMap)]: the pairs [[parent, child]], entry after
    entry. *)
Definition fromChildMap (childMap : MultiMap.t TId) : list (TId * TId) :=
  childMap ≫= λ '(parent, children), (λ child, (parent, child)) <$> children.

(** [toChildMap(relations)]: [map.add(parent, child)] for one pair after
    the other, each adding the one value [child]. *)
Definition toChildMap (relations : list (TId * TId)) : MultiMap.t TId :=
  foldl (λ map '(parent, child), (MultiMap.add parent [child] map).2) [] relations.
End Relations.
End Relations.

Module Nodes.
Section Nodes.
Context {Id : Type} `{EqDecision Id}.
Abbreviation World := (World Id).

(** The loops of [assembleIds] run on the two local maps [nodes] and [roots]
    and on the store. *)
Record Locals : Type := mkLocals {
  l_nodes : list (Id * nat);
  l_roots : list (Id * nat)
}.
Definition St : Type := Locals * World.

Definition in_world {A} (m : M World A) : M St A := λ st,
  match m st.2 with (o, w) => (o, (st.1, w)) end.
Definition locals : M St Locals := λ st, (Ok st.1, st).
Definition set_nodes (v : list (Id * nat)) : M St unit :=
  modify (λ st, (mkLocals v (l_roots st.1), st.2)).
Definition set_roots (v : list (Id * nat)) : M St unit :=
  modify (λ st, (mkLocals (l_nodes st.1) v, st.2)).

(** [nodes.get(parentId)!]: a missing entry is [undefined]. *)
Definition get_node (id : Id) : M St nat :=
  l ← locals;
  match JsMap.get (l_nodes l) id with
  | Some node => mret node
  | None => throw (TypeError "Cannot read properties of undefined (reading 'attach')")
  end.

(** [assembleIds(childMap)], as the elements of the array it returns. *)
Definition assembleIds (childMap : MultiMap.t Id) : M World (list nat) := λ w,
  let run : M St (list nat) :=
    for_each (λ parentId,
      parentNode ← in_world (Node.constructor parentId);
      l ← locals;
      set_roots (JsMap.set parentId parentNode (l_roots l));;
      set_nodes (JsMap.set parentId parentNode (l_nodes l)))
      (JsMap.keys childMap);;
    for_each (λ '(parentId, childIds),
      parentNode ← get_node parentId;
      for_each (λ childId,
        l ← locals;
        '(childNode, nodes) ← mapGetLazy (l_nodes l) childId
                                (in_world (Node.constructor childId));
        set_nodes nodes;;
        in_world (Node.attach parentNode [childNode]);;
        l ← locals;
        set_roots (JsMap.delete childId (l_roots l)))
        childIds)
      childMap;;
    l ← locals;
    mret (JsMap.values (l_roots l)) in
  match run (mkLocals [] [], w) with (o, st) => (o, st.2) end.
End Nodes.
End Nodes.

(** * Vocabulary of the properties *)

(** A computation that only inspects the state: it returns a value or throws,
    and leaves the state as it found it. *)
Definition reads {S A} (m : M S A) : Prop :=
  ∀ s, (∃ a, m s = (Ok a, s)) ∨ (∃ e, m s = (Throw e, s)).

(** The child sets agree with the parent pointers: a node listed as a child
    of [p] has [p] as its parent. Every structure built with [attach],
    [detach] and [detachSelf] is of this kind. *)
Definition consistent {Item} (w : World Item) : Prop :=
  ∀ p c, c ∈ children_of w p → parent_of w c = Some p.

(** [w'] is [w] with the link between the child [c] and its parent [p]
    removed, and nothing else changed. *)
Definition unlinked {Item} (c p : nat) (w w' : World Item) : Prop :=
  (∀ r, parent_of w' r = if decide (r = c) then None else parent_of w r) ∧
  (∀ r, children_of w' r =
          if decide (r = p) then filter (λ x, x ≠ c) (children_of w p)
          else children_of w r) ∧
  (∀ r, brand_of w' r = brand_of w r) ∧
  (∀ r, item_of w' r = item_of w r) ∧
  length (w_nodes w') = length (w_nodes w) ∧
  w_arrays w' = w_arrays w ∧
  w_objects w' = w_objects w.

(** [w'] is [w] with the root [c] made the last child of [p], and nothing
    else changed. *)
Definition linked {Item} (c p : nat) (w w' : World Item) : Prop :=
  (∀ r, parent_of w' r = if decide (r = c) then Some p else parent_of w r) ∧
  (∀ r, children_of w' r =
          if decide (r = p) then JsSet.add c (children_of w p)
          else children_of w r) ∧
  (∀ r, brand_of w' r = brand_of w r) ∧
  (∀ r, item_of w' r = item_of w r) ∧
  length (w_nodes w') = length (w_nodes w) ∧
  w_arrays w' = w_arrays w ∧
  w_objects w' = w_objects w.

(** The chain of parent links that starts at [first]: empty when [first] is
    absent, otherwise the node followed by the chain of its parent. It ends at
    the first node without a parent. *)
Inductive ancestry {Item} (w : World Item) : option nat → list nat → Prop :=
  | ancestry_end : ancestry w None []
  | ancestry_step n chain :
      is_Some (w_nodes w !! n) →
      ancestry w (parent_of w n) chain →
      ancestry w (Some n) (n :: chain).

(** The scenario of the specification: the child map [{A: [B, C], B: [D]}],
    the nodes assembled from it in an empty store, and a hierarchy of ids
    (identify is the identity) to which the assembled roots are attached. *)
Definition scenario_childMap : MultiMap.t string :=
  (MultiMap.add "B" ["D"] (MultiMap.add "A" ["B"; "C"] []).2).2.

Definition scenario_assembled : Outcome (list nat) * World string :=
  Nodes.assembleIds scenario_childMap (mkWorld [] [] 0).

Definition scenario_created : Outcome (Hierarchy.t string string) * World string :=
  Hierarchy.constructor (λ id, id) scenario_assembled.2.

Definition scenario_hierarchy (h : Hierarchy.t string string) (roots : list nat)
    : Outcome unit * Hierarchy.State string string :=
  Hierarchy.attachRoot roots 8 (h, scenario_created.2).

(** The state after [attachRoot([A])] in the scenario: the hierarchy with its
    four nodes indexed and branded, and the store. Then the same with one more
    node, [E], created outside the hierarchy (node [4]). *)
Definition scenario_attached : Hierarchy.State string string :=
  (scenario_hierarchy (Hierarchy.mk 0 (λ id, id) 0 [] []) [0%nat]).2.

Definition scenario_with_E : Hierarchy.State string string :=
  (scenario_attached.1, (Node.constructor "E" scenario_attached.2).2).

(** A store with two new nodes, [X] (node [0]) and [Y] (node [1]). *)
Definition two_nodes : World string :=
  (Node.constructor "Y" (Node.constructor "X" (mkWorld [] [] 0)).2).2.

(** The items of a list of nodes. *)
Definition items_of {Item} (w : World Item) (nodes : list nat) : list Item :=
  omap (item_of w) nodes.

(** From [w] to [w'] links were removed and nothing else happened: every
    parent pointer is kept or cleared, every child set is kept or has lost
    elements, brands, items and arrays are untouched. *)
Definition only_unlinks {Item} (w w' : World Item) : Prop :=
  (∀ r, parent_of w' r = parent_of w r ∨ parent_of w' r = None) ∧
  (∀ r, children_of w' r ⊆ children_of w r) ∧
  (∀ r, brand_of w' r = brand_of w r) ∧
  (∀ r, item_of w' r = item_of w r) ∧
  length (w_nodes w') = length (w_nodes w) ∧
  w_arrays w' = w_arrays w ∧
  w_objects w' = w_objects w.

(** The error of [detachSelf] and [detach] on a branded node. *)
Definition branded_error : Thrown :=
  Error "Must clear brand using the 'DeBrand' delegate before you can detach a branded node.".

(** The scenario's nodes with the brand of an owner put on [B] (node [1]). *)
Definition scenario_B_branded : World string :=
  (Node.brand 1 (Some (mkOwner 7 None)) scenario_assembled.2).2.

(** The pending nodes of a control signal in the order in which they will be
    detached: front first for the queue, back first for the stack. *)
Definition pending {TNode} (sig : GraphSignal.t TNode) : list TNode :=
  let b := GraphSignal.nodes sig in
  if Linear.isStack b then rev (Linear.items b) else Linear.items b.

(** What the driver relies on between two pulls: the buffer is the one of the
    traversal mode, [pend] is what is pending, and in depth-first mode the
    branch counts add up to the number of pending nodes. *)
Definition signal_ready {TNode} (sig : GraphSignal.t TNode) (pend : list TNode) : Prop :=
  Linear.isStack (GraphSignal.nodes sig) = GraphSignal.isDepthFirst sig ∧
  pending sig = pend ∧
  (GraphSignal.isDepthFirst sig = true →
     foldr Z.add 0 (GraphSignal.branchCount sig) = Z.of_nat (length pend)).

(** What is pending after the children [cs] of a pulled node were added to the
    pending nodes [pend]: in front of them in depth-first mode, and with the
    child added last first; behind them in breadth-first mode. *)
Definition pending_after (depthFirst : bool) {TNode} (cs pend : list TNode) : list TNode :=
  if depthFirst then rev cs ++ pend else pend ++ cs.

(** Breadth-first order: a level of nodes, then the level made of their
    children, and so on until a level is empty. Every node of depth [d] comes
    before every node of depth [d + 1]. *)
Inductive levels {TNode} (next : TNode → list TNode) : list TNode → list TNode → Prop :=
  | levels_end : levels next [] []
  | levels_more level rest :
      level ≠ [] →
      levels next (level ≫= next) rest →
      levels next level (level ++ rest).

(** Depth-first order with a stack: a node, then the whole branch of each of
    its children, one child after the other; the child attached last is taken
    first. *)
Inductive branch {TNode} (next : TNode → list TNode) : TNode → list TNode → Prop :=
  | branch_node n below :
      branches next (rev (next n)) below →
      branch next n (n :: below)
with branches {TNode} (next : TNode → list TNode) : list TNode → list TNode → Prop :=
  | branches_nil : branches next [] []
  | branches_cons n ns first others :
      branch next n first →
      branches next ns others →
      branches next (n :: ns) (first ++ others).

Scheme branch_ind2 := Minimality for branch Sort Prop
  with branches_ind2 := Minimality for branches Sort Prop.

(** The driver, given enough fuel, yields [out] from any ready signal without
    visited set whose pending nodes are [pend]. *)
Definition yields {TNode} `{EqDecision TNode} (next : TNode → list TNode)
    (depthFirst : bool) (pend out : list TNode) : Prop :=
  ∃ fuel, ∀ (sig : GraphSignal.t TNode) (acc : list TNode),
    signal_ready sig pend →
    GraphSignal.isDepthFirst sig = depthFirst →
    GraphSignal.visited sig = None →
    TraverseGraph.loop (TraverseGraph.default_callback (λ _, next))
      (λ n, modify (λ acc, acc ++ [n])) fuel sig acc
    = (Ok tt, acc ++ out).

(** The nodes of a graph that can be reached from the roots along the edges
    [next]. *)
Inductive reachable {TNode} (next : TNode → list TNode) (roots : list TNode)
    : TNode → Prop :=
  | reachable_root r : r ∈ roots → reachable next roots r
  | reachable_step n c :
      reachable next roots n → c ∈ next n → reachable next roots c.

(** A list of nodes in an order of first visits: every node is a root or a
    child of a node that stands before it. *)
Definition discovery_order {TNode} (next : TNode → list TNode) (roots out : list TNode)
    : Prop :=
  ∀ i n, out !! i = Some n →
    n ∈ roots ∨ ∃ j p, (j < i)%nat ∧ out !! j = Some p ∧ n ∈ next p.

(** What holds between two pulls of a cycle-detecting traversal: [vs] are the
    nodes yielded so far, in the order of their yields, [pend] the pending
    ones. *)
Definition visiting {TNode} (next : TNode → list TNode) (roots vs pend : list TNode)
    : Prop :=
  NoDup vs ∧
  (∀ n, n ∈ vs ∨ n ∈ pend → reachable next roots n) ∧
  (∀ r, r ∈ roots → r ∈ vs ∨ r ∈ pend) ∧
  (∀ v c, v ∈ vs → c ∈ next v → c ∈ vs ∨ c ∈ pend) ∧
  discovery_order next roots vs ∧
  (∀ n, n ∈ pend → n ∈ roots ∨ ∃ p, p ∈ vs ∧ n ∈ next p).

(** The graph [root -> A -> B -> A] of the specification. *)
Definition back_edge_graph (n : string) : list string :=
  if decide (n = "root") then ["A"]
  else if decide (n = "A") then ["B"]
  else if decide (n = "B") then ["A"]
  else [].

(** ** Vocabulary of the further properties *)

(** The child set a node holds, as the field has it: [None] is [undefined]. *)
Definition child_set_of {Item} (w : World Item) (r : nat) : option (list nat) :=
  w_nodes w !! r ≫= f_children.

(** [w'] is [w] with the links between the parent [p] and each of the nodes
    [cs] removed, and nothing else changed. *)
Definition unlinked_all {Item} (cs : list nat) (p : nat) (w w' : World Item) : Prop :=
  (∀ r, parent_of w' r = if decide (r ∈ cs) then None else parent_of w r) ∧
  (∀ r, children_of w' r =
          if decide (r = p) then filter (λ x, x ∉ cs) (children_of w p)
          else children_of w r) ∧
  (∀ r, r ≠ p → child_set_of w' r = child_set_of w r) ∧
  (∀ r, brand_of w' r = brand_of w r) ∧
  (∀ r, item_of w' r = item_of w r) ∧
  length (w_nodes w') = length (w_nodes w) ∧
  w_arrays w' = w_arrays w ∧
  w_objects w' = w_objects w.

(** [w'] is [w] with each of the nodes [cs] made a child of [p], in the order
    of [cs] behind the children [p] had, and nothing else changed. *)
Definition linked_all {Item} (cs : list nat) (p : nat) (w w' : World Item) : Prop :=
  (∀ r, parent_of w' r = if decide (r ∈ cs) then Some p else parent_of w r) ∧
  (∀ r, children_of w' r =
          if decide (r = p) then JsSet.add_all cs (children_of w p)
          else children_of w r) ∧
  (∀ r, r ≠ p → child_set_of w' r = child_set_of w r) ∧
  (∀ r, brand_of w' r = brand_of w r) ∧
  (∀ r, item_of w' r = item_of w r) ∧
  length (w_nodes w') = length (w_nodes w) ∧
  w_arrays w' = w_arrays w ∧
  w_objects w' = w_objects w.

(** The structural invariant of a store of nodes: a node is in the child set
    of [p] exactly when its parent pointer is [p], a child set lists no node
    twice, and no node holds an empty child set (an emptied set is released,
    the field is [undefined] again). *)
Definition well_linked {Item} (w : World Item) : Prop :=
  (∀ p c, c ∈ children_of w p ↔ parent_of w c = Some p) ∧
  (∀ p, NoDup (children_of w p)) ∧
  (∀ r n, w_nodes w !! r = Some n → f_children n ≠ Some []).

(** The store after one turn of the loop of [detach] that removes [c] from
    the children of [p]. *)
Definition detach_turn {Item} (p c : nat) (w : World Item) : World Item :=
  (write c (set_parent None)
     (write p (λ n : NodeRec Item,
        set_children (Some (JsSet.delete c (Node.children_list n))) n) w).2).2.

(** The record of a parent after the child [c] has left: the child set
    without [c], released when nothing is left. *)
Definition without_child {Item} (c : nat) (pn : NodeRec Item) : NodeRec Item :=
  let rest := JsSet.delete c (Node.children_list pn) in
  if bool_decide (JsSet.size rest = 0%nat)
  then set_children None pn
  else set_children (Some rest) pn.

(** The store after one turn of the loop of [attach] that makes [c] a child
    of [p]. *)
Definition attach_turn {Item} (p c : nat) (w : World Item) : World Item :=
  (write c (set_parent (Some p))
     (write p (λ n : NodeRec Item,
        set_children (Some (JsSet.add c (Node.children_list n))) n) w).2).2.

(** The driver of the graph traversal, run with enough fuel from any ready
    signal without visited set whose pending nodes are [pend], by a consumer
    whose state satisfies [I] for the nodes still to come, does what the plain
    loop [for (x of out) body(x)] does. *)
Definition follows {TNode St} `{EqDecision TNode}
    (nx : St → TNode → list TNode) (body : TNode → M St unit)
    (I : St → list TNode → Prop) (depthFirst : bool) (pend out : list TNode) : Prop :=
  ∀ (sig : GraphSignal.t TNode) (st : St) (fuel : nat),
    signal_ready sig pend →
    GraphSignal.isDepthFirst sig = depthFirst →
    GraphSignal.visited sig = None →
    I st out →
    (length out < fuel)%nat →
    TraverseGraph.loop (TraverseGraph.default_callback nx) body fuel sig st
    = for_each body out st.


(** The body of the loop of [#addNodes]: what it does with one node. *)
Definition index_node {Item Id} `{EqDecision Id} (node : nat)
    : M (Hierarchy.State Item Id) unit :=
  h ← Hierarchy.this;
  item ← Hierarchy.in_world (Node.item node);
  let id := Hierarchy.f_identify h item in
  release ← Hierarchy.in_world (Node.brand node (Some (Hierarchy.as_owner h)));
  Hierarchy.update (λ h, Hierarchy.set_debrand (JsMap.set id release (Hierarchy.f_debrand h)) h);;
  Hierarchy.update (λ h, Hierarchy.set_nodes (JsMap.set id node (Hierarchy.f_nodes h)) h).

(** The identifier the hierarchy [h] gives the node [n] of the store [w]. *)
Definition id_of {Item Id} (h : Hierarchy.t Item Id) (w : World Item) (n : nat)
    : option Id :=
  Hierarchy.f_identify h <$> item_of w n.

(** The node of [ns] that comes last among those with the identifier [id]. *)
Definition last_with_id {Item Id} `{EqDecision Id}
    (h : Hierarchy.t Item Id) (w : World Item) (id : Id) (ns : list nat) : option nat :=
  last (filter (λ n, id_of h w n = Some id) ns).

(** [st'] is [st] with the nodes [ns] taken into the hierarchy, and nothing
    else changed: each of them carries the hierarchy as its brand; an
    identifier leads to the last node of [ns] that has it, and to its release
    delegate, and to what it led to before when no node of [ns] has it; links,
    items, arrays (the array of the roots among them) are as they were. *)
Definition indexed {Item Id} `{EqDecision Id} (ns : list nat)
    (st st' : Hierarchy.State Item Id) : Prop :=
  Hierarchy.self st'.1 = Hierarchy.self st.1 ∧
  Hierarchy.f_identify st'.1 = Hierarchy.f_identify st.1 ∧
  Hierarchy.f_roots st'.1 = Hierarchy.f_roots st.1 ∧
  (∀ id, JsMap.get (Hierarchy.f_nodes st'.1) id =
           match last_with_id st.1 st.2 id ns with
           | Some n => Some n
           | None => JsMap.get (Hierarchy.f_nodes st.1) id
           end) ∧
  (∀ id, JsMap.get (Hierarchy.f_debrand st'.1) id =
           match last_with_id st.1 st.2 id ns with
           | Some n => Some (mkDeBrand n)
           | None => JsMap.get (Hierarchy.f_debrand st.1) id
           end) ∧
  (∀ r, brand_of st'.2 r =
          if decide (r ∈ ns) then Some (Hierarchy.as_owner st.1) else brand_of st.2 r) ∧
  (∀ r, parent_of st'.2 r = parent_of st.2 r) ∧
  (∀ r, child_set_of st'.2 r = child_set_of st.2 r) ∧
  (∀ r, item_of st'.2 r = item_of st.2 r) ∧
  length (w_nodes st'.2) = length (w_nodes st.2) ∧
  w_arrays st'.2 = w_arrays st.2 ∧
  w_objects st'.2 = w_objects st.2.

(** The error of [brand] on a node that has a brand. *)
Definition rebrand_error : Thrown :=
  Error "Must clear existing brand using the 'DeBrand' delegate before you can re-brand a node.".

(** From [st] to [st'] the hierarchy only took nodes in: it is the same
    object, a brand that was there stays, and an identifier leads to the node
    it led to before or to a node that now carries a brand. *)
Definition only_takes_in {Item Id} `{EqDecision Id}
    (st st' : Hierarchy.State Item Id) : Prop :=
  Hierarchy.self st'.1 = Hierarchy.self st.1 ∧
  (∀ n o, brand_of st.2 n = Some o → brand_of st'.2 n = Some o) ∧
  (∀ id n, JsMap.get (Hierarchy.f_nodes st'.1) id = Some n →
     JsMap.get (Hierarchy.f_nodes st.1) id = Some n ∨
     ∃ o, brand_of st'.2 n = Some o ∧ owner_Equals o = None).

(** [w'] is [w] with every node of [ns] cut from its parent, and nothing else
    changed: the nodes of [ns] have no parent and are in no child set. *)
Definition cut_off {Item} (ns : list nat) (w w' : World Item) : Prop :=
  (∀ r, parent_of w' r = if decide (r ∈ ns) then None else parent_of w r) ∧
  (∀ r, children_of w' r = filter (λ x, x ∉ ns) (children_of w r)) ∧
  (∀ r, brand_of w' r = brand_of w r) ∧
  (∀ r, item_of w' r = item_of w r) ∧
  length (w_nodes w') = length (w_nodes w) ∧
  w_arrays w' = w_arrays w ∧
  w_objects w' = w_objects w.

(** Modelled from the spec: the driver of section 4.4 (pull, callback, yield,
    cleanup, until the frontier is empty), run to its end with the callback
    [(node, signal) => { seen.push([node, signal.depth, signal.count]);
    signal.next(next(node)) }]; the result is [seen]: every node handed to the
    callback with the depth and the count the signal shows at that moment. *)
Fixpoint observed {TNode} `{EqDecision TNode} (next : TNode → list TNode)
    (fuel : nat) (sig : GraphSignal.t TNode) : Outcome (list (TNode * Z * Z)) :=
  match fuel with
  | O => OutOfFuel
  | S fuel =>
      match GraphSignal.tryGetNext sig with
      | (Ok (Some n), sig) =>
          let seen := (n, GraphSignal.depth sig, GraphSignal.count sig) in
          let sig := GraphSignal.next (next n) sig in
          match observed next fuel (GraphSignal.cleanup sig) with
          | Ok rest => Ok (seen :: rest)
          | other => other
          end
      | (Ok None, _) => Ok []
      | (Throw e, _) => Throw e
      | (OutOfFuel, _) => OutOfFuel
      end
  end.

(** The nodes [ns] with the depth [d] and the counts [k], [k + 1], ... *)
Fixpoint numbered {TNode} (d k : Z) (ns : list TNode) : list (TNode * Z * Z) :=
  match ns with
  | [] => []
  | n :: ns => (n, d, k) :: numbered d (k + 1) ns
  end.

(** Breadth-first order with the depth of every node and its rank: the level
    [level] has depth [d] and its first node the rank [k]; the level made of
    the children has depth [d + 1] and continues the ranks. *)
Inductive levels_from {TNode} (next : TNode → list TNode)
    : Z → Z → list TNode → list (TNode * Z * Z) → Prop :=
  | levels_from_end d k : levels_from next d k [] []
  | levels_from_more d k level rest :
      level ≠ [] →
      levels_from next (d + 1) (k + Z.of_nat (length level)) (level ≫= next) rest →
      levels_from next d k level (numbered d k level ++ rest).

(** A breadth-first signal between two pulls: [cur] are the pending nodes of
    the level of depth [d] that is being handed out, [nxt] the pending nodes
    of the level after it, [k] nodes have been yielded. *)
Definition bfs_ready {TNode} (sig : GraphSignal.t TNode) (d k : Z)
    (cur nxt : list TNode) : Prop :=
  GraphSignal.isDepthFirst sig = false ∧
  GraphSignal.visited sig = None ∧
  Linear.isStack (GraphSignal.nodes sig) = false ∧
  Linear.items (GraphSignal.nodes sig) = cur ++ nxt ∧
  GraphSignal.depthCount sig = Z.of_nat (length cur) ∧
  GraphSignal.depth sig = d ∧
  GraphSignal.count sig = k.

(** From any such signal the observing run, given enough fuel, sees [seen]. *)
Definition bfs_sees {TNode} `{EqDecision TNode} (next : TNode → list TNode)
    (d k : Z) (cur nxt : list TNode) (seen : list (TNode * Z * Z)) : Prop :=
  ∀ (sig : GraphSignal.t TNode) (fuel : nat),
    bfs_ready sig d k cur nxt → (length seen < fuel)%nat →
    observed next fuel sig = Ok seen.

(** Depth-first order with the depth of every node: a node of depth [d], then
    the branches of its children, which have depth [d + 1]. *)
Inductive branch_from {TNode} (next : TNode → list TNode)
    : Z → TNode → list (TNode * Z) → Prop :=
  | branch_from_node d n below :
      branches_from next (d + 1) (rev (next n)) below →
      branch_from next d n ((n, d) :: below)
with branches_from {TNode} (next : TNode → list TNode)
    : Z → list TNode → list (TNode * Z) → Prop :=
  | branches_from_nil d : branches_from next d [] []
  | branches_from_cons d n ns first others :
      branch_from next d n first →
      branches_from next d ns others →
      branches_from next d (n :: ns) (first ++ others).

Scheme branch_from_ind2 := Minimality for branch_from Sort Prop
  with branches_from_ind2 := Minimality for branches_from Sort Prop.

(** The nodes with their depths, and the ranks [k], [k + 1], ... *)
Fixpoint ranked {TNode} (k : Z) (ns : list (TNode * Z)) : list (TNode * Z * Z) :=
  match ns with
  | [] => []
  | nd :: ns => (nd, k) :: ranked (k + 1) ns
  end.

(** The frames of pending nodes without the empty ones on top, as [cleanup]
    leaves the stack of the branch counts. *)
Fixpoint clean_frames {TNode} (frames : list (list TNode)) : list (list TNode) :=
  match frames with
  | [] :: frames => clean_frames frames
  | _ => frames
  end.

(** A depth-first signal between two pulls: [frames] are the pending nodes,
    one frame for every depth down to the one of the node to come, the deepest
    first, each in the order in which its nodes will be taken; [k] nodes have
    been yielded. *)
Definition dfs_ready {TNode} (sig : GraphSignal.t TNode) (frames : list (list TNode))
    (k : Z) : Prop :=
  GraphSignal.isDepthFirst sig = true ∧
  GraphSignal.visited sig = None ∧
  Linear.isStack (GraphSignal.nodes sig) = true ∧
  rev (Linear.items (GraphSignal.nodes sig)) = concat frames ∧
  GraphSignal.branchCount sig = (λ f, Z.of_nat (length f)) <$> frames ∧
  GraphSignal.count sig = k.

(** From any such signal the observing run, given enough fuel, sees [seen]. *)
Definition dfs_sees {TNode} `{EqDecision TNode} (next : TNode → list TNode)
    (frames : list (list TNode)) (k : Z) (seen : list (TNode * Z * Z)) : Prop :=
  ∀ (sig : GraphSignal.t TNode) (fuel : nat),
    dfs_ready sig frames k → (length seen < fuel)%nat →
    observed next fuel sig = Ok seen.

(** The loop of [MultiMap.remove], from the values removed so far and the set
    as it is: the values removed and the set afterwards. *)
Definition remove_loop {T} `{EqDecision T} (values : list T) (removed s : list T)
    : list T * list T :=
  foldl (λ '(removed, set) value,
           if JsSet.has set value
           then (removed ++ [value], JsSet.delete value set)
           else (removed, set))
        (removed, s) values.

(** A callback that steers the traversal with all three calls of the control
    signal: [(node, signal) => { signal.next(next(node));
    if (hide(node)) signal.skip(); if (stop(node)) signal.end(); }]. *)
Definition steering_callback {TNode St} (next : TNode → list TNode)
    (hide stop : TNode → bool) : TraverseGraph.Callback (TNode:=TNode) (St:=St) :=
  λ _ n sig,
    let sig := GraphSignal.next (next n) sig in
    let sig := if hide n then GraphSignal.skip sig else sig in
    if stop n then GraphSignal.end_ sig else sig.

(** The driver with that callback, given enough fuel, hands [pulled] to the
    callback and yields those of them that are not hidden, from any ready
    signal without visited set whose pending nodes are [pend]. *)
Definition steered {TNode} `{EqDecision TNode} (next : TNode → list TNode)
    (hide stop : TNode → bool) (depthFirst : bool) (pend pulled : list TNode) : Prop :=
  ∀ (sig : GraphSignal.t TNode) (acc : list TNode) (fuel : nat),
    signal_ready sig pend →
    GraphSignal.isDepthFirst sig = depthFirst →
    GraphSignal.visited sig = None →
    (length pulled < fuel)%nat →
    TraverseGraph.loop (steering_callback next hide stop)
      (λ n, modify (λ acc, acc ++ [n])) fuel sig acc
    = (Ok tt, acc ++ filter (λ n, hide n = false) pulled).

(** A graph with an edge back to the root: [r -> p, q] and [q -> r]. *)
Definition revisit_graph (n : string) : list string :=
  if decide (n = "r") then ["p"; "q"]
  else if decide (n = "q") then ["r"]
  else [].

(** The control signal of a depth-first, cycle-detecting traversal of that
    graph from [r], after [r] and [q] have been yielded. *)
Definition revisit_signal : GraphSignal.t string :=
  let pull (sig : GraphSignal.t string) := (GraphSignal.tryGetNext sig).2 in
  let sig := pull (GraphSignal.constructor ["r"] true DepthFirst) in
  let sig := GraphSignal.cleanup (GraphSignal.next (revisit_graph "r") sig) in
  let sig := pull sig in
  GraphSignal.cleanup (GraphSignal.next (revisit_graph "q") sig).

(** ** First-visit orders of a cycle-detecting traversal *)

(** The traversal with a visited set, as a work list: the first pending node
    is dropped when it was yielded before; otherwise it is yielded, and its
    children join the pending nodes. [vs] are the nodes yielded so far. *)
Inductive first_visits {TNode} (next : TNode → list TNode) (depthFirst : bool)
    : list TNode → list TNode → list TNode → Prop :=
  | first_visits_done vs : first_visits next depthFirst vs [] []
  | first_visits_seen vs x pend out :
      x ∈ vs →
      first_visits next depthFirst vs pend out →
      first_visits next depthFirst vs (x :: pend) out
  | first_visits_new vs x pend out :
      x ∉ vs →
      first_visits next depthFirst (vs ++ [x])
        (pending_after depthFirst (next x) pend) out →
      first_visits next depthFirst vs (x :: pend) (x :: out).

(** The candidates that were not seen before, each once, in the order of
    their first occurrence. *)
Fixpoint unseen {TNode} `{EqDecision TNode} (seen cands : list TNode) : list TNode :=
  match cands with
  | [] => []
  | x :: cands =>
      if decide (x ∈ seen) then unseen seen cands
      else x :: unseen (seen ++ [x]) cands
  end.

(** Breadth-first order of first visits: the level made of the candidates not
    seen before, then the level that the children of its nodes give, and so
    on until a level is empty. A node stands in the first level that reaches
    it, at the place of its first occurrence there. *)
Inductive levels_once {TNode} `{EqDecision TNode} (next : TNode → list TNode)
    : list TNode → list TNode → list TNode → Prop :=
  | levels_once_end seen cands :
      unseen seen cands = [] → levels_once next seen cands []
  | levels_once_more seen cands rest :
      unseen seen cands ≠ [] →
      levels_once next (seen ++ unseen seen cands) (unseen seen cands ≫= next) rest →
      levels_once next seen cands (unseen seen cands ++ rest).

(** Depth-first order of first visits, over a list of nodes: a node seen
    before is passed over; a new node is followed by the first visits below
    it, its children taken last first, and then by the first visits of the
    nodes behind it, which see everything visited below it. *)
Inductive branches_once {TNode} (next : TNode → list TNode)
    : list TNode → list TNode → list TNode → Prop :=
  | branches_once_nil seen : branches_once next seen [] []
  | branches_once_seen seen n ns out :
      n ∈ seen →
      branches_once next seen ns out →
      branches_once next seen (n :: ns) out
  | branches_once_new seen n ns below others :
      n ∉ seen →
      branches_once next (seen ++ [n]) (rev (next n)) below →
      branches_once next (seen ++ [n] ++ below) ns others →
      branches_once next seen (n :: ns) (n :: below ++ others).

(** A graph with two branches and an edge back to the root:
    [root -> A, B], [A -> C], [C -> root]. *)
Definition two_branch_graph (n : string) : list string :=
  if decide (n = "root") then ["A"; "B"]
  else if decide (n = "A") then ["C"]
  else if decide (n = "C") then ["root"]
  else [].

(** ** The order in which [dismantle] detaches *)

(** The nodes on which [n.dismantle(includeAncestry)] calls [detachSelf], in
    the order of the calls, when [done] are the nodes detached before the
    call. With a parent and [includeAncestry], [n] comes first, then what the
    call on the parent gives, then the descendants of [n]; otherwise the
    descendants of [n] alone. The descendants are listed level by level from
    the children [n] still has at that moment. *)
Inductive cascade {Item} (w : World Item) : list nat → nat → bool → list nat → Prop :=
  | cascade_down done n includeAncestry below :
      parent_of w n = None ∨ n ∈ done ∨ includeAncestry = false →
      levels (children_of w) (filter (λ c, c ∉ done) (children_of w n)) below →
      cascade w done n includeAncestry below
  | cascade_up done n p above below :
      parent_of w n = Some p → n ∉ done →
      cascade w (done ++ [n]) p true above →
      levels (children_of w)
        (filter (λ c, c ∉ done ++ n :: above) (children_of w n)) below →
      cascade w done n true (n :: above ++ below).

(** The scenario's nodes with the brand of an owner put on [C] (node [2]). *)
Definition scenario_C_branded : World string :=
  (Node.brand 2 (Some (mkOwner 7 None)) scenario_assembled.2).2.
(** * Properties *)

(** ** The monad *)

Section MonadFacts.
Context {S : Type}.

Lemma bind_ok {A B} (m : M S A) (k : A → M S B) s a s' :
  m s = (Ok a, s') → (m ≫= k) s = k a s'.
Proof. intros E. unfold mbind, M_bind. by rewrite E. Qed.

Lemma bind_ret {A B} (a : A) (k : A → M S B) s : (mret a ≫= k) s = k a s.
Proof. done. Qed.

Lemma bind_throw {A B} (m : M S A) (k : A → M S B) s e s' :
  m s = (Throw e, s') → (m ≫= k) s = (Throw e, s').
Proof. intros E. unfold mbind, M_bind. by rewrite E. Qed.

Lemma bind_out_of_fuel {A B} (m : M S A) (k : A → M S B) s s' :
  m s = (OutOfFuel, s') → (m ≫= k) s = (OutOfFuel, s').
Proof. intros E. unfold mbind, M_bind. by rewrite E. Qed.

(** A bind ran its first part to a value and went on, or stopped there. *)
Lemma bind_inv {A B} (m : M S A) (k : A → M S B) s o s' :
  (m ≫= k) s = (o, s') →
  (∃ a s1, m s = (Ok a, s1) ∧ k a s1 = (o, s')) ∨
  (∃ e, m s = (Throw e, s') ∧ o = Throw e) ∨
  (m s = (OutOfFuel, s') ∧ o = OutOfFuel).
Proof.
  unfold mbind, M_bind. destruct (m s) as [[a|e|] s1]; intros E.
  - left. by exists a, s1.
  - right. left. injection E as <- <-. by exists e.
  - right. right. by injection E as <- <-.
Qed.

Lemma reads_ret {A} (a : A) : reads (mret a : M S A).
Proof. intros s. left. by exists a. Qed.

Lemma reads_throw {A} e : reads (throw e : M S A).
Proof. intros s. right. by exists e. Qed.

Lemma reads_bind {A B} (m : M S A) (k : A → M S B) :
  reads m → (∀ a, reads (k a)) → reads (m ≫= k).
Proof.
  intros Hm Hk s. destruct (Hm s) as [[a E]|[e E]].
  - rewrite (bind_ok _ _ _ _ _ E). apply Hk.
  - right. exists e. by apply bind_throw.
Qed.

Lemma reads_every {A} (p : A → M S bool) xs :
  (∀ x, reads (p x)) → reads (every p xs).
Proof.
  intros Hp. induction xs as [|x xs IH]; simpl.
  - apply reads_ret.
  - apply reads_bind; [done|]. intros []; [done | apply reads_ret].
Qed.

Lemma reads_some {A} (p : A → M S bool) xs :
  (∀ x, reads (p x)) → reads (some p xs).
Proof.
  intros Hp. induction xs as [|x xs IH]; simpl.
  - apply reads_ret.
  - apply reads_bind; [done|]. intros []; [apply reads_ret | done].
Qed.

(** [every] answers [true] only when every test does. *)
Lemma every_true {A} (p : A → M S bool) xs s :
  (∀ x, reads (p x)) →
  every p xs s = (Ok true, s) → ∀ x, x ∈ xs → p x s = (Ok true, s).
Proof.
  intros Hp. induction xs as [|y xs IH]; intros E x Hx.
  - by apply elem_of_nil in Hx.
  - simpl in E. destruct (Hp y s) as [[b Ey]|[e Ey]].
    + rewrite (bind_ok _ _ _ _ _ Ey) in E. destruct b; [|done].
      apply elem_of_cons in Hx as [->|Hx]; [done | by apply IH].
    + by rewrite (bind_throw _ _ _ _ _ Ey) in E.
Qed.

Lemma every_all_true {A} (p : A → M S bool) xs s :
  (∀ x, x ∈ xs → p x s = (Ok true, s)) → every p xs s = (Ok true, s).
Proof.
  induction xs as [|y xs IH]; intros H; [done|]. simpl.
  rewrite (bind_ok _ _ _ _ _ (H y ltac:(left))). apply IH.
  intros x Hx. apply H. by right.
Qed.

Lemma some_all_false {A} (p : A → M S bool) xs s :
  (∀ x, x ∈ xs → p x s = (Ok false, s)) → some p xs s = (Ok false, s).
Proof.
  induction xs as [|y xs IH]; intros H; [done|]. simpl.
  rewrite (bind_ok _ _ _ _ _ (H y ltac:(left))). apply IH.
  intros x Hx. apply H. by right.
Qed.
End MonadFacts.

(** ** Facts about the store *)

Section StoreFacts.
Context {Item : Type}.
Implicit Types (w : World Item) (n : NodeRec Item).

Lemma read_ok w r n : w_nodes w !! r = Some n → read r w = (Ok n, w).
Proof. intros E. unfold read. by rewrite E. Qed.

Lemma reads_read r : reads (read (Item:=Item) r).
Proof.
  intros w. unfold read. destruct (w_nodes w !! r); [left|right]; eauto.
Qed.

Lemma reads_isRoot r : reads (Node.isRoot (Item:=Item) r).
Proof. apply reads_bind; [apply reads_read | intros; apply reads_ret]. Qed.

Lemma reads_isBranded r : reads (Node.isBranded (Item:=Item) r).
Proof. apply reads_bind; [apply reads_read | intros; apply reads_ret]. Qed.

Lemma reads_isBrandCompatible a b : reads (Node.isBrandCompatible (Item:=Item) a b).
Proof.
  apply reads_bind; [apply reads_read | intros n].
  apply reads_bind; [apply reads_read | intros o].
  destruct (f_brand n) as [mine|], (f_brand o) as [theirs|]; try apply reads_ret.
  unfold Node.call_Equals. destruct (owner_Equals mine); [apply reads_ret | apply reads_throw].
Qed.

Lemma write_run r f w :
  write r f w = (Ok tt, mkWorld (alter f r (w_nodes w)) (w_arrays w) (w_objects w)).
Proof. done. Qed.

Lemma for_each_writes {A} (g : A → World Item → World Item) (f : A → M (World Item) unit) xs w :
  (∀ x w, f x w = (Ok tt, g x w)) →
  for_each f xs w = (Ok tt, foldl (λ w x, g x w) w xs).
Proof.
  intros Hf. revert w. induction xs as [|x xs IH]; intros w; [done|]. simpl.
  rewrite (bind_ok _ _ _ _ _ (Hf x w)). apply IH.
Qed.
End StoreFacts.

(** ** Brands *)

Section BrandFacts.
Context {Item : Type}.
Implicit Types (w : World Item) (n : NodeRec Item).

Lemma brand_of_write_brand w r b :
  brand_of (write r (set_brand b) w).2 r = w_nodes w !! r ≫= λ _, b.
Proof.
  unfold brand_of. simpl. rewrite list_lookup_alter_eq.
  by destruct (w_nodes w !! r).
Qed.

Lemma call_DeBrand_run w d :
  Node.call_DeBrand d w = (Ok tt, (write (debrand_node d) (set_brand None) w).2).
Proof. done. Qed.

Lemma brand_of_call_DeBrand w d :
  brand_of (Node.call_DeBrand d w).2 (debrand_node d) = None.
Proof.
  rewrite call_DeBrand_run. cbn [snd]. rewrite brand_of_write_brand.
  by destruct (w_nodes w !! _).
Qed.

Lemma call_DeBrand_twice w d :
  (Node.call_DeBrand d (Node.call_DeBrand d w).2).2 = (Node.call_DeBrand d w).2.
Proof.
  rewrite !call_DeBrand_run. simpl. unfold write, modify. simpl. f_equal.
  rewrite list_alter_alter_eq. by apply list_alter_ext.
Qed.

(** What a successful [brand] did. *)
Lemma brand_ok_inv w r b d w' :
  Node.brand r b w = (Ok d, w') →
  ∃ o n, b = Some o ∧ w_nodes w !! r = Some n ∧ f_brand n = None ∧
         d = mkDeBrand r ∧ w' = (write r (set_brand (Some o)) w).2.
Proof.
  unfold Node.brand. destruct b as [o|]; [|done].
  unfold mbind, M_bind, read. destruct (w_nodes w !! r) as [n|] eqn:E; [|done].
  unfold Node.rec_isBranded. destruct (f_brand n) eqn:Eb; [done|].
  simpl. intros [= <- <-]. by exists o, n.
Qed.

Lemma brand_run w r o n :
  w_nodes w !! r = Some n → f_brand n = None →
  Node.brand r (Some o) w = (Ok (mkDeBrand r), (write r (set_brand (Some o)) w).2).
Proof.
  intros E Eb. unfold Node.brand, mbind, M_bind, read. rewrite E.
  unfold Node.rec_isBranded. by rewrite Eb.
Qed.

(** [isBrandCompatible] in terms of the two brands. *)
Lemma isBrandCompatible_run w a b na nb :
  w_nodes w !! a = Some na → w_nodes w !! b = Some nb →
  Node.isBrandCompatible a b w =
    match f_brand na, f_brand nb with
    | None, None => (Ok true, w)
    | None, Some _ | Some _, None => (Ok false, w)
    | Some mine, Some theirs =>
        match owner_Equals mine with
        | Some equals => (Ok (equals (owner_id theirs)), w)
        | None => (Throw (TypeError "this.#brand.Equals is not a function"), w)
        end
    end.
Proof.
  intros Ea Eb. unfold Node.isBrandCompatible.
  rewrite (bind_ok _ _ _ _ _ (read_ok _ _ _ Ea)).
  rewrite (bind_ok _ _ _ _ _ (read_ok _ _ _ Eb)).
  destruct (f_brand na) as [mine|], (f_brand nb) as [theirs|]; try done.
  unfold Node.call_Equals. by destruct (owner_Equals mine).
Qed.

(** It answers [true] exactly for two unbranded nodes and for two branded
    nodes whose owner's [Equals] exists and accepts the other owner. *)
Lemma isBrandCompatible_true_iff w a b na nb :
  w_nodes w !! a = Some na → w_nodes w !! b = Some nb →
  Node.isBrandCompatible a b w = (Ok true, w) ↔
    (f_brand na = None ∧ f_brand nb = None) ∨
    (∃ mine theirs equals, f_brand na = Some mine ∧ f_brand nb = Some theirs ∧
       owner_Equals mine = Some equals ∧ equals (owner_id theirs) = true).
Proof.
  intros Ea Eb. rewrite (isBrandCompatible_run _ _ _ _ _ Ea Eb).
  destruct (f_brand na) as [mine|], (f_brand nb) as [theirs|].
  - destruct (owner_Equals mine) as [equals|] eqn:Ee.
    + split.
      * intros [= E]. right. by exists mine, theirs, equals.
      * intros [[? ?]|(m & t & eq & [= <-] & [= <-] & Heq & Ht)]; [done|].
        rewrite Ee in Heq. injection Heq as <-. by rewrite Ht.
    + split; [done|].
      intros [[? ?]|(m & t & eq & [= <-] & _ & Heq & _)]; [done|].
      by rewrite Ee in Heq.
  - split; [done|]. intros [[? ?]|(m & t & eq & _ & ? & _)]; done.
  - split; [done|]. intros [[? ?]|(m & t & eq & ? & _)]; done.
  - split; [by left|done].
Qed.
End BrandFacts.

(** C2 (the code departs from it). Two nodes branded with the same owner are
    not reported compatible when the owner has no [Equals] member:
    [a.isBrandCompatible(b)] throws a [TypeError] instead of returning. This is
    the case of every node a [Hierarchy] brands, since it brands with itself
    and declares no [Equals]. *)
Theorem C2_isBrandCompatible_throws_without_Equals {Item} (w : World Item)
    (a b : nat) (owner : Owner) :
  brand_of w a = Some owner →
  brand_of w b = Some owner →
  owner_Equals owner = None →
  Node.isBrandCompatible a b w =
    (Throw (TypeError "this.#brand.Equals is not a function"), w).
Proof.
  unfold brand_of. intros Ha Hb He.
  destruct (w_nodes w !! a) as [na|] eqn:Ea; [|done].
  destruct (w_nodes w !! b) as [nb|] eqn:Eb; [|done].
  simpl in Ha, Hb. rewrite (isBrandCompatible_run _ _ _ _ _ Ea Eb), Ha, Hb.
  by rewrite He.
Qed.

(** C9. The delegate returned by [brand] clears the brand whenever it is
    called, whatever the state of the node: a second call changes nothing and
    throws nothing, and a call made after the node was branded again by
    another owner removes that owner's brand. *)
Theorem C9_DeBrand_clears_unconditionally {Item} (w w1 : World Item) (n : nat)
    (x y : Owner) (release : DeBrand) :
  Node.brand n (Some x) w = (Ok release, w1) →
  brand_of w1 n = Some x ∧
  (∀ w' : World Item, ∃ w'', Node.call_DeBrand release w' = (Ok tt, w'') ∧ brand_of w'' n = None) ∧
  (∃ w2, Node.call_DeBrand release w1 = (Ok tt, w2) ∧
     Node.call_DeBrand release w2 = (Ok tt, w2) ∧
     ∃ release' w3, Node.brand n (Some y) w2 = (Ok release', w3) ∧
       brand_of w3 n = Some y ∧
       ∃ w4, Node.call_DeBrand release w3 = (Ok tt, w4) ∧ brand_of w4 n = None).
Proof.
  intros Hb. apply brand_ok_inv in Hb as (o & rec & [= <-] & Erec & Ebr & -> & ->).
  split; [|split].
  - rewrite brand_of_write_brand, Erec. done.
  - intros w'. eexists. split; [apply call_DeBrand_run|].
    apply (brand_of_call_DeBrand w' (mkDeBrand n)).
  - eexists. split; [apply call_DeBrand_run|]. split.
    + rewrite call_DeBrand_run. f_equal.
      apply (call_DeBrand_twice _ (mkDeBrand n)).
    + set (w2 := (write (debrand_node _) _ _).2).
      assert (∃ rec2, w_nodes w2 !! n = Some rec2 ∧ f_brand rec2 = None) as (rec2 & E2 & B2).
      { subst w2. simpl. rewrite list_alter_alter_eq, list_lookup_alter_eq, Erec.
        simpl. eauto. }
      exists (mkDeBrand n). eexists. split; [by apply (brand_run _ _ _ rec2)|].
      split.
      * rewrite brand_of_write_brand, E2. done.
      * eexists. split; [apply call_DeBrand_run|].
        apply (brand_of_call_DeBrand _ (mkDeBrand n)).
Qed.

(** ** Links *)

Section LinkFacts.
Context {Item : Type}.
Implicit Types (w : World Item) (n : NodeRec Item).

Lemma lookup_write w r f r' :
  w_nodes (write r f w).2 !! r' =
    if decide (r = r') then f <$> w_nodes w !! r' else w_nodes w !! r'.
Proof.
  simpl. destruct (decide (r = r')) as [->|Hne].
  - apply list_lookup_alter_eq.
  - by apply list_lookup_alter_ne.
Qed.

Lemma isRoot_true w r :
  Node.isRoot r w = (Ok true, w) → parent_of w r = None ∧ is_Some (w_nodes w !! r).
Proof.
  unfold Node.isRoot, mbind, M_bind, read, parent_of.
  destruct (w_nodes w !! r) as [n|]; [|done]. simpl.
  unfold Node.rec_isRoot. case_bool_decide; [|done]. eauto.
Qed.

Lemma isRoot_run w r n :
  w_nodes w !! r = Some n → Node.isRoot r w = (Ok (Node.rec_isRoot n), w).
Proof. intros E. unfold Node.isRoot. by rewrite (bind_ok _ _ _ _ _ (read_ok _ _ _ E)). Qed.

Lemma isLeaf_run w r n :
  w_nodes w !! r = Some n → Node.isLeaf r w = (Ok (Node.rec_isLeaf n), w).
Proof. intros E. unfold Node.isLeaf. by rewrite (bind_ok _ _ _ _ _ (read_ok _ _ _ E)). Qed.

(** [attach] either throws, and then the store is as it was, or it passed
    its three checks and returns. *)
Lemma attach_outcome w p cs :
  (∃ e, Node.attach p cs w = (Throw e, w)) ∨
  (∃ w', Node.attach p cs w = (Ok p, w') ∧ cs ≠ [] ∧
     every Node.isRoot cs w = (Ok true, w) ∧
     every (λ node, Node.isBrandCompatible node p) cs w = (Ok true, w)).
Proof.
  unfold Node.attach. case_bool_decide as Hlen.
  { left. by eexists. }
  destruct (reads_every Node.isRoot cs reads_isRoot w) as [[b E]|[e E]];
    [|left; exists e; by apply bind_throw].
  rewrite (bind_ok _ _ _ _ _ E). destruct b; [|left; by eexists]. simpl.
  destruct (reads_every (λ node, Node.isBrandCompatible node p) cs
              (λ x, reads_isBrandCompatible x p) w) as [[b E']|[e E']];
    [|left; exists e; by apply bind_throw].
  rewrite (bind_ok _ _ _ _ _ E'). destruct b; [|left; by eexists]. simpl.
  destruct (reads_read (Item:=Item) p w) as [[n En]|[e En]];
    [|left; exists e; by apply bind_throw].
  rewrite (bind_ok _ _ _ _ _ En). right.
  rewrite (bind_ok _ _ _ _ _ (write_run _ _ _)).
  erewrite bind_ok; last first.
  { apply (for_each_writes
      (λ child w, (write child (set_parent (Some p))
        (write p (λ n : NodeRec Item,
           set_children (Some (JsSet.add child (Node.children_list n))) n) w).2).2)).
    done. }
  eexists. split; [done|]. split; [|done].
  intros ->. by apply Hlen.
Qed.

(** A throwing [attach] changed nothing. *)
Lemma attach_throw_unchanged w p cs e w' :
  Node.attach p cs w = (Throw e, w') → w' = w.
Proof.
  intros E. destruct (attach_outcome w p cs) as [[e' E']|(w'' & E' & _)];
    rewrite E' in E; by inversion E.
Qed.
End LinkFacts.

(** C7. [p.attach(cs)] throws when [cs] is empty, when a node of [cs] has a
    parent, and when a node of [cs] is not brand-compatible with [p] (its
    test does not answer [true]); in each case the store after the throw is
    the store before the call: no parent pointer and no child set changed. *)
Theorem C7_attach_validates_before_mutating {Item} (w : World Item) (p : nat)
    (cs : list nat) :
  cs = [] ∨
  (∃ c, c ∈ cs ∧ is_Some (parent_of w c)) ∨
  (∃ c, c ∈ cs ∧ Node.isBrandCompatible c p w ≠ (Ok true, w)) →
  ∃ e, Node.attach p cs w = (Throw e, w).
Proof.
  intros H. destruct (attach_outcome w p cs) as [?|(w' & _ & Hne & Hroots & Hcompat)]; [done|].
  exfalso. destruct H as [->|[(c & Hc & Hp)|(c & Hc & Hb)]]; [done| |].
  - apply (every_true _ _ _ reads_isRoot Hroots) in Hc.
    apply isRoot_true in Hc as [Hc _]. rewrite Hc in Hp. by destruct Hp.
  - apply Hb.
    by apply (every_true _ _ _ (λ x, reads_isBrandCompatible x p) Hcompat).
Qed.

Section DetachFacts.
Context {Item : Type}.
Implicit Types (w : World Item) (n : NodeRec Item).

Lemma children_list_set_children (c : option (list nat)) n :
  Node.children_list (set_children c n) = default [] c.
Proof. by destruct c. Qed.

(** [detachSelf] on a linked, unbranded node whose parent lists it. *)
Lemma detachSelf_run w this n p pn :
  w_nodes w !! this = Some n → f_parent n = Some p → f_brand n = None →
  w_nodes w !! p = Some pn → this ∈ Node.children_list pn →
  ∃ w', Node.detachSelf this w = (Ok this, w') ∧ unlinked this p w w'.
Proof.
  intros En Ep Eb Epn Hin.
  pose (rest := JsSet.delete this (Node.children_list pn)).
  pose (F := λ pn : NodeRec Item,
    if bool_decide (JsSet.size (JsSet.delete this (Node.children_list pn)) = 0%nat)
    then set_children None pn
    else set_children (Some (JsSet.delete this (Node.children_list pn))) pn).
  exists (mkWorld (alter (set_parent None) this (alter F p (w_nodes w)))
            (w_arrays w) (w_objects w)).
  split.
  - unfold Node.detachSelf.
    rewrite (bind_ok _ _ _ _ _ (read_ok _ _ _ En)), Ep.
    unfold Node.rec_isBranded. rewrite Eb.
    rewrite (bind_ok _ _ _ _ _ (read_ok _ _ _ Epn)).
    assert (Node.rec_isLeaf pn = false) as ->.
    { unfold Node.rec_isLeaf, Node.children_list in *.
      destruct (f_children pn) as [set|]; [|by apply elem_of_nil in Hin].
      case_bool_decide as Hs; [|done]. unfold JsSet.size in Hs.
      destruct set; [by apply elem_of_nil in Hin | done]. }
    assert (JsSet.has (Node.children_list pn) this = true) as ->.
    { unfold JsSet.has. by apply bool_decide_eq_true. }
    simpl. rewrite (bind_ok _ _ _ _ _ (write_run _ _ _)).
    erewrite bind_ok; last first.
    { apply isLeaf_run. cbn [w_nodes]. by rewrite list_lookup_alter_eq, Epn. }
    unfold Node.rec_isLeaf at 1. cbn [f_children set_children].
    fold rest. unfold F. 
    destruct (bool_decide (JsSet.size rest = 0%nat)) eqn:Hleaf.
    + rewrite (bind_ok _ _ _ _ _ (write_run _ _ _)).
      rewrite (bind_ok _ _ _ _ _ (write_run _ _ _)).
      unfold mret, M_ret. f_equal. cbn [w_nodes w_arrays w_objects]. f_equal.
      f_equal. rewrite list_alter_alter_eq. apply list_alter_ext; [|done].
      intros x Hx. rewrite Epn in Hx. injection Hx as <-.
      fold rest. by rewrite Hleaf.
    + rewrite bind_ret.
      rewrite (bind_ok _ _ _ _ _ (write_run _ _ _)).
      unfold mret, M_ret. f_equal. cbn [w_nodes w_arrays w_objects]. f_equal.
      f_equal. apply list_alter_ext; [|done].
      intros x Hx. rewrite Epn in Hx. injection Hx as <-.
      fold rest. by rewrite Hleaf.
  - assert (∀ x, Node.children_list (F x)
                 = filter (λ y, y ≠ this) (Node.children_list x)) as HF.
    { intros x. unfold F. case_bool_decide as Hs.
      - unfold JsSet.size, JsSet.delete in Hs.
        apply nil_length_inv in Hs. by rewrite Hs.
      - done. }
    assert (∀ x, f_parent (F x) = f_parent x ∧ f_brand (F x) = f_brand x
                 ∧ f_item (F x) = f_item x) as HF'.
    { intros x. unfold F. by case_bool_decide. }
    repeat split; cbn [w_nodes w_arrays w_objects].
    + intros r. unfold parent_of. cbn [w_nodes].
      destruct (decide (r = this)) as [->|Hr].
      * rewrite list_lookup_alter_eq.
        by destruct (alter F p (w_nodes w) !! this).
      * rewrite list_lookup_alter_ne by done.
        destruct (decide (p = r)) as [->|Hp].
        -- rewrite list_lookup_alter_eq. destruct (w_nodes w !! r); [|done].
           simpl. apply HF'.
        -- by rewrite list_lookup_alter_ne.
    + intros r. unfold children_of. cbn [w_nodes].
      assert (∀ l : list (NodeRec Item),
        default [] (alter (set_parent None) this l !! r ≫= f_children)
        = default [] (l !! r ≫= f_children)) as ->.
      { intros l. destruct (decide (this = r)) as [->|Hr].
        - rewrite list_lookup_alter_eq. by destruct (l !! r).
        - by rewrite list_lookup_alter_ne. }
      destruct (decide (r = p)) as [->|Hp].
      * rewrite list_lookup_alter_eq, Epn. simpl.
        specialize (HF pn). unfold Node.children_list in HF.
        destruct (f_children (F pn)), (f_children pn); simpl; done.
      * by rewrite list_lookup_alter_ne.
    + intros r. unfold brand_of. cbn [w_nodes].
      destruct (decide (this = r)) as [->|Hr].
      * rewrite list_lookup_alter_eq.
        destruct (decide (p = r)) as [->|Hp].
        -- rewrite list_lookup_alter_eq. destruct (w_nodes w !! r); [|done].
           simpl. apply HF'.
        -- rewrite list_lookup_alter_ne by done. by destruct (w_nodes w !! r).
      * rewrite list_lookup_alter_ne by done.
        destruct (decide (p = r)) as [->|Hp].
        -- rewrite list_lookup_alter_eq. destruct (w_nodes w !! r); [|done].
           simpl. apply HF'.
        -- by rewrite list_lookup_alter_ne.
    + intros r. unfold item_of. cbn [w_nodes].
      destruct (decide (this = r)) as [->|Hr].
      * rewrite list_lookup_alter_eq.
        destruct (decide (p = r)) as [->|Hp].
        -- rewrite list_lookup_alter_eq. destruct (w_nodes w !! r); [|done].
           simpl. f_equal. apply HF'.
        -- rewrite list_lookup_alter_ne by done. by destruct (w_nodes w !! r).
      * rewrite list_lookup_alter_ne by done.
        destruct (decide (p = r)) as [->|Hp].
        -- rewrite list_lookup_alter_eq. destruct (w_nodes w !! r); [|done].
           simpl. f_equal. apply HF'.
        -- by rewrite list_lookup_alter_ne.
    + by rewrite !length_alter.
Qed.
End DetachFacts.

Section AttachFacts.
Context {Item : Type}.
Implicit Types (w : World Item) (n : NodeRec Item).

(** [detachSelf] in terms of what the store holds for the node. *)
Lemma detachSelf_ok w this p :
  parent_of w this = Some p → brand_of w this = None →
  this ∈ children_of w p →
  ∃ w', Node.detachSelf this w = (Ok this, w') ∧ unlinked this p w w'.
Proof.
  unfold parent_of, brand_of, children_of. intros Hp Hb Hc.
  destruct (w_nodes w !! this) as [n|] eqn:En; [|done].
  destruct (w_nodes w !! p) as [pn|] eqn:Epn; [|by apply elem_of_nil in Hc].
  simpl in *. by apply (detachSelf_run w this n p pn).
Qed.

(** [attach] of one root that is brand-compatible with the parent. *)
Lemma attach_one_run w p c np nc :
  w_nodes w !! p = Some np → w_nodes w !! c = Some nc → p ≠ c →
  f_parent nc = None →
  Node.isBrandCompatible c p w = (Ok true, w) →
  ∃ w', Node.attach p [c] w = (Ok p, w') ∧ linked c p w w'.
Proof.
  intros Ep Ec Hne Hroot Hcompat.
  pose (F := λ n : NodeRec Item,
    set_children (Some (JsSet.add c (Node.children_list n))) n).
  exists (mkWorld (alter (set_parent (Some p)) c (alter F p (w_nodes w)))
            (w_arrays w) (w_objects w)).
  split.
  - unfold Node.attach. simpl.
    erewrite bind_ok; last first.
    { erewrite bind_ok by (by apply isRoot_run).
      unfold Node.rec_isRoot. rewrite Hroot. done. }
    simpl. erewrite bind_ok; last first.
    { erewrite bind_ok by done. done. }
    simpl. rewrite (bind_ok _ _ _ _ _ (read_ok _ _ _ Ep)).
    unfold mbind, M_bind, write, modify, mret, M_ret. simpl.
    do 3 f_equal. rewrite list_alter_alter_eq. apply list_alter_ext; [|done].
    intros x Hx. rewrite Ep in Hx. by injection Hx as <-.
  - assert (∀ x, Node.children_list (F x) = JsSet.add c (Node.children_list x)) as HF
      by done.
    repeat split; cbn [w_nodes w_arrays w_objects].
    + intros r. unfold parent_of. cbn [w_nodes].
      destruct (decide (r = c)) as [->|Hr].
      * rewrite list_lookup_alter_eq, list_lookup_alter_ne, Ec by done. done.
      * rewrite list_lookup_alter_ne by done.
        destruct (decide (p = r)) as [->|Hp].
        -- rewrite list_lookup_alter_eq. by destruct (w_nodes w !! r).
        -- by rewrite list_lookup_alter_ne.
    + intros r. unfold children_of. cbn [w_nodes].
      destruct (decide (r = p)) as [->|Hp].
      * rewrite list_lookup_alter_ne, list_lookup_alter_eq, Ep by done. simpl.
        unfold Node.children_list. by destruct (f_children np).
      * destruct (decide (c = r)) as [->|Hr].
        -- rewrite list_lookup_alter_eq, list_lookup_alter_ne by done.
           by destruct (w_nodes w !! r).
        -- by rewrite !list_lookup_alter_ne.
    + intros r. unfold brand_of. cbn [w_nodes].
      destruct (decide (c = r)) as [->|Hr].
      * rewrite list_lookup_alter_eq, list_lookup_alter_ne by done.
        by destruct (w_nodes w !! r).
      * rewrite list_lookup_alter_ne by done.
        destruct (decide (p = r)) as [->|Hp].
        -- rewrite list_lookup_alter_eq. by destruct (w_nodes w !! r).
        -- by rewrite list_lookup_alter_ne.
    + intros r. unfold item_of. cbn [w_nodes].
      destruct (decide (c = r)) as [->|Hr].
      * rewrite list_lookup_alter_eq, list_lookup_alter_ne by done.
        by destruct (w_nodes w !! r).
      * rewrite list_lookup_alter_ne by done.
        destruct (decide (p = r)) as [->|Hp].
        -- rewrite list_lookup_alter_eq. by destruct (w_nodes w !! r).
        -- by rewrite list_lookup_alter_ne.
    + by rewrite !length_alter.
Qed.

Lemma delete_add_fresh (c : nat) (cs : list nat) :
  c ∉ cs → filter (λ x, x ≠ c) (JsSet.add c cs) = cs ∧ c ∈ JsSet.add c cs.
Proof.
  intros Hc. unfold JsSet.add, JsSet.has.
  rewrite bool_decide_eq_false_2 by done. split.
  - rewrite filter_app. rewrite filter_cons_False, filter_nil by (intros H; by apply H).
    rewrite app_nil_r. induction cs as [|y cs IH]; [done|].
    apply not_elem_of_cons in Hc as [Hy Hc].
    rewrite filter_cons_True by done. f_equal. by apply IH.
  - apply elem_of_app. right. by left.
Qed.
End AttachFacts.

Section ConsistencyFacts.
Context {Item : Type}.
Implicit Types (w : World Item).

Lemma consistent_empty arrays objects :
  consistent (mkWorld (Item:=Item) [] arrays objects).
Proof. intros p c Hc. by apply elem_of_nil in Hc. Qed.

Lemma elem_of_JsSet_add (x c : nat) (l : list nat) :
  x ∈ JsSet.add c l ↔ x = c ∨ x ∈ l.
Proof.
  unfold JsSet.add, JsSet.has. case_bool_decide as Hc.
  - split; [by right|]. by intros [->|?].
  - rewrite elem_of_app, list_elem_of_singleton. tauto.
Qed.

(** Attaching a root keeps the child sets and the parent pointers in
    agreement. *)
Lemma linked_consistent c p w w' :
  consistent w → parent_of w c = None → linked c p w w' → consistent w'.
Proof.
  intros Hcons Hroot (Hp & Hc & _) p' c' Hin. rewrite Hp. rewrite Hc in Hin.
  destruct (decide (p' = p)) as [->|Hne].
  - apply elem_of_JsSet_add in Hin as [->|Hin].
    + by rewrite decide_True.
    + case_decide; [done|]. by apply Hcons.
  - case_decide as Heq; [|by apply Hcons].
    subst c'. apply Hcons in Hin. by rewrite Hroot in Hin.
Qed.

(** So does detaching a node from its parent. *)
Lemma unlinked_consistent c p w w' :
  consistent w → parent_of w c = Some p → unlinked c p w w' → consistent w'.
Proof.
  intros Hcons Hparent (Hp & Hc & _) p' c' Hin. rewrite Hp. rewrite Hc in Hin.
  destruct (decide (p' = p)) as [->|Hne].
  - apply list_elem_of_filter in Hin as [Hne Hin].
    rewrite decide_False by done. by apply Hcons.
  - case_decide as Heq; [|by apply Hcons].
    subst c'. apply Hcons in Hin. rewrite Hparent in Hin. by injection Hin as ->.
Qed.

(** A new node is linked to nothing. *)
Lemma constructor_consistent w item :
  consistent w → consistent (Node.constructor item w).2.
Proof.
  intros Hcons p c. unfold children_of, parent_of. simpl.
  intros Hin.
  assert (c ∈ children_of w p) as Hin'.
  { unfold children_of. destruct (decide (p < length (w_nodes w))%nat).
    - by rewrite lookup_app_l in Hin.
    - rewrite lookup_app_r in Hin by lia.
      destruct (p - length (w_nodes w))%nat as [|k]; simpl in Hin;
        by apply elem_of_nil in Hin. }
  pose proof (Hcons p c Hin') as Hp. unfold parent_of in Hp.
  destruct (w_nodes w !! c) as [rec|] eqn:E; [|done].
  by rewrite (lookup_app_l_Some _ _ _ _ E).
Qed.
End ConsistencyFacts.

(** C8. For distinct unbranded nodes [A] and [B] of a consistent structure,
    with [B] a root: [A.attach(B)] succeeds and makes [B] a child of [A];
    [B.detachSelf()] then succeeds, after which [B] has no parent and the
    children of [A] are again those it had before, without [B]. *)
Theorem C8_attach_then_detachSelf_restores {Item} (w : World Item) (A B : nat) :
  consistent w →
  A ≠ B →
  is_Some (w_nodes w !! A) → is_Some (w_nodes w !! B) →
  brand_of w A = None → brand_of w B = None →
  parent_of w B = None →
  ∃ w1 w2,
    Node.attach A [B] w = (Ok A, w1) ∧
    parent_of w1 B = Some A ∧ B ∈ children_of w1 A ∧
    Node.detachSelf B w1 = (Ok B, w2) ∧
    parent_of w2 B = None ∧
    children_of w2 A = children_of w A ∧
    B ∉ children_of w2 A.
Proof.
  intros Hcons Hne [na Ea] [nb Eb] HbA HbB HpB.
  assert (B ∉ children_of w A) as Hfresh.
  { intros Hin. apply Hcons in Hin. by rewrite HpB in Hin. }
  unfold brand_of in HbA, HbB. unfold parent_of in HpB.
  rewrite Ea in HbA. rewrite Eb in HbB, HpB. simpl in *.
  destruct (attach_one_run w A B na nb) as (w1 & Hatt & Hl); try done.
  { apply (isBrandCompatible_true_iff w B A nb na); auto. }
  destruct Hl as (Hp1 & Hc1 & Hb1 & _).
  destruct (delete_add_fresh B (children_of w A) Hfresh) as [Hdel Hin].
  assert (parent_of w1 B = Some A) as HpB1.
  { rewrite Hp1. by rewrite decide_True. }
  assert (children_of w1 A = JsSet.add B (children_of w A)) as HcA1.
  { rewrite Hc1. by rewrite decide_True. }
  destruct (detachSelf_ok w1 B A) as (w2 & Hdet & Hu); try done.
  { rewrite Hb1. unfold brand_of. by rewrite Eb. }
  { by rewrite HcA1. }
  destruct Hu as (Hp2 & Hc2 & _).
  assert (children_of w2 A = children_of w A) as HcA2.
  { rewrite Hc2, decide_True, HcA1 by done. done. }
  exists w1, w2. repeat split; try done.
  - by rewrite HcA1.
  - rewrite Hp2. by rewrite decide_True.
  - by rewrite HcA2.
Qed.

(** ** Hierarchies *)

(** C1 (the code departs from it). [attach(parentId, children)] throws
    "The 'parentId' must be a hierarchy member." exactly in the case where
    [parentId] is a member, before doing anything else: the guard of the
    method tests [has(parentId)] where the message, and [getNode], call for
    its negation. *)
Theorem C1_attach_rejects_indexed_parent {Item Id} `{EqDecision Id}
    (h : Hierarchy.t Item Id) (w : World Item) (parentId : Id)
    (children : list nat) (fuel : nat) :
  is_Some (JsMap.get (Hierarchy.f_nodes h) parentId) →
  Hierarchy.attach parentId children fuel (h, w) =
    (Throw (Error "The 'parentId' must be a hierarchy member."), (h, w)).
Proof.
  intros Hmem. unfold Hierarchy.attach.
  rewrite (bind_ok Hierarchy.this _ (h, w) h (h, w) eq_refl).
  unfold JsMap.has. by rewrite bool_decide_eq_true_2.
Qed.

(** With a [parentId] that is not indexed the guard lets the call through. *)
Lemma attach_unindexed_parent_passes_guard {Item Id} `{EqDecision Id}
    (h : Hierarchy.t Item Id) (w : World Item) (parentId : Id)
    (children : list nat) (fuel : nat) :
  JsMap.get (Hierarchy.f_nodes h) parentId = None →
  Hierarchy.attach parentId children fuel (h, w) =
    (Hierarchy.addNodes children fuel ≫= λ _,
     h ← Hierarchy.this;
     match JsMap.get (Hierarchy.f_nodes h) parentId with
     | Some parent => Hierarchy.in_world (Node.attach parent children);; mret tt
     | None => throw (TypeError "Cannot read properties of undefined (reading 'attach')")
     end) (h, w).
Proof.
  intros Hmem. unfold Hierarchy.attach.
  rewrite (bind_ok Hierarchy.this _ (h, w) h (h, w) eq_refl).
  unfold JsMap.has. rewrite bool_decide_eq_false_2; [done|].
  rewrite Hmem. by intros [? ?].
Qed.

Section GetterFacts.
Context {Item : Type}.
Implicit Types (w : World Item).

Lemma new_array_run w xs :
  new_array xs w =
    (Ok (length (w_arrays w)), mkWorld (w_nodes w) (w_arrays w ++ [xs]) (w_objects w)).
Proof. done. Qed.

Lemma array_contents_new w xs :
  array_contents (new_array xs w).2 (length (w_arrays w)) = xs.
Proof.
  unfold array_contents. simpl.
  rewrite lookup_app_r, Nat.sub_diag by done. done.
Qed.

Lemma array_contents_old w xs a :
  (a < length (w_arrays w))%nat →
  array_contents (new_array xs w).2 a = array_contents w a.
Proof.
  intros Ha. unfold array_contents. simpl. by rewrite lookup_app_l.
Qed.

Lemma array_contents_mutate_ne w a b xs :
  a ≠ b → array_contents (array_mutate a xs w) b = array_contents w b.
Proof.
  intros Hne. unfold array_contents, array_mutate. simpl.
  by rewrite list_lookup_insert_ne.
Qed.

Lemma children_getter_run w n rec :
  w_nodes w !! n = Some rec →
  Node.children n w = new_array (children_of w n) w.
Proof.
  intros E. unfold Node.children.
  rewrite (bind_ok _ _ _ _ _ (read_ok _ _ _ E)).
  unfold children_of, Node.children_list. rewrite E. simpl.
  by destruct (f_children rec).
Qed.
End GetterFacts.

(** C10. The getters [Node.children], [Hierarchy.roots] and [Hierarchy.nodes]
    each return an array allocated by the call: it is none of the arrays that
    existed before, in particular not the hierarchy's [#roots]. Whatever is
    then done to that array, the child set of the node, the contents of
    [#roots] and the lookup map are what they were, and the next access
    returns the same elements again in another new array. *)
Theorem C10_getters_return_fresh_copies {Item Id} `{EqDecision Id}
    (h : Hierarchy.t Item Id) (w : World Item) (n : nat) (xs : list nat) :
  is_Some (w_nodes w !! n) →
  (Hierarchy.f_roots h < length (w_arrays w))%nat →
  let fresh := length (w_arrays w) in
  (∃ w1, Node.children n w = (Ok fresh, w1) ∧
     array_contents w1 fresh = children_of w n ∧
     let w2 := array_mutate fresh xs w1 in
     w_nodes w2 = w_nodes w ∧
     ∃ w3, Node.children n w2 = (Ok (S fresh), w3) ∧
       array_contents w3 (S fresh) = children_of w n) ∧
  (∃ w1, Hierarchy.roots (h, w) = (Ok fresh, (h, w1)) ∧
     fresh ≠ Hierarchy.f_roots h ∧
     array_contents w1 fresh = array_contents w (Hierarchy.f_roots h) ∧
     let w2 := array_mutate fresh xs w1 in
     w_nodes w2 = w_nodes w ∧
     array_contents w2 (Hierarchy.f_roots h) = array_contents w (Hierarchy.f_roots h) ∧
     ∃ w3, Hierarchy.roots (h, w2) = (Ok (S fresh), (h, w3)) ∧
       array_contents w3 (S fresh) = array_contents w (Hierarchy.f_roots h)) ∧
  (∃ w1, Hierarchy.nodes (h, w) = (Ok fresh, (h, w1)) ∧
     fresh ≠ Hierarchy.f_roots h ∧
     array_contents w1 fresh = JsMap.values (Hierarchy.f_nodes h) ∧
     let w2 := array_mutate fresh xs w1 in
     w_nodes w2 = w_nodes w ∧
     array_contents w2 (Hierarchy.f_roots h) = array_contents w (Hierarchy.f_roots h) ∧
     ∃ w3, Hierarchy.nodes (h, w2) = (Ok (S fresh), (h, w3)) ∧
       array_contents w3 (S fresh) = JsMap.values (Hierarchy.f_nodes h)).
Proof.
  intros [rec Erec] Hroots fresh.
  assert (fresh ≠ Hierarchy.f_roots h) as Hne by (subst fresh; lia).
  assert (∀ ys, length (w_arrays (array_mutate fresh xs (new_array ys w).2)) = S fresh) as Hlen.
  { intros ys. simpl. rewrite length_insert, length_app. simpl. subst fresh. lia. }
  assert (∀ ys, array_contents (array_mutate fresh xs (new_array ys w).2)
                  (Hierarchy.f_roots h) = array_contents w (Hierarchy.f_roots h)) as Hkeep.
  { intros ys. rewrite array_contents_mutate_ne by done.
    by apply array_contents_old. }
  assert (∀ ys zs, new_array zs (array_mutate fresh xs (new_array ys w).2)
            = (Ok (S fresh), (new_array zs (array_mutate fresh xs (new_array ys w).2)).2))
    as Hnew.
  { intros ys zs. rewrite new_array_run at 1. by rewrite Hlen. }
  split; [|split].
  - exists (new_array (children_of w n) w).2.
    split; [by apply (children_getter_run w n rec)|].
    split; [apply array_contents_new|].
    intros w2. split; [done|].
    assert (children_of w2 n = children_of w n) as Hc by done.
    exists (new_array (children_of w n) w2).2. split.
    + rewrite (children_getter_run w2 n rec), Hc by done. apply Hnew.
    + rewrite <- (Hlen (children_of w n)). apply (array_contents_new w2).
  - exists (new_array (array_contents w (Hierarchy.f_roots h)) w).2.
    split; [done|]. split; [done|].
    split; [apply array_contents_new|].
    intros w2. split; [done|]. split; [apply Hkeep|].
    exists (new_array (array_contents w (Hierarchy.f_roots h)) w2).2. split.
    + unfold Hierarchy.roots.
      rewrite (bind_ok Hierarchy.this _ (h, w2) h (h, w2) eq_refl).
      unfold Hierarchy.in_world. cbn [fst snd].
      rewrite (bind_ok get_state _ w2 w2 w2 eq_refl).
      subst w2. rewrite Hkeep, Hnew. done.
    + rewrite <- (Hlen (array_contents w (Hierarchy.f_roots h))).
      apply (array_contents_new w2).
  - exists (new_array (JsMap.values (Hierarchy.f_nodes h)) w).2.
    split; [done|]. split; [done|].
    split; [apply array_contents_new|].
    intros w2. split; [done|]. split; [apply Hkeep|].
    exists (new_array (JsMap.values (Hierarchy.f_nodes h)) w2).2. split.
    + unfold Hierarchy.nodes.
      rewrite (bind_ok Hierarchy.this _ (h, w2) h (h, w2) eq_refl).
      unfold Hierarchy.in_world. cbn [fst snd].
      subst w2. rewrite Hnew. done.
    + rewrite <- (Hlen (JsMap.values (Hierarchy.f_nodes h))).
      apply (array_contents_new w2).
Qed.

(** *** Ancestors *)

Section AncestorFacts.
Context {Item : Type}.
Implicit Types (w : World Item).

(** The sequence driver over the parent accessor walks the chain of parent
    links and stops where it ends. *)
Lemma sequence_loop_ancestry {A} w (f : World Item → nat → Outcome A)
    first chain :
  ancestry w first chain →
  ∀ ys, Forall2 (λ n y, f w n = Ok y) chain ys →
  ∀ fuel i c sk acc, (length chain < fuel)%nat →
  TraverseSequence.loop (λ st : World Item * list A, Node.next_parent st.1)
    (Node.push_each f) fuel (SequenceSignal.mk first i c sk) (w, acc)
  = (Ok tt, (w, acc ++ ys)).
Proof.
  induction 1 as [|n chain Hn Hchain IH]; intros ys Hf fuel i c sk acc Hfuel.
  - apply Forall2_nil_inv_l in Hf as ->.
    destruct fuel; [simpl in Hfuel; lia|]. simpl. by rewrite app_nil_r.
  - apply Forall2_cons_inv_l in Hf as (y & ys' & Hy & Hf & ->).
    destruct fuel; [simpl in Hfuel; lia|]. simpl.
    unfold Node.push_each at 1. cbn [fst snd]. rewrite Hy.
    unfold SequenceSignal.cleanup, SequenceSignal.next. cbn.
    rewrite (IH ys') by (done || simpl in Hfuel; lia).
    by rewrite <- app_assoc.
Qed.

Lemma for_ancestors_chain {A} w (f : World Item → nat → Outcome A)
    this excludeSelf chain ys fuel :
  is_Some (w_nodes w !! this) →
  ancestry w (if excludeSelf : bool then parent_of w this else Some this) chain →
  Forall2 (λ n y, f w n = Ok y) chain ys →
  (length chain < fuel)%nat →
  Node.filled (Node.for_ancestors fst this excludeSelf (Node.push_each f) fuel) w
  = (Ok ys, w).
Proof.
  intros [rec Erec] Hchain Hf Hfuel. unfold Node.filled, Node.for_ancestors.
  erewrite bind_ok; last first.
  { unfold Node.on_world. cbn [fst].
    instantiate (1 := (w, [])).
    instantiate (1 := if excludeSelf then parent_of w this else Some this).
    destruct excludeSelf; [|done].
    unfold Node.parent. rewrite (bind_ok _ _ _ _ _ (read_ok _ _ _ Erec)).
    unfold parent_of. by rewrite Erec. }
  unfold TraverseSequence.for_of, SequenceSignal.constructor.
  by rewrite (sequence_loop_ancestry w f _ chain Hchain ys).
Qed.

(** [getAncestors]: the chain of parent links, the node first unless
    excluded. *)
Lemma getAncestors_chain w this excludeSelf chain fuel :
  is_Some (w_nodes w !! this) →
  ancestry w (if excludeSelf : bool then parent_of w this else Some this) chain →
  (length chain < fuel)%nat →
  Node.getAncestors this excludeSelf fuel w = (Ok chain, w).
Proof.
  intros Hthis Hchain Hfuel. unfold Node.getAncestors.
  apply for_ancestors_chain with (chain := chain); try done.
  clear. induction chain; by constructor.
Qed.

Lemma ancestry_valid w first chain :
  ancestry w first chain → ∀ n, n ∈ chain → is_Some (w_nodes w !! n).
Proof.
  induction 1 as [|n chain Hn Hchain IH]; intros m Hm.
  - by apply elem_of_nil in Hm.
  - apply elem_of_cons in Hm as [->|Hm]; auto.
Qed.

(** [getAncestorIds]: the ids of that chain. *)
Lemma getAncestorIds_chain {Id} `{EqDecision Id} (h : Hierarchy.t Item Id) w
    id node excludeSelf chain fuel :
  JsMap.get (Hierarchy.f_nodes h) id = Some node →
  is_Some (w_nodes w !! node) →
  ancestry w (if excludeSelf : bool then parent_of w node else Some node) chain →
  (length chain < fuel)%nat →
  Hierarchy.getAncestorIds id excludeSelf fuel (h, w)
  = (Ok (Hierarchy.f_identify h <$> items_of w chain), (h, w)).
Proof.
  intros Hid Hnode Hchain Hfuel. unfold Hierarchy.getAncestorIds.
  rewrite (bind_ok Hierarchy.this _ (h, w) h (h, w) eq_refl).
  erewrite bind_ok; last first.
  { unfold Hierarchy.getNode.
    rewrite (bind_ok Hierarchy.this _ (h, w) h (h, w) eq_refl).
    rewrite Hid. done. }
  unfold Hierarchy.in_world. cbn [fst snd].
  rewrite (for_ancestors_chain w _ node excludeSelf chain
             (Hierarchy.f_identify h <$> items_of w chain)); try done.
  pose proof (ancestry_valid _ _ _ Hchain) as Hvalid.
  clear -Hvalid. induction chain as [|n chain IH]; [constructor|].
  destruct (Hvalid n ltac:(left)) as [rec E].
  unfold items_of. simpl. unfold item_of at 1. rewrite E. simpl.
  constructor.
  - unfold Hierarchy.nodeToId, item_of. by rewrite E.
  - apply IH. intros m Hm. apply Hvalid. by right.
Qed.
End AncestorFacts.

(** Checks a given chain of parent links in a store that is given in full. *)
Ltac walk_chain :=
  lazymatch goal with
  | |- ancestry _ None [] => apply ancestry_end
  | |- ancestry _ (Some _) (_ :: _) =>
      apply ancestry_step; [vm_compute; by eexists | walk_chain]
  | |- ancestry _ ?first _ =>
      let v := eval vm_compute in first in change first with v; walk_chain
  end.

(** C6. In the scenario (nodes assembled from [{A: [B, C], B: [D]}], a
    hierarchy whose identify function is the identity, [attachRoot([A])]), [D]
    is a grandchild of [A] via [B], [getAncestorIds({id: D})] returns
    [[D, B, A]] and with [excludeSelf] it returns [[B, A]]. In general the
    query returns the ids of the chain of parent links that starts at the node
    found for the id, or at its parent when [excludeSelf] is set, and ends at
    the first node without a parent. *)
Theorem C6_getAncestorIds_nearest_first :
  (∃ A B D h st,
     scenario_assembled.1 = Ok [A] ∧
     scenario_created.1 = Ok h ∧
     scenario_hierarchy h [A] = (Ok tt, st) ∧
     items_of st.2 [A; B; D] = ["A"; "B"; "D"] ∧
     parent_of st.2 D = Some B ∧ parent_of st.2 B = Some A ∧ parent_of st.2 A = None ∧
     (∀ fuel, (3 < fuel)%nat →
        Hierarchy.getAncestorIds "D" false fuel st = (Ok ["D"; "B"; "A"], st)) ∧
     (∀ fuel, (2 < fuel)%nat →
        Hierarchy.getAncestorIds "D" true fuel st = (Ok ["B"; "A"], st))) ∧
  (∀ (Item Id : Type) (eq_dec : EqDecision Id) (h : Hierarchy.t Item Id)
     (w : World Item) (id : Id) (node : nat) (excludeSelf : bool)
     (chain : list nat) (fuel : nat),
     JsMap.get (Hierarchy.f_nodes h) id = Some node →
     is_Some (w_nodes w !! node) →
     ancestry w (if excludeSelf then parent_of w node else Some node) chain →
     (length chain < fuel)%nat →
     Hierarchy.getAncestorIds id excludeSelf fuel (h, w)
     = (Ok (Hierarchy.f_identify h <$> items_of w chain), (h, w))).
Proof.
  split.
  - exists 0%nat, 1%nat, 3%nat, (Hierarchy.mk 0 (λ id, id) 0 [] []).
    eexists. split; [vm_compute; reflexivity|].
    split; [vm_compute; reflexivity|].
    split; [vm_compute; reflexivity|].
    split; [vm_compute; reflexivity|].
    do 3 (split; [vm_compute; reflexivity|]).
    split; intros fuel Hfuel.
    + rewrite (getAncestorIds_chain _ _ "D" 3%nat false [3; 1; 0]%nat);
        [vm_compute; reflexivity | vm_compute; reflexivity
        | vm_compute; by eexists | walk_chain | done].
    + rewrite (getAncestorIds_chain _ _ "D" 3%nat true [1; 0]%nat);
        [vm_compute; reflexivity | vm_compute; reflexivity
        | vm_compute; by eexists | walk_chain | done].
  - intros Item Id eq_dec h w id node excludeSelf chain fuel Hid Hnode Hchain Hfuel.
    by apply (getAncestorIds_chain h w id node).
Qed.

(** ** Dismantling *)

Section DismantleFacts.
Context {Item : Type}.
Implicit Types (w : World Item).

Lemma only_unlinks_refl w : only_unlinks w w.
Proof. unfold only_unlinks. repeat split; auto. Qed.

Lemma only_unlinks_trans w1 w2 w3 :
  only_unlinks w1 w2 → only_unlinks w2 w3 → only_unlinks w1 w3.
Proof.
  intros (Hp & Hc & Hb & Hi & Hl & Ha & Ho) (Hp' & Hc' & Hb' & Hi' & Hl' & Ha' & Ho').
  repeat split.
  - intros r. destruct (Hp' r) as [E|E]; [rewrite E; apply Hp | by right].
  - intros r. etrans; [apply Hc' | apply Hc].
  - intros r. by rewrite Hb'.
  - intros r. by rewrite Hi'.
  - by rewrite Hl'.
  - by rewrite Ha'.
  - by rewrite Ho'.
Qed.

Lemma unlinked_only_unlinks c p w w' : unlinked c p w w' → only_unlinks w w'.
Proof.
  intros (Hp & Hc & Hb & Hi & Hl & Ha & Ho). repeat split; try done.
  - intros r. rewrite Hp. case_decide; auto.
  - intros r. rewrite Hc. case_decide as E; [|done]. subst r.
    intros x Hx. by apply list_elem_of_filter in Hx as [_ Hx].
Qed.

(** [detachSelf] either throws and leaves the store as it was, or removes
    the link between the node and its parent. *)
Lemma detachSelf_outcome w this :
  (∃ e, Node.detachSelf this w = (Throw e, w)) ∨
  (∃ w' p, Node.detachSelf this w = (Ok this, w') ∧ unlinked this p w w').
Proof.
  destruct (w_nodes w !! this) as [n|] eqn:En; last first.
  { left. unfold Node.detachSelf, mbind, M_bind, read. rewrite En. by eexists. }
  destruct (f_parent n) as [p|] eqn:Ep; last first.
  { left. unfold Node.detachSelf.
    rewrite (bind_ok _ _ _ _ _ (read_ok _ _ _ En)), Ep. by eexists. }
  destruct (f_brand n) as [b|] eqn:Eb.
  { left. unfold Node.detachSelf.
    rewrite (bind_ok _ _ _ _ _ (read_ok _ _ _ En)), Ep.
    unfold Node.rec_isBranded. rewrite Eb. by eexists. }
  destruct (w_nodes w !! p) as [pn|] eqn:Epn; last first.
  { left. unfold Node.detachSelf.
    rewrite (bind_ok _ _ _ _ _ (read_ok _ _ _ En)), Ep.
    unfold Node.rec_isBranded. rewrite Eb.
    unfold mbind, M_bind, read. rewrite Epn. by eexists. }
  destruct (decide (this ∈ Node.children_list pn)) as [Hin|Hin].
  - right. destruct (detachSelf_run w this n p pn) as (w' & E & Hu); try done.
    by exists w', p.
  - left. unfold Node.detachSelf.
    rewrite (bind_ok _ _ _ _ _ (read_ok _ _ _ En)), Ep.
    unfold Node.rec_isBranded. rewrite Eb.
    rewrite (bind_ok _ _ _ _ _ (read_ok _ _ _ Epn)).
    unfold JsSet.has. rewrite (bool_decide_eq_false_2 _ Hin).
    rewrite orb_true_r. by eexists.
Qed.

(** A branded node that has a parent refuses to be detached. *)
Lemma detachSelf_branded w this :
  is_Some (parent_of w this) → is_Some (brand_of w this) →
  Node.detachSelf this w = (Throw branded_error, w).
Proof.
  unfold parent_of, brand_of. intros [p Hp] [b Hb].
  destruct (w_nodes w !! this) as [n|] eqn:En; [|done]. simpl in *.
  unfold Node.detachSelf.
  rewrite (bind_ok _ _ _ _ _ (read_ok _ _ _ En)), Hp.
  unfold Node.rec_isBranded. by rewrite Hb.
Qed.

(** The traversal loop keeps what each run of the body keeps. *)
Lemma graph_loop_preserves {TNode St} `{EqDecision TNode} (R : St → St → Prop)
    (traverse : TraverseGraph.Callback) (body : TNode → M St unit) :
  (∀ st, R st st) →
  (∀ st1 st2 st3, R st1 st2 → R st2 st3 → R st1 st3) →
  (∀ n st o st', body n st = (o, st') → R st st') →
  ∀ fuel sig st o st',
    TraverseGraph.loop traverse body fuel sig st = (o, st') → R st st'.
Proof.
  intros Hrefl Htrans Hbody. induction fuel as [|fuel IH]; intros sig st o st' E.
  - injection E as <- <-. apply Hrefl.
  - simpl in E. destruct (GraphSignal.tryGetNext sig) as [[[n|]|e|] sig'].
    + destruct (GraphSignal.shouldYield _).
      * destruct (body n st) as [[[]|e|] st1] eqn:Eb.
        -- apply Hbody in Eb. apply IH in E. by eapply Htrans.
        -- injection E as <- <-. by apply Hbody in Eb.
        -- injection E as <- <-. by apply Hbody in Eb.
      * by apply IH in E.
    + injection E as <- <-. apply Hrefl.
    + injection E as <- <-. apply Hrefl.
    + injection E as <- <-. apply Hrefl.
Qed.

Lemma detach_body_only_unlinks (n : nat) w o w' :
  (Node.detachSelf n ≫= λ _, mret tt) w = (o, w') → only_unlinks w w'.
Proof.
  destruct (detachSelf_outcome w n) as [[e E]|(w1 & p & E & Hu)]; intros H.
  - rewrite (bind_throw _ _ _ _ _ E) in H. injection H as <- <-.
    apply only_unlinks_refl.
  - rewrite (bind_ok _ _ _ _ _ E) in H. injection H as <- <-.
    by eapply unlinked_only_unlinks.
Qed.

Lemma on_world_state {St A} (view : St → World Item) (m : M (World Item) A) st o st' :
  Node.on_world view m st = (o, st') → st' = st.
Proof.
  unfold Node.on_world. destruct (m (view st)) as [[a|e|] ?]; by intros [= _ <-].
Qed.

Lemma for_descendants_only_unlinks this excludeSelf type fuel w o w' :
  Node.for_descendants id this excludeSelf type
    (λ descendant, Node.detachSelf descendant;; mret tt) fuel w = (o, w') →
  only_unlinks w w'.
Proof.
  unfold Node.for_descendants. intros E.
  apply bind_inv in E as [(roots & w1 & Er & E)|[(e & Er & _)|[Er _]]];
    apply on_world_state in Er as ->; [|apply only_unlinks_refl..].
  unfold TraverseGraph.for_of in E.
  eapply (graph_loop_preserves only_unlinks); [| | |done].
  - apply only_unlinks_refl.
  - apply only_unlinks_trans.
  - intros m st o' st'. apply detach_body_only_unlinks.
Qed.

(** Whatever its outcome, [dismantle] only removes links. *)
Lemma dismantle_only_unlinks fuel : ∀ this includeAncestry w o w',
  Node.dismantle fuel this includeAncestry w = (o, w') → only_unlinks w w'.
Proof.
  induction fuel as [|fuel IH]; intros this incl w o w' E.
  - injection E as <- <-. apply only_unlinks_refl.
  - assert (∀ (po : option nat) o1 w1,
      (match po with
       | Some parent =>
           if incl
           then Node.detachSelf this;; Node.dismantle fuel parent true;; mret tt
           else mret tt
       | None => mret tt
       end) w = (o1, w1) → only_unlinks w w1) as Hup.
    { intros [p|] o1 w1 Eup; destruct incl;
        try (injection Eup as <- <-; apply only_unlinks_refl).
      apply bind_inv in Eup as [(a & w2 & Ed & Eup)|[(e & Ed & _)|[Ed _]]];
        [|eapply detach_body_only_unlinks, bind_throw; exact Ed
         |eapply detach_body_only_unlinks, bind_out_of_fuel; exact Ed].
      eapply only_unlinks_trans.
      { eapply (detach_body_only_unlinks this w (Ok tt) w2).
        by rewrite (bind_ok _ _ _ _ _ Ed). }
      apply bind_inv in Eup as [(a' & w3 & Ed' & Eup)|[(e & Ed' & _)|[Ed' _]]];
        apply IH in Ed'; [by injection Eup as <- <-|done..]. }
    simpl in E.
    apply bind_inv in E as [(n & w0 & En & E)|[(e & En & _)|[En _]]];
      destruct (reads_read (Item:=Item) this w) as [[n' En']|[e' En']];
      rewrite En' in En; try discriminate En;
      try (injection En as <- <-; apply only_unlinks_refl).
    injection En as <- <-.
    apply bind_inv in E as [([] & w1 & Eup & E)|[(e & Eup & _)|[Eup _]]];
      apply Hup in Eup; [|done..].
    eapply only_unlinks_trans; [done|].
    apply bind_inv in E as [([] & w2 & Ef & E)|[(e & Ef & _)|[Ef _]]];
      apply for_descendants_only_unlinks in Ef; [by injection E as <- <-|done..].
Qed.
Lemma dismantle_S fuel this includeAncestry :
  Node.dismantle (Item:=Item) (S fuel) this includeAncestry
  = (n ← read this;
     (match f_parent n return M (World Item) unit with
      | Some parent =>
          if includeAncestry
          then Node.detachSelf this;; Node.dismantle fuel parent true;; mret tt
          else mret tt
      | None => mret tt
      end);;
     Node.for_descendants id this true BreadthFirst
       (λ descendant, Node.detachSelf descendant;; mret tt) fuel;;
     mret this).
Proof. done. Qed.
End DismantleFacts.


(** ** The control signal, step by step *)

Section SignalFacts.
Context {TNode : Type} `{EqDecision TNode}.
Implicit Types (sig : GraphSignal.t TNode) (pend : list TNode).

Lemma cleanup_frames_sum bc :
  foldr Z.add 0 (GraphSignal.cleanup_frames bc) = foldr Z.add 0 bc.
Proof.
  induction bc as [|v bc IH]; [done|]. simpl.
  case_bool_decide as Hv; [|done]. rewrite IH, Hv. lia.
Qed.

Lemma tryDetach_pending (b : Linear.t TNode) x pend :
  (if Linear.isStack b then rev (Linear.items b) else Linear.items b) = x :: pend →
  Linear.tryDetach b =
    (Some x, Linear.mk (Linear.isStack b)
               (if Linear.isStack b then rev pend else pend)).
Proof.
  destruct b as [[] items]; simpl; intros E.
  - assert (items = rev pend ++ [x]) as ->.
    { rewrite <- (rev_involutive items), E. done. }
    unfold Linear.tryDetach. simpl. rewrite last_snoc.
    by rewrite removelast_last.
  - unfold Linear.tryDetach. simpl. by rewrite E.
Qed.

Lemma tryDetach_empty (b : Linear.t TNode) :
  (if Linear.isStack b then rev (Linear.items b) else Linear.items b) = [] →
  Linear.tryDetach b = (None, b).
Proof.
  destruct b as [[] items]; simpl; intros E.
  - assert (items = []) as ->.
    { rewrite <- (rev_involutive items), E. done. }
    done.
  - by rewrite E.
Qed.

(** Pulling from a ready signal with something pending gives the first
    pending node, without an error. *)
Lemma tryGetNextInternal_ready sig x pend :
  signal_ready sig (x :: pend) →
  ∃ sig', GraphSignal.tryGetNextInternal sig = (Ok (Some x), sig') ∧
    signal_ready sig' pend ∧
    GraphSignal.isDepthFirst sig' = GraphSignal.isDepthFirst sig ∧
    GraphSignal.visited sig' = GraphSignal.visited sig ∧
    GraphSignal.skipped sig' = false.
Proof.
  intros (Hmode & Hpend & Hsum). unfold pending in Hpend.
  unfold GraphSignal.tryGetNextInternal.
  rewrite (tryDetach_pending _ x pend Hpend).
  destruct sig as [vs df b d bc dc c sk]. simpl in *.
  destruct df.
  - specialize (Hsum eq_refl). destruct bc as [|v bc].
    { simpl in Hsum. lia. }
    simpl. eexists. split; [done|]. unfold signal_ready, pending. simpl.
    rewrite Hmode. repeat split; try done.
    + by rewrite rev_involutive.
    + intros _. simpl in Hsum. lia.
  - eexists. split; [done|]. unfold signal_ready, pending. simpl.
    rewrite Hmode. case_bool_decide; simpl; repeat split; done.
Qed.

Lemma tryGetNextInternal_done sig :
  signal_ready sig [] → GraphSignal.tryGetNextInternal sig = (Ok None, sig).
Proof.
  intros (Hmode & Hpend & Hsum). unfold pending in Hpend.
  unfold GraphSignal.tryGetNextInternal. by rewrite (tryDetach_empty _ Hpend).
Qed.

(** The default callback and the cleanup after a pull: the children join
    the pending nodes, the node is to be yielded. *)
Lemma callback_cleanup_ready sig pend cs :
  signal_ready sig pend → GraphSignal.skipped sig = false →
  let sig1 := GraphSignal.next cs sig in
  let sig2 := GraphSignal.cleanup sig1 in
  GraphSignal.shouldYield sig1 = true ∧
  signal_ready sig2 (pending_after (GraphSignal.isDepthFirst sig) cs pend) ∧
  GraphSignal.isDepthFirst sig2 = GraphSignal.isDepthFirst sig ∧
  GraphSignal.visited sig2 = GraphSignal.visited sig.
Proof.
  intros (Hmode & Hpend & Hsum) Hsk.
  destruct sig as [vs df [st items] d bc dc c sk]. simpl in *. subst sk st.
  unfold pending in Hpend. simpl in Hpend.
  unfold GraphSignal.next, GraphSignal.cleanup, GraphSignal.shouldYield.
  destruct df; cbn -[GraphSignal.cleanup_frames Z.of_nat].
  - specialize (Hsum eq_refl).
    case_bool_decide as Hc; cbn -[GraphSignal.cleanup_frames Z.of_nat];
      (split; [done|]); (split; [|done]);
      unfold signal_ready, pending, pending_after;
      cbn -[GraphSignal.cleanup_frames Z.of_nat];
      (split; [done|]); rewrite rev_app_distr, Hpend; (split; [done|]);
      intros _; rewrite cleanup_frames_sum; cbn -[Z.of_nat];
      rewrite length_app, length_rev; lia.
  - split; [done|]. unfold signal_ready, pending, pending_after. simpl.
    rewrite Hpend. done.
Qed.

Lemma constructor_ready (roots : list TNode) detectCycles type :
  let sig := GraphSignal.constructor roots detectCycles type in
  signal_ready sig (pending_after (GraphSignal.isDepthFirst sig) roots []) ∧
  GraphSignal.isDepthFirst sig
    = match type with DepthFirst => true | BreadthFirst => false end ∧
  GraphSignal.visited sig = (if detectCycles then Some [] else None).
Proof.
  unfold GraphSignal.constructor, signal_ready, pending, pending_after.
  destruct type; simpl; repeat split; try done.
  - by rewrite app_nil_r.
  - intros _. rewrite app_nil_r, length_rev. lia.
Qed.
End SignalFacts.

(** ** Traversal orders *)

Section OrderFacts.
Context {TNode : Type} `{EqDecision TNode}.
Variable next : TNode → list TNode.

Lemma yields_done df : yields next df [] [].
Proof.
  exists 1%nat. intros sig acc Hready Hdf Hvis. simpl.
  unfold GraphSignal.tryGetNext. rewrite Hvis.
  rewrite (tryGetNextInternal_done sig Hready). by rewrite app_nil_r.
Qed.

Lemma yields_step df x pend out :
  yields next df (pending_after df (next x) pend) out →
  yields next df (x :: pend) (x :: out).
Proof.
  intros [fuel Hrest]. exists (S fuel). intros sig acc Hready Hdf Hvis. simpl.
  unfold GraphSignal.tryGetNext. rewrite Hvis.
  destruct (tryGetNextInternal_ready sig x pend Hready)
    as (sig' & -> & Hready' & Hdf' & Hvis' & Hsk').
  destruct (callback_cleanup_ready sig' pend (next x) Hready' Hsk')
    as (Hyield & Hready2 & Hdf2 & Hvis2).
  unfold TraverseGraph.default_callback. rewrite Hyield.
  unfold modify at 1. rewrite Hrest.
  - by rewrite <- app_assoc.
  - by rewrite <- Hdf, <- Hdf'.
  - by rewrite Hdf2, Hdf'.
  - by rewrite Hvis2, Hvis'.
Qed.

(** Breadth first: the pending nodes [q], then what follows from the nodes
    behind them and their children. *)
Lemma yields_queue q : ∀ r out,
  yields next false (r ++ (q ≫= next)) out →
  yields next false (q ++ r) (q ++ out).
Proof.
  induction q as [|x q IH]; intros r out H.
  - by rewrite app_nil_r in H.
  - simpl. apply yields_step. unfold pending_after.
    rewrite <- app_assoc. apply IH.
    rewrite <- app_assoc. by rewrite bind_cons in H.
Qed.

Lemma yields_levels level out :
  levels next level out → yields next false level out.
Proof.
  induction 1 as [|level rest Hne Hrest IH].
  - apply yields_done.
  - rewrite <- (app_nil_r level) at 1. by apply yields_queue.
Qed.

(** Depth first: the branch of the first pending node, then the rest. *)
Lemma yields_branches ns below :
  branches next ns below →
  ∀ rest out, yields next true rest out → yields next true (ns ++ rest) (below ++ out).
Proof.
  induction 1 using branches_ind2 with
    (P := λ n below, ∀ rest out,
            yields next true rest out → yields next true (n :: rest) (below ++ out));
    intros pend out Hrest.
  - simpl. apply yields_step. unfold pending_after. by apply IHbranches.
  - done.
  - simpl. rewrite <- app_assoc. apply IHbranches. by apply IHbranches0.
Qed.

Lemma spread_yields roots type out :
  let df := match type with DepthFirst => true | BreadthFirst => false end in
  yields next df (pending_after df roots []) out →
  ∃ fuel, traverseGraph_spread roots next false type fuel = Ok out.
Proof.
  intros df [fuel H]. exists fuel.
  unfold traverseGraph_spread, TraverseGraph.for_of.
  destruct (constructor_ready roots false type) as (Hready & Hdf & Hvis).
  rewrite H; [done| |done|done].
  by rewrite Hdf in Hready.
Qed.

(** Breadth-first traversal yields the nodes level by level. *)
Lemma breadth_first_levels roots out :
  levels next roots out →
  ∃ fuel, traverseGraph_spread roots next false BreadthFirst fuel = Ok out.
Proof.
  intros H. apply spread_yields. simpl. by apply yields_levels.
Qed.

(** Depth-first traversal yields branch after branch, starting with the
    branch of the root given last. *)
Lemma depth_first_branches roots out :
  branches next (rev roots) out →
  ∃ fuel, traverseGraph_spread roots next false DepthFirst fuel = Ok out.
Proof.
  intros H. apply spread_yields. simpl.
  rewrite <- (app_nil_r out).
  apply (yields_branches _ _ H [] []), yields_done.
Qed.
End OrderFacts.

(** ** Descendants of a node *)

Section DescendantFacts.
Context {Item : Type}.
Implicit Types (w : World Item).

(** Collecting the descendants leaves the store alone; on a fixed store the
    traversal is the one of the graph whose edges are the child sets. *)
Lemma descendants_loop_fixed_store w fuel : ∀ sig acc,
  TraverseGraph.loop
    (TraverseGraph.default_callback
       (λ st : World Item * list nat, Node.next_children st.1))
    (Node.push_each (λ _ n, Ok n)) fuel sig (w, acc)
  = match TraverseGraph.loop
            (TraverseGraph.default_callback (λ _ : list nat, children_of w))
            (λ n, modify (λ acc, acc ++ [n])) fuel sig acc with
    | (o, acc') => (o, (w, acc'))
    end.
Proof.
  induction fuel as [|fuel IH]; intros sig acc; [done|]. simpl.
  destruct (GraphSignal.tryGetNext sig) as [[[n|]|e|] sig']; try done.
  unfold TraverseGraph.default_callback at 1 2 4 5. cbn [fst].
  unfold Node.next_children.
  destruct (GraphSignal.shouldYield _); [|apply IH].
  unfold Node.push_each at 1, modify at 1. cbn [fst snd]. apply IH.
Qed.

Lemma getDescendants_spread w this excludeSelf type fuel :
  is_Some (w_nodes w !! this) →
  Node.getDescendants this excludeSelf type fuel w
  = (traverseGraph_spread (if excludeSelf then children_of w this else [this])
       (children_of w) false type fuel, w).
Proof.
  intros [rec Erec]. unfold Node.getDescendants, Node.filled, Node.for_descendants.
  erewrite bind_ok; last first.
  { unfold Node.on_world. cbn [fst].
    instantiate (1 := (w, [])).
    instantiate (1 := if excludeSelf then children_of w this else [this]).
    destruct excludeSelf; [|done].
    rewrite (bind_ok _ _ _ _ _ (read_ok _ _ _ Erec)).
    unfold children_of, Node.children_list. rewrite Erec. simpl.
    by destruct (f_children rec). }
  unfold traverseGraph_spread, TraverseGraph.for_of.
  rewrite descendants_loop_fixed_store.
  by destruct (TraverseGraph.loop _ _ _ _ _) as [[[]|e|] acc'].
Qed.
End DescendantFacts.

(** The claim C4 fails on the code in its depth-first order: from the nodes
    assembled from [{A: [B, C], B: [D]}], the depth-first descendant traversal
    from [A] never returns [[A, B, D, C]]; what it returns is [[A, C, B, D]]. *)
Lemma C4_depth_first_is_not_A_B_D_C :
  (¬ ∃ fuel nodes,
       (Node.getDescendants 0%nat false DepthFirst fuel scenario_assembled.2).1 = Ok nodes ∧
       items_of scenario_assembled.2 nodes = ["A"; "B"; "D"; "C"]) ∧
  (∃ nodes,
     (Node.getDescendants 0%nat false DepthFirst 8 scenario_assembled.2).1 = Ok nodes ∧
     items_of scenario_assembled.2 nodes = ["A"; "C"; "B"; "D"]).
Proof.
  split.
  - intros (fuel & nodes & E & Hitems).
    do 5 (destruct fuel as [|fuel]; [vm_compute in E; discriminate E|]).
    vm_compute in E. injection E as <-. vm_compute in Hitems. discriminate Hitems.
  - eexists. split; by vm_compute.
Qed.

(** C4, as the code has it. The nodes assembled from [{A: [B, C], B: [D]}]
    are one root [A] with children [B] and [C], and [B] with child [D]. The
    breadth-first descendant traversal from [A] yields [[A, B, C, D]], the
    depth-first one yields [[A, C, B, D]]. In general the breadth-first
    traversal from a node yields the nodes level by level, all of depth [d]
    before any of depth [d + 1], and the depth-first traversal yields a node
    and then the complete branch of each child before that of a sibling,
    starting with the child attached last. *)
Theorem C4_descendant_traversal_orders :
  (∃ A B C D w,
     scenario_assembled = (Ok [A], w) ∧
     items_of w [A; B; C; D] = ["A"; "B"; "C"; "D"] ∧
     parent_of w A = None ∧
     children_of w A = [B; C] ∧ children_of w B = [D] ∧
     children_of w C = [] ∧ children_of w D = [] ∧
     (∀ fuel, (4 < fuel)%nat →
        Node.getDescendants A false BreadthFirst fuel w = (Ok [A; B; C; D], w)) ∧
     (∀ fuel, (4 < fuel)%nat →
        Node.getDescendants A false DepthFirst fuel w = (Ok [A; C; B; D], w))) ∧
  (∀ (Item : Type) (w : World Item) (this : nat) (out : list nat),
     is_Some (w_nodes w !! this) →
     levels (children_of w) [this] out →
     ∃ fuel, Node.getDescendants this false BreadthFirst fuel w = (Ok out, w)) ∧
  (∀ (Item : Type) (w : World Item) (this : nat) (out : list nat),
     is_Some (w_nodes w !! this) →
     branch (children_of w) this out →
     ∃ fuel, Node.getDescendants this false DepthFirst fuel w = (Ok out, w)).
Proof.
  split; [|split].
  - exists 0%nat, 1%nat, 2%nat, 3%nat. eexists.
    split; [by vm_compute|]. do 6 (split; [done|]).
    split; intros fuel Hfuel;
      do 5 (destruct fuel as [|fuel]; [lia|]); by vm_compute.
  - intros Item w this out Hthis Hlevels.
    destruct (breadth_first_levels _ _ _ Hlevels) as [fuel E].
    exists fuel. by rewrite getDescendants_spread, E.
  - intros Item w this out Hthis Hbranch.
    destruct (depth_first_branches (children_of w) [this] out) as [fuel E].
    { simpl. rewrite <- (app_nil_r out). constructor; [done|constructor]. }
    exists fuel. by rewrite getDescendants_spread, E.
Qed.

(** ** Cycle detection *)

Section CycleFacts.
Context {TNode : Type} `{EqDecision TNode}.
Implicit Types (sig : GraphSignal.t TNode) (pend vs : list TNode).

Lemma set_visited_ready sig pend v :
  signal_ready sig pend → signal_ready (GraphSignal.set_visited v sig) pend.
Proof. by destruct sig. Qed.

(** The loop of [tryGetNext] drops the pending nodes that were yielded
    before, without an error, and stops at the first one that was not. *)
Lemma tryGetNext_loop_fresh pre : ∀ fuel sig vs x post,
  signal_ready sig (pre ++ x :: post) →
  GraphSignal.visited sig = Some vs →
  (∀ n, n ∈ pre → n ∈ vs) → x ∉ vs →
  (length pre < fuel)%nat →
  ∃ sig', GraphSignal.tryGetNext_loop fuel sig = (Ok (Some x), sig') ∧
    signal_ready sig' post ∧
    GraphSignal.visited sig' = Some (vs ++ [x]) ∧
    GraphSignal.isDepthFirst sig' = GraphSignal.isDepthFirst sig ∧
    GraphSignal.skipped sig' = false.
Proof.
  induction pre as [|y pre IH]; intros fuel sig vs x post Hready Hvis Hpre Hx Hfuel;
    (destruct fuel as [|fuel]; [simpl in Hfuel; lia|]); simpl.
  - destruct (tryGetNextInternal_ready sig x post Hready)
      as (sig' & E & Hready' & Hdf' & Hvis' & Hsk').
    rewrite (bind_ok _ _ _ _ _ E).
    rewrite (bind_ok get_state _ sig' sig' sig' eq_refl).
    rewrite Hvis', Hvis. simpl. unfold JsSet.has, JsSet.add, JsSet.has.
    rewrite !bool_decide_eq_false_2 by done.
    eexists. split; [done|]. split; [by apply set_visited_ready|].
    by repeat split.
  - destruct (tryGetNextInternal_ready sig y (pre ++ x :: post) Hready)
      as (sig' & E & Hready' & Hdf' & Hvis' & Hsk').
    rewrite (bind_ok _ _ _ _ _ E).
    rewrite (bind_ok get_state _ sig' sig' sig' eq_refl).
    rewrite Hvis', Hvis. simpl. unfold JsSet.has at 1.
    rewrite bool_decide_eq_true_2 by (apply Hpre; by left).
    destruct (IH fuel sig' vs x post) as (sig2 & E2 & ? & ? & Hdf2 & ?); try done.
    + by rewrite Hvis'.
    + intros n Hn. apply Hpre. by right.
    + simpl in Hfuel. lia.
    + exists sig2. split; [done|]. split; [done|]. split; [done|].
      split; [by rewrite Hdf2|done].
Qed.

Lemma tryGetNext_loop_exhausted pend : ∀ fuel sig vs,
  signal_ready sig pend →
  GraphSignal.visited sig = Some vs →
  (∀ n, n ∈ pend → n ∈ vs) →
  (length pend < fuel)%nat →
  ∃ sig', GraphSignal.tryGetNext_loop fuel sig = (Ok None, sig').
Proof.
  induction pend as [|y pend IH]; intros fuel sig vs Hready Hvis Hpend Hfuel;
    (destruct fuel as [|fuel]; [simpl in Hfuel; lia|]); simpl.
  - rewrite (bind_ok _ _ _ _ _ (tryGetNextInternal_done sig Hready)).
    by eexists.
  - destruct (tryGetNextInternal_ready sig y pend Hready)
      as (sig' & E & Hready' & Hdf' & Hvis' & Hsk').
    rewrite (bind_ok _ _ _ _ _ E).
    rewrite (bind_ok get_state _ sig' sig' sig' eq_refl).
    rewrite Hvis', Hvis. simpl. unfold JsSet.has at 1.
    rewrite bool_decide_eq_true_2 by (apply Hpend; by left).
    apply (IH fuel sig' vs); try done.
    + by rewrite Hvis'.
    + intros n Hn. apply Hpend. by right.
    + simpl in Hfuel. lia.
Qed.

Lemma ready_length sig pend :
  signal_ready sig pend → length (Linear.items (GraphSignal.nodes sig)) = length pend.
Proof.
  intros (_ & <- & _). unfold pending.
  destruct (Linear.isStack _); [by rewrite length_rev|done].
Qed.

(** The pending nodes were all yielded before, or there is a first one that
    was not. *)
Lemma first_fresh pend vs :
  (∀ n, n ∈ pend → n ∈ vs) ∨
  (∃ pre x post, pend = pre ++ x :: post ∧ (∀ n, n ∈ pre → n ∈ vs) ∧ x ∉ vs).
Proof.
  induction pend as [|y pend IH].
  - left. intros n Hn. by apply elem_of_nil in Hn.
  - destruct (decide (y ∈ vs)) as [Hy|Hy].
    + destruct IH as [Hall|(pre & x & post & -> & Hpre & Hx)].
      * left. intros n Hn. apply elem_of_cons in Hn as [->|Hn]; auto.
      * right. exists (y :: pre), x, post. repeat split; try done.
        intros n Hn. apply elem_of_cons in Hn as [->|Hn]; auto.
    + right. exists [], y, pend. repeat split; try done.
      intros n Hn. by apply elem_of_nil in Hn.
Qed.
End CycleFacts.

Section VisitingFacts.
Context {TNode : Type} `{EqDecision TNode}.
Variable next : TNode → list TNode.
Variable roots : list TNode.
Implicit Types (pend vs : list TNode).

Lemma elem_of_pending_after df (cs post : list TNode) n :
  n ∈ pending_after df cs post ↔ n ∈ cs ∨ n ∈ post.
Proof.
  unfold pending_after. destruct df; rewrite elem_of_app.
  - by rewrite !list_elem_of_In, <- in_rev.
  - tauto.
Qed.

Lemma visiting_start df : visiting next roots [] (pending_after df roots []).
Proof.
  repeat split.
  - constructor.
  - intros n [Hn|Hn]; [by apply elem_of_nil in Hn|].
    apply elem_of_pending_after in Hn as [Hn|Hn]; [by constructor|].
    by apply elem_of_nil in Hn.
  - intros r Hr. right. apply elem_of_pending_after. by left.
  - intros v c Hv. by apply elem_of_nil in Hv.
  - intros i n Hi. by rewrite lookup_nil in Hi.
  - intros n Hn. left.
    apply elem_of_pending_after in Hn as [Hn|Hn]; [done|].
    by apply elem_of_nil in Hn.
Qed.

(** Yielding the first pending node that was not yielded before. *)
Lemma visiting_step df vs pre x post :
  visiting next roots vs (pre ++ x :: post) →
  (∀ n, n ∈ pre → n ∈ vs) → x ∉ vs →
  visiting next roots (vs ++ [x]) (pending_after df (next x) post).
Proof.
  intros (Hnodup & Hreach & Hroots & Hclosed & Horder & Hfrom) Hpre Hx.
  assert (∀ n, n ∈ pre ++ x :: post →
               n ∈ vs ++ [x] ∨ n ∈ pending_after df (next x) post) as Hkeep.
  { intros n Hn. rewrite elem_of_app, elem_of_pending_after.
    apply elem_of_app in Hn as [Hn|Hn]; [left; left; by apply Hpre|].
    apply elem_of_cons in Hn as [->|Hn]; [left; right; by left|].
    right. by right. }
  assert (x ∈ pre ++ x :: post) as Hxin.
  { apply elem_of_app. right. by left. }
  repeat split.
  - apply NoDup_app. repeat split; [done| |apply NoDup_singleton].
    intros n Hn Hn'. apply list_elem_of_singleton in Hn' as ->. done.
  - intros n [Hn|Hn].
    + apply elem_of_app in Hn as [Hn|Hn]; [apply Hreach; by left|].
      apply list_elem_of_singleton in Hn as ->. apply Hreach. by right.
    + apply elem_of_pending_after in Hn as [Hn|Hn].
      * apply reachable_step with x; [|done]. apply Hreach. by right.
      * apply Hreach. right. apply elem_of_app. right. by right.
  - intros r Hr. destruct (Hroots r Hr) as [Hv|Hp].
    + left. apply elem_of_app. by left.
    + by apply Hkeep.
  - intros v c Hv Hc. apply elem_of_app in Hv as [Hv|Hv].
    + destruct (Hclosed v c Hv Hc) as [Hc'|Hc'].
      * left. apply elem_of_app. by left.
      * by apply Hkeep.
    + apply list_elem_of_singleton in Hv as ->.
      right. apply elem_of_pending_after. by left.
  - intros i n Hi. apply lookup_app_Some in Hi as [Hi|[Hlen Hi]].
    + destruct (Horder i n Hi) as [Hr|(j & p & Hj & Hp & Hn)]; [by left|].
      right. exists j, p. repeat split; try done. by apply lookup_app_l_Some.
    + assert (n = x) as ->.
      { destruct (i - length vs)%nat; [by injection Hi|done]. }
      destruct (Hfrom x Hxin) as [Hr|(p & Hp & Hn)]; [by left|].
      right. apply list_elem_of_lookup in Hp as [j Hj].
      exists j, p. repeat split; try done.
      * apply lookup_lt_Some in Hj. lia.
      * by apply lookup_app_l_Some.
  - intros n Hn. apply elem_of_pending_after in Hn as [Hn|Hn].
    + right. exists x. split; [|done]. apply elem_of_app. right. by left.
    + destruct (Hfrom n) as [Hr|(p & Hp & Hn')]; [|by left|].
      * apply elem_of_app. right. by right.
      * right. exists p. split; [|done]. apply elem_of_app. by left.
Qed.

(** When nothing new is pending, the yielded nodes are the reachable ones. *)
Lemma visiting_final vs pend :
  visiting next roots vs pend → (∀ n, n ∈ pend → n ∈ vs) →
  ∀ n, n ∈ vs ↔ reachable next roots n.
Proof.
  intros (Hnodup & Hreach & Hroots & Hclosed & Horder & Hfrom) Hpend n. split.
  - intros Hn. apply Hreach. by left.
  - induction 1 as [r Hr|m c Hm IH Hc].
    + destruct (Hroots r Hr); auto.
    + destruct (Hclosed m c IH Hc); auto.
Qed.

Lemma visiting_bound vs pend universe :
  visiting next roots vs pend →
  (∀ n, reachable next roots n → n ∈ universe) →
  (length vs ≤ length universe)%nat.
Proof.
  intros (Hnodup & Hreach & _) Huniv.
  apply submseteq_length, NoDup_submseteq; [done|].
  intros n Hn. apply Huniv, Hreach. by left.
Qed.

(** The driver in cycle-detecting mode: it ends without an error, having
    yielded every reachable node once. *)
Lemma loop_visiting universe :
  (∀ n, reachable next roots n → n ∈ universe) →
  ∀ fuel (sig : GraphSignal.t TNode) vs pend,
    signal_ready sig pend →
    GraphSignal.visited sig = Some vs →
    visiting next roots vs pend →
    (length universe < fuel + length vs)%nat →
    ∃ out,
      TraverseGraph.loop (TraverseGraph.default_callback (λ _, next))
        (λ n, modify (λ acc, acc ++ [n])) fuel sig vs = (Ok tt, out) ∧
      NoDup out ∧
      (∀ n, n ∈ out ↔ reachable next roots n) ∧
      discovery_order next roots out.
Proof.
  intros Huniv. induction fuel as [|fuel IH]; intros sig vs pend Hready Hvis Hinv Hfuel.
  { pose proof (visiting_bound vs pend universe Hinv Huniv). lia. }
  simpl. unfold GraphSignal.tryGetNext. rewrite Hvis.
  rewrite (ready_length sig pend Hready).
  destruct (first_fresh pend vs) as [Hall|(pre & x & post & -> & Hpre & Hx)].
  - destruct (tryGetNext_loop_exhausted pend (S (length pend)) sig vs)
      as (sig' & ->); try done; [lia|].
    exists vs. split; [done|]. split; [apply Hinv|].
    split; [by apply (visiting_final vs pend)|apply Hinv].
  - destruct (tryGetNext_loop_fresh pre (S (length (pre ++ x :: post))) sig vs x post)
      as (sig' & -> & Hready' & Hvis' & Hdf' & Hsk'); try done.
    { rewrite length_app. lia. }
    destruct (callback_cleanup_ready sig' post (next x) Hready' Hsk')
      as (Hyield & Hready2 & Hdf2 & Hvis2).
    unfold TraverseGraph.default_callback. rewrite Hyield.
    unfold modify at 1.
    apply (IH _ (vs ++ [x]) (pending_after (GraphSignal.isDepthFirst sig') (next x) post)).
    + done.
    + by rewrite Hvis2.
    + by apply (visiting_step _ vs pre x post).
    + rewrite length_app. simpl. lia.
Qed.
End VisitingFacts.

Section FirstVisitFacts.
Context {TNode : Type} `{EqDecision TNode}.
Variable next : TNode → list TNode.

(** Pending nodes that were all yielded before give nothing more. *)
Lemma first_visits_all_seen df vs (pend : list TNode) :
  (∀ n, n ∈ pend → n ∈ vs) → first_visits next df vs pend [].
Proof.
  induction pend as [|x pend IH]; intros Hall; [constructor|].
  apply first_visits_seen.
  - apply Hall. by left.
  - apply IH. intros n Hn. apply Hall. by right.
Qed.

(** The pending nodes yielded before are passed over, up to the first new
    one. *)
Lemma first_visits_fresh df vs (pre : list TNode) x post out :
  (∀ n, n ∈ pre → n ∈ vs) → x ∉ vs →
  first_visits next df (vs ++ [x]) (pending_after df (next x) post) out →
  first_visits next df vs (pre ++ x :: post) (x :: out).
Proof.
  intros Hpre Hx Hout. induction pre as [|p pre IH]; simpl.
  - by apply first_visits_new.
  - apply first_visits_seen.
    + apply Hpre. by left.
    + apply IH. intros n Hn. apply Hpre. by right.
Qed.

(** A finished run of the driver in cycle-detecting mode yields the first
    visits of its work list, behind what it had yielded before. *)
Lemma loop_first_visits :
  ∀ fuel (sig : GraphSignal.t TNode) vs pend acc out,
    signal_ready sig pend →
    GraphSignal.visited sig = Some vs →
    TraverseGraph.loop (TraverseGraph.default_callback (λ _, next))
      (λ n, modify (λ acc, acc ++ [n])) fuel sig acc = (Ok tt, out) →
    ∃ tail, out = acc ++ tail ∧
      first_visits next (GraphSignal.isDepthFirst sig) vs pend tail.
Proof.
  induction fuel as [|fuel IH]; intros sig vs pend acc out Hready Hvis E; [done|].
  simpl in E. unfold GraphSignal.tryGetNext in E. rewrite Hvis in E.
  rewrite (ready_length sig pend Hready) in E.
  destruct (first_fresh pend vs) as [Hall|(pre & x & post & -> & Hpre & Hx)].
  - destruct (tryGetNext_loop_exhausted pend (S (length pend)) sig vs)
      as (sig' & E'); try done; [lia|].
    rewrite E' in E. injection E as <-.
    exists []. split; [by rewrite app_nil_r|].
    by apply first_visits_all_seen.
  - destruct (tryGetNext_loop_fresh pre (S (length (pre ++ x :: post))) sig vs x post)
      as (sig' & E' & Hready' & Hvis' & Hdf' & Hsk'); try done.
    { rewrite length_app. lia. }
    rewrite E' in E.
    destruct (callback_cleanup_ready sig' post (next x) Hready' Hsk')
      as (Hyield & Hready2 & Hdf2 & Hvis2).
    unfold TraverseGraph.default_callback in E. rewrite Hyield in E.
    unfold modify at 1 in E.
    apply (IH _ (vs ++ [x])
             (pending_after (GraphSignal.isDepthFirst sig') (next x) post)) in E
      as (tail & -> & Htail); [|done|by rewrite Hvis2].
    exists (x :: tail). split; [by rewrite <- app_assoc|].
    rewrite Hdf2, Hdf' in Htail.
    by apply first_visits_fresh.
Qed.

(** Breadth first, the work list gives the new nodes of its front part,
    and goes on with what is behind it and their children. *)
Lemma first_visits_level (q : list TNode) : ∀ vs r out,
  first_visits next false vs (q ++ r) out →
  ∃ rest, out = unseen vs q ++ rest ∧
    first_visits next false (vs ++ unseen vs q) (r ++ (unseen vs q ≫= next)) rest.
Proof.
  induction q as [|x q IH]; intros vs r out H; simpl in *.
  - exists out. by rewrite !app_nil_r.
  - inversion H as [|vs' x' pend out' Hin Hrest|vs' x' pend out' Hnew Hrest]; subst.
    + rewrite decide_True by done. by apply IH.
    + rewrite decide_False by done.
      unfold pending_after in Hrest. rewrite <- app_assoc in Hrest.
      apply IH in Hrest as (rest & -> & Hrest).
      exists rest. split; [done|].
      rewrite <- !app_assoc in Hrest. exact Hrest.
Qed.

Lemma first_visits_levels_once : ∀ n vs (cands out : list TNode),
  (length out < n)%nat →
  first_visits next false vs cands out → levels_once next vs cands out.
Proof.
  induction n as [|n IH]; intros vs cands out Hlen H; [lia|].
  rewrite <- (app_nil_r cands) in H.
  apply first_visits_level in H as (rest & -> & Hrest). simpl in Hrest.
  destruct (unseen vs cands) as [|l level] eqn:El.
  - simpl in *. inversion Hrest; subst. by apply levels_once_end.
  - rewrite <- El in *. apply levels_once_more.
    + by rewrite El.
    + apply IH; [|done]. rewrite length_app, El in Hlen. simpl in Hlen. lia.
Qed.

(** Depth first, the work list gives the first visits of its front part,
    and goes on with what is behind it. *)
Lemma first_visits_branch : ∀ n (pend : list TNode) vs out,
  (length out < n)%nat →
  first_visits next true vs pend out →
  ∀ ns rest, pend = ns ++ rest →
    ∃ below tail, out = below ++ tail ∧
      branches_once next vs ns below ∧
      first_visits next true (vs ++ below) rest tail.
Proof.
  induction n as [|n IHn]; [intros; lia|].
  induction pend as [|x pend IHp]; intros vs out Hlen H ns rest Epend.
  - symmetry in Epend. apply app_eq_nil in Epend as [-> ->].
    exists [], out. rewrite app_nil_r. repeat split; [constructor|done].
  - destruct ns as [|m ns]; simpl in Epend.
    { subst rest. exists [], out. rewrite app_nil_r.
      repeat split; [constructor|done]. }
    injection Epend as <- ->.
    inversion H as [|vs' x' pend' out' Hin Hrest|vs' x' pend' out' Hnew Hrest]; subst.
    + destruct (IHp vs out Hlen Hrest ns rest eq_refl)
        as (below & tail & -> & Hbelow & Htail).
      exists below, tail. repeat split; [|done]. by apply branches_once_seen.
    + simpl in Hlen. unfold pending_after in Hrest.
      assert (length out' < n)%nat as Hlen' by lia.
      destruct (IHn _ _ _ Hlen' Hrest (rev (next x)) (ns ++ rest) eq_refl)
        as (below & tail & -> & Hbelow & Htail).
      assert (length tail < n)%nat as Hlen2 by (rewrite length_app in Hlen'; lia).
      destruct (IHn _ _ _ Hlen2 Htail ns rest eq_refl)
        as (others & tail' & -> & Hothers & Htail').
      exists (x :: below ++ others), tail'. repeat split.
      * simpl. by rewrite <- app_assoc.
      * apply branches_once_new; try done. by rewrite <- app_assoc in Hothers.
      * rewrite <- !app_assoc in Htail'. exact Htail'.
Qed.

Lemma first_visits_branches_once vs (ns out : list TNode) :
  first_visits next true vs ns out → branches_once next vs ns out.
Proof.
  intros H.
  destruct (first_visits_branch (S (length out)) ns vs out ltac:(lia) H ns [])
    as (below & tail & -> & Hbelow & Htail); [by rewrite app_nil_r|].
  inversion Htail; subst. by rewrite app_nil_r.
Qed.

(** Both orders are functions of the nodes seen and the nodes to visit. *)
Lemma levels_once_unique seen (cands out1 out2 : list TNode) :
  levels_once next seen cands out1 → levels_once next seen cands out2 → out1 = out2.
Proof.
  intros H1. revert out2.
  induction H1 as [seen cands E|seen cands rest Hne _ IH]; intros out2 H2.
  - inversion H2 as [|? ? ? Hne']; subst; [done|]. by destruct Hne'.
  - inversion H2 as [? ? E|? ? rest' _ Hrest']; subst; [by destruct Hne|].
    f_equal. by apply IH.
Qed.

Lemma branches_once_unique seen (ns out1 out2 : list TNode) :
  branches_once next seen ns out1 → branches_once next seen ns out2 → out1 = out2.
Proof.
  intros H1. revert out2.
  induction H1 as [seen|seen n ns out Hin _ IH
                  |seen n ns below others Hnew _ IHbelow _ IHothers];
    intros out2 H2.
  - by inversion H2.
  - inversion H2; subst; [by apply IH|done].
  - inversion H2 as [| |? ? ? below' others' _ Hbelow' Hothers']; subst; [done|].
    apply IHbelow in Hbelow' as <-.
    apply IHothers in Hothers' as <-. done.
Qed.

(** The order of a finished cycle-detecting traversal. *)
Lemma spread_first_visits roots type fuel out :
  traverseGraph_spread roots next true type fuel = Ok out →
  match type with
  | BreadthFirst => levels_once next [] roots out
  | DepthFirst => branches_once next [] (rev roots) out
  end.
Proof.
  unfold traverseGraph_spread, TraverseGraph.for_of. intros E.
  destruct (constructor_ready roots true type) as (Hready & Hdf & Hvis).
  simpl in Hready, Hdf, Hvis.
  destruct (TraverseGraph.loop _ _ fuel _ []) as [[[]|e|] acc] eqn:Eloop; try done.
  injection E as ->.
  apply (loop_first_visits fuel _ [] _ [] out Hready Hvis) in Eloop
    as (tail & -> & Htail). simpl.
  clear Hready Hdf Hvis. destruct type; unfold pending_after in Htail; simpl in Htail.
  - by apply (first_visits_levels_once (S (length tail))); [lia|].
  - rewrite app_nil_r in Htail. by apply first_visits_branches_once.
Qed.
End FirstVisitFacts.

(** C5. On a graph whose reachable part is finite, the traversal with cycle
    detection, breadth first or depth first, ends without an error and yields
    every reachable node exactly once, each after a node that leads to it (or
    as a root), in the order of the first visits: breadth first level by
    level, a node standing in the first level that reaches it; depth first
    each new node followed by the first visits below it, the child added
    last first. Inside [tryGetNext] a pending node that was already yielded
    is dropped and the next one is taken: no error is raised for it. *)
Theorem C5_cycle_detection_yields_each_node_once {TNode} `{EqDecision TNode}
    (next : TNode → list TNode) (roots universe : list TNode) (type : TraversalType) :
  (∀ n, reachable next roots n → n ∈ universe) →
  (∃ fuel out,
     traverseGraph_spread roots next true type fuel = Ok out ∧
     NoDup out ∧
     (∀ n, n ∈ out ↔ reachable next roots n) ∧
     discovery_order next roots out ∧
     match type with
     | BreadthFirst => levels_once next [] roots out
     | DepthFirst => branches_once next [] (rev roots) out
     end) ∧
  (∀ (sig : GraphSignal.t TNode) vs pre x post,
     signal_ready sig (pre ++ x :: post) →
     GraphSignal.visited sig = Some vs →
     (∀ n, n ∈ pre → n ∈ vs) → x ∉ vs →
     ∃ sig', GraphSignal.tryGetNext sig = (Ok (Some x), sig') ∧
       signal_ready sig' post ∧
       GraphSignal.visited sig' = Some (vs ++ [x])).
Proof.
  intros Huniv. split.
  - exists (S (length universe)).
    destruct (constructor_ready roots true type) as (Hready & Hdf & Hvis).
    destruct (loop_visiting next roots universe Huniv (S (length universe))
                (GraphSignal.constructor roots true type) []
                (pending_after (GraphSignal.isDepthFirst
                   (GraphSignal.constructor roots true type)) roots []))
      as (out & E & Hnodup & Hcover & Horder); try done.
    { apply visiting_start. }
    { simpl. lia. }
    assert (traverseGraph_spread roots next true type (S (length universe)) = Ok out)
      as Espread.
    { unfold traverseGraph_spread, TraverseGraph.for_of. by rewrite E. }
    exists out. repeat split; try done; try apply Hcover.
    by apply (spread_first_visits next roots type (S (length universe))).
  - intros sig vs pre x post Hready Hvis Hpre Hx.
    unfold GraphSignal.tryGetNext. rewrite Hvis.
    rewrite (ready_length sig _ Hready).
    destruct (tryGetNext_loop_fresh pre (S (length (pre ++ x :: post))) sig vs x post)
      as (sig' & E & Hready' & Hvis' & _); try done.
    { rewrite length_app. lia. }
    by exists sig'.
Qed.

(** * The properties at work on the scenarios *)

(** Checks a given breadth-first listing of a graph that is given in full. *)
Ltac walk_levels :=
  lazymatch goal with
  | |- levels _ [] [] => apply levels_end
  | |- levels ?nx ?lv ?out =>
      let rest := eval vm_compute in (drop (length lv) out) in
      change (levels nx lv (lv ++ rest));
      apply levels_more; [done|];
      let below := eval vm_compute in (lv ≫= nx) in
      change (lv ≫= nx) with below; walk_levels
  end.

(** In the scenario [A] is indexed, and attaching [E] under it is refused. *)
Lemma C1_attach_rejects_indexed_parent_scenario :
  is_Some (JsMap.get (Hierarchy.f_nodes scenario_with_E.1) "A") ∧
  Hierarchy.attach "A" [4%nat] 8 (scenario_with_E.1, scenario_with_E.2) =
    (Throw (Error "The 'parentId' must be a hierarchy member."),
     (scenario_with_E.1, scenario_with_E.2)).
Proof.
  assert (is_Some (JsMap.get (Hierarchy.f_nodes scenario_with_E.1) "A")) as H.
  { vm_compute. by eexists. }
  split; [exact H|].
  exact (C1_attach_rejects_indexed_parent _ _ "A" [4%nat] 8%nat H).
Defined.

(** With a [parentId] that is not indexed the call goes on and fails later:
    on the missing parent, or, when the new subtree itself supplies a node
    with that id, on the brand test of [Node.attach]. *)
Lemma attach_unindexed_parent_scenario :
  (Hierarchy.attach "Z" [4%nat] 8 scenario_with_E).1 =
    Throw (TypeError "Cannot read properties of undefined (reading 'attach')") ∧
  (Hierarchy.attach "E" [4%nat] 8 scenario_with_E).1 =
    Throw (TypeError "this.#brand.Equals is not a function").
Proof. split; by vm_compute. Qed.

(** In the scenario [A] and [B] carry the brand of the same hierarchy, and
    asking whether they are compatible throws. *)
Lemma C2_isBrandCompatible_throws_scenario :
  brand_of scenario_attached.2 0%nat = Some (mkOwner 0 None) ∧
  brand_of scenario_attached.2 1%nat = Some (mkOwner 0 None) ∧
  owner_Equals (mkOwner 0 None) = None ∧
  Node.isBrandCompatible 0%nat 1%nat scenario_attached.2 =
    (Throw (TypeError "this.#brand.Equals is not a function"), scenario_attached.2).
Proof.
  assert (brand_of scenario_attached.2 0%nat = Some (mkOwner 0 None)) as Ha
    by (vm_compute; reflexivity).
  assert (brand_of scenario_attached.2 1%nat = Some (mkOwner 0 None)) as Hb
    by (vm_compute; reflexivity).
  split; [exact Ha|]. split; [exact Hb|]. split; [reflexivity|].
  exact (C2_isBrandCompatible_throws_without_Equals _ 0%nat 1%nat _ Ha Hb eq_refl).
Defined.

(** The levels of the scenario are [[A]], [[B, C]], [[D]]. *)
Lemma C4_breadth_first_levels_scenario :
  is_Some (w_nodes scenario_assembled.2 !! 0%nat) ∧
  levels (children_of scenario_assembled.2) [0%nat] [0; 1; 2; 3]%nat ∧
  ∃ fuel, Node.getDescendants 0%nat false BreadthFirst fuel scenario_assembled.2
          = (Ok [0; 1; 2; 3]%nat, scenario_assembled.2).
Proof.
  assert (is_Some (w_nodes scenario_assembled.2 !! 0%nat)) as Hthis
    by (vm_compute; by eexists).
  assert (levels (children_of scenario_assembled.2) [0%nat] [0; 1; 2; 3]%nat) as Hlevels
    by walk_levels.
  split; [exact Hthis|]. split; [exact Hlevels|].
  exact (proj1 (proj2 C4_descendant_traversal_orders) _ _ _ _ Hthis Hlevels).
Defined.

(** The graph [root -> A -> B -> A]: its reachable nodes are [root], [A] and
    [B]; each is yielded once. *)
Lemma back_edge_graph_finite n :
  reachable back_edge_graph ["root"] n → n ∈ ["root"; "A"; "B"].
Proof.
  induction 1 as [r Hr|m c Hm IH Hc].
  - apply list_elem_of_singleton in Hr as ->. by left.
  - rewrite !elem_of_cons, elem_of_nil in IH.
    destruct IH as [->|[->|[->|[]]]]; vm_compute in Hc;
      apply list_elem_of_singleton in Hc as ->; rewrite !elem_of_cons; auto.
Qed.

Lemma C5_back_edge_graph_each_once :
  (∀ n, reachable back_edge_graph ["root"] n → n ∈ ["root"; "A"; "B"]) ∧
  ∃ fuel out,
    traverseGraph_spread ["root"] back_edge_graph true BreadthFirst fuel = Ok out ∧
    NoDup out ∧
    (∀ n, n ∈ out ↔ reachable back_edge_graph ["root"] n) ∧
    discovery_order back_edge_graph ["root"] out ∧
    levels_once back_edge_graph [] ["root"] out.
Proof.
  split; [exact back_edge_graph_finite|].
  exact (proj1 (C5_cycle_detection_yields_each_node_once back_edge_graph
                  ["root"] ["root"; "A"; "B"] BreadthFirst back_edge_graph_finite)).
Defined.

(** The yields on that graph, in both modes. *)
Lemma back_edge_graph_yields :
  traverseGraph_spread ["root"] back_edge_graph true BreadthFirst 8
    = Ok ["root"; "A"; "B"] ∧
  traverseGraph_spread ["root"] back_edge_graph true DepthFirst 8
    = Ok ["root"; "A"; "B"].
Proof. split; by vm_compute. Qed.

(** With two branches and an edge back to the root the two modes differ:
    breadth first [C] comes after both children of the root; depth first the
    child added last is taken first, and [C] comes right after [A]. The
    listing [root, A, C, B] is the order of neither. *)
Lemma two_branch_graph_yields :
  traverseGraph_spread ["root"] two_branch_graph true BreadthFirst 8
    = Ok ["root"; "A"; "B"; "C"] ∧
  traverseGraph_spread ["root"] two_branch_graph true DepthFirst 8
    = Ok ["root"; "B"; "A"; "C"] ∧
  ¬ levels_once two_branch_graph [] ["root"] ["root"; "A"; "C"; "B"] ∧
  ¬ branches_once two_branch_graph [] (rev ["root"]) ["root"; "A"; "C"; "B"].
Proof.
  assert (traverseGraph_spread ["root"] two_branch_graph true BreadthFirst 8
            = Ok ["root"; "A"; "B"; "C"]) as Ebf by (by vm_compute).
  assert (traverseGraph_spread ["root"] two_branch_graph true DepthFirst 8
            = Ok ["root"; "B"; "A"; "C"]) as Edf by (by vm_compute).
  split; [exact Ebf|]. split; [exact Edf|]. split.
  - intros H. apply spread_first_visits in Ebf.
    pose proof (levels_once_unique _ _ _ _ _ H Ebf) as E. discriminate E.
  - intros H. apply spread_first_visits in Edf.
    pose proof (branches_once_unique _ _ _ _ _ H Edf) as E. discriminate E.
Qed.

(** The general walk, at [D] in the scenario. *)
Lemma C6_getAncestorIds_scenario :
  JsMap.get (Hierarchy.f_nodes scenario_attached.1) "D" = Some 3%nat ∧
  is_Some (w_nodes scenario_attached.2 !! 3%nat) ∧
  ancestry scenario_attached.2 (Some 3%nat) [3; 1; 0]%nat ∧
  (length [3; 1; 0] < 8)%nat ∧
  Hierarchy.getAncestorIds "D" false 8 (scenario_attached.1, scenario_attached.2)
  = (Ok (Hierarchy.f_identify scenario_attached.1
           <$> items_of scenario_attached.2 [3; 1; 0]%nat),
     (scenario_attached.1, scenario_attached.2)).
Proof.
  assert (JsMap.get (Hierarchy.f_nodes scenario_attached.1) "D" = Some 3%nat) as Hid
    by (vm_compute; reflexivity).
  assert (is_Some (w_nodes scenario_attached.2 !! 3%nat)) as Hnode
    by (vm_compute; by eexists).
  assert (ancestry scenario_attached.2 (Some 3%nat) [3; 1; 0]%nat) as Hchain
    by walk_chain.
  assert (length [3; 1; 0] < 8)%nat as Hfuel by (simpl; lia).
  split; [exact Hid|]. split; [exact Hnode|]. split; [exact Hchain|].
  split; [exact Hfuel|].
  exact (proj2 C6_getAncestorIds_nearest_first string string _
           scenario_attached.1 scenario_attached.2 "D" 3%nat false [3; 1; 0]%nat 8%nat
           Hid Hnode Hchain Hfuel).
Defined.

(** [D] has a parent: [C.attach(D)] throws and changes nothing. *)
Lemma C7_attach_validates_scenario :
  (∃ c, c ∈ [3%nat] ∧ is_Some (parent_of scenario_assembled.2 c)) ∧
  ∃ e, Node.attach 2%nat [3%nat] scenario_assembled.2 = (Throw e, scenario_assembled.2).
Proof.
  assert (∃ c, c ∈ [3%nat] ∧ is_Some (parent_of scenario_assembled.2 c)) as H.
  { exists 3%nat. split; [by left|]. vm_compute. by eexists. }
  split; [exact H|].
  exact (C7_attach_validates_before_mutating scenario_assembled.2 2%nat [3%nat]
           (or_intror (or_introl H))).
Defined.

Lemma two_nodes_consistent : consistent two_nodes.
Proof. do 2 apply constructor_consistent. apply consistent_empty. Qed.

(** Two new nodes: [X.attach(Y)], then [Y.detachSelf()]. *)
Lemma C8_attach_then_detachSelf_two_nodes :
  consistent two_nodes ∧ 0%nat ≠ 1%nat ∧
  is_Some (w_nodes two_nodes !! 0%nat) ∧ is_Some (w_nodes two_nodes !! 1%nat) ∧
  brand_of two_nodes 0%nat = None ∧ brand_of two_nodes 1%nat = None ∧
  parent_of two_nodes 1%nat = None ∧
  ∃ w1 w2,
    Node.attach 0%nat [1%nat] two_nodes = (Ok 0%nat, w1) ∧
    parent_of w1 1%nat = Some 0%nat ∧ 1%nat ∈ children_of w1 0%nat ∧
    Node.detachSelf 1%nat w1 = (Ok 1%nat, w2) ∧
    parent_of w2 1%nat = None ∧
    children_of w2 0%nat = children_of two_nodes 0%nat ∧
    1%nat ∉ children_of w2 0%nat.
Proof.
  assert (0%nat ≠ 1%nat) as Hne by discriminate.
  assert (is_Some (w_nodes two_nodes !! 0%nat)) as H0 by (vm_compute; by eexists).
  assert (is_Some (w_nodes two_nodes !! 1%nat)) as H1 by (vm_compute; by eexists).
  split; [exact two_nodes_consistent|]. split; [exact Hne|].
  split; [exact H0|]. split; [exact H1|].
  do 3 (split; [reflexivity|]).
  exact (C8_attach_then_detachSelf_restores two_nodes 0%nat 1%nat
           two_nodes_consistent Hne H0 H1 eq_refl eq_refl eq_refl).
Defined.

(** Branding [X]: its delegate clears any later brand too. *)
Lemma C9_DeBrand_two_nodes :
  Node.brand 0%nat (Some (mkOwner 5 None)) two_nodes
    = (Ok (mkDeBrand 0), (write 0%nat (set_brand (Some (mkOwner 5 None))) two_nodes).2) ∧
  ∃ w2, Node.call_DeBrand (mkDeBrand 0)
          (write 0%nat (set_brand (Some (mkOwner 5 None))) two_nodes).2 = (Ok tt, w2) ∧
    Node.call_DeBrand (mkDeBrand 0) w2 = (Ok tt, w2) ∧
    ∃ release' w3, Node.brand 0%nat (Some (mkOwner 6 None)) w2 = (Ok release', w3) ∧
      brand_of w3 0%nat = Some (mkOwner 6 None) ∧
      ∃ w4, Node.call_DeBrand (mkDeBrand 0) w3 = (Ok tt, w4) ∧ brand_of w4 0%nat = None.
Proof.
  assert (Node.brand 0%nat (Some (mkOwner 5 None)) two_nodes
    = (Ok (mkDeBrand 0), (write 0%nat (set_brand (Some (mkOwner 5 None))) two_nodes).2))
    as Hb by reflexivity.
  split; [exact Hb|].
  exact (proj2 (proj2 (C9_DeBrand_clears_unconditionally two_nodes _ 0%nat
                         (mkOwner 5 None) (mkOwner 6 None) (mkDeBrand 0) Hb))).
Defined.

(** The getters in the scenario, with the returned array emptied. *)
Lemma C10_getters_scenario :
  is_Some (w_nodes scenario_attached.2 !! 0%nat) ∧
  (Hierarchy.f_roots scenario_attached.1 < length (w_arrays scenario_attached.2))%nat ∧
  ∃ w1, Hierarchy.roots (scenario_attached.1, scenario_attached.2)
        = (Ok (length (w_arrays scenario_attached.2)), (scenario_attached.1, w1)) ∧
    array_contents
      (array_mutate (length (w_arrays scenario_attached.2)) [] w1)
      (Hierarchy.f_roots scenario_attached.1)
    = array_contents scenario_attached.2 (Hierarchy.f_roots scenario_attached.1).
Proof.
  assert (is_Some (w_nodes scenario_attached.2 !! 0%nat)) as Hn
    by (vm_compute; by eexists).
  assert (Hierarchy.f_roots scenario_attached.1
          < length (w_arrays scenario_attached.2))%nat as Hr
    by (vm_compute; lia).
  split; [exact Hn|]. split; [exact Hr|].
  destruct (proj1 (proj2 (C10_getters_return_fresh_copies scenario_attached.1
              scenario_attached.2 0%nat [] Hn Hr)))
    as (w1 & Eroots & _ & _ & _ & Hkeep & _).
  exists w1. split; [exact Eroots|exact Hkeep].
Defined.

(** * Further properties of the nodes *)

Section WriteFacts.
Context {Item : Type}.
Implicit Types (w : World Item) (n : NodeRec Item).

Lemma valid_write w r f r' :
  is_Some (w_nodes (write r f w).2 !! r') ↔ is_Some (w_nodes w !! r').
Proof.
  rewrite lookup_write. case_decide; [|done]. by rewrite fmap_is_Some.
Qed.

Lemma parent_of_write w r f r' :
  parent_of (write r f w).2 r' =
    if decide (r = r') then w_nodes w !! r' ≫= λ n, f_parent (f n) else parent_of w r'.
Proof.
  unfold parent_of. rewrite lookup_write. case_decide; [|done].
  by destruct (w_nodes w !! r').
Qed.

Lemma children_of_write w r f r' :
  children_of (write r f w).2 r' =
    if decide (r = r') then default [] (w_nodes w !! r' ≫= λ n, f_children (f n))
    else children_of w r'.
Proof.
  unfold children_of. rewrite lookup_write. case_decide; [|done].
  by destruct (w_nodes w !! r').
Qed.

Lemma brand_of_write w r f r' :
  brand_of (write r f w).2 r' =
    if decide (r = r') then w_nodes w !! r' ≫= λ n, f_brand (f n) else brand_of w r'.
Proof.
  unfold brand_of. rewrite lookup_write. case_decide; [|done].
  by destruct (w_nodes w !! r').
Qed.

Lemma item_of_write w r f r' :
  (∀ n, f_item (f n) = f_item n) → item_of (write r f w).2 r' = item_of w r'.
Proof.
  intros Hf. unfold item_of. rewrite lookup_write. case_decide; [|done].
  destruct (w_nodes w !! r'); [|done]. simpl. by rewrite Hf.
Qed.

Lemma brand_of_write_keep w r f r' :
  (∀ n, f_brand (f n) = f_brand n) → brand_of (write r f w).2 r' = brand_of w r'.
Proof.
  intros Hf. unfold brand_of. rewrite lookup_write. case_decide; [|done].
  destruct (w_nodes w !! r'); [|done]. simpl. by rewrite Hf.
Qed.

Lemma parent_of_write_keep w r f r' :
  (∀ n, f_parent (f n) = f_parent n) → parent_of (write r f w).2 r' = parent_of w r'.
Proof.
  intros Hf. unfold parent_of. rewrite lookup_write. case_decide; [|done].
  destruct (w_nodes w !! r'); [|done]. simpl. by rewrite Hf.
Qed.

Lemma children_of_write_keep w r f r' :
  (∀ n, f_children (f n) = f_children n) →
  children_of (write r f w).2 r' = children_of w r'.
Proof.
  intros Hf. unfold children_of. rewrite lookup_write. case_decide; [|done].
  destruct (w_nodes w !! r'); [|done]. simpl. by rewrite Hf.
Qed.

Lemma child_set_of_write_ne w r f r' :
  r ≠ r' → child_set_of (write r f w).2 r' = child_set_of w r'.
Proof.
  intros Hne. unfold child_set_of. by rewrite lookup_write, decide_False.
Qed.

Lemma child_set_of_write_keep w r f r' :
  (∀ n, f_children (f n) = f_children n) →
  child_set_of (write r f w).2 r' = child_set_of w r'.
Proof.
  intros Hf. unfold child_set_of. rewrite lookup_write. case_decide; [|done].
  destruct (w_nodes w !! r'); [|done]. simpl. by rewrite Hf.
Qed.

Lemma children_of_child_set w r : children_of w r = default [] (child_set_of w r).
Proof. done. Qed.

Lemma children_of_lookup w r n :
  w_nodes w !! r = Some n → children_of w r = Node.children_list n.
Proof.
  intros E. unfold children_of, Node.children_list. rewrite E. simpl.
  by destruct (f_children n).
Qed.

Lemma parent_of_lookup w r n : w_nodes w !! r = Some n → parent_of w r = f_parent n.
Proof. intros E. unfold parent_of. by rewrite E. Qed.

Lemma brand_of_lookup w r n : w_nodes w !! r = Some n → brand_of w r = f_brand n.
Proof. intros E. unfold brand_of. by rewrite E. Qed.

Lemma children_of_invalid w r : w_nodes w !! r = None → children_of w r = [].
Proof. intros E. unfold children_of. by rewrite E. Qed.

Lemma parent_of_invalid w r : w_nodes w !! r = None → parent_of w r = None.
Proof. intros E. unfold parent_of. by rewrite E. Qed.

(** One turn of the loop of [detach]: the node leaves the child set of
    [p] and loses its parent pointer. *)
Lemma detach_turn_unlinked w p c :
  unlinked c p w
    (write c (set_parent None)
       (write p (λ n : NodeRec Item,
          set_children (Some (JsSet.delete c (Node.children_list n))) n) w).2).2.
Proof.
  set (D := λ n : NodeRec Item,
    set_children (Some (JsSet.delete c (Node.children_list n))) n).
  repeat split.
  - intros r. rewrite parent_of_write. case_decide as E.
    + subst r. rewrite decide_True by done.
      by destruct (w_nodes (write p D w).2 !! c).
    + rewrite decide_False by done. rewrite parent_of_write.
      case_decide as E'; [|done]. subst r. unfold parent_of.
      by destruct (w_nodes w !! p).
  - intros r. rewrite children_of_write.
    assert (children_of (write p D w).2 r =
            if decide (r = p) then filter (λ x, x ≠ c) (children_of w p)
            else children_of w r) as Hstep.
    { rewrite children_of_write. case_decide as E'.
      - subst r. rewrite decide_True by done.
        destruct (w_nodes w !! p) as [n|] eqn:En.
        + by rewrite (children_of_lookup _ _ _ En).
        + by rewrite (children_of_invalid _ _ En).
      - by rewrite decide_False. }
    rewrite <- Hstep. clear Hstep. case_decide as E; [|done]. subst r.
    unfold children_of. by destruct (w_nodes (write p D w).2 !! c).
  - intros r. by rewrite !brand_of_write_keep.
  - intros r. by rewrite !item_of_write.
  - simpl. by rewrite !length_alter.
Qed.

(** One turn of the loop of [attach]: the node joins the child set of [p]
    and gets [p] as its parent. *)
Lemma attach_turn_linked w p c :
  is_Some (w_nodes w !! p) → is_Some (w_nodes w !! c) →
  linked c p w
    (write c (set_parent (Some p))
       (write p (λ n : NodeRec Item,
          set_children (Some (JsSet.add c (Node.children_list n))) n) w).2).2.
Proof.
  intros [pn Ep] [cn Ec].
  set (A := λ n : NodeRec Item,
    set_children (Some (JsSet.add c (Node.children_list n))) n).
  assert (is_Some (w_nodes (write p A w).2 !! c)) as [cn' Ec'].
  { apply valid_write. by eexists. }
  repeat split.
  - intros r. rewrite parent_of_write. case_decide as E.
    + subst r. rewrite decide_True by done. by rewrite Ec'.
    + rewrite decide_False by done. rewrite parent_of_write.
      case_decide as E'; [|done]. subst r. unfold parent_of.
      by destruct (w_nodes w !! p).
  - intros r. rewrite children_of_write.
    assert (children_of (write p A w).2 r =
            if decide (r = p) then JsSet.add c (children_of w p)
            else children_of w r) as Hstep.
    { rewrite children_of_write. case_decide as E'.
      - subst r. rewrite decide_True by done.
        by rewrite Ep, (children_of_lookup _ _ _ Ep).
      - by rewrite decide_False. }
    rewrite <- Hstep. clear Hstep. case_decide as E; [|done]. subst r.
    unfold children_of. by rewrite Ec'.
  - intros r. by rewrite !brand_of_write_keep.
  - intros r. by rewrite !item_of_write.
  - simpl. by rewrite !length_alter.
Qed.
End WriteFacts.

Section DetachManyFacts.
Context {Item : Type}.
Implicit Types (w : World Item) (n : NodeRec Item).

Lemma forallb_exists_false {A} (f : A → bool) (l : list A) :
  forallb f l = false → ∃ x, x ∈ l ∧ f x = false.
Proof.
  induction l as [|y l IH]; [done|]. simpl. intros H.
  apply andb_false_iff in H as [H|H].
  - exists y. split; [by left|done].
  - destruct (IH H) as (x & Hx & Hf). exists x. split; [by right|done].
Qed.

Lemma unlinked_all_nil p w : unlinked_all [] p w w.
Proof.
  split; [|split; [|by repeat split]].
  - intros r. rewrite decide_False; [done|]. apply not_elem_of_nil.
  - intros r. case_decide as E; [|done]. subst r.
    induction (children_of w p) as [|x l IH]; [done|].
    rewrite filter_cons_True by apply not_elem_of_nil. by rewrite <- IH.
Qed.

Lemma detach_turn_child_set p c w r :
  r ≠ p → child_set_of (detach_turn p c w) r = child_set_of w r.
Proof.
  intros Hne. unfold detach_turn.
  rewrite child_set_of_write_keep by done. by apply child_set_of_write_ne.
Qed.

Lemma unlinked_all_cons c cs p w w' :
  unlinked_all cs p (detach_turn p c w) w' → unlinked_all (c :: cs) p w w'.
Proof.
  destruct (detach_turn_unlinked w p c) as (Hp & Hc & Hb & Hi & Hl & Ha & Ho).
  fold (detach_turn p c w) in *.
  intros (Hp' & Hc' & Hs' & Hb' & Hi' & Hl' & Ha' & Ho').
  split; [|split; [|split; [|split; [|split; [|split; [|split]]]]]].
  - intros r. rewrite Hp', Hp.
    destruct (decide (r ∈ cs)) as [Hin|Hin].
    + rewrite decide_True; [done|]. by right.
    + destruct (decide (r = c)) as [->|Hne].
      * rewrite decide_True; [done|]. by left.
      * rewrite decide_False; [done|]. rewrite elem_of_cons. tauto.
  - intros r. rewrite Hc'. case_decide as E; [|by rewrite Hc, decide_False].
    subst r. rewrite Hc, decide_True by done.
    rewrite list_filter_filter. apply list_filter_iff.
    intros x. rewrite elem_of_cons. tauto.
  - intros r Hr. rewrite Hs' by done. by apply detach_turn_child_set.
  - intros r. by rewrite Hb'.
  - intros r. by rewrite Hi'.
  - by rewrite Hl'.
  - by rewrite Ha'.
  - by rewrite Ho'.
Qed.

Lemma detach_loop_unlinked_all p cs : ∀ w,
  unlinked_all cs p w (foldl (λ w c, detach_turn p c w) w cs).
Proof.
  induction cs as [|c cs IH]; intros w; simpl.
  - apply unlinked_all_nil.
  - apply unlinked_all_cons, IH.
Qed.

Lemma detach_loop_valid p cs r : ∀ w,
  is_Some (w_nodes (foldl (λ w c, detach_turn p c w) w cs) !! r)
  ↔ is_Some (w_nodes w !! r).
Proof.
  induction cs as [|c cs IH]; intros w; simpl; [done|].
  rewrite IH. unfold detach_turn. by rewrite !valid_write.
Qed.

(** Releasing an empty child set is invisible through the accessors. *)
Lemma release_unlinked_all cs p w w' n :
  unlinked_all cs p w w' → w_nodes w' !! p = Some n → Node.rec_isLeaf n = true →
  unlinked_all cs p w (write p (set_children None) w').2.
Proof.
  intros (Hp & Hc & Hs & Hb & Hi & Hl & Ha & Ho) En Hleaf.
  assert (children_of w' p = []) as Hempty.
  { rewrite (children_of_lookup _ _ _ En). unfold Node.rec_isLeaf, Node.children_list in *.
    destruct (f_children n) as [set|]; [|done].
    case_bool_decide as Hs'; [|done]. by apply nil_length_inv in Hs'. }
  split; [|split; [|split; [|split; [|split; [|split; [|split]]]]]].
  - intros r. by rewrite parent_of_write_keep.
  - intros r. rewrite children_of_write. case_decide as E; [|apply Hc].
    subst r. rewrite En. simpl. rewrite <- Hempty. apply Hc.
  - intros r Hr. rewrite child_set_of_write_ne by done. by apply Hs.
  - intros r. by rewrite brand_of_write_keep.
  - intros r. by rewrite item_of_write.
  - simpl. by rewrite length_alter.
  - done.
  - done.
Qed.

(** [detach] either throws for one of its three reasons and leaves the store
    as it was, or it found every node among the children, none of them
    branded, and unlinked them all. *)
Lemma detach_outcome w p cs :
  (∃ e, Node.detach p cs w = (Throw e, w) ∧
     (cs = [] ∨ (∃ c, c ∈ cs ∧ c ∉ children_of w p) ∨
      some Node.isBranded cs w ≠ (Ok false, w))) ∨
  (∃ w', Node.detach p cs w = (Ok p, w') ∧ cs ≠ [] ∧
     (∀ c, c ∈ cs → c ∈ children_of w p) ∧
     some Node.isBranded cs w = (Ok false, w) ∧
     unlinked_all cs p w w' ∧
     (children_of w' p = [] → ∃ n, w_nodes w' !! p = Some n ∧ f_children n = None)).
Proof.
  unfold Node.detach. case_bool_decide as Hlen.
  { left. eexists. split; [done|]. left. by destruct cs. }
  assert (∃ c0, c0 ∈ cs) as [c0 Hc0].
  { destruct cs as [|c0 ?]; [done|]. exists c0. by left. }
  destruct (w_nodes w !! p) as [n|] eqn:Ep; last first.
  { left. unfold mbind, M_bind, read. rewrite Ep. eexists. split; [done|].
    right. left. exists c0. split; [done|].
    rewrite (children_of_invalid _ _ Ep). apply not_elem_of_nil. }
  rewrite (bind_ok _ _ _ _ _ (read_ok _ _ _ Ep)).
  destruct (Node.rec_isLeaf n || negb (forallb (JsSet.has (Node.children_list n)) cs))
    eqn:Hcheck.
  { left. eexists. split; [done|]. right. left.
    rewrite (children_of_lookup _ _ _ Ep).
    apply orb_true_iff in Hcheck as [Hleaf|Hall].
    - exists c0. split; [done|]. unfold Node.rec_isLeaf, Node.children_list in *.
      destruct (f_children n) as [set|]; [|apply not_elem_of_nil].
      case_bool_decide as Hs; [|done]. apply nil_length_inv in Hs as ->.
      apply not_elem_of_nil.
    - apply negb_true_iff in Hall.
      destruct (forallb_exists_false (JsSet.has (Node.children_list n)) cs Hall)
        as (c & Hc & Hhas).
      exists c. split; [done|]. unfold JsSet.has in Hhas.
      by apply bool_decide_eq_false in Hhas. }
  apply orb_false_iff in Hcheck as [Hleaf Hall].
  apply negb_false_iff in Hall.
  destruct (reads_some Node.isBranded cs reads_isBranded w) as [[b Eb]|[e Eb]];
    [|left; exists e; split; [by apply bind_throw|]; right; right; by rewrite Eb].
  rewrite (bind_ok _ _ _ _ _ Eb).
  destruct b; [left; eexists; split; [done|]; right; right; by rewrite Eb|].
  right.
  erewrite bind_ok; last first.
  { apply (for_each_writes (λ c w, detach_turn p c w)). done. }
  set (wf := foldl _ w cs).
  assert (is_Some (w_nodes wf !! p)) as [nf Enf].
  { apply detach_loop_valid. by eexists. }
  rewrite (bind_ok _ _ _ _ _ (isLeaf_run _ _ _ Enf)).
  pose proof (detach_loop_unlinked_all p cs w) as Hun. fold wf in Hun.
  assert (∀ c, c ∈ cs → c ∈ children_of w p) as Hin.
  { intros c Hc. rewrite (children_of_lookup _ _ _ Ep).
    rewrite forallb_forall in Hall. apply list_elem_of_In, Hall in Hc.
    unfold JsSet.has in Hc. by apply bool_decide_eq_true in Hc. }
  assert (cs ≠ []) as Hne by (intros ->; by apply Hlen).
  destruct (Node.rec_isLeaf nf) eqn:Hleaf'.
  - rewrite (bind_ok _ _ _ _ _ (write_run _ _ _)).
    eexists. split; [done|]. do 3 (split; [done|]).
    split; [by apply (release_unlinked_all cs p w wf nf)|].
    intros _. eexists. split.
    + cbn [w_nodes]. by rewrite list_lookup_alter_eq, Enf.
    + done.
  - rewrite bind_ret. exists wf. split; [done|]. do 3 (split; [done|]).
    split; [done|]. intros Hempty. exfalso.
    rewrite (children_of_lookup _ _ _ Enf) in Hempty.
    unfold Node.rec_isLeaf, Node.children_list in *.
    destruct (f_children nf) as [set|]; [|done]. subst set.
    by rewrite bool_decide_eq_true_2 in Hleaf'.
Qed.

Lemma isBranded_false w c :
  Node.isBranded c w = (Ok false, w) ↔ is_Some (w_nodes w !! c) ∧ brand_of w c = None.
Proof.
  unfold Node.isBranded, mbind, M_bind, read, brand_of.
  destruct (w_nodes w !! c) as [n|]; simpl.
  - unfold Node.rec_isBranded. destruct (f_brand n); split.
    + intros [=]. + by intros [_ ?]. + by eauto. + done.
  - split; [done|]. by intros [[] _].
Qed.

Lemma some_false {S A} (p : A → M S bool) xs s :
  (∀ x, reads (p x)) →
  some p xs s = (Ok false, s) → ∀ x, x ∈ xs → p x s = (Ok false, s).
Proof.
  intros Hp. induction xs as [|y xs IH]; intros E x Hx.
  - by apply elem_of_nil in Hx.
  - simpl in E. destruct (Hp y s) as [[b Ey]|[e Ey]].
    + rewrite (bind_ok _ _ _ _ _ Ey) in E. destruct b; [done|].
      apply elem_of_cons in Hx as [->|Hx]; [done | by apply IH].
    + by rewrite (bind_throw _ _ _ _ _ Ey) in E.
Qed.
End DetachManyFacts.

(** X1. [p.detach(cs)] checks all its arguments before it changes anything: it
    throws when [cs] is empty, when a node of [cs] is not a child of [p], and
    when a node of [cs] is branded, and the store after the throw is the store
    before the call. *)
Theorem detach_validates_before_mutating {Item} (w : World Item) (p : nat)
    (cs : list nat) :
  cs = [] ∨
  (∃ c, c ∈ cs ∧ c ∉ children_of w p) ∨
  (∃ c, c ∈ cs ∧ is_Some (brand_of w c)) →
  ∃ e, Node.detach p cs w = (Throw e, w).
Proof.
  intros H.
  destruct (detach_outcome w p cs) as [(e & E & _)|(w' & _ & Hne & Hin & Hbr & _)];
    [by exists e|].
  exfalso. destruct H as [->|[(c & Hc & Hn)|(c & Hc & Hb)]]; [done|by apply Hn, Hin|].
  apply (some_false _ _ _ reads_isBranded Hbr) in Hc.
  apply isBranded_false in Hc as [_ Hc]. rewrite Hc in Hb. by destruct Hb.
Qed.

(** X2. [p.detach(cs)] succeeds for a non-empty list of unbranded children of
    [p]. Afterwards each of them is a root, the child set of [p] is what it
    was without them, in the same order, nothing else has changed, and when
    no child is left the set is released. *)
Theorem detach_unlinks_the_children {Item} (w : World Item) (p : nat)
    (cs : list nat) :
  cs ≠ [] →
  (∀ c, c ∈ cs → c ∈ children_of w p) →
  (∀ c, c ∈ cs → is_Some (w_nodes w !! c) ∧ brand_of w c = None) →
  ∃ w', Node.detach p cs w = (Ok p, w') ∧
    unlinked_all cs p w w' ∧
    (children_of w' p = [] → ∃ n, w_nodes w' !! p = Some n ∧ f_children n = None).
Proof.
  intros Hne Hin Hfree.
  destruct (detach_outcome w p cs)
    as [(e & _ & [->|[(c & Hc & Hn)|Hbr]])|(w' & E & _ & _ & _ & Hun & Hrel)];
    [done|by apply Hin in Hc| |by exists w'].
  exfalso. apply Hbr, some_all_false.
  intros c Hc. by apply isBranded_false, Hfree.
Qed.

Section DetachSelfFacts.
Context {Item : Type}.
Implicit Types (w : World Item) (n : NodeRec Item).

Lemma rec_isLeaf_false n c : c ∈ Node.children_list n → Node.rec_isLeaf n = false.
Proof.
  unfold Node.rec_isLeaf, Node.children_list. intros Hin.
  destruct (f_children n) as [set|]; [|by apply elem_of_nil in Hin].
  apply bool_decide_eq_false_2. destruct set; [by apply elem_of_nil in Hin|done].
Qed.

(** The store [detachSelf] leaves. *)
Lemma detachSelf_store w this n p pn :
  w_nodes w !! this = Some n → f_parent n = Some p → f_brand n = None →
  w_nodes w !! p = Some pn → this ∈ Node.children_list pn →
  Node.detachSelf this w =
    (Ok this,
     mkWorld (alter (set_parent None) this (alter (without_child this) p (w_nodes w)))
       (w_arrays w) (w_objects w)).
Proof.
  intros En Ep Eb Epn Hin. unfold Node.detachSelf.
  rewrite (bind_ok _ _ _ _ _ (read_ok _ _ _ En)), Ep.
  unfold Node.rec_isBranded. rewrite Eb.
  rewrite (bind_ok _ _ _ _ _ (read_ok _ _ _ Epn)).
  rewrite (rec_isLeaf_false pn this Hin).
  assert (JsSet.has (Node.children_list pn) this = true) as ->.
  { unfold JsSet.has. by apply bool_decide_eq_true. }
  simpl. rewrite (bind_ok _ _ _ _ _ (write_run _ _ _)).
  erewrite bind_ok; last first.
  { apply isLeaf_run. cbn [w_nodes]. by rewrite list_lookup_alter_eq, Epn. }
  unfold Node.rec_isLeaf at 1. cbn [f_children set_children].
  destruct (bool_decide (JsSet.size (JsSet.delete this (Node.children_list pn)) = 0%nat))
    eqn:Hleaf.
  - rewrite (bind_ok _ _ _ _ _ (write_run _ _ _)).
    rewrite (bind_ok _ _ _ _ _ (write_run _ _ _)).
    unfold mret, M_ret. f_equal. cbn [w_nodes w_arrays w_objects]. f_equal.
    f_equal. rewrite list_alter_alter_eq. apply list_alter_ext; [|done].
    intros x Hx. rewrite Epn in Hx. injection Hx as <-.
    unfold without_child. simpl. by rewrite Hleaf.
  - rewrite bind_ret.
    rewrite (bind_ok _ _ _ _ _ (write_run _ _ _)).
    unfold mret, M_ret. f_equal. cbn [w_nodes w_arrays w_objects]. f_equal.
    f_equal. apply list_alter_ext; [|done].
    intros x Hx. rewrite Epn in Hx. injection Hx as <-.
    unfold without_child. simpl. by rewrite Hleaf.
Qed.

(** The store [detach] of one child leaves: the same. *)
Lemma detach_one_store w this n p pn :
  w_nodes w !! this = Some n → f_brand n = None →
  w_nodes w !! p = Some pn → this ∈ Node.children_list pn →
  Node.detach p [this] w =
    (Ok p,
     mkWorld (alter (set_parent None) this (alter (without_child this) p (w_nodes w)))
       (w_arrays w) (w_objects w)).
Proof.
  intros En Eb Epn Hin. unfold Node.detach. simpl.
  rewrite (bind_ok _ _ _ _ _ (read_ok _ _ _ Epn)).
  rewrite (rec_isLeaf_false pn this Hin).
  assert (JsSet.has (Node.children_list pn) this = true) as ->.
  { unfold JsSet.has. by apply bool_decide_eq_true. }
  simpl. erewrite bind_ok; last first.
  { erewrite bind_ok; last first.
    { unfold Node.isBranded. by rewrite (bind_ok _ _ _ _ _ (read_ok _ _ _ En)). }
    unfold Node.rec_isBranded. rewrite Eb. done. }
  simpl.
  set (D := λ n0 : NodeRec Item,
    set_children (Some (JsSet.delete this (Node.children_list n0))) n0).
  erewrite bind_ok; last first.
  { reflexivity. }
  cbn [w_nodes w_arrays w_objects].
  set (l1 := alter (set_parent None) this (alter D p (w_nodes w))).
  assert (∃ pn1, l1 !! p = Some pn1 ∧
            Node.children_list pn1 = JsSet.delete this (Node.children_list pn))
    as (pn1 & Epn1 & Hcl).
  { subst l1. destruct (decide (this = p)) as [->|Hne].
    - rewrite list_alter_alter_eq, list_lookup_alter_eq, Epn. eexists. by split.
    - rewrite list_lookup_alter_ne, list_lookup_alter_eq, Epn by done.
      eexists. by split. }
  erewrite bind_ok; last first.
  { apply isLeaf_run. exact Epn1. }
  assert (Node.rec_isLeaf pn1
          = bool_decide (JsSet.size (JsSet.delete this (Node.children_list pn)) = 0%nat))
    as Hleaf1.
  { unfold Node.rec_isLeaf, Node.children_list in *.
    destruct (f_children pn1) as [set|]; [by rewrite Hcl|].
    rewrite <- Hcl. by rewrite bool_decide_eq_true_2. }
  rewrite Hleaf1.
  assert (∀ g : NodeRec Item → NodeRec Item,
    (∀ x, without_child this x = g (D x)) →
    (∀ x, g (set_parent None x) = set_parent None (g x)) →
    alter g p l1
    = alter (set_parent None) this (alter (without_child this) p (w_nodes w))) as Hcomm.
  { intros g Hg Hgp. subst l1. destruct (decide (this = p)) as [->|Hne].
    - rewrite !list_alter_alter_eq. apply list_alter_ext; [|done].
      intros x _. simpl. by rewrite Hgp, Hg.
    - rewrite list_alter_alter_ne by done. f_equal.
      rewrite list_alter_alter_eq. apply list_alter_ext; [|done].
      intros x _. simpl. by rewrite Hg. }
  destruct (bool_decide (JsSet.size (JsSet.delete this (Node.children_list pn)) = 0%nat))
    eqn:Hleaf.
  - rewrite (bind_ok _ _ _ _ _ (write_run _ _ _)).
    unfold mret, M_ret. f_equal. cbn [w_nodes w_arrays w_objects]. f_equal.
    fold l1. 
    transitivity (alter (λ x, if bool_decide (JsSet.size (Node.children_list x) = 0%nat)
                              then set_children None x else x) p l1).
    { apply list_alter_ext; [|done]. intros x Hx. rewrite Epn1 in Hx.
      injection Hx as <-. by rewrite Hcl, Hleaf. }
    apply Hcomm.
    + intros x. unfold without_child, D. simpl. by case_bool_decide.
    + intros x.
      change (Node.children_list (set_parent None x)) with (Node.children_list x).
      by destruct (bool_decide (JsSet.size (Node.children_list x) = 0%nat)).
  - rewrite bind_ret. unfold mret, M_ret. f_equal. f_equal. fold l1.
    transitivity (alter (λ x, if bool_decide (JsSet.size (Node.children_list x) = 0%nat)
                              then set_children None x else x) p l1).
    { rewrite <- (list_alter_id (λ x, x) l1 p) at 1 by done.
      apply list_alter_ext; [|done]. intros x Hx. rewrite Epn1 in Hx.
      injection Hx as <-. by rewrite Hcl, Hleaf. }
    apply Hcomm.
    + intros x. unfold without_child, D. simpl. by case_bool_decide.
    + intros x.
      change (Node.children_list (set_parent None x)) with (Node.children_list x).
      by destruct (bool_decide (JsSet.size (Node.children_list x) = 0%nat)).
Qed.
End DetachSelfFacts.

(** X3. For an unbranded node [c] listed among the children of its parent [p],
    [c.detachSelf()] and [p.detach(c)] both succeed and leave the same
    store. *)
Theorem detachSelf_is_detach_by_the_parent {Item} (w : World Item) (c p : nat) :
  parent_of w c = Some p → brand_of w c = None → c ∈ children_of w p →
  ∃ w', Node.detachSelf c w = (Ok c, w') ∧ Node.detach p [c] w = (Ok p, w').
Proof.
  unfold parent_of, brand_of. intros Hp Hb Hc.
  destruct (w_nodes w !! c) as [n|] eqn:En; [|done]. simpl in Hp, Hb.
  destruct (w_nodes w !! p) as [pn|] eqn:Epn;
    [|by rewrite (children_of_invalid _ _ Epn) in Hc; apply elem_of_nil in Hc].
  rewrite (children_of_lookup _ _ _ Epn) in Hc.
  eexists. split.
  - by apply (detachSelf_store w c n p pn).
  - by apply (detach_one_store w c n p pn).
Qed.

Section BrandMoreFacts.
Context {Item : Type}.
Implicit Types (w : World Item) (n : NodeRec Item).

Lemma isBranded_run w r n :
  w_nodes w !! r = Some n → Node.isBranded r w = (Ok (Node.rec_isBranded n), w).
Proof.
  intros E. unfold Node.isBranded. by rewrite (bind_ok _ _ _ _ _ (read_ok _ _ _ E)).
Qed.

(** Putting a brand on an unbranded record and clearing it gives the record
    back. *)
Lemma alter_brand_unbrand r o (l : list (NodeRec Item)) n :
  l !! r = Some n → f_brand n = None →
  alter (set_brand None) r (alter (set_brand (Some o)) r l) = l.
Proof.
  intros E Eb. rewrite list_alter_alter_eq.
  rewrite <- (list_alter_id (λ x, x) l r) at 2 by done.
  apply list_alter_ext; [|done]. intros x Hx. rewrite E in Hx. injection Hx as <-.
  destruct n as [it pa ch br]. simpl in *. by subst br.
Qed.
End BrandMoreFacts.

(** X4. [brand] refuses the brand [undefined] and refuses to brand a node that
    carries a brand; in both cases it throws and the store is unchanged. *)
Theorem brand_refuses_undefined_and_rebranding {Item} (w : World Item) (r : nat)
    (b : option Owner) :
  b = None ∨ is_Some (brand_of w r) →
  ∃ e, Node.brand r b w = (Throw (Error e), w).
Proof.
  intros [->|[o Hb]]; [by eexists|].
  destruct b as [o'|]; [|by eexists]. simpl.
  unfold brand_of in Hb. destruct (w_nodes w !! r) as [n|] eqn:En; [|done].
  simpl in Hb. rewrite (bind_ok _ _ _ _ _ (read_ok _ _ _ En)).
  unfold Node.rec_isBranded. rewrite Hb. by eexists.
Qed.

(** X5. Brand round trip. Branding an unbranded node succeeds and makes
    [isBranded] true; calling the returned delegate makes it false again and
    gives back exactly the store from before the branding. *)
Theorem brand_then_release_restores_the_store {Item} (w : World Item) (r : nat)
    (o : Owner) :
  is_Some (w_nodes w !! r) → brand_of w r = None →
  ∃ release w1,
    Node.brand r (Some o) w = (Ok release, w1) ∧
    brand_of w1 r = Some o ∧
    Node.isBranded r w1 = (Ok true, w1) ∧
    Node.call_DeBrand release w1 = (Ok tt, w) ∧
    Node.isBranded r w = (Ok false, w).
Proof.
  intros [n En] Hb. rewrite (brand_of_lookup _ _ _ En) in Hb.
  exists (mkDeBrand r), (write r (set_brand (Some o)) w).2.
  split; [by apply (brand_run w r o n)|].
  split; [by rewrite brand_of_write_brand, En|].
  split.
  - rewrite (isBranded_run _ r (set_brand (Some o) n)); [done|].
    cbn [snd write modify w_nodes]. by rewrite list_lookup_alter_eq, En.
  - split.
    + rewrite call_DeBrand_run. f_equal. simpl.
      rewrite (alter_brand_unbrand r o _ n En Hb). by destruct w.
    + rewrite (isBranded_run _ _ _ En). unfold Node.rec_isBranded. by rewrite Hb.
Qed.

(** X6. [a.isBrandCompatible(b)] answers [true] in two cases only: both nodes
    are unbranded, or both are branded and the [Equals] method of the brand of
    [a] exists and accepts the brand of [b]. It answers [false] when exactly
    one of the two is branded. *)
Theorem isBrandCompatible_answers {Item} (w : World Item) (a b : nat)
    (na nb : NodeRec Item) :
  w_nodes w !! a = Some na → w_nodes w !! b = Some nb →
  (Node.isBrandCompatible a b w = (Ok true, w) ↔
     (f_brand na = None ∧ f_brand nb = None) ∨
     (∃ mine theirs equals, f_brand na = Some mine ∧ f_brand nb = Some theirs ∧
        owner_Equals mine = Some equals ∧ equals (owner_id theirs) = true)) ∧
  ((f_brand na = None ∧ is_Some (f_brand nb)) ∨
   (is_Some (f_brand na) ∧ f_brand nb = None) →
     Node.isBrandCompatible a b w = (Ok false, w)).
Proof.
  intros Ea Eb. split; [by apply isBrandCompatible_true_iff|].
  rewrite (isBrandCompatible_run _ _ _ _ _ Ea Eb).
  intros [[-> [o ->]]|[[o ->] ->]]; done.
Qed.

Section AttachManyFacts.
Context {Item : Type}.
Implicit Types (w : World Item) (n : NodeRec Item).

Lemma attach_turn_valid p c w r :
  is_Some (w_nodes (attach_turn p c w) !! r) ↔ is_Some (w_nodes w !! r).
Proof. unfold attach_turn. by rewrite !valid_write. Qed.

Lemma attach_turn_child_set p c w r :
  r ≠ p → child_set_of (attach_turn p c w) r = child_set_of w r.
Proof.
  intros Hne. unfold attach_turn.
  rewrite child_set_of_write_keep by done. by apply child_set_of_write_ne.
Qed.

Lemma linked_all_nil p w : linked_all [] p w w.
Proof.
  split; [|split; [|by repeat split]].
  - intros r. rewrite decide_False; [done|]. apply not_elem_of_nil.
  - intros r. by case_decide as E; [subst r|].
Qed.

Lemma linked_all_cons c cs p w w' :
  is_Some (w_nodes w !! p) → is_Some (w_nodes w !! c) →
  linked_all cs p (attach_turn p c w) w' → linked_all (c :: cs) p w w'.
Proof.
  intros Hvp Hvc.
  destruct (attach_turn_linked w p c Hvp Hvc) as (Hp & Hc & Hb & Hi & Hl & Ha & Ho).
  fold (attach_turn p c w) in *.
  intros (Hp' & Hc' & Hs' & Hb' & Hi' & Hl' & Ha' & Ho').
  split; [|split; [|split; [|split; [|split; [|split; [|split]]]]]].
  - intros r. rewrite Hp', Hp.
    destruct (decide (r ∈ cs)) as [Hin|Hin].
    + rewrite decide_True; [done|]. by right.
    + destruct (decide (r = c)) as [->|Hne].
      * rewrite decide_True; [done|]. by left.
      * rewrite decide_False; [done|]. rewrite elem_of_cons. tauto.
  - intros r. rewrite Hc'. case_decide as E; [|by rewrite Hc, decide_False].
    subst r. by rewrite Hc, decide_True.
  - intros r Hr. rewrite Hs' by done. by apply attach_turn_child_set.
  - intros r. by rewrite Hb'.
  - intros r. by rewrite Hi'.
  - by rewrite Hl'.
  - by rewrite Ha'.
  - by rewrite Ho'.
Qed.

Lemma attach_loop_linked_all p cs : ∀ w,
  is_Some (w_nodes w !! p) → (∀ c, c ∈ cs → is_Some (w_nodes w !! c)) →
  linked_all cs p w (foldl (λ w c, attach_turn p c w) w cs).
Proof.
  induction cs as [|c cs IH]; intros w Hvp Hvc; simpl.
  - apply linked_all_nil.
  - apply linked_all_cons; [done|apply Hvc; by left|].
    apply IH.
    + by apply attach_turn_valid.
    + intros c' Hc'. apply attach_turn_valid, Hvc. by right.
Qed.

(** The [??=] of [attach] is invisible through the accessors. *)
Lemma linked_all_after_init cs p w w' n :
  w_nodes w !! p = Some n →
  linked_all cs p (write p (set_children (Some (Node.children_list n))) w).2 w' →
  cs ≠ [] →
  linked_all cs p w w'.
Proof.
  intros En (Hp & Hc & Hs & Hb & Hi & Hl & Ha & Ho) Hne.
  set (w0 := (write p _ w).2) in *.
  assert (∀ r, children_of w0 r = children_of w r) as Hc0.
  { intros r. subst w0. rewrite children_of_write. case_decide as E; [|done].
    subst r. rewrite En. simpl. by rewrite (children_of_lookup _ _ _ En). }
  split; [|split; [|split; [|split; [|split; [|split; [|split]]]]]].
  - intros r. rewrite Hp. subst w0. by rewrite parent_of_write_keep.
  - intros r. rewrite Hc, !Hc0. done.
  - intros r Hr. rewrite Hs by done. subst w0. by apply child_set_of_write_ne.
  - intros r. rewrite Hb. subst w0. by rewrite brand_of_write_keep.
  - intros r. rewrite Hi. subst w0. by rewrite item_of_write.
  - rewrite Hl. subst w0. simpl. by rewrite length_alter.
  - by rewrite Ha.
  - by rewrite Ho.
Qed.

Lemma isBrandCompatible_valid w a b o :
  Node.isBrandCompatible a b w = (Ok o, w) →
  is_Some (w_nodes w !! a) ∧ is_Some (w_nodes w !! b).
Proof.
  unfold Node.isBrandCompatible, mbind, M_bind, read.
  destruct (w_nodes w !! a); [|done]. destruct (w_nodes w !! b); [|done]. eauto.
Qed.

(** [attach] of roots that are brand-compatible with the parent. *)
Lemma attach_run w p cs :
  cs ≠ [] →
  (∀ c, c ∈ cs → is_Some (w_nodes w !! c) ∧ parent_of w c = None) →
  (∀ c, c ∈ cs → Node.isBrandCompatible c p w = (Ok true, w)) →
  ∃ w', Node.attach p cs w = (Ok p, w') ∧ linked_all cs p w w'.
Proof.
  intros Hne Hroots Hcompat.
  assert (is_Some (w_nodes w !! p)) as [n En].
  { destruct cs as [|c ?]; [done|].
    by destruct (isBrandCompatible_valid w c p true (Hcompat c ltac:(left))). }
  exists (foldl (λ w c, attach_turn p c w)
            (write p (set_children (Some (Node.children_list n))) w).2 cs).
  split.
  - unfold Node.attach. rewrite bool_decide_eq_false_2; last first.
    { destruct cs; [done|]. simpl. lia. }
    assert (∀ c, c ∈ cs → Node.isRoot c w = (Ok true, w)) as Hr.
    { intros c Hc. destruct (Hroots c Hc) as [[nc Ec] Hp].
      rewrite (isRoot_run _ _ _ Ec). unfold Node.rec_isRoot.
      rewrite (parent_of_lookup _ _ _ Ec) in Hp. by rewrite Hp. }
    rewrite (bind_ok _ _ _ _ _ (every_all_true Node.isRoot cs w Hr)).
    simpl. rewrite (bind_ok _ _ _ _ _ (every_all_true _ cs w Hcompat)). simpl.
    rewrite (bind_ok _ _ _ _ _ (read_ok _ _ _ En)).
    rewrite (bind_ok _ _ _ _ _ (write_run _ _ _)).
    erewrite bind_ok; last first.
    { apply (for_each_writes (λ c w, attach_turn p c w)). done. }
    done.
  - apply (linked_all_after_init cs p w _ n En); [|done].
    apply attach_loop_linked_all.
    + apply valid_write. by eexists.
    + intros c Hc. apply valid_write. by apply Hroots.
Qed.
End AttachManyFacts.

(** X7. [p.attach(cs)] succeeds for a non-empty list of roots that are all
    brand-compatible with [p] (which may contain a node twice, and [p]
    itself). Afterwards each of them has [p] as its parent and the child set
    of [p] is the former one followed by the new children in the order given,
    each once; nothing else has changed. *)
Theorem attach_links_the_children {Item} (w : World Item) (p : nat) (cs : list nat) :
  cs ≠ [] →
  (∀ c, c ∈ cs → is_Some (w_nodes w !! c) ∧ parent_of w c = None) →
  (∀ c, c ∈ cs → Node.isBrandCompatible c p w = (Ok true, w)) →
  ∃ w', Node.attach p cs w = (Ok p, w') ∧ linked_all cs p w w'.
Proof. apply attach_run. Qed.

(** ** The structural invariant *)

Section InvariantFacts.
Context {Item : Type}.
Implicit Types (w : World Item) (n : NodeRec Item).

Lemma elem_of_add_all (cs : list nat) : ∀ (l : list nat) x,
  x ∈ JsSet.add_all cs l ↔ x ∈ cs ∨ x ∈ l.
Proof.
  induction cs as [|c cs IH]; intros l x; simpl.
  - rewrite elem_of_nil. tauto.
  - change (x ∈ JsSet.add_all cs (JsSet.add c l) ↔ x ∈ c :: cs ∨ x ∈ l).
    rewrite IH, elem_of_JsSet_add, elem_of_cons. tauto.
Qed.

Lemma NoDup_add_all (cs : list nat) : ∀ l : list nat,
  NoDup l → NoDup (JsSet.add_all cs l).
Proof.
  induction cs as [|c cs IH]; intros l Hl; [done|].
  change (NoDup (JsSet.add_all cs (JsSet.add c l))). apply IH.
  unfold JsSet.add, JsSet.has. case_bool_decide as Hc; [done|].
  apply NoDup_app. split; [done|]. split; [|apply NoDup_singleton].
  intros x Hx Hx'. apply list_elem_of_singleton in Hx' as ->. done.
Qed.

Lemma child_set_not_empty w w' r :
  (∀ r n, w_nodes w !! r = Some n → f_children n ≠ Some []) →
  length (w_nodes w') = length (w_nodes w) →
  child_set_of w' r = child_set_of w r →
  ∀ n', w_nodes w' !! r = Some n' → f_children n' ≠ Some [].
Proof.
  intros Hw Hlen Hset n' En'.
  assert (is_Some (w_nodes w !! r)) as [n En].
  { apply lookup_lt_is_Some. rewrite <- Hlen. by apply lookup_lt_is_Some. }
  unfold child_set_of in Hset. rewrite En, En' in Hset. simpl in Hset.
  rewrite Hset. by apply (Hw r).
Qed.

Lemma well_linked_empty arrays objects :
  well_linked (mkWorld (Item:=Item) [] arrays objects).
Proof.
  split; [|split].
  - intros p c. unfold children_of, parent_of. simpl. split; [|done].
    intros H. by apply elem_of_nil in H.
  - intros p. constructor.
  - intros r n E. simpl in E. by destruct r.
Qed.

Lemma well_linked_constructor w item :
  well_linked w → well_linked (Node.constructor item w).2.
Proof.
  intros (Hlink & Hnodup & Hsets).
  assert (∀ r, (r < length (w_nodes w))%nat →
    w_nodes (Node.constructor item w).2 !! r = w_nodes w !! r) as Hold.
  { intros r Hr. simpl. by rewrite lookup_app_l. }
  assert (∀ r, ¬ (r < length (w_nodes w))%nat →
    w_nodes w !! r = None ∧
    (∀ n, w_nodes (Node.constructor item w).2 !! r = Some n →
       f_parent n = None ∧ f_children n = None)) as Hnew.
  { intros r Hr. split; [apply lookup_ge_None; lia|].
    intros n. simpl. rewrite lookup_app_r by lia.
    destruct (r - length (w_nodes w))%nat; simpl; [|done].
    by intros [= <-]. }
  assert (∀ r, children_of (Node.constructor item w).2 r = children_of w r) as Hc.
  { intros r. unfold children_of.
    destruct (decide (r < length (w_nodes w))%nat) as [Hr|Hr]; [by rewrite Hold|].
    destruct (Hnew r Hr) as [-> Hn].
    destruct (w_nodes (Node.constructor item w).2 !! r) as [n|] eqn:E; [|done].
    simpl. by destruct (Hn n eq_refl) as [_ ->]. }
  assert (∀ r, parent_of (Node.constructor item w).2 r = parent_of w r) as Hp.
  { intros r. unfold parent_of.
    destruct (decide (r < length (w_nodes w))%nat) as [Hr|Hr]; [by rewrite Hold|].
    destruct (Hnew r Hr) as [-> Hn].
    destruct (w_nodes (Node.constructor item w).2 !! r) as [n|] eqn:E; [|done].
    simpl. by destruct (Hn n eq_refl) as [-> _]. }
  split; [|split].
  - intros p c. rewrite Hc, Hp. apply Hlink.
  - intros p. rewrite Hc. apply Hnodup.
  - intros r n E.
    destruct (decide (r < length (w_nodes w))%nat) as [Hr|Hr].
    + rewrite Hold in E by done. by apply (Hsets r).
    + destruct (Hnew r Hr) as [_ Hn]. by destruct (Hn n E) as [_ ->].
Qed.

(** Attaching roots keeps the invariant. *)
Lemma linked_all_well_linked cs p w w' :
  well_linked w → cs ≠ [] → (∀ c, c ∈ cs → parent_of w c = None) →
  linked_all cs p w w' → well_linked w'.
Proof.
  intros (Hlink & Hnodup & Hsets) Hne Hroots
    (Hp & Hc & Hs & Hb & Hi & Hl & Ha & Ho).
  split; [|split].
  - intros p' c'. rewrite Hc, Hp.
    destruct (decide (p' = p)) as [->|Hpp].
    + rewrite elem_of_add_all. destruct (decide (c' ∈ cs)) as [Hin|Hin]; [tauto|].
      rewrite <- Hlink. tauto.
    + destruct (decide (c' ∈ cs)) as [Hin|Hin]; [|apply Hlink].
      rewrite Hlink, (Hroots c' Hin). split; [done|]. intros [= ->]. done.
  - intros p'. rewrite Hc. case_decide; [|apply Hnodup].
    apply NoDup_add_all, Hnodup.
  - intros r n' En'. destruct (decide (r = p)) as [->|Hr].
    + intros Hempty.
      assert (children_of w' p = []) as Hnil.
      { unfold children_of. by rewrite En'; simpl; rewrite Hempty. }
      rewrite Hc, decide_True in Hnil by done.
      destruct cs as [|c cs]; [done|].
      assert (c ∈ JsSet.add_all (c :: cs) (children_of w p)) as Hin.
      { apply elem_of_add_all. left. by left. }
      rewrite Hnil in Hin. by apply elem_of_nil in Hin.
    + by apply (child_set_not_empty w w' r Hsets Hl (Hs r Hr)).
Qed.

(** Detaching children keeps the invariant. *)
Lemma unlinked_all_well_linked cs p w w' :
  well_linked w → (∀ c, c ∈ cs → c ∈ children_of w p) →
  unlinked_all cs p w w' →
  (children_of w' p = [] → ∃ n, w_nodes w' !! p = Some n ∧ f_children n = None) →
  well_linked w'.
Proof.
  intros (Hlink & Hnodup & Hsets) Hin
    (Hp & Hc & Hs & Hb & Hi & Hl & Ha & Ho) Hrel.
  split; [|split].
  - intros p' c'. rewrite Hc, Hp.
    destruct (decide (p' = p)) as [->|Hpp].
    + rewrite list_elem_of_filter. destruct (decide (c' ∈ cs)) as [Hc'|Hc'].
      * split; [tauto|done].
      * rewrite <- Hlink. tauto.
    + destruct (decide (c' ∈ cs)) as [Hc'|Hc']; [|apply Hlink].
      split; [|done]. intros Hin'. apply Hlink in Hin'.
      apply Hin, Hlink in Hc'. rewrite Hc' in Hin'. by injection Hin' as ->.
  - intros p'. rewrite Hc. case_decide; [|apply Hnodup].
    apply NoDup_filter, Hnodup.
  - intros r n' En'. destruct (decide (r = p)) as [->|Hr].
    + intros Hempty.
      assert (children_of w' p = []) as Hnil.
      { unfold children_of. by rewrite En'; simpl; rewrite Hempty. }
      destruct (Hrel Hnil) as (n & En & Hnone). rewrite En' in En.
      injection En as <-. by rewrite Hempty in Hnone.
    + by apply (child_set_not_empty w w' r Hsets Hl (Hs r Hr)).
Qed.

Lemma attach_well_linked w p cs o w' :
  well_linked w → Node.attach p cs w = (o, w') → well_linked w'.
Proof.
  intros Hw E.
  destruct (attach_outcome w p cs) as [[e E']|(w1 & E' & Hne & Hroots & Hcompat)].
  { rewrite E' in E. by injection E as <- <-. }
  destruct (attach_run w p cs Hne) as (w2 & E2 & Hlinked).
  - intros c Hc. apply (every_true _ _ _ reads_isRoot Hroots) in Hc.
    apply isRoot_true in Hc. tauto.
  - intros c Hc.
    by apply (every_true _ _ _ (λ x, reads_isBrandCompatible x p) Hcompat).
  - rewrite E2 in E. injection E as <- <-.
    apply (linked_all_well_linked cs p w w2); try done.
    intros c Hc. apply (every_true _ _ _ reads_isRoot Hroots) in Hc.
    by apply isRoot_true in Hc as [? _].
Qed.

Lemma detach_well_linked w p cs o w' :
  well_linked w → Node.detach p cs w = (o, w') → well_linked w'.
Proof.
  intros Hw E.
  destruct (detach_outcome w p cs)
    as [(e & E' & _)|(w1 & E' & Hne & Hin & Hbr & Hun & Hrel)];
    rewrite E' in E; injection E as <- <-; [done|].
  by apply (unlinked_all_well_linked cs p w w1).
Qed.

(** [detachSelf] throws and changes nothing unless the node is unbranded,
    has a parent and is listed among the children of that parent. *)
Lemma detachSelf_cases w c :
  (∃ e, Node.detachSelf c w = (Throw e, w)) ∨
  (∃ p, parent_of w c = Some p ∧ brand_of w c = None ∧ c ∈ children_of w p).
Proof.
  destruct (w_nodes w !! c) as [n|] eqn:En; last first.
  { left. unfold Node.detachSelf, mbind, M_bind, read. rewrite En. by eexists. }
  destruct (f_parent n) as [p|] eqn:Ep; last first.
  { left. unfold Node.detachSelf.
    rewrite (bind_ok _ _ _ _ _ (read_ok _ _ _ En)), Ep. by eexists. }
  destruct (f_brand n) as [b|] eqn:Eb.
  { left. unfold Node.detachSelf.
    rewrite (bind_ok _ _ _ _ _ (read_ok _ _ _ En)), Ep.
    unfold Node.rec_isBranded. rewrite Eb. by eexists. }
  destruct (w_nodes w !! p) as [pn|] eqn:Epn; last first.
  { left. unfold Node.detachSelf.
    rewrite (bind_ok _ _ _ _ _ (read_ok _ _ _ En)), Ep.
    unfold Node.rec_isBranded. rewrite Eb.
    unfold mbind, M_bind, read. rewrite Epn. by eexists. }
  destruct (decide (c ∈ Node.children_list pn)) as [Hin|Hin].
  - right. exists p. rewrite (parent_of_lookup _ _ _ En), (brand_of_lookup _ _ _ En).
    by rewrite (children_of_lookup _ _ _ Epn).
  - left. unfold Node.detachSelf.
    rewrite (bind_ok _ _ _ _ _ (read_ok _ _ _ En)), Ep.
    unfold Node.rec_isBranded. rewrite Eb.
    rewrite (bind_ok _ _ _ _ _ (read_ok _ _ _ Epn)).
    unfold JsSet.has. rewrite (bool_decide_eq_false_2 _ Hin).
    rewrite orb_true_r. by eexists.
Qed.

Lemma detachSelf_well_linked w c o w' :
  well_linked w → Node.detachSelf c w = (o, w') → well_linked w'.
Proof.
  intros Hw E. destruct (detachSelf_cases w c) as [[e E']|(p & Hp & Hb & Hc)].
  { rewrite E' in E. by injection E as <- <-. }
  unfold parent_of, brand_of in Hp, Hb.
  destruct (w_nodes w !! c) as [n|] eqn:En; [|done]. simpl in Hp, Hb.
  destruct (w_nodes w !! p) as [pn|] eqn:Epn;
    [|by rewrite (children_of_invalid _ _ Epn) in Hc; apply elem_of_nil in Hc].
  rewrite (children_of_lookup _ _ _ Epn) in Hc.
  rewrite (detachSelf_store w c n p pn En Hp Hb Epn Hc) in E.
  injection E as <- <-.
  exact (detach_well_linked w p [c] _ _ Hw (detach_one_store w c n p pn En Hb Epn Hc)).
Qed.

(** What every [detachSelf] keeps, [dismantle] keeps. *)
Lemma dismantle_preserves (R : World Item → World Item → Prop) :
  (∀ w, R w w) →
  (∀ w1 w2 w3, R w1 w2 → R w2 w3 → R w1 w3) →
  (∀ c w o w', Node.detachSelf c w = (o, w') → R w w') →
  ∀ fuel this includeAncestry w o w',
    Node.dismantle fuel this includeAncestry w = (o, w') → R w w'.
Proof.
  intros Hrefl Htrans Hstep.
  assert (∀ c w (o : Outcome unit) w',
    (Node.detachSelf c ≫= λ _, mret tt) w = (o, w') → R w w') as Hbody.
  { intros c w o w' E.
    apply bind_inv in E as [(a & w1 & Ed & E)|[(e & Ed & _)|[Ed _]]];
      apply Hstep in Ed; [by injection E as _ <-|done..]. }
  induction fuel as [|fuel IH]; intros this incl w o w' E.
  - injection E as <- <-. apply Hrefl.
  - rewrite dismantle_S in E.
    apply bind_inv in E as [(n & w0 & En & E)|[(e & En & _)|[En _]]];
      destruct (reads_read (Item:=Item) this w) as [[n' En']|[e' En']];
      rewrite En' in En; try discriminate En;
      try (injection En as <- <-; apply Hrefl).
    injection En as <- <-.
    assert (∀ o1 w1,
      (match f_parent n' return M (World Item) unit with
       | Some parent =>
           if incl
           then Node.detachSelf this;; Node.dismantle fuel parent true;; mret tt
           else mret tt
       | None => mret tt
       end) w = (o1, w1) → R w w1) as Hup.
    { intros o1 w1 Eup. destruct (f_parent n') as [p|], incl;
        try (injection Eup as <- <-; apply Hrefl).
      apply bind_inv in Eup as [(a & w2 & Ed & Eup)|[(e & Ed & _)|[Ed _]]];
        apply Hstep in Ed; [|done..].
      eapply Htrans; [done|].
      apply bind_inv in Eup as [(a' & w3 & Ed' & Eup)|[(e & Ed' & _)|[Ed' _]]];
        apply IH in Ed'; [by injection Eup as <- <-|done..]. }
    apply bind_inv in E as [([] & w1 & Eup & E)|[(e & Eup & _)|[Eup _]]];
      apply Hup in Eup; [|done..].
    eapply Htrans; [done|].
    assert (∀ o2 w2,
      Node.for_descendants id this true BreadthFirst
        (λ descendant, Node.detachSelf descendant;; mret tt) fuel w1 = (o2, w2) →
      R w1 w2) as Hloop.
    { intros o2 w2 Ef. unfold Node.for_descendants in Ef.
      apply bind_inv in Ef as [(roots & w1' & Er & Ef)|[(e & Er & _)|[Er _]]];
        apply on_world_state in Er as ->; [|apply Hrefl..].
      unfold TraverseGraph.for_of in Ef.
      eapply (graph_loop_preserves R); [exact Hrefl|exact Htrans| |exact Ef].
      intros m st o' st'. apply Hbody. }
    apply bind_inv in E as [([] & w2 & Ef & E)|[(e & Ef & _)|[Ef _]]];
      apply Hloop in Ef; [by injection E as <- <-|done..].
Qed.

Lemma dismantle_well_linked fuel this includeAncestry w o w' :
  well_linked w → Node.dismantle fuel this includeAncestry w = (o, w') →
  well_linked w'.
Proof.
  intros Hw E. revert Hw.
  apply (dismantle_preserves (λ w w', well_linked w → well_linked w'))
    with fuel this includeAncestry o; try done.
  - intros w1 w2 w3 H12 H23 H1. auto.
  - intros c w1 o1 w1' E1 H1. by apply (detachSelf_well_linked w1 c o1 w1').
Qed.
End InvariantFacts.

(** X8. The structural invariant of the node class. A new node keeps it,
    and so does every call of [attach], [detach], [detachSelf] and
    [dismantle], whether it returns or throws: child sets and
    parent pointers agree in both directions, no child is listed twice, and no
    node is left with an empty child set. *)
Theorem link_operations_keep_the_structure {Item} (w : World Item) :
  well_linked w →
  (∀ item, well_linked (Node.constructor item w).2) ∧
  (∀ p cs o w', Node.attach p cs w = (o, w') → well_linked w') ∧
  (∀ p cs o w', Node.detach p cs w = (o, w') → well_linked w') ∧
  (∀ c o w', Node.detachSelf c w = (o, w') → well_linked w') ∧
  (∀ fuel n includeAncestry o w',
     Node.dismantle fuel n includeAncestry w = (o, w') → well_linked w').
Proof.
  intros Hw. split; [|split; [|split; [|split]]].
  - intros item. by apply well_linked_constructor.
  - intros p cs o w'. by apply attach_well_linked.
  - intros p cs o w'. by apply detach_well_linked.
  - intros c o w'. by apply detachSelf_well_linked.
  - intros fuel n incl o w'. by apply dismantle_well_linked.
Qed.

(** ** Parent chains that never end *)

Section EndlessFacts.
Context {Item : Type}.
Implicit Types (w : World Item).

(** The sequence driver over the parent accessor runs out of any fuel when
    it starts inside a set of nodes that the parent pointers never leave. *)
Lemma sequence_loop_endless {A} w (f : World Item → nat → Outcome A) (S : list nat) :
  (∀ m, m ∈ S → ∃ m', parent_of w m = Some m' ∧ m' ∈ S) →
  (∀ m, m ∈ S → ∃ y, f w m = Ok y) →
  ∀ fuel m i c sk acc, m ∈ S →
  ∃ acc',
    TraverseSequence.loop (λ st : World Item * list A, Node.next_parent st.1)
      (Node.push_each f) fuel (SequenceSignal.mk (Some m) i c sk) (w, acc)
    = (OutOfFuel, (w, acc')).
Proof.
  intros Hclosed Hf. induction fuel as [|fuel IH]; intros m i c sk acc Hm.
  - by eexists.
  - simpl. unfold Node.push_each at 1. cbn [fst snd].
    destruct (Hf m Hm) as [y ->].
    destruct (Hclosed m Hm) as (m' & Hp & Hm').
    unfold SequenceSignal.cleanup, SequenceSignal.next, Node.next_parent. cbn.
    rewrite Hp. apply IH, Hm'.
Qed.

Lemma getAncestors_endless w (S : list nat) this fuel :
  (∀ m, m ∈ S → ∃ m', parent_of w m = Some m' ∧ m' ∈ S) →
  this ∈ S →
  Node.getAncestors this false fuel w = (OutOfFuel, w).
Proof.
  intros Hclosed Hthis. unfold Node.getAncestors, Node.filled, Node.for_ancestors.
  erewrite bind_ok; [|reflexivity].
  unfold TraverseSequence.for_of, SequenceSignal.constructor.
  destruct (sequence_loop_endless w (λ _ n, Ok n) S Hclosed
              (λ m _, ex_intro _ m eq_refl) fuel this (-1) 0 false [] Hthis)
    as [acc' ->].
  done.
Qed.

(** The nodes of a chain of parent links before a given one point to the
    next node of the chain. *)
Lemma ancestry_cons_inv w d x l :
  ancestry w (Some d) (x :: l) →
  x = d ∧ is_Some (w_nodes w !! d) ∧ ancestry w (parent_of w d) l.
Proof. intros H. by inversion H. Qed.

Lemma ancestry_some_inv w first x l :
  ancestry w first (x :: l) → first = Some x.
Proof. intros H. by inversion H. Qed.

Lemma ancestry_prefix w pre : ∀ d a post,
  ancestry w (Some d) (pre ++ a :: post) →
  head (pre ++ [a]) = Some d ∧
  ∀ m, m ∈ pre → ∃ m', parent_of w m = Some m' ∧ m' ∈ pre ++ [a].
Proof.
  induction pre as [|x pre IH]; intros d a post H.
  - change ([] ++ a :: post) with (a :: post) in H.
    apply ancestry_cons_inv in H as (-> & Hv & Hrest).
    split; [done|]. intros m Hm. by apply elem_of_nil in Hm.
  - change ((x :: pre) ++ a :: post) with (x :: (pre ++ a :: post)) in H.
    change ((x :: pre) ++ [a]) with (x :: (pre ++ [a])).
    apply ancestry_cons_inv in H as (-> & Hv & Hrest).
    split; [done|].
    assert (∃ d', parent_of w d = Some d') as [d' Hd'].
    { destruct (pre ++ a :: post) as [|y l] eqn:E; [by destruct pre|].
      apply ancestry_some_inv in Hrest. by exists y. }
    rewrite Hd' in Hrest. destruct (IH d' a post Hrest) as [Hhead Hnext].
    intros m Hm. apply elem_of_cons in Hm as [->|Hm].
    + exists d'. split; [done|]. right.
      destruct (pre ++ [a]) as [|h t]; [done|]. injection Hhead as ->. by left.
    + destruct (Hnext m Hm) as (m' & Hp & Hm'). exists m'. split; [done|]. by right.
Qed.
End EndlessFacts.

(** X9. [attach] looks at the parent pointer and the brand of the new child and
    at nothing else: an unbranded root can be attached beneath itself or
    beneath any of its own unbranded descendants. The call succeeds and closes
    a cycle of parent links, after which the ancestor walk from that node does
    not end, whatever the fuel. *)
Theorem attach_accepts_an_ancestor_as_child {Item} (w : World Item) (a d : nat)
    (chain : list nat) :
  is_Some (w_nodes w !! a) → parent_of w a = None → brand_of w a = None →
  brand_of w d = None →
  ancestry w (Some d) chain → a ∈ chain →
  ∃ w', Node.attach d [a] w = (Ok d, w') ∧
    parent_of w' a = Some d ∧
    ∀ fuel, Node.getAncestors a false fuel w' = (OutOfFuel, w').
Proof.
  intros [na Ea] Hroot Hba Hbd Hchain Ha.
  assert (is_Some (w_nodes w !! d)) as [nd Ed] by (by inversion Hchain).
  destruct (attach_run w d [a]) as (w' & E & Hp & _); [done| | |].
  { intros c Hc. apply list_elem_of_singleton in Hc as ->. split; [by eexists|done]. }
  { intros c Hc. apply list_elem_of_singleton in Hc as ->.
    apply (isBrandCompatible_true_iff w a d na nd Ea Ed). left.
    rewrite (brand_of_lookup _ _ _ Ea) in Hba.
    by rewrite (brand_of_lookup _ _ _ Ed) in Hbd. }
  exists w'. split; [done|].
  assert (parent_of w' a = Some d) as Hpa.
  { rewrite Hp, decide_True; [done|]. by left. }
  split; [done|]. intros fuel.
  apply list_elem_of_split_l in Ha as (pre & post & -> & Hfresh).
  destruct (ancestry_prefix w pre d a post Hchain) as [Hhead Hnext].
  apply (getAncestors_endless w' (pre ++ [a])); [|apply elem_of_app; right; by left].
  intros m Hm. apply elem_of_app in Hm as [Hm|Hm].
  - destruct (Hnext m Hm) as (m' & Hpm & Hm'). exists m'. split; [|done].
    rewrite Hp, decide_False; [done|].
    intros Hin. apply list_elem_of_singleton in Hin as ->. done.
  - apply list_elem_of_singleton in Hm as ->. exists d. split; [done|].
    destruct (pre ++ [a]) as [|h t]; [done|]. injection Hhead as ->. by left.
Qed.

(** ** Traversals that mutate while they iterate *)

Section FollowsFacts.
Context {TNode St : Type} `{EqDecision TNode}.
Variable nx : St → TNode → list TNode.
Variable next0 : TNode → list TNode.
Variable body : TNode → M St unit.
Variable I : St → list TNode → Prop.
(** While [I] holds the accessor gives the edges [next0] of the node that
    comes next, and a successful run of the body re-establishes [I] for the
    nodes after it. *)
Hypothesis Hnx : ∀ st x rest, I st (x :: rest) → nx st x = next0 x.
Hypothesis Hbody : ∀ st x rest st',
  I st (x :: rest) → body x st = (Ok tt, st') → I st' rest.

Lemma follows_done df : follows nx body I df [] [].
Proof.
  intros sig st fuel Hready Hdf Hvis HI Hfuel.
  destruct fuel as [|fuel]; [simpl in Hfuel; lia|]. simpl.
  unfold GraphSignal.tryGetNext. rewrite Hvis.
  by rewrite (tryGetNextInternal_done sig Hready).
Qed.

Lemma follows_step df x pend out :
  follows nx body I df (pending_after df (next0 x) pend) out →
  follows nx body I df (x :: pend) (x :: out).
Proof.
  intros Hrest sig st fuel Hready Hdf Hvis HI Hfuel.
  destruct fuel as [|fuel]; [simpl in Hfuel; lia|]. simpl.
  unfold GraphSignal.tryGetNext. rewrite Hvis.
  destruct (tryGetNextInternal_ready sig x pend Hready)
    as (sig' & -> & Hready' & Hdf' & Hvis' & Hsk').
  unfold TraverseGraph.default_callback. rewrite (Hnx st x out HI).
  destruct (callback_cleanup_ready sig' pend (next0 x) Hready' Hsk')
    as (Hyield & Hready2 & Hdf2 & Hvis2).
  rewrite Hyield. unfold mbind, M_bind.
  destruct (body x st) as [[[]|e|] st1] eqn:Eb; [|done..].
  apply Hrest.
  - by rewrite <- Hdf, <- Hdf'.
  - by rewrite Hdf2, Hdf'.
  - by rewrite Hvis2, Hvis'.
  - by apply (Hbody st x out).
  - simpl in Hfuel. lia.
Qed.

Lemma follows_queue q : ∀ r out,
  follows nx body I false (r ++ (q ≫= next0)) out →
  follows nx body I false (q ++ r) (q ++ out).
Proof.
  induction q as [|x q IH]; intros r out H.
  - by rewrite app_nil_r in H.
  - simpl. apply follows_step. unfold pending_after.
    rewrite <- app_assoc. apply IH.
    rewrite <- app_assoc. by rewrite bind_cons in H.
Qed.

Lemma follows_levels level out :
  levels next0 level out → follows nx body I false level out.
Proof.
  induction 1 as [|level rest Hne Hrest IH].
  - apply follows_done.
  - rewrite <- (app_nil_r level) at 1. by apply follows_queue.
Qed.

Lemma follows_branches ns below :
  branches next0 ns below →
  ∀ rest out, follows nx body I true rest out →
              follows nx body I true (ns ++ rest) (below ++ out).
Proof.
  induction 1 using branches_ind2 with
    (P := λ n below, ∀ rest out,
            follows nx body I true rest out →
            follows nx body I true (n :: rest) (below ++ out));
    intros pend out Hrest.
  - simpl. apply follows_step. unfold pending_after. by apply IHbranches.
  - done.
  - simpl. rewrite <- app_assoc. apply IHbranches. by apply IHbranches0.
Qed.

(** A breadth-first [for ... of] over the traversal is the plain loop over
    the level-by-level listing. *)
Lemma for_of_levels roots out fuel st :
  levels next0 roots out → I st out → (length out < fuel)%nat →
  TraverseGraph.for_of roots false BreadthFirst
    (TraverseGraph.default_callback nx) body fuel st
  = for_each body out st.
Proof.
  intros Hlevels HI Hfuel. unfold TraverseGraph.for_of.
  destruct (constructor_ready roots false BreadthFirst) as (Hready & Hdf & Hvis).
  by apply (follows_levels roots out Hlevels).
Qed.

(** A depth-first one is the plain loop over the branch-by-branch
    listing. *)
Lemma for_of_branches roots out fuel st :
  branches next0 (rev roots) out → I st out → (length out < fuel)%nat →
  TraverseGraph.for_of roots false DepthFirst
    (TraverseGraph.default_callback nx) body fuel st
  = for_each body out st.
Proof.
  intros Hbranches HI Hfuel. unfold TraverseGraph.for_of.
  destruct (constructor_ready roots false DepthFirst) as (Hready & Hdf & Hvis).
  pose proof (follows_branches _ _ Hbranches [] [] (follows_done true)) as Hf.
  rewrite !app_nil_r in Hf. apply Hf; try done.
  rewrite Hdf in Hready. unfold pending_after in Hready.
  by rewrite app_nil_r in Hready.
Qed.
End FollowsFacts.
(** * Further properties of the hierarchy *)

Section IndexFacts.
Context {Item Id : Type} `{EqDecision Id}.
Implicit Types (h : Hierarchy.t Item Id) (w : World Item)
  (st : Hierarchy.State Item Id).

Lemma JsMap_get_set {V} (m : list (Id * V)) k v k' :
  JsMap.get (JsMap.set k v m) k' = if decide (k = k') then Some v else JsMap.get m k'.
Proof.
  induction m as [|[k0 v0] m IH]; simpl.
  - done.
  - destruct (decide (k0 = k)) as [->|Hne]; simpl.
    + by destruct (decide (k = k')).
    + rewrite IH. destruct (decide (k0 = k')) as [->|]; [|done].
      by rewrite decide_False.
Qed.

Lemma for_each_app {S A} (f : A → M S unit) xs ys s :
  for_each f (xs ++ ys) s = (for_each f xs;; for_each f ys) s.
Proof.
  revert s. induction xs as [|x xs IH]; intros s; simpl.
  - done.
  - unfold mbind, M_bind. destruct (f x s) as [[[]|e|] s1]; [|done..].
    apply IH.
Qed.

Lemma in_world_run {A} (m : M (World Item) A) h w o w' :
  m w = (o, w') → Hierarchy.in_world m (h, w) = (o, (h, w')).
Proof. intros E. unfold Hierarchy.in_world. simpl. by rewrite E. Qed.

Lemma item_run w r n : w_nodes w !! r = Some n → Node.item r w = (Ok (f_item n), w).
Proof. intros E. unfold Node.item. by rewrite (bind_ok _ _ _ _ _ (read_ok _ _ _ E)). Qed.

(** What the body of the loop does with an unbranded node. *)
Lemma index_node_run h w x n :
  w_nodes w !! x = Some n → f_brand n = None →
  index_node x (h, w) =
    (Ok tt,
     (Hierarchy.set_nodes
        (JsMap.set (Hierarchy.f_identify h (f_item n)) x (Hierarchy.f_nodes h))
        (Hierarchy.set_debrand
           (JsMap.set (Hierarchy.f_identify h (f_item n)) (mkDeBrand x)
              (Hierarchy.f_debrand h)) h),
      (write x (set_brand (Some (Hierarchy.as_owner h))) w).2)).
Proof.
  intros E Eb. unfold index_node.
  rewrite (bind_ok Hierarchy.this _ (h, w) h (h, w) eq_refl).
  rewrite (bind_ok _ _ _ _ _ (in_world_run _ h w _ _ (item_run _ _ _ E))).
  rewrite (bind_ok _ _ _ _ _ (in_world_run _ h w _ _ (brand_run _ _ _ _ E Eb))).
  done.
Qed.

(** With a branded node it throws, before anything is stored. *)
Lemma index_node_branded h w x n o :
  w_nodes w !! x = Some n → f_brand n = Some o →
  index_node x (h, w) = (Throw rebrand_error, (h, w)).
Proof.
  intros E Eb. unfold index_node.
  rewrite (bind_ok Hierarchy.this _ (h, w) h (h, w) eq_refl).
  rewrite (bind_ok _ _ _ _ _ (in_world_run _ h w _ _ (item_run _ _ _ E))).
  apply bind_throw, in_world_run.
  unfold Node.brand. rewrite (bind_ok _ _ _ _ _ (read_ok _ _ _ E)).
  unfold Node.rec_isBranded. by rewrite Eb.
Qed.

Lemma index_node_invalid h w x :
  w_nodes w !! x = None → ∃ e, index_node x (h, w) = (Throw e, (h, w)).
Proof.
  intros E. unfold index_node.
  rewrite (bind_ok Hierarchy.this _ (h, w) h (h, w) eq_refl).
  eexists. apply bind_throw, in_world_run.
  unfold Node.item. apply bind_throw. unfold read. by rewrite E.
Qed.

(** The three cases of the body. *)
Lemma index_node_cases h w x :
  (∃ e, index_node x (h, w) = (Throw e, (h, w))) ∨
  (∃ n, w_nodes w !! x = Some n ∧ f_brand n = None ∧
     index_node x (h, w) =
       (Ok tt,
        (Hierarchy.set_nodes
           (JsMap.set (Hierarchy.f_identify h (f_item n)) x (Hierarchy.f_nodes h))
           (Hierarchy.set_debrand
              (JsMap.set (Hierarchy.f_identify h (f_item n)) (mkDeBrand x)
                 (Hierarchy.f_debrand h)) h),
         (write x (set_brand (Some (Hierarchy.as_owner h))) w).2))).
Proof.
  destruct (w_nodes w !! x) as [n|] eqn:E; [|left; by apply index_node_invalid].
  destruct (f_brand n) as [o|] eqn:Eb.
  - left. eexists. by eapply index_node_branded.
  - right. exists n. split; [done|]. split; [done|]. by apply index_node_run.
Qed.

(** The body leaves the child sets alone. *)
Lemma index_node_children x st o st' :
  index_node x st = (o, st') → ∀ r, children_of st'.2 r = children_of st.2 r.
Proof.
  destruct st as [h w]. intros E r.
  destruct (index_node_cases h w x) as [[e E']|(n & En & Eb & E')];
    rewrite E' in E; injection E as <- <-; [done|]. simpl.
  by apply children_of_write_keep.
Qed.

Lemma addNodes_unfold nodes fuel :
  Hierarchy.addNodes (Item:=Item) (Id:=Id) nodes fuel =
    TraverseGraph.for_of nodes false BreadthFirst
      (TraverseGraph.default_callback
         (λ st : Hierarchy.State Item Id, Node.next_children st.2))
      index_node fuel.
Proof. done. Qed.

(** [#addNodes] is the plain loop over the level-by-level listing of the
    nodes below the ones it is given. *)
Lemma addNodes_for_each nodes out fuel st :
  levels (children_of st.2) nodes out → (length out < fuel)%nat →
  Hierarchy.addNodes nodes fuel st = for_each index_node out st.
Proof.
  intros Hlevels Hfuel. rewrite addNodes_unfold.
  apply (for_of_levels (λ st' : Hierarchy.State Item Id, Node.next_children st'.2)
           (children_of st.2) index_node
           (λ st' _, ∀ r, children_of st'.2 r = children_of st.2 r)); try done.
  intros st1 x rest st2 Hst1 E r.
  rewrite (index_node_children _ _ _ _ E). apply Hst1.
Qed.

Lemma item_of_lookup w r n : w_nodes w !! r = Some n → item_of w r = Some (f_item n).
Proof. intros E. unfold item_of. by rewrite E. Qed.

Lemma indexed_nil st : indexed [] st st.
Proof. by repeat split. Qed.

Lemma last_with_id_snoc h w id ns x :
  last_with_id h w id (ns ++ [x]) =
    if decide (id_of h w x = Some id) then Some x else last_with_id h w id ns.
Proof.
  unfold last_with_id. rewrite filter_app, filter_cons, filter_nil.
  case_decide.
  - by rewrite last_snoc.
  - by rewrite app_nil_r.
Qed.

(** One more node taken in. *)
Lemma indexed_snoc ns x st h1 w1 n :
  indexed ns st (h1, w1) → x ∉ ns →
  w_nodes w1 !! x = Some n →
  indexed (ns ++ [x]) st
    (Hierarchy.set_nodes
       (JsMap.set (Hierarchy.f_identify h1 (f_item n)) x (Hierarchy.f_nodes h1))
       (Hierarchy.set_debrand
          (JsMap.set (Hierarchy.f_identify h1 (f_item n)) (mkDeBrand x)
             (Hierarchy.f_debrand h1)) h1),
     (write x (set_brand (Some (Hierarchy.as_owner h1))) w1).2).
Proof.
  destruct st as [h w].
  intros (Hself & Hid & Hroots & Hnodes & Hdebrand & Hbrand & Hparent & Hchild
          & Hitem & Hlen & Harr & Hobj) Hx En.
  cbn [fst snd] in *.
  assert (id_of h w x = Some (Hierarchy.f_identify h1 (f_item n))) as Hidx.
  { unfold id_of. rewrite <- Hitem, (item_of_lookup _ _ _ En). simpl.
    by rewrite Hid. }
  split; [done|]. split; [done|]. split; [done|].
  split; [|split; [|split; [|split; [|split; [|split; [|]]]]]];
    cbn [fst snd Hierarchy.f_nodes Hierarchy.f_debrand Hierarchy.set_nodes
         Hierarchy.set_debrand].
  - intros id. rewrite JsMap_get_set, last_with_id_snoc, Hidx.
    destruct (decide (Hierarchy.f_identify h1 (f_item n) = id)) as [->|Hne].
    + by rewrite decide_True.
    + rewrite decide_False by congruence. apply Hnodes.
  - intros id. rewrite JsMap_get_set, last_with_id_snoc, Hidx.
    destruct (decide (Hierarchy.f_identify h1 (f_item n) = id)) as [->|Hne].
    + by rewrite decide_True.
    + rewrite decide_False by congruence. apply Hdebrand.
  - intros r. rewrite brand_of_write. destruct (decide (x = r)) as [<-|Hne].
    + rewrite En. simpl. rewrite decide_True by (apply elem_of_app; right; by left).
      unfold Hierarchy.as_owner. by rewrite Hself.
    + rewrite Hbrand. destruct (decide (r ∈ ns)) as [Hin|Hout].
      * by rewrite decide_True by (apply elem_of_app; by left).
      * rewrite decide_False; [done|].
        intros [?|Hr%list_elem_of_singleton]%elem_of_app; [done|]. by subst.
  - intros r. by rewrite parent_of_write_keep.
  - intros r. by rewrite child_set_of_write_keep.
  - intros r. by rewrite item_of_write.
  - split; [|done]. simpl. by rewrite length_alter.
Qed.

(** The loop over nodes that are distinct, unbranded and in the store takes
    all of them in. *)
Lemma for_each_index_node out : ∀ h w,
  NoDup out →
  (∀ n, n ∈ out → brand_of w n = None ∧ is_Some (item_of w n)) →
  ∃ st', for_each index_node out (h, w) = (Ok tt, st') ∧ indexed out (h, w) st'.
Proof.
  induction out as [|x out IH] using rev_ind; intros h w Hnd Hout.
  - exists (h, w). split; [done | apply indexed_nil].
  - apply NoDup_app in Hnd as (Hnd & Hx & _).
    destruct (IH h w Hnd) as ([h1 w1] & E & Hind).
    { intros n Hn. apply Hout, elem_of_app. by left. }
    assert (x ∉ out) as Hxout.
    { intros Hin. apply (Hx x Hin). by left. }
    destruct (Hout x) as [Hb [item Hit]]; [apply elem_of_app; right; by left|].
    pose proof Hind as (_ & _ & _ & _ & _ & Hbrand & _ & _ & Hitem & _).
    simpl in Hbrand, Hitem.
    destruct (w_nodes w1 !! x) as [n|] eqn:En; last first.
    { specialize (Hitem x). rewrite Hit in Hitem. unfold item_of in Hitem.
      by rewrite En in Hitem. }
    assert (f_brand n = None) as Eb.
    { specialize (Hbrand x). rewrite decide_False, Hb in Hbrand by done.
      by rewrite (brand_of_lookup _ _ _ En) in Hbrand. }
    eexists. split.
    + rewrite for_each_app, (bind_ok _ _ _ _ _ E). simpl.
      rewrite (bind_ok _ _ _ _ _ (index_node_run _ _ _ _ En Eb)). done.
    + by apply indexed_snoc.
Qed.

(** The loop stops at the first node that has a brand when its turn comes:
    one that had a brand, or one that the loop took in before. *)
Lemma for_each_index_node_stops pre b post h w :
  NoDup pre →
  (∀ n, n ∈ pre → brand_of w n = None ∧ is_Some (item_of w n)) →
  is_Some (item_of w b) →
  is_Some (brand_of w b) ∨ b ∈ pre →
  ∃ st', for_each index_node (pre ++ b :: post) (h, w) = (Throw rebrand_error, st')
         ∧ indexed pre (h, w) st'.
Proof.
  intros Hnd Hpre [item Hit] Hb.
  destruct (for_each_index_node pre h w Hnd Hpre) as ([h1 w1] & E & Hind).
  exists (h1, w1). split; [|done].
  pose proof Hind as (_ & _ & _ & _ & _ & Hbrand & _ & _ & Hitem & _).
  simpl in Hbrand, Hitem.
  destruct (w_nodes w1 !! b) as [n|] eqn:En; last first.
  { specialize (Hitem b). rewrite Hit in Hitem. unfold item_of in Hitem.
    by rewrite En in Hitem. }
  assert (is_Some (f_brand n)) as [o Eb].
  { rewrite <- (brand_of_lookup _ _ _ En), Hbrand.
    destruct (decide (b ∈ pre)); [done|]. by destruct Hb. }
  rewrite for_each_app, (bind_ok _ _ _ _ _ E). simpl.
  apply bind_throw. by eapply index_node_branded.
Qed.

Lemma levels_roots {T} (next : T → list T) roots out :
  levels next roots out → ∀ r, r ∈ roots → r ∈ out.
Proof.
  destruct 1 as [|level rest _ _]; [done|]. intros r Hr. apply elem_of_app. by left.
Qed.

Lemma isRoot_of w r :
  is_Some (item_of w r) → parent_of w r = None → Node.isRoot r w = (Ok true, w).
Proof.
  intros [item Hit] Hp. unfold item_of in Hit.
  destruct (w_nodes w !! r) as [n|] eqn:En; [|done].
  rewrite (isRoot_run _ _ _ En). unfold Node.rec_isRoot.
  rewrite (parent_of_lookup _ _ _ En) in Hp. by rewrite Hp.
Qed.
End IndexFacts.

Section AttachFacts.
Context {Item Id : Type} `{EqDecision Id}.
Implicit Types (h : Hierarchy.t Item Id) (w : World Item)
  (st : Hierarchy.State Item Id).

Lemma only_takes_in_refl st : only_takes_in st st.
Proof. split; [done|]. split; [done|]. intros id n E. by left. Qed.

Lemma only_takes_in_trans st1 st2 st3 :
  only_takes_in st1 st2 → only_takes_in st2 st3 → only_takes_in st1 st3.
Proof.
  intros (Hs1 & Hb1 & Hn1) (Hs2 & Hb2 & Hn2). split; [congruence|].
  split; [by eauto|]. intros id n E.
  destruct (Hn2 id n E) as [E2|Hb]; [|by right].
  destruct (Hn1 id n E2) as [E1|(o & Hb & Ho)]; [by left|].
  right. exists o. eauto.
Qed.

Lemma index_node_run_only_takes_in h w x n :
  w_nodes w !! x = Some n → f_brand n = None →
  only_takes_in (h, w)
    (Hierarchy.set_nodes
       (JsMap.set (Hierarchy.f_identify h (f_item n)) x (Hierarchy.f_nodes h))
       (Hierarchy.set_debrand
          (JsMap.set (Hierarchy.f_identify h (f_item n)) (mkDeBrand x)
             (Hierarchy.f_debrand h)) h),
     (write x (set_brand (Some (Hierarchy.as_owner h))) w).2).
Proof.
  intros En Eb.
  pose proof (brand_of_write w x (set_brand (Some (Hierarchy.as_owner h)))) as Hbw.
  set (w1 := (write x (set_brand (Some (Hierarchy.as_owner h))) w).2) in *.
  clearbody w1. split; [done|].
  split; cbn [fst snd Hierarchy.f_nodes Hierarchy.set_nodes Hierarchy.set_debrand].
  - intros r o Hr. rewrite Hbw. case_decide as Hx; [|done].
    subst r. by rewrite (brand_of_lookup _ _ _ En), Eb in Hr.
  - intros id r. rewrite JsMap_get_set. case_decide as Hid; [|by left].
    intros [= <-]. right. exists (Hierarchy.as_owner h).
    rewrite Hbw, decide_True by done. by rewrite En.
Qed.

Lemma index_node_only_takes_in x st o st' :
  index_node x st = (o, st') → only_takes_in st st'.
Proof.
  destruct st as [h w]. intros E.
  destruct (index_node_cases h w x) as [[e E']|(n & En & Eb & E')];
    rewrite E' in E; injection E as <- <-; [apply only_takes_in_refl|].
  by apply index_node_run_only_takes_in.
Qed.

Lemma addNodes_only_takes_in nodes fuel st o st' :
  Hierarchy.addNodes nodes fuel st = (o, st') → only_takes_in st st'.
Proof.
  apply (graph_loop_preserves only_takes_in).
  - apply only_takes_in_refl.
  - apply only_takes_in_trans.
  - apply index_node_only_takes_in.
Qed.

(** The first of the nodes given to [#addNodes] is the first it takes in. *)
Lemma addNodes_brands_the_first n0 rest fuel st st' :
  Hierarchy.addNodes (n0 :: rest) fuel st = (Ok tt, st') →
  ∃ o, brand_of st'.2 n0 = Some o ∧ owner_Equals o = None.
Proof.
  rewrite addNodes_unfold. unfold TraverseGraph.for_of.
  destruct (constructor_ready (n0 :: rest) false BreadthFirst)
    as (Hready & Hdf & Hvis).
  rewrite Hdf in Hready. unfold pending_after in Hready. simpl in Hready.
  set (sig := GraphSignal.constructor (n0 :: rest) false BreadthFirst) in *.
  clearbody sig.
  destruct fuel as [|fuel]; [done|]. simpl TraverseGraph.loop.
  unfold GraphSignal.tryGetNext. rewrite Hvis.
  destruct (tryGetNextInternal_ready _ n0 rest Hready)
    as (sig' & -> & Hready' & Hdf' & Hvis' & Hsk').
  unfold TraverseGraph.default_callback.
  destruct (callback_cleanup_ready sig' rest (Node.next_children st.2 n0) Hready' Hsk')
    as (Hyield & _).
  rewrite Hyield. destruct st as [h w].
  destruct (index_node_cases h w n0) as [[e E']|(n & En & Eb & E')];
    rewrite E'; [done|].
  pose proof (brand_of_write w n0 (set_brand (Some (Hierarchy.as_owner h))) n0) as Hbw.
  rewrite decide_True, En in Hbw by done.
  set (w1 := (write n0 (set_brand (Some (Hierarchy.as_owner h))) w).2) in *.
  clearbody w1.
  intros E. apply (graph_loop_preserves only_takes_in) in E as (_ & Hb & _).
  - exists (Hierarchy.as_owner h). split; [|done]. by apply Hb.
  - apply only_takes_in_refl.
  - apply only_takes_in_trans.
  - apply index_node_only_takes_in.
Qed.

Lemma addNodes_nothing fuel st o st' :
  Hierarchy.addNodes [] fuel st = (o, st') → st' = st.
Proof.
  unfold Hierarchy.addNodes, TraverseGraph.for_of.
  destruct fuel as [|fuel]; [by intros [= _ <-]|]. by intros [= _ <-].
Qed.

(** A node that carries a brand without [Equals] is compatible with no
    node that carries a brand. *)
Lemma isBrandCompatible_no_Equals w a b o o' :
  brand_of w a = Some o → owner_Equals o = None → brand_of w b = Some o' →
  Node.isBrandCompatible a b w ≠ (Ok true, w).
Proof.
  intros Ha Ho Hb. unfold brand_of in Ha, Hb.
  destruct (w_nodes w !! a) as [na|] eqn:Ea; [|done].
  destruct (w_nodes w !! b) as [nb|] eqn:Eb; [|done]. simpl in Ha, Hb.
  rewrite (isBrandCompatible_run _ _ _ _ _ Ea Eb), Ha, Hb, Ho. done.
Qed.
End AttachFacts.

(** X10. [Hierarchy.attach(parentId, children)] never returns. With an
    indexed [parentId] the guard throws; with another one the children and
    what is below them are branded and indexed first, and then either
    [parentId] is still not indexed and the call on [undefined] throws, or it
    is the identifier of one of the nodes just branded, and [Node.attach]
    throws on the brands: the hierarchy, as a brand, has no [Equals]. *)
Theorem Hierarchy_attach_never_returns {Item Id} `{EqDecision Id}
    (h : Hierarchy.t Item Id) (w : World Item) (parentId : Id)
    (children : list nat) (fuel : nat) :
  ¬ returned (Hierarchy.attach parentId children fuel (h, w)).1.
Proof.
  intros [[] Hret].
  destruct (Hierarchy.attach parentId children fuel (h, w)) as [o st'] eqn:E.
  simpl in Hret. subst o.
  destruct (JsMap.get (Hierarchy.f_nodes h) parentId) as [p0|] eqn:Hmem.
  { unfold Hierarchy.attach in E.
    rewrite (bind_ok Hierarchy.this _ (h, w) h (h, w) eq_refl) in E.
    unfold JsMap.has in E. rewrite bool_decide_eq_true_2 in E; [done|].
    by rewrite Hmem. }
  rewrite (attach_unindexed_parent_passes_guard h w parentId children fuel Hmem) in E.
  apply bind_inv in E as [([] & [h1 w1] & Eadd & E)|[(e & _ & ?)|[_ ?]]]; [|done..].
  rewrite (bind_ok Hierarchy.this _ (h1, w1) h1 (h1, w1) eq_refl) in E.
  destruct (JsMap.get (Hierarchy.f_nodes h1) parentId) as [p|] eqn:Hp; [|done].
  destruct children as [|n0 rest].
  { apply addNodes_nothing in Eadd. injection Eadd as -> ->. congruence. }
  destruct (addNodes_brands_the_first _ _ _ _ _ Eadd) as (o0 & Hb0 & Ho0).
  destruct (addNodes_only_takes_in _ _ _ _ _ Eadd) as (_ & _ & Hn).
  destruct (Hn parentId p Hp) as [Hold|(o & Hb & Ho)]; [simpl in Hold; congruence|].
  cbn [snd] in Hb0, Hb.
  destruct (attach_outcome w1 p (n0 :: rest)) as [[e Ee]|(w2 & _ & _ & _ & Hcompat)].
  { rewrite (bind_throw _ _ _ _ _ (in_world_run _ h1 w1 _ _ Ee)) in E. done. }
  apply (every_true _ _ _ (λ x, reads_isBrandCompatible x p)) with (x := n0) in Hcompat;
    [|by left].
  by apply (isBrandCompatible_no_Equals w1 n0 p o0 o) in Hcompat.
Qed.

Section AttachRootFacts.
Context {Item Id : Type} `{EqDecision Id}.
Implicit Types (h : Hierarchy.t Item Id) (w : World Item)
  (st : Hierarchy.State Item Id).

(** The check of [attachRoot] passes for nodes of the store without
    parent. *)
Lemma attachRoot_check_passes h w roots :
  (∀ r, r ∈ roots → parent_of w r = None ∧ is_Some (item_of w r)) →
  Hierarchy.in_world (every Node.isRoot roots) (h, w) = (Ok true, (h, w)).
Proof.
  intros Hroots. apply in_world_run, every_all_true.
  intros r Hr. destruct (Hroots r Hr). by apply isRoot_of.
Qed.

Lemma attachRoot_run h w roots out fuel :
  (∀ r, r ∈ roots → parent_of w r = None) →
  levels (children_of w) roots out →
  NoDup out →
  (∀ n, n ∈ out → brand_of w n = None ∧ is_Some (item_of w n)) →
  (length out < fuel)%nat →
  ∃ h' w1,
    Hierarchy.attachRoot roots fuel (h, w)
    = (Ok tt, (h', array_mutate (Hierarchy.f_roots h)
                     (array_contents w (Hierarchy.f_roots h) ++ roots) w1)) ∧
    indexed out (h, w) (h', w1).
Proof.
  intros Hroots Hlevels Hnd Hout Hfuel.
  destruct (for_each_index_node out h w Hnd Hout) as ([h' w1] & E & Hind).
  exists h', w1. split; [|done]. unfold Hierarchy.attachRoot.
  assert (∀ r, r ∈ roots → parent_of w r = None ∧ is_Some (item_of w r)) as Hcheck.
  { intros r Hr. split; [by apply Hroots|].
    by apply Hout, (levels_roots _ _ _ Hlevels). }
  rewrite (bind_ok _ _ _ _ _ (attachRoot_check_passes h w roots Hcheck)).
  cbn [negb].
  rewrite (bind_ok (Hierarchy.addNodes roots fuel) _ (h, w) tt (h', w1));
    [|by rewrite (addNodes_for_each roots out fuel (h, w) Hlevels Hfuel)].
  rewrite (bind_ok Hierarchy.this _ (h', w1) h' (h', w1) eq_refl).
  destruct Hind as (_ & _ & Hr & _ & _ & _ & _ & _ & _ & _ & Harr & _).
  cbn [fst snd] in Hr, Harr. unfold Hierarchy.in_world, modify. cbn [fst snd].
  unfold array_contents. by rewrite Hr, Harr.
Qed.

(** Under an identifier that one node of [ns] has, and no other, the index
    holds that node. *)
Lemma last_with_id_unique h w id ns n :
  n ∈ ns → id_of h w n = Some id →
  (∀ m, m ∈ ns → id_of h w m = Some id → m = n) →
  last_with_id h w id ns = Some n.
Proof.
  intros Hn Hid Huniq. unfold last_with_id.
  destruct (last (filter (λ n, id_of h w n = Some id) ns)) as [m|] eqn:El.
  - apply last_Some_elem_of, list_elem_of_filter in El as [Hm Hin].
    f_equal. by apply Huniq.
  - apply last_None in El.
    assert (n ∈ filter (λ n, id_of h w n = Some id) ns) as Hf
      by by apply list_elem_of_filter.
    rewrite El in Hf. by apply elem_of_nil in Hf.
Qed.

Lemma last_with_id_none h w id ns :
  (∀ m, m ∈ ns → id_of h w m ≠ Some id) → last_with_id h w id ns = None.
Proof.
  intros Hno. unfold last_with_id. apply last_None.
  destruct (filter (λ n, id_of h w n = Some id) ns) as [|m l] eqn:Ef; [done|].
  assert (m ∈ filter (λ n, id_of h w n = Some id) ns) as Hm by (rewrite Ef; by left).
  apply list_elem_of_filter in Hm as [Hm Hin]. by destruct (Hno m Hin).
Qed.

Lemma getNode_run h w id :
  Hierarchy.getNode id (h, w) =
    match JsMap.get (Hierarchy.f_nodes h) id with
    | Some node => (Ok node, (h, w))
    | None => (Throw (Error "The 'id' must be a hierarchy member."), (h, w))
    end.
Proof.
  unfold Hierarchy.getNode.
  rewrite (bind_ok Hierarchy.this _ (h, w) h (h, w) eq_refl).
  by destruct (JsMap.get (Hierarchy.f_nodes h) id).
Qed.
End AttachRootFacts.

(** X11. [attachRoot(roots)], given nodes without parent whose trees are
    finite, share no node and hold no branded node, returns; every node of
    the trees then carries the hierarchy as its brand and is indexed under its
    identifier (the last node wins where two have the same), together with
    its release delegate; the roots are appended to the array of the roots;
    links, items and the other arrays are as they were. *)
Theorem attachRoot_takes_in_the_trees {Item Id} `{EqDecision Id}
    (h : Hierarchy.t Item Id) (w : World Item) (roots out : list nat) (fuel : nat) :
  (∀ r, r ∈ roots → parent_of w r = None) →
  levels (children_of w) roots out →
  NoDup out →
  (∀ n, n ∈ out → brand_of w n = None ∧ is_Some (item_of w n)) →
  (length out < fuel)%nat →
  ∃ h' w1,
    Hierarchy.attachRoot roots fuel (h, w)
    = (Ok tt, (h', array_mutate (Hierarchy.f_roots h)
                     (array_contents w (Hierarchy.f_roots h) ++ roots) w1)) ∧
    indexed out (h, w) (h', w1).
Proof. apply attachRoot_run. Qed.

(** X12. After such an [attachRoot], [getNode(id)] and [get(id)] return the
    node and the item for the identifier of a node of the trees that no other
    node of the trees shares, and [getNode] throws "The 'id' must be a
    hierarchy member." for an identifier that no node of the trees has and
    that was not indexed before. *)
Theorem attachRoot_then_getNode {Item Id} `{EqDecision Id}
    (h : Hierarchy.t Item Id) (w : World Item) (roots out : list nat) (fuel : nat) :
  (∀ r, r ∈ roots → parent_of w r = None) →
  levels (children_of w) roots out →
  NoDup out →
  (∀ n, n ∈ out → brand_of w n = None ∧ is_Some (item_of w n)) →
  (length out < fuel)%nat →
  ∃ st', Hierarchy.attachRoot roots fuel (h, w) = (Ok tt, st') ∧
    (∀ n item, n ∈ out → item_of w n = Some item →
       (∀ m, m ∈ out → id_of h w m = id_of h w n → m = n) →
       Hierarchy.getNode (Hierarchy.f_identify h item) st' = (Ok n, st') ∧
       Hierarchy.get (Hierarchy.f_identify h item) st' = (Ok item, st')) ∧
    (∀ id, (∀ m, m ∈ out → id_of h w m ≠ Some id) →
       JsMap.get (Hierarchy.f_nodes h) id = None →
       Hierarchy.getNode id st'
       = (Throw (Error "The 'id' must be a hierarchy member."), st')).
Proof.
  intros Hroots Hlevels Hnd Hout Hfuel.
  destruct (attachRoot_run h w roots out fuel Hroots Hlevels Hnd Hout Hfuel)
    as (h' & w1 & E & Hind).
  eexists. split; [exact E|].
  destruct Hind as (_ & _ & _ & Hnodes & _ & _ & _ & _ & Hitem & _).
  cbn [fst snd] in Hnodes, Hitem. split.
  - intros n item Hn Hit Huniq.
    assert (id_of h w n = Some (Hierarchy.f_identify h item)) as Hid
      by (unfold id_of; by rewrite Hit).
    assert (JsMap.get (Hierarchy.f_nodes h') (Hierarchy.f_identify h item) = Some n)
      as Hget.
    { rewrite Hnodes, (last_with_id_unique h w _ out n); try done.
      intros m Hm Hidm. apply Huniq; [done | congruence]. }
    split.
    + by rewrite getNode_run, Hget.
    + unfold Hierarchy.get. erewrite bind_ok; [|by rewrite getNode_run, Hget].
      apply in_world_run. specialize (Hitem n). rewrite Hit in Hitem.
      unfold item_of in Hitem. unfold Node.item, mbind, M_bind, read. simpl.
      destruct (w_nodes w1 !! n) as [rec|]; [|done].
      simpl in Hitem. by injection Hitem as ->.
  - intros id Hno Hold.
    by rewrite getNode_run, Hnodes, (last_with_id_none h w id out Hno), Hold.
Qed.

(** X13. [attachRoot] is not atomic. When the level-by-level listing of the
    trees comes to a node that has a brand when its turn comes (a node that
    carried one, or a node reached a second time, which the call itself has
    branded), it throws the error of [brand]; the nodes before it stay branded
    and indexed, and the roots are not recorded. *)
Theorem attachRoot_stops_at_a_branded_node {Item Id} `{EqDecision Id}
    (h : Hierarchy.t Item Id) (w : World Item) (roots pre post : list nat)
    (b : nat) (fuel : nat) :
  (∀ r, r ∈ roots → parent_of w r = None) →
  levels (children_of w) roots (pre ++ b :: post) →
  NoDup pre →
  (∀ n, n ∈ pre → brand_of w n = None ∧ is_Some (item_of w n)) →
  is_Some (item_of w b) →
  is_Some (brand_of w b) ∨ b ∈ pre →
  (∀ r, r ∈ roots → is_Some (item_of w r)) →
  (length (pre ++ b :: post) < fuel)%nat →
  ∃ st', Hierarchy.attachRoot roots fuel (h, w) = (Throw rebrand_error, st') ∧
         indexed pre (h, w) st'.
Proof.
  intros Hroots Hlevels Hnd Hpre Hitb Hb Hitr Hfuel.
  destruct (for_each_index_node_stops pre b post h w Hnd Hpre Hitb Hb)
    as (st' & E & Hind).
  exists st'. split; [|done]. unfold Hierarchy.attachRoot.
  assert (∀ r, r ∈ roots → parent_of w r = None ∧ is_Some (item_of w r)) as Hcheck.
  { intros r Hr. split; [by apply Hroots | by apply Hitr]. }
  rewrite (bind_ok _ _ _ _ _ (attachRoot_check_passes h w roots Hcheck)).
  cbn [negb]. apply bind_throw.
  by rewrite (addNodes_for_each roots _ fuel (h, w) Hlevels Hfuel).
Qed.
(** * Dismantling a tree *)

Section LevelsFacts.
Context {T : Type}.
Variable next : T → list T.

(** In a level-by-level listing the children of a node come after it. *)
Lemma levels_later roots out :
  levels next roots out →
  ∀ pre q post c, out = pre ++ q :: post → c ∈ next q → c ∈ post.
Proof.
  induction 1 as [|level rest Hne Hrest IH]; intros pre q post c Hout Hc.
  - by destruct pre.
  - apply app_eq_app in Hout as [l [[Hl Hr]|[Hl Hr]]].
    + destruct l as [|q' l].
      * simpl in Hr. by apply (IH [] q post c).
      * injection Hr as <- ->. apply elem_of_app. right.
        apply (levels_roots _ _ _ Hrest), list_elem_of_bind.
        exists q. split; [done|]. subst level. apply elem_of_app. right. by left.
    + by apply (IH l q post c).
Qed.

(** Every node of the listing is one of the roots or a child of a node that
    comes before it. *)
Lemma levels_discovered roots out :
  levels next roots out →
  ∀ pre c post, out = pre ++ c :: post →
    c ∈ roots ∨ ∃ q, q ∈ pre ∧ c ∈ next q.
Proof.
  induction 1 as [|level rest Hne Hrest IH]; intros pre c post Hout.
  - by destruct pre.
  - apply app_eq_app in Hout as [l [[Hl Hr]|[Hl Hr]]].
    + destruct l as [|c' l].
      * rewrite app_nil_r in Hl. subst pre. simpl in Hr.
        destruct (IH [] c post (eq_sym Hr)) as [Hin|(q & Hq & _)];
          [|by apply elem_of_nil in Hq].
        apply list_elem_of_bind in Hin as (q & Hcq & Hq). right. by exists q.
      * injection Hr as <- ->. left. subst level. apply elem_of_app. right. by left.
    + destruct (IH l c post Hr) as [Hin|(q & Hq & Hcq)].
      * apply list_elem_of_bind in Hin as (q & Hcq & Hq). right. exists q.
        split; [|done]. subst pre. apply elem_of_app. by left.
      * right. exists q. split; [|done]. subst pre. apply elem_of_app. by right.
Qed.

Lemma levels_closed roots out :
  levels next roots out → ∀ q c, q ∈ out → c ∈ next q → c ∈ out.
Proof.
  intros Hlevels q c Hq Hc. apply list_elem_of_split in Hq as (pre & post & ->).
  apply elem_of_app. right. right. by apply (levels_later _ _ Hlevels pre q post c).
Qed.
End LevelsFacts.

Section DismantleTreeFacts.
Context {Item : Type}.
Variables (w : World Item) (this : nat) (out : list nat).
Hypothesis Hw : well_linked w.
Hypothesis Hlevels : levels (children_of w) (children_of w this) out.
Hypothesis Hnd : NoDup out.
Hypothesis Hunbranded : ∀ n, n ∈ out → brand_of w n = None.

Lemma filter_all {A} (P : A → Prop) `{∀ x, Decision (P x)} (l : list A) :
  (∀ x, x ∈ l → P x) → filter P l = l.
Proof.
  induction l as [|x l IH]; intros Hall; [done|].
  rewrite filter_cons_True by (apply Hall; by left).
  f_equal. apply IH. intros y Hy. apply Hall. by right.
Qed.

Lemma filter_none {A} (P : A → Prop) `{∀ x, Decision (P x)} (l : list A) :
  (∀ x, x ∈ l → ¬ P x) → filter P l = [].
Proof.
  induction l as [|x l IH]; intros Hall; [done|].
  rewrite filter_cons_False by (apply Hall; by left).
  apply IH. intros y Hy. apply Hall. by right.
Qed.

Lemma filter_agree {A} (P Q : A → Prop) `{∀ x, Decision (P x)}
    `{∀ x, Decision (Q x)} (l : list A) :
  (∀ x, x ∈ l → P x ↔ Q x) → filter P l = filter Q l.
Proof.
  induction l as [|x l IH]; intros Hall; [done|].
  rewrite !filter_cons.
  rewrite IH by (intros y Hy; apply Hall; by right).
  destruct (decide (P x)) as [HP|HP], (decide (Q x)) as [HQ|HQ]; try done.
  - destruct HQ. by apply (Hall x); [left|].
  - destruct HP. by apply (Hall x); [left|].
Qed.

Lemma cut_off_nil : cut_off [] w w.
Proof.
  split; [done|]. split; [|done]. intros r. symmetry. apply filter_all.
  intros x _. apply not_elem_of_nil.
Qed.

(** A node of the listing has a parent, which is the node dismantled or a
    node that comes before it. *)
Lemma out_parent pre x post :
  out = pre ++ x :: post →
  ∃ p, parent_of w x = Some p ∧ (p = this ∨ p ∈ pre).
Proof.
  intros Hout. destruct Hw as (Hlink & _).
  destruct (levels_discovered _ _ _ Hlevels pre x post Hout) as [Hr|(q & Hq & Hc)].
  - exists this. split; [by apply Hlink | by left].
  - exists q. split; [by apply Hlink | by right].
Qed.

(** When the turn of a node comes, none of its children has been cut off. *)
Lemma children_kept pre x post st :
  out = pre ++ x :: post → cut_off pre w st →
  children_of st x = children_of w x.
Proof.
  intros Hout (_ & Hchildren & _). rewrite Hchildren. apply filter_all.
  intros c Hc Hpre.
  pose proof (levels_later _ _ _ Hlevels pre x post c Hout Hc) as Hpost.
  rewrite Hout in Hnd. apply NoDup_app in Hnd as (_ & Hdisj & _).
  apply (Hdisj c Hpre). by right.
Qed.

(** The turn of a node: [detachSelf] cuts it off. *)
Lemma cut_step pre x post st :
  out = pre ++ x :: post → cut_off pre w st →
  ∃ st', Node.detachSelf x st = (Ok x, st') ∧ cut_off (pre ++ [x]) w st'.
Proof.
  intros Hout Hcut.
  pose proof Hcut as (Hparent & Hchildren & Hbrand & Hitem & Hlen & Harr & Hobj).
  destruct (out_parent pre x post Hout) as (p & Hp & Hwhere).
  assert (x ∉ pre) as Hx.
  { intros Hin. rewrite Hout in Hnd. apply NoDup_app in Hnd as (_ & Hdisj & _).
    apply (Hdisj x Hin). by left. }
  assert (x ∈ out) as Hxout by (rewrite Hout; apply elem_of_app; right; by left).
  destruct Hw as (Hlink & Hnodup & _).
  destruct (detachSelf_ok st x p) as (st' & E & Hun).
  { by rewrite Hparent, decide_False. }
  { rewrite Hbrand. by apply Hunbranded. }
  { rewrite Hchildren. apply list_elem_of_filter. split; [done|]. by apply Hlink. }
  exists st'. split; [done|].
  destruct Hun as (Hparent' & Hchildren' & Hbrand' & Hitem' & Hlen' & Harr' & Hobj').
  split; [|split; [|split; [|split; [|split; [|split]]]]]; try congruence.
  - intros r. rewrite Hparent'. destruct (decide (r = x)) as [->|Hne].
    + rewrite decide_True; [done|]. apply elem_of_app. right. by left.
    + rewrite Hparent. destruct (decide (r ∈ pre)) as [Hin|Hnin].
      * rewrite decide_True; [done|]. apply elem_of_app. by left.
      * rewrite decide_False; [done|].
        intros [?|Hr%list_elem_of_singleton]%elem_of_app; done.
  - intros r. rewrite Hchildren'. destruct (decide (r = p)) as [->|Hne].
    + rewrite Hchildren, list_filter_filter. apply list_filter_iff.
      intros c. rewrite elem_of_app, list_elem_of_singleton. tauto.
    + rewrite Hchildren. apply filter_agree.
      intros c Hc. rewrite elem_of_app, list_elem_of_singleton.
      split; [|tauto]. intros Hnin [Hin|Heq]; [done|]. subst c.
      apply Hlink in Hc. congruence.
Qed.

Lemma for_each_cut post : ∀ pre st,
  out = pre ++ post → cut_off pre w st →
  ∃ st', for_each (λ descendant, Node.detachSelf descendant;; mret tt) post st
         = (Ok tt, st') ∧ cut_off out w st'.
Proof.
  induction post as [|x post IH]; intros pre st Hout Hcut.
  - exists st. split; [done|]. by rewrite Hout, app_nil_r.
  - destruct (cut_step pre x post st Hout Hcut) as (st1 & E & Hcut1).
    destruct (IH (pre ++ [x]) st1) as (st' & E' & Hcut'); [|done|].
    { by rewrite <- app_assoc. }
    exists st'. split; [|done]. simpl.
    rewrite (bind_ok _ _ st tt st1); [done|]. by rewrite (bind_ok _ _ _ _ _ E).
Qed.

(** The traversal of [dismantle], which detaches the nodes while it
    iterates, is the plain loop over the listing. *)
Lemma for_descendants_levels fuel :
  is_Some (w_nodes w !! this) → (length out < fuel)%nat →
  Node.for_descendants id this true BreadthFirst
    (λ descendant, Node.detachSelf descendant;; mret tt) fuel w
  = for_each (λ descendant, Node.detachSelf descendant;; mret tt) out w.
Proof.
  intros [n En] Hfuel. unfold Node.for_descendants.
  rewrite (bind_ok _ _ w (children_of w this) w); last first.
  { unfold Node.on_world. simpl.
    rewrite (bind_ok _ _ _ _ _ (read_ok _ _ _ En)). simpl.
    by rewrite (children_of_lookup _ _ _ En). }
  apply (for_of_levels (λ st : World Item, Node.next_children (id st))
           (children_of w) _
           (λ st rest, ∃ pre, out = pre ++ rest ∧ cut_off pre w st)); try done.
  - intros st x rest (pre & Hout & Hcut). by apply (children_kept pre x rest).
  - intros st x rest st' (pre & Hout & Hcut) E.
    destruct (cut_step pre x rest st Hout Hcut) as (st1 & E1 & Hcut1).
    rewrite (bind_ok _ _ _ _ _ E1) in E. injection E as <-.
    exists (pre ++ [x]). split; [|done]. by rewrite <- app_assoc.
  - exists []. split; [done | apply cut_off_nil].
Qed.
End DismantleTreeFacts.

(** X14. [dismantle] of a node whose descendants form a finite tree without
    branded node returns the node; every descendant is then cut from its
    parent (it is a root, and in no child set), the node and every descendant
    are left without child set, and nothing else in the store has changed.
    The traversal that drives it detaches nodes while it iterates and still
    reaches all of them. With [includeAncestry] the same holds for a node
    that is a root. *)
Theorem dismantle_takes_the_tree_apart {Item} (w : World Item) (this : nat)
    (out : list nat) (includeAncestry : bool) (fuel : nat) :
  well_linked w →
  is_Some (w_nodes w !! this) →
  parent_of w this = None ∨ includeAncestry = false →
  levels (children_of w) (children_of w this) out →
  NoDup out →
  (∀ n, n ∈ out → brand_of w n = None) →
  (S (length out) < fuel)%nat →
  ∃ w', Node.dismantle fuel this includeAncestry w = (Ok this, w') ∧
        cut_off out w w' ∧
        (∀ r, r = this ∨ r ∈ out → child_set_of w' r = None).
Proof.
  intros Hw [n En] Hroot Hlevels Hnd Hunbranded Hfuel.
  destruct fuel as [|fuel]; [lia|].
  destruct (for_each_cut w this out Hw Hlevels Hnd Hunbranded out [] w eq_refl
              (cut_off_nil w)) as (w' & E & Hcut).
  assert (Node.dismantle (S fuel) this includeAncestry w = (Ok this, w')) as Hrun.
  { rewrite dismantle_S, (bind_ok _ _ _ _ _ (read_ok _ _ _ En)).
    rewrite (bind_ok _ _ w tt w); last first.
    { rewrite (parent_of_lookup _ _ _ En) in Hroot.
      destruct (f_parent n) as [p|]; [|done]. by destruct Hroot as [?| ->]. }
    rewrite (bind_ok _ _ w tt w'); [done|].
    rewrite (for_descendants_levels w this out Hw Hlevels Hnd Hunbranded);
      [done | by eexists | lia]. }
  exists w'. split; [done|]. split; [done|].
  - intros r Hr.
    destruct (dismantle_well_linked _ _ _ _ _ _ Hw Hrun) as (_ & _ & Hne).
    destruct Hcut as (_ & Hchildren & _).
    assert (children_of w' r = []) as Hnil.
    { rewrite Hchildren. apply filter_none. intros c Hc Hnin. apply Hnin.
      destruct Hr as [->|Hr].
      - by apply (levels_roots _ _ _ Hlevels).
      - by apply (levels_closed _ _ _ Hlevels r c). }
    unfold children_of in Hnil. unfold child_set_of.
    destruct (w_nodes w' !! r) as [n'|] eqn:En'; [|done]. simpl in *.
    destruct (f_children n') as [cs|] eqn:Ec; [|done]. simpl in Hnil. subst cs.
    by destruct (Hne r n' En').
Qed.
(** * Depth and count of the control signal *)

Section BreadthFirstDepth.
Context {TNode : Type} `{EqDecision TNode}.
Variable next : TNode → list TNode.

Lemma bfs_sees_done d k : bfs_sees next d k [] [] [].
Proof.
  intros sig fuel (Hdf & Hvis & Hst & Hitems & _) Hfuel.
  destruct fuel as [|fuel]; [simpl in Hfuel; lia|]. simpl.
  unfold GraphSignal.tryGetNext, GraphSignal.tryGetNextInternal, Linear.tryDetach.
  by rewrite Hvis, Hst, Hitems.
Qed.

(** A pull inside a level: the depth stays. *)
Lemma bfs_sees_same d k x cur nxt seen :
  bfs_sees next d (k + 1) cur (nxt ++ next x) seen →
  bfs_sees next d k (x :: cur) nxt ((x, d, k) :: seen).
Proof.
  intros Hrest sig fuel (Hdf & Hvis & Hst & Hitems & Hdc & Hd & Hk) Hfuel.
  destruct fuel as [|fuel]; [simpl in Hfuel; lia|].
  destruct sig as [vs df [st items] depth bc dc c sk]. simpl in *. subst.
  unfold GraphSignal.tryGetNext, GraphSignal.tryGetNextInternal, Linear.tryDetach.
  cbn -[Z.of_nat observed].
  rewrite bool_decide_eq_false_2 by lia. cbn -[Z.of_nat observed].
  rewrite (Hrest _ fuel); [done| |lia].
  unfold GraphSignal.next, GraphSignal.cleanup, bfs_ready. cbn -[Z.of_nat].
  rewrite <- app_assoc. repeat split; try done. lia.
Qed.

(** The first pull of a level: the depth goes up by one. *)
Lemma bfs_sees_deeper d k x nxt seen :
  bfs_sees next (d + 1) (k + 1) nxt (next x) seen →
  bfs_sees next d k [] (x :: nxt) ((x, d + 1, k) :: seen).
Proof.
  intros Hrest sig fuel (Hdf & Hvis & Hst & Hitems & Hdc & Hd & Hk) Hfuel.
  destruct fuel as [|fuel]; [simpl in Hfuel; lia|].
  destruct sig as [vs df [st items] depth bc dc c sk]. simpl in *. subst.
  unfold GraphSignal.tryGetNext, GraphSignal.tryGetNextInternal, Linear.tryDetach.
  cbn -[Z.of_nat observed].
  rewrite (Hrest _ fuel); [done| |lia].
  unfold GraphSignal.next, GraphSignal.cleanup, bfs_ready. cbn -[Z.of_nat].
  repeat split; try done.
Qed.

Lemma numbered_length d k (ns : list TNode) : length (numbered d k ns) = length ns.
Proof. revert k. induction ns as [|n ns IH]; intros k; simpl; [done|]. by rewrite IH. Qed.

(** The rest of a level. *)
Lemma bfs_sees_level d cur : ∀ k nxt seen,
  bfs_sees next d (k + Z.of_nat (length cur)) [] (nxt ++ (cur ≫= next)) seen →
  bfs_sees next d k cur nxt (numbered d k cur ++ seen).
Proof.
  induction cur as [|x cur IH]; intros k nxt seen H.
  - simpl in *. rewrite Z.add_0_r, app_nil_r in H. done.
  - simpl. apply bfs_sees_same, IH.
    rewrite <- app_assoc.
    replace (k + 1 + Z.of_nat (length cur)) with (k + Z.of_nat (length (x :: cur)))
      by (simpl; lia).
    done.
Qed.

(** At the end of a level, what is pending is the next level. *)
Lemma bfs_sees_levels d k level seen :
  levels_from next d k level seen → bfs_sees next (d - 1) k [] level seen.
Proof.
  induction 1 as [d k|d k level rest Hne Hrest IH].
  - apply bfs_sees_done.
  - destruct level as [|x level]; [done|]. simpl.
    pose proof (bfs_sees_deeper (d - 1) k x level (numbered d (k + 1) level ++ rest))
      as Hdeeper.
    replace (d - 1 + 1) with d in Hdeeper by lia. apply Hdeeper.
    apply bfs_sees_level.
    replace (d + 1 - 1) with d in IH by lia.
    replace (k + 1 + Z.of_nat (length level))
      with (k + Z.of_nat (length (x :: level))) by (simpl; lia).
    done.
Qed.
End BreadthFirstDepth.

Section DepthFirstDepth.
Context {TNode : Type} `{EqDecision TNode}.
Variable next : TNode → list TNode.

Lemma concat_clean_frames (frames : list (list TNode)) :
  concat (clean_frames frames) = concat frames.
Proof. induction frames as [|[|x f] frames IH]; simpl; done. Qed.

Lemma cleanup_frames_clean (frames : list (list TNode)) :
  GraphSignal.cleanup_frames ((λ f, Z.of_nat (length f)) <$> frames)
  = (λ f, Z.of_nat (length f)) <$> clean_frames frames.
Proof.
  induction frames as [|[|x f] frames IH]; [done| |].
  - simpl. apply IH.
  - cbn -[Z.of_nat]. rewrite bool_decide_eq_false_2; [done|]. simpl length. lia.
Qed.

Lemma observed_S fuel (sig : GraphSignal.t TNode) :
  observed next (S fuel) sig =
    match GraphSignal.tryGetNext sig with
    | (Ok (Some n), sig) =>
        match observed next fuel
                (GraphSignal.cleanup (GraphSignal.next (next n) sig)) with
        | Ok rest => Ok ((n, GraphSignal.depth sig, GraphSignal.count sig) :: rest)
        | other => other
        end
    | (Ok None, _) => Ok []
    | (Throw e, _) => Throw e
    | (OutOfFuel, _) => OutOfFuel
    end.
Proof. done. Qed.

Lemma dfs_sees_done frames k : concat frames = [] → dfs_sees next frames k [].
Proof.
  intros Hnil sig fuel (Hdf & Hvis & Hst & Hitems & _) Hfuel.
  destruct fuel as [|fuel]; [simpl in Hfuel; lia|]. simpl.
  unfold GraphSignal.tryGetNext. rewrite Hvis.
  unfold GraphSignal.tryGetNextInternal.
  rewrite tryDetach_empty; [done|]. by rewrite Hst, Hitems.
Qed.

(** The callback and the cleanup after a pull: the children become the
    frame on top, and empty frames on top are dropped. *)
Lemma dfs_next_cleanup items frame frames cs depth dc k sk :
  rev items = frame ++ concat frames →
  dfs_ready
    (GraphSignal.cleanup
       (GraphSignal.next cs
          (GraphSignal.mk None true (Linear.mk true items) depth
             ((λ f : list TNode, Z.of_nat (length f)) <$> (frame :: frames)) dc k sk)))
    (clean_frames (rev cs :: frame :: frames))
    (if sk then k else k + 1).
Proof.
  intros Hitems. unfold GraphSignal.next, Linear.attach.
  cbn [GraphSignal.nodes GraphSignal.isDepthFirst GraphSignal.set_nodes
       GraphSignal.visited GraphSignal.depth GraphSignal.branchCount
       GraphSignal.depthCount GraphSignal.count GraphSignal.skipped
       Linear.isStack Linear.items andb].
  case_bool_decide as Hcs.
  - unfold GraphSignal.cleanup, Stack.push.
    cbn [GraphSignal.nodes GraphSignal.isDepthFirst GraphSignal.set_nodes
         GraphSignal.visited GraphSignal.depth GraphSignal.branchCount
         GraphSignal.depthCount GraphSignal.count GraphSignal.skipped
         GraphSignal.set_branchCount GraphSignal.set_count].
    rewrite <- (length_rev cs).
    change (Z.of_nat (length (rev cs))
            :: ((λ f : list TNode, Z.of_nat (length f)) <$> frame :: frames))
      with ((λ f : list TNode, Z.of_nat (length f)) <$> (rev cs :: frame :: frames)).
    rewrite cleanup_frames_clean.
    destruct sk; unfold dfs_ready; cbn -[clean_frames Z.of_nat rev concat];
      rewrite concat_clean_frames, rev_app_distr, Hitems; simpl;
      by rewrite app_assoc.
  - assert (cs = []) as -> by (destruct cs; [done|simpl length in Hcs; lia]).
    unfold GraphSignal.cleanup.
    cbn [GraphSignal.nodes GraphSignal.isDepthFirst GraphSignal.set_nodes
         GraphSignal.visited GraphSignal.depth GraphSignal.branchCount
         GraphSignal.depthCount GraphSignal.count GraphSignal.skipped
         GraphSignal.set_branchCount GraphSignal.set_count].
    rewrite cleanup_frames_clean.
    change (clean_frames (rev [] :: frame :: frames))
      with (clean_frames (frame :: frames)).
    destruct sk; unfold dfs_ready; cbn -[clean_frames Z.of_nat rev concat];
      by rewrite concat_clean_frames, app_nil_r.
Qed.

(** A pull: the node on top of the frames, its depth is the number of
    frames below; its children become the frame on top. *)
Lemma dfs_sees_pull x frame frames k seen :
  dfs_sees next (clean_frames (rev (next x) :: frame :: frames)) (k + 1) seen →
  dfs_sees next ((x :: frame) :: frames) k
    ((x, Z.of_nat (length frames), k) :: seen).
Proof.
  intros Hrest sig fuel (Hdf & Hvis & Hst & Hitems & Hbc & Hk) Hfuel.
  destruct fuel as [|fuel]; [simpl in Hfuel; lia|].
  destruct sig as [vs df b depth bc dc c sk].
  cbn [GraphSignal.isDepthFirst GraphSignal.visited GraphSignal.nodes
       GraphSignal.branchCount GraphSignal.count concat]
    in Hdf, Hvis, Hst, Hitems, Hbc, Hk.
  simpl in Hfuel. subst. rewrite observed_S.
  unfold GraphSignal.tryGetNext, GraphSignal.tryGetNextInternal.
  cbn [GraphSignal.visited GraphSignal.nodes].
  rewrite (tryDetach_pending b x (frame ++ concat frames));
    [|by rewrite Hst, Hitems].
  rewrite Hst. cbn -[Z.of_nat observed GraphSignal.cleanup GraphSignal.next].
  unfold Stack.count, Stack.push. cbn [length]. rewrite length_fmap.
  replace (Z.of_nat (S (length frames)) - 1) with (Z.of_nat (length frames)) by lia.
  replace (Z.of_nat (S (length frame)) - 1) with (Z.of_nat (length frame)) by lia.
  rewrite (Hrest _ fuel); [done| |lia].
  unfold GraphSignal.set_skipped, GraphSignal.set_branchCount, GraphSignal.set_depth,
    GraphSignal.set_nodes.
  cbn [GraphSignal.isDepthFirst GraphSignal.visited GraphSignal.nodes
       GraphSignal.branchCount GraphSignal.count GraphSignal.depth
       GraphSignal.depthCount GraphSignal.skipped].
  apply (dfs_next_cleanup (rev (frame ++ concat frames)) frame frames (next x)
           _ dc k false).
  by rewrite rev_involutive.
Qed.

Lemma ranked_app k (l1 l2 : list (TNode * Z)) :
  ranked k (l1 ++ l2) = ranked k l1 ++ ranked (k + Z.of_nat (length l1)) l2.
Proof.
  revert k. induction l1 as [|nd l1 IH]; intros k.
  - simpl. by rewrite Z.add_0_r.
  - cbn -[Z.of_nat]. rewrite IH. do 3 f_equal. simpl length. lia.
Qed.

Lemma ranked_length k (l : list (TNode * Z)) : length (ranked k l) = length l.
Proof. revert k. induction l as [|nd l IH]; intros k; simpl; [done|]. by rewrite IH. Qed.

(** The branches of the nodes on top of the frames, then what follows. *)
Lemma dfs_sees_branches d ns seen :
  branches_from next d ns seen →
  ∀ frame frames k tail,
    Z.of_nat (length frames) = d →
    dfs_sees next (clean_frames (frame :: frames))
      (k + Z.of_nat (length seen)) tail →
    dfs_sees next (clean_frames ((ns ++ frame) :: frames)) k
      (ranked k seen ++ tail).
Proof.
  induction 1 using branches_from_ind2 with
    (P := λ d n seen, ∀ frame frames k tail,
            Z.of_nat (length frames) = d →
            dfs_sees next (clean_frames (frame :: frames))
              (k + Z.of_nat (length seen)) tail →
            dfs_sees next ((n :: frame) :: frames) k (ranked k seen ++ tail));
    intros frame frames k tail Hd Htail.
  - cbn -[Z.of_nat]. rewrite <- Hd. apply dfs_sees_pull.
    pose proof (IHbranches_from [] (frame :: frames) (k + 1) tail) as IH.
    rewrite app_nil_r in IH. apply IH.
    + simpl length. lia.
    + change (clean_frames ([] :: frame :: frames))
        with (clean_frames (frame :: frames)).
      replace (k + 1 + Z.of_nat (length below))
        with (k + Z.of_nat (length ((n, d) :: below))) by (simpl length; lia).
      done.
  - simpl. by rewrite Z.add_0_r in Htail.
  - simpl. rewrite ranked_app, <- app_assoc.
    apply IHbranches_from; [done|].
    apply IHbranches_from0; [done|].
    rewrite length_app, Nat2Z.inj_add, Z.add_assoc in Htail. done.
Qed.
End DepthFirstDepth.

Section ObservedFacts.
Context {TNode : Type} `{EqDecision TNode}.
Variable next : TNode → list TNode.

Lemma tryGetNextInternal_skipped (sig : GraphSignal.t TNode) n sig1 :
  GraphSignal.tryGetNextInternal sig = (Ok (Some n), sig1) →
  GraphSignal.skipped sig1 = false.
Proof.
  destruct sig as [vs df b depth bc dc c sk].
  unfold GraphSignal.tryGetNextInternal. simpl.
  destruct (Linear.tryDetach b) as [[x|] nodes']; [|done].
  destruct df; simpl.
  - destruct bc as [|v bc]; simpl; [done|]. by intros [= _ <-].
  - by intros [= _ <-].
Qed.

Lemma tryGetNext_loop_skipped fuel : ∀ (sig : GraphSignal.t TNode) n sig1,
  GraphSignal.tryGetNext_loop fuel sig = (Ok (Some n), sig1) →
  GraphSignal.skipped sig1 = false.
Proof.
  induction fuel as [|fuel IH]; intros sig n sig1 E; [done|].
  simpl in E.
  apply bind_inv in E as [([x|] & sig2 & Ei & E)|[(e & _ & ?)|[_ ?]]]; [| |done..].
  - apply tryGetNextInternal_skipped in Ei.
    rewrite (bind_ok get_state _ sig2 sig2 sig2 eq_refl) in E.
    destruct (JsSet.has _ x); [by apply IH in E|].
    injection E as _ <-. done.
  - done.
Qed.

Lemma tryGetNext_skipped (sig : GraphSignal.t TNode) n sig1 :
  GraphSignal.tryGetNext sig = (Ok (Some n), sig1) →
  GraphSignal.skipped sig1 = false.
Proof.
  unfold GraphSignal.tryGetNext. destruct (GraphSignal.visited sig).
  - apply tryGetNext_loop_skipped.
  - apply tryGetNextInternal_skipped.
Qed.

(** The observing run sees the nodes that the driver yields with the
    default callback, in the same order. *)
Lemma observed_yields fuel : ∀ (sig : GraphSignal.t TNode) seen (acc : list TNode),
  observed next fuel sig = Ok seen →
  TraverseGraph.loop (TraverseGraph.default_callback (λ _, next))
    (λ n, modify (λ acc, acc ++ [n])) fuel sig acc
  = (Ok tt, acc ++ seen.*1.*1).
Proof.
  induction fuel as [|fuel IH]; intros sig seen acc E; [done|].
  simpl in E. simpl.
  destruct (GraphSignal.tryGetNext sig) as [[[n|]|e|] sig1] eqn:Et; [| |done..].
  - unfold TraverseGraph.default_callback, GraphSignal.shouldYield.
    assert (GraphSignal.skipped (GraphSignal.next (next n) sig1) = false) as ->.
    { apply tryGetNext_skipped in Et. unfold GraphSignal.next.
      destruct (Linear.attach _ _) as [c nodes'].
      by destruct (_ && _). }
    cbn [negb modify].
    destruct (observed next fuel _) as [rest| |] eqn:Er; [|done..].
    injection E as <-. rewrite (IH _ rest _ Er). simpl.
    by rewrite <- app_assoc.
  - injection E as <-. simpl. by rewrite app_nil_r.
Qed.
End ObservedFacts.

(** X15. Breadth-first, the control signal shows the callback the depth of
    each node, the number of levels between it and the roots, and as count
    the number of nodes yielded before it: roots have depth 0, their children
    depth 1, and so on level by level. *)
Theorem breadth_first_depth_and_count {TNode} `{EqDecision TNode}
    (next : TNode → list TNode) (roots : list TNode) (seen : list (TNode * Z * Z))
    (fuel : nat) :
  levels_from next 0 0 roots seen → (length seen < fuel)%nat →
  observed next fuel (GraphSignal.constructor roots false BreadthFirst) = Ok seen.
Proof.
  intros Hlevels Hfuel.
  assert (bfs_sees next 0 0 roots [] seen) as Hsees.
  { inversion Hlevels as [|d k level rest Hne Hrest]; subst.
    - apply bfs_sees_done.
    - apply bfs_sees_level. simpl.
      apply bfs_sees_levels in Hrest. by replace (0 + 1 - 1) with 0 in Hrest by lia. }
  apply Hsees; [|done].
  unfold bfs_ready, GraphSignal.constructor. cbn -[Z.of_nat].
  by rewrite app_nil_r.
Qed.

(** X16. Depth-first, the control signal shows the callback the depth of each
    node on its branch (roots 0, a child one more than its parent), also after
    the traversal has come back from deeper branches, and as count the number
    of nodes yielded before it. *)
Theorem depth_first_depth_and_count {TNode} `{EqDecision TNode}
    (next : TNode → list TNode) (roots : list TNode) (seen : list (TNode * Z))
    (fuel : nat) :
  branches_from next 0 (rev roots) seen → (length seen < fuel)%nat →
  observed next fuel (GraphSignal.constructor roots false DepthFirst)
  = Ok (ranked 0 seen).
Proof.
  intros Hbranches Hfuel.
  assert (dfs_ready (GraphSignal.constructor roots false DepthFirst) [rev roots] 0)
    as Hready.
  { unfold dfs_ready, GraphSignal.constructor. cbn -[Z.of_nat].
    rewrite app_nil_r, length_rev. by repeat split. }
  destruct roots as [|r roots].
  - inversion Hbranches; subst. by apply (dfs_sees_done next [[]] 0).
  - pose proof (dfs_sees_branches next 0 _ _ Hbranches [] [] 0 [] eq_refl) as Hsees.
    rewrite !app_nil_r in Hsees.
    assert (clean_frames [rev (r :: roots)] = [rev (r :: roots)]) as Hclean.
    { destruct (rev (r :: roots)) eqn:E; [|done].
      apply (f_equal length) in E. rewrite length_rev in E. done. }
    rewrite Hclean in Hsees. apply Hsees; [|done|by rewrite ranked_length].
    by apply dfs_sees_done.
Qed.
(** * Child maps *)

Section MultiMapFacts.
Context {T : Type} `{EqDecision T}.
Implicit Types (map : MultiMap.t T) (s values : list T).

Lemma JsMap_set_same {V} (m : list (T * V)) k v :
  JsMap.get m k = Some v → JsMap.set k v m = m.
Proof.
  induction m as [|[k0 v0] m IH]; simpl; [done|].
  destruct (decide (k0 = k)) as [->|Hne].
  - by intros [= ->].
  - intros E. by rewrite IH.
Qed.

Lemma JsMap_set_set {V} (m : list (T * V)) k v v' :
  JsMap.set k v (JsMap.set k v' m) = JsMap.set k v m.
Proof.
  induction m as [|[k0 v0] m IH]; simpl.
  - by rewrite decide_True.
  - destruct (decide (k0 = k)) as [->|Hne]; simpl.
    + by rewrite decide_True.
    + by rewrite decide_False, IH.
Qed.

Lemma JsMap_delete_set_absent {V} (m : list (T * V)) k v :
  JsMap.get m k = None → JsMap.delete k (JsMap.set k v m) = m.
Proof.
  unfold JsMap.delete. induction m as [|[k0 v0] m IH]; simpl.
  - intros _. by rewrite filter_cons_False, filter_nil by (simpl; tauto).
  - destruct (decide (k0 = k)) as [->|Hne]; [done|]. intros E.
    rewrite filter_cons_True by done. by rewrite IH.
Qed.

Lemma JsMap_get_delete {V} (m : list (T * V)) k :
  JsMap.get (JsMap.delete k m) k = None.
Proof.
  unfold JsMap.delete. induction m as [|[k0 v0] m IH]; [done|].
  rewrite filter_cons. simpl. destruct (decide (k0 ≠ k)) as [Hne|Heq]; [|done].
  simpl. by rewrite decide_False.
Qed.

Lemma remove_unfold key values map :
  MultiMap.remove key values map =
    let set := default [] (JsMap.get map key) in
    let map1 := JsMap.set key set map in
    let rs := remove_loop values [] set in
    (rs.1,
     if bool_decide (JsSet.size rs.2 = 0%nat)
     then JsMap.delete key map1
     else JsMap.set key rs.2 map1).
Proof.
  unfold MultiMap.remove, remove_loop. simpl.
  by destruct (foldl _ _ _).
Qed.

Lemma add_all_fresh values : ∀ s,
  NoDup values → (∀ v, v ∈ values → v ∉ s) →
  JsSet.add_all values s = s ++ values.
Proof.
  induction values as [|v values IH]; intros s Hnd Hfresh.
  - by rewrite app_nil_r.
  - apply NoDup_cons in Hnd as [Hv Hnd]. unfold JsSet.add_all. simpl.
    unfold JsSet.add at 2, JsSet.has.
    rewrite bool_decide_eq_false_2 by (apply Hfresh; by left).
    fold (JsSet.add_all values (s ++ [v])). rewrite IH; [|done|].
    + by rewrite <- app_assoc.
    + intros v' Hv' [Hin|Hin%list_elem_of_singleton]%elem_of_app.
      * apply (Hfresh v'); [by right | done].
      * by subst.
Qed.

Lemma remove_loop_cons v values removed s :
  remove_loop (v :: values) removed s =
    if JsSet.has s v
    then remove_loop values (removed ++ [v]) (JsSet.delete v s)
    else remove_loop values removed s.
Proof. unfold remove_loop. simpl. by destruct (JsSet.has s v). Qed.

Lemma remove_loop_fresh values : ∀ removed s,
  NoDup values → (∀ v, v ∈ values → v ∉ s) →
  remove_loop values removed (s ++ values) = (removed ++ values, s).
Proof.
  induction values as [|v values IH]; intros removed s Hnd Hfresh.
  - by rewrite !app_nil_r.
  - apply NoDup_cons in Hnd as [Hv Hnd]. rewrite remove_loop_cons.
    unfold JsSet.has.
    rewrite bool_decide_eq_true_2 by (apply elem_of_app; right; by left).
    assert (JsSet.delete v (s ++ v :: values) = s ++ values) as ->.
    { unfold JsSet.delete. rewrite filter_app, filter_cons_False by tauto.
      rewrite !filter_all; [done| |].
      - intros x Hx ->. done.
      - intros x Hx ->. apply (Hfresh v); [by left | done]. }
    rewrite IH; [|done|].
    + by rewrite <- app_assoc.
    + intros v' Hv'. apply Hfresh. by right.
Qed.

(** What the loop of [remove] does in general. *)
Lemma remove_loop_run values : ∀ removed s,
  ∃ r, remove_loop values removed s = (removed ++ r, filter (λ x, x ∉ values) s) ∧
       NoDup r ∧ ∀ v, v ∈ r ↔ v ∈ values ∧ v ∈ s.
Proof.
  induction values as [|v values IH]; intros removed s.
  - exists []. split; [|split].
    + unfold remove_loop. simpl. rewrite app_nil_r. f_equal. symmetry.
      apply filter_all. intros x _. apply not_elem_of_nil.
    + constructor.
    + intros v. split; [by intros ?%elem_of_nil | by intros [?%elem_of_nil _]].
  - rewrite remove_loop_cons. unfold JsSet.has. case_bool_decide as Hin.
    + destruct (IH (removed ++ [v]) (JsSet.delete v s)) as (r & -> & Hnd & Hr).
      exists (v :: r). split; [|split].
      * rewrite <- app_assoc. f_equal. unfold JsSet.delete.
        rewrite list_filter_filter. apply list_filter_iff.
        intros x. rewrite not_elem_of_cons. tauto.
      * apply NoDup_cons. split; [|done]. intros Hv%Hr.
        destruct Hv as [_ Hv]. unfold JsSet.delete in Hv.
        apply list_elem_of_filter in Hv as [? _]. done.
      * intros x. rewrite !elem_of_cons, Hr. unfold JsSet.delete.
        rewrite list_elem_of_filter. split.
        -- intros [->|(? & ? & ?)]; [by split; [left|] | by split; [right|]].
        -- intros [[->|?] ?]; [by left|].
           destruct (decide (x = v)) as [->|Hne]; [by left | by right].
    + destruct (IH removed s) as (r & -> & Hnd & Hr).
      exists r. split; [|split; [done|]].
      * f_equal. apply filter_agree. intros x Hx. rewrite not_elem_of_cons.
        split; [|tauto]. intros Hnin. split; [|done]. by intros ->.
      * intros x. rewrite Hr, elem_of_cons. split; [tauto|].
        intros [[->|?] ?]; [done | by split].
Qed.

Lemma JsMap_get_delete_ne {V} (m : list (T * V)) k k' :
  k' ≠ k → JsMap.get (JsMap.delete k m) k' = JsMap.get m k'.
Proof.
  intros Hk. unfold JsMap.delete. induction m as [|[k0 v0] m IH]; [done|].
  rewrite filter_cons. simpl. destruct (decide (k0 ≠ k)) as [Hne|Heq]; simpl.
  - by rewrite IH.
  - apply dec_stable in Heq. subst k0. by rewrite decide_False.
Qed.
End MultiMapFacts.

(** X17. Round trip of the child map: [add(key, values)] followed by
    [remove(key, values)] returns the values and gives the map back, entry
    order included, for distinct values that were not in the set of the key;
    the set of the key may be absent, but not present and empty. *)
Theorem MultiMap_add_then_remove {T} `{EqDecision T} (key : T) (values : list T)
    (map : MultiMap.t T) :
  JsMap.get map key ≠ Some [] →
  NoDup values →
  (∀ v, v ∈ values → v ∉ default [] (JsMap.get map key)) →
  MultiMap.remove key values (MultiMap.add key values map).2 = (values, map).
Proof.
  intros Hne Hnd Hfresh. rewrite remove_unfold. unfold MultiMap.add.
  cbn [snd]. cbv zeta.
  set (s := default [] (JsMap.get map key)) in *.
  rewrite JsMap_get_set, decide_True by done. cbn [default].
  rewrite (add_all_fresh values s Hnd Hfresh), JsMap_set_set.
  rewrite (remove_loop_fresh values [] s Hnd Hfresh). cbn [fst snd app].
  f_equal. unfold JsSet.size.
  destruct (JsMap.get map key) as [s0|] eqn:Eget.
  - subst s. cbn [default]. rewrite bool_decide_eq_false_2.
    + by rewrite JsMap_set_set, JsMap_set_same.
    + destruct s0; [done|]. simpl. lia.
  - subst s. cbn [default length]. rewrite bool_decide_eq_true_2 by done.
    by apply JsMap_delete_set_absent.
Qed.

(** X18. [remove(key, values)] returns those of the values that were in the
    set of the key, each once; afterwards none of the values is in the set,
    the other values of the set are kept in their order, the key is deleted
    when nothing is left (it never keeps an empty set), and the other keys
    lead to what they led to. *)
Theorem MultiMap_remove_result {T} `{EqDecision T} (key : T) (values : list T)
    (map : MultiMap.t T) :
  let s := default [] (JsMap.get map key) in
  let removed := (MultiMap.remove key values map).1 in
  let map' := (MultiMap.remove key values map).2 in
  NoDup removed ∧
  (∀ v, v ∈ removed ↔ v ∈ values ∧ v ∈ s) ∧
  JsMap.get map' key =
    (if decide (filter (λ x, x ∉ values) s = []) then None
     else Some (filter (λ x, x ∉ values) s)) ∧
  (∀ k, k ≠ key → JsMap.get map' k = JsMap.get map k).
Proof.
  intros s removed map'. subst removed map'. rewrite remove_unfold. cbv zeta.
  fold s. destruct (remove_loop_run values [] s) as (r & -> & Hnd & Hr).
  cbn [fst snd app]. split; [done|]. split; [done|]. unfold JsSet.size.
  destruct (filter (λ x, x ∉ values) s) as [|x rest] eqn:Ef.
  - rewrite bool_decide_eq_true_2 by done. rewrite decide_True by done. split.
    + apply JsMap_get_delete.
    + intros k Hk. by rewrite JsMap_get_delete_ne, JsMap_get_set, decide_False.
  - rewrite bool_decide_eq_false_2 by (simpl; lia). rewrite decide_False by done.
    split.
    + by rewrite JsMap_get_set, decide_True.
    + intros k Hk. by rewrite !JsMap_get_set, !decide_False.
Qed.

Section RelationsFacts.
Context {TId : Type} `{EqDecision TId}.
Implicit Types (map : MultiMap.t TId) (rels : list (TId * TId)).

Lemma JsMap_get_app_absent {V} (m : list (TId * V)) k v :
  k ∉ JsMap.keys m → JsMap.get (m ++ [(k, v)]) k = Some v.
Proof.
  unfold JsMap.keys. induction m as [|[k0 v0] m IH]; simpl; intros Hk.
  - by rewrite decide_True.
  - apply not_elem_of_cons in Hk as [Hne Hk].
    rewrite decide_False by done. by apply IH.
Qed.

Lemma JsMap_set_app_absent {V} (m : list (TId * V)) k v v' :
  k ∉ JsMap.keys m → JsMap.set k v' (m ++ [(k, v)]) = m ++ [(k, v')].
Proof.
  unfold JsMap.keys. induction m as [|[k0 v0] m IH]; simpl; intros Hk.
  - by rewrite decide_True.
  - apply not_elem_of_cons in Hk as [Hne Hk].
    rewrite decide_False by done. by rewrite IH.
Qed.

Lemma JsMap_get_absent {V} (m : list (TId * V)) k :
  k ∉ JsMap.keys m → JsMap.get m k = None.
Proof.
  unfold JsMap.keys. induction m as [|[k0 v0] m IH]; simpl; intros Hk; [done|].
  apply not_elem_of_cons in Hk as [Hne Hk].
  rewrite decide_False by done. by apply IH.
Qed.

Lemma JsMap_set_absent {V} (m : list (TId * V)) k v :
  k ∉ JsMap.keys m → JsMap.set k v m = m ++ [(k, v)].
Proof.
  unfold JsMap.keys. induction m as [|[k0 v0] m IH]; simpl; intros Hk; [done|].
  apply not_elem_of_cons in Hk as [Hne Hk].
  rewrite decide_False by done. by rewrite IH.
Qed.

Lemma add_one p c map :
  (MultiMap.add p [c] map).2
  = JsMap.set p (JsSet.add c (default [] (JsMap.get map p))) map.
Proof. done. Qed.

(** The pairs of one entry whose key is the last of the map so far. *)
Lemma toChildMap_entry_rest p cs : ∀ map seen,
  p ∉ JsMap.keys map → NoDup (seen ++ cs) →
  foldl (λ map '(parent, child), (MultiMap.add parent [child] map).2)
    (map ++ [(p, seen)]) ((λ child, (p, child)) <$> cs)
  = map ++ [(p, seen ++ cs)].
Proof.
  induction cs as [|c cs IH]; intros map seen Hp Hnd.
  - by rewrite app_nil_r.
  - rewrite fmap_cons. cbn [foldl]. rewrite add_one.
    rewrite (JsMap_get_app_absent map p seen Hp). cbn [default].
    unfold JsSet.add, JsSet.has.
    rewrite bool_decide_eq_false_2; last first.
    { apply NoDup_app in Hnd as (_ & Hdisj & _). intros Hc.
      apply (Hdisj c Hc). by left. }
    rewrite (JsMap_set_app_absent map p seen _ Hp).
    rewrite IH; [|done|].
    + by rewrite <- app_assoc.
    + by rewrite <- app_assoc.
Qed.

Lemma toChildMap_entry p c cs map :
  p ∉ JsMap.keys map → NoDup (c :: cs) →
  foldl (λ map '(parent, child), (MultiMap.add parent [child] map).2)
    map ((λ child, (p, child)) <$> (c :: cs))
  = map ++ [(p, c :: cs)].
Proof.
  intros Hp Hnd. rewrite fmap_cons. cbn [foldl]. rewrite add_one.
  rewrite (JsMap_get_absent map p Hp). cbn [default].
  unfold JsSet.add, JsSet.has.
  rewrite bool_decide_eq_false_2 by apply not_elem_of_nil.
  rewrite (JsMap_set_absent map p _ Hp).
  by apply (toChildMap_entry_rest p cs map [c]).
Qed.

Lemma toChildMap_entries entries : ∀ map,
  NoDup (JsMap.keys (map ++ entries)) →
  (∀ p cs, (p, cs) ∈ entries → cs ≠ [] ∧ NoDup cs) →
  foldl (λ map '(parent, child), (MultiMap.add parent [child] map).2)
    map (Relations.fromChildMap entries)
  = map ++ entries.
Proof.
  unfold Relations.fromChildMap.
  induction entries as [|[p cs] entries IH]; intros map Hnd Hsets.
  - by rewrite app_nil_r.
  - rewrite bind_cons, foldl_app.
    destruct (Hsets p cs) as [Hne Hcs]; [by left|].
    destruct cs as [|c cs]; [done|].
    rewrite toChildMap_entry; [|
      |done].
    + rewrite IH.
      * by rewrite <- app_assoc.
      * by rewrite <- app_assoc.
      * intros p' cs' Hin. apply (Hsets p' cs'). by right.
    + unfold JsMap.keys in *. rewrite fmap_app in Hnd.
      apply NoDup_app in Hnd as (_ & Hdisj & _). intros Hp.
      apply (Hdisj p Hp). simpl. by left.
Qed.
End RelationsFacts.

(** X19. Round trip of the relations: the child map made by
    [Relations.toChildMap] from the pairs that [Relations.fromChildMap] lists
    for a child map is that child map, entry order and value order included,
    when no key occurs twice and every set is non-empty and holds no value
    twice. (An entry with an empty set has no pair and would be lost.) *)
Theorem Relations_round_trip {TId} `{EqDecision TId} (childMap : MultiMap.t TId) :
  NoDup (JsMap.keys childMap) →
  (∀ p cs, (p, cs) ∈ childMap → cs ≠ [] ∧ NoDup cs) →
  Relations.toChildMap (Relations.fromChildMap childMap) = childMap.
Proof.
  intros Hnd Hsets. unfold Relations.toChildMap.
  by rewrite (toChildMap_entries childMap []).
Qed.
(** * Skipping and ending a traversal *)

Section SteeringFacts.
Context {TNode : Type} `{EqDecision TNode}.
Variable next : TNode → list TNode.
Variables hide stop : TNode → bool.

(** [skip()] changes what [shouldYield] answers and nothing that the next
    pull depends on. *)
Lemma skip_cleanup_ready (sig : GraphSignal.t TNode) pend cs :
  signal_ready sig pend → GraphSignal.skipped sig = false →
  let sig1 := GraphSignal.skip (GraphSignal.next cs sig) in
  let sig2 := GraphSignal.cleanup sig1 in
  GraphSignal.shouldYield sig1 = false ∧
  signal_ready sig2 (pending_after (GraphSignal.isDepthFirst sig) cs pend) ∧
  GraphSignal.isDepthFirst sig2 = GraphSignal.isDepthFirst sig ∧
  GraphSignal.visited sig2 = GraphSignal.visited sig.
Proof.
  intros (Hmode & Hpend & Hsum) Hsk.
  destruct sig as [vs df [st items] d bc dc c sk]. simpl in *. subst sk st.
  unfold pending in Hpend. simpl in Hpend.
  unfold GraphSignal.skip, GraphSignal.next, GraphSignal.cleanup,
    GraphSignal.shouldYield.
  destruct df; cbn -[GraphSignal.cleanup_frames Z.of_nat].
  - specialize (Hsum eq_refl).
    case_bool_decide as Hc; cbn -[GraphSignal.cleanup_frames Z.of_nat];
      (split; [done|]); (split; [|done]);
      unfold signal_ready, pending, pending_after;
      cbn -[GraphSignal.cleanup_frames Z.of_nat];
      (split; [done|]); rewrite rev_app_distr, Hpend; (split; [done|]);
      intros _; rewrite cleanup_frames_sum; cbn -[Z.of_nat];
      rewrite length_app, length_rev; lia.
  - split; [done|]. unfold signal_ready, pending, pending_after. simpl.
    rewrite Hpend. done.
Qed.

(** After [end()] the next pull finds nothing. *)
Lemma ended_done (sig : GraphSignal.t TNode) :
  GraphSignal.visited sig = None →
  GraphSignal.tryGetNext (GraphSignal.cleanup (GraphSignal.end_ sig))
  = (Ok None, GraphSignal.cleanup (GraphSignal.end_ sig)).
Proof.
  intros Hvis. destruct sig as [vs df [st items] d bc dc c sk]. simpl in Hvis.
  subst vs. unfold GraphSignal.tryGetNext, GraphSignal.end_, GraphSignal.cleanup.
  destruct df, sk, st; reflexivity.
Qed.

Lemma steered_done df : steered next hide stop df [] [].
Proof.
  intros sig acc fuel Hready Hdf Hvis Hfuel.
  destruct fuel as [|fuel]; [simpl in Hfuel; lia|]. simpl.
  unfold GraphSignal.tryGetNext. rewrite Hvis.
  rewrite (tryGetNextInternal_done sig Hready). by rewrite app_nil_r.
Qed.

(** A pull of a node at which the callback does not end the traversal. *)
Lemma steered_step df x pend pulled :
  stop x = false →
  steered next hide stop df (pending_after df (next x) pend) pulled →
  steered next hide stop df (x :: pend) (x :: pulled).
Proof.
  intros Hstop Hrest sig acc fuel Hready Hdf Hvis Hfuel.
  destruct fuel as [|fuel]; [simpl in Hfuel; lia|]. simpl in Hfuel.
  simpl TraverseGraph.loop.
  unfold GraphSignal.tryGetNext. rewrite Hvis.
  destruct (tryGetNextInternal_ready sig x pend Hready)
    as (sig' & -> & Hready' & Hdf' & Hvis' & Hsk').
  unfold steering_callback. rewrite Hstop. rewrite filter_cons.
  destruct (hide x) eqn:Hhide.
  - destruct (skip_cleanup_ready sig' pend (next x) Hready' Hsk')
      as (Hyield & Hready2 & Hdf2 & Hvis2).
    rewrite Hyield. rewrite decide_False by done.
    apply Hrest; [| | |lia].
    + by rewrite <- Hdf, <- Hdf'.
    + by rewrite Hdf2, Hdf'.
    + by rewrite Hvis2, Hvis'.
  - destruct (callback_cleanup_ready sig' pend (next x) Hready' Hsk')
      as (Hyield & Hready2 & Hdf2 & Hvis2).
    rewrite Hyield. rewrite decide_True by done.
    unfold modify at 1. rewrite Hrest; [| | | |lia].
    + by rewrite <- app_assoc.
    + by rewrite <- Hdf, <- Hdf'.
    + by rewrite Hdf2, Hdf'.
    + by rewrite Hvis2, Hvis'.
Qed.

(** A pull of a node at which the callback ends the traversal: the node is
    still yielded, unless hidden, and nothing comes after it. *)
Lemma steered_stop df x pend :
  stop x = true → steered next hide stop df (x :: pend) [x].
Proof.
  intros Hstop sig acc fuel Hready Hdf Hvis Hfuel.
  destruct fuel as [|[|fuel]]; [simpl in Hfuel; lia..|].
  remember (S fuel) as fuel' eqn:Ef. simpl TraverseGraph.loop.
  unfold GraphSignal.tryGetNext at 1. rewrite Hvis.
  destruct (tryGetNextInternal_ready sig x pend Hready)
    as (sig' & -> & Hready' & Hdf' & Hvis' & Hsk').
  unfold steering_callback. rewrite Hstop.
  rewrite filter_cons, filter_nil.
  assert (∀ s : GraphSignal.t TNode, GraphSignal.visited s = None →
            ∀ acc', TraverseGraph.loop (steering_callback next hide stop)
                      (λ n, modify (λ acc, acc ++ [n])) fuel'
                      (GraphSignal.cleanup (GraphSignal.end_ s)) acc'
                    = (Ok tt, acc')) as Hend.
  { intros s Hs acc'. subst fuel'. simpl TraverseGraph.loop.
    by rewrite (ended_done s Hs). }
  assert (∀ s : GraphSignal.t TNode,
            GraphSignal.shouldYield (GraphSignal.end_ s) = GraphSignal.shouldYield s)
    as Hsame by done.
  rewrite Hsame.
  destruct (hide x) eqn:Hhide.
  - rewrite decide_False by done.
    assert (GraphSignal.shouldYield (GraphSignal.skip (GraphSignal.next (next x) sig'))
            = false) as -> by done.
    rewrite Hend; [by rewrite app_nil_r|].
    unfold GraphSignal.skip, GraphSignal.next.
    destruct (Linear.attach _ _) as [c nodes']. rewrite <- Hvis, <- Hvis'.
    by destruct (_ && _).
  - rewrite decide_True by done.
    destruct (callback_cleanup_ready sig' pend (next x) Hready' Hsk')
      as (Hyield & _).
    rewrite Hyield. unfold modify at 1. rewrite Hend; [done|].
    unfold GraphSignal.next.
    destruct (Linear.attach _ _) as [c nodes']. rewrite <- Hvis, <- Hvis'.
    by destruct (_ && _).
Qed.

(** Breadth first, a queue of nodes at none of which the callback ends. *)
Lemma steered_queue q : ∀ r pulled,
  (∀ n, n ∈ q → stop n = false) →
  steered next hide stop false (r ++ (q ≫= next)) pulled →
  steered next hide stop false (q ++ r) (q ++ pulled).
Proof.
  induction q as [|x q IH]; intros r pulled Hq H.
  - by rewrite app_nil_r in H.
  - simpl. apply steered_step; [apply Hq; by left|]. unfold pending_after.
    rewrite <- app_assoc. apply IH; [intros n Hn; apply Hq; by right|].
    rewrite <- app_assoc. by rewrite bind_cons in H.
Qed.

(** A queue in which the callback ends at [e]. *)
Lemma steered_queue_stop q1 e q2 r :
  (∀ n, n ∈ q1 → stop n = false) → stop e = true →
  steered next hide stop false ((q1 ++ e :: q2) ++ r) (q1 ++ [e]).
Proof.
  revert q2 r. induction q1 as [|x q1 IH]; intros q2 r Hq He.
  - simpl. by apply steered_stop.
  - simpl. apply steered_step; [apply Hq; by left|]. unfold pending_after.
    rewrite <- (app_assoc _ r (next x)).
    apply IH; [intros n Hn; apply Hq; by right | done].
Qed.

Lemma steered_levels level out :
  levels next level out → (∀ n, n ∈ out → stop n = false) →
  steered next hide stop false level out.
Proof.
  induction 1 as [|level rest Hne Hrest IH]; intros Hstop.
  - apply steered_done.
  - rewrite <- (app_nil_r level) at 1. apply steered_queue.
    + intros n Hn. apply Hstop, elem_of_app. by left.
    + apply IH. intros n Hn. apply Hstop, elem_of_app. by right.
Qed.

Lemma steered_levels_stop level out :
  levels next level out →
  ∀ pre e post, out = pre ++ e :: post →
    (∀ n, n ∈ pre → stop n = false) → stop e = true →
    steered next hide stop false level (pre ++ [e]).
Proof.
  induction 1 as [|level rest Hne Hrest IH]; intros pre e post Hout Hpre He.
  - by destruct pre.
  - apply app_eq_app in Hout as [l [[Hl Hr]|[Hl Hr]]].
    + destruct l as [|e' l].
      * rewrite app_nil_r in Hl. subst pre. simpl in Hr.
        rewrite <- (app_nil_r level) at 1. apply steered_queue; [done|].
        apply (IH [] e post); [by rewrite <- Hr | | done].
        intros n Hn. by apply elem_of_nil in Hn.
      * injection Hr as <- ->. subst level.
        rewrite <- (app_nil_r (pre ++ e :: l)). by apply steered_queue_stop.
    + subst pre. rewrite <- app_assoc.
      rewrite <- (app_nil_r level) at 1. apply steered_queue.
      * intros n Hn. apply Hpre, elem_of_app. by left.
      * apply (IH l e post Hr); [|done].
        intros n Hn. apply Hpre, elem_of_app. by right.
Qed.

Lemma steered_branches ns below :
  branches next ns below → (∀ n, n ∈ below → stop n = false) →
  ∀ rest pulled, steered next hide stop true rest pulled →
                 steered next hide stop true (ns ++ rest) (below ++ pulled).
Proof.
  induction 1 using branches_ind2 with
    (P := λ n below, (∀ m, m ∈ below → stop m = false) →
            ∀ rest pulled, steered next hide stop true rest pulled →
            steered next hide stop true (n :: rest) (below ++ pulled));
    intros Hstop pend pulled Hrest.
  - simpl. apply steered_step; [apply Hstop; by left|]. unfold pending_after.
    apply IHbranches; [|done]. intros m Hm. apply Hstop. by right.
  - done.
  - simpl. rewrite <- app_assoc. apply IHbranches.
    + intros m Hm. apply Hstop, elem_of_app. by left.
    + apply IHbranches0; [|done]. intros m Hm. apply Hstop, elem_of_app. by right.
Qed.
End SteeringFacts.

(** X20. [skip()] hides a node and nothing else. With a callback that calls
    [next] with the children of every node and [skip] at some of them, the
    traversal still visits every node of the breadth-first (depth-first)
    listing and yields, in that order, exactly those at which [skip] was not
    called: the nodes below a skipped node are yielded. *)
Theorem skip_hides_the_node_only {TNode} `{EqDecision TNode}
    (next : TNode → list TNode) (hide : TNode → bool) (roots out : list TNode)
    (type : TraversalType) (fuel : nat) (acc : list TNode) :
  match type with
  | BreadthFirst => levels next roots out
  | DepthFirst => branches next (rev roots) out
  end →
  (length out < fuel)%nat →
  TraverseGraph.for_of roots false type (steering_callback next hide (λ _, false))
    (λ n, modify (λ acc, acc ++ [n])) fuel acc
  = (Ok tt, acc ++ filter (λ n, hide n = false) out).
Proof.
  intros Hout Hfuel. unfold TraverseGraph.for_of.
  destruct (constructor_ready roots false type) as (Hready & Hdf & Hvis).
  destruct type.
  - by apply (steered_levels next hide (λ _, false) roots out Hout).
  - pose proof (steered_branches next hide (λ _, false) _ _ Hout (λ _ _, eq_refl)
                  [] [] (steered_done next hide (λ _, false) true)) as Hsteered.
    rewrite !app_nil_r in Hsteered. apply Hsteered; try done.
    rewrite Hdf in Hready. unfold pending_after in Hready.
    by rewrite app_nil_r in Hready.
Qed.

(** X21. [end()] stops the traversal after the node at hand. With a callback
    that calls [next] at every node and [end] at some, a breadth-first
    traversal hands out the nodes of the listing up to the first one at which
    [end] is called, that one included, and yields those of them that are not
    skipped; nothing that comes later in the listing is visited, although the
    callback had passed the children on before it called [end]. *)
Theorem end_stops_after_the_node {TNode} `{EqDecision TNode}
    (next : TNode → list TNode) (hide stop : TNode → bool)
    (roots pre post : list TNode) (e : TNode) (fuel : nat) (acc : list TNode) :
  levels next roots (pre ++ e :: post) →
  (∀ n, n ∈ pre → stop n = false) →
  stop e = true →
  (length (pre ++ [e]) < fuel)%nat →
  TraverseGraph.for_of roots false BreadthFirst (steering_callback next hide stop)
    (λ n, modify (λ acc, acc ++ [n])) fuel acc
  = (Ok tt, acc ++ filter (λ n, hide n = false) (pre ++ [e])).
Proof.
  intros Hlevels Hpre He Hfuel. unfold TraverseGraph.for_of.
  destruct (constructor_ready roots false BreadthFirst) as (Hready & Hdf & Hvis).
  apply (steered_levels_stop next hide stop roots _ Hlevels pre e post eq_refl Hpre He);
    try done.
Qed.

Section EndlessFacts.
Context {TNode : Type} `{EqDecision TNode}.
Variable next : TNode → list TNode.
Variable B : TNode → Prop.
Hypothesis Hclosed : ∀ n, B n → ∃ c, c ∈ next n ∧ B c.

(** Without visited set, the driver runs out of any fuel once a node is
    pending from which the edges lead on for ever. *)
Lemma graph_loop_endless fuel : ∀ (sig : GraphSignal.t TNode) pend acc,
  signal_ready sig pend → GraphSignal.visited sig = None →
  (∃ n, n ∈ pend ∧ B n) →
  ∃ acc', TraverseGraph.loop (TraverseGraph.default_callback (λ _, next))
            (λ n, modify (λ acc, acc ++ [n])) fuel sig acc
          = (OutOfFuel, acc').
Proof.
  induction fuel as [|fuel IH]; intros sig pend acc Hready Hvis (n & Hn & HB).
  - by eexists.
  - destruct pend as [|x pend]; [by apply elem_of_nil in Hn|]. simpl.
    unfold GraphSignal.tryGetNext. rewrite Hvis.
    destruct (tryGetNextInternal_ready sig x pend Hready)
      as (sig' & -> & Hready' & Hdf' & Hvis' & Hsk').
    destruct (callback_cleanup_ready sig' pend (next x) Hready' Hsk')
      as (Hyield & Hready2 & Hdf2 & Hvis2).
    unfold TraverseGraph.default_callback. rewrite Hyield.
    unfold modify at 1.
    apply (IH _ _ _ Hready2); [by rewrite Hvis2, Hvis'|].
    apply elem_of_cons in Hn as [->|Hn].
    + destruct (Hclosed x HB) as (c & Hc & HBc). exists c. split; [|done].
      rewrite (elem_of_pending_after next). by left.
    + exists n. split; [|done]. rewrite (elem_of_pending_after next). by right.
Qed.
End EndlessFacts.

(** X22. The descendant traversal of a node is not protected against cycles
    ([traverseDescendants] passes no [detectCycles]): when the node is in a
    set of nodes each of which has a child in the set, as on a cycle of child
    links, [getDescendants] does not terminate, in either order and with or
    without [excludeSelf]. *)
Theorem getDescendants_of_a_cycle_never_ends {Item} (w : World Item) (this : nat)
    (B : nat → Prop) (excludeSelf : bool) (type : TraversalType) (fuel : nat) :
  is_Some (w_nodes w !! this) →
  B this →
  (∀ n, B n → ∃ c, c ∈ children_of w n ∧ B c) →
  Node.getDescendants this excludeSelf type fuel w = (OutOfFuel, w).
Proof.
  intros Hthis HB Hclosed. rewrite (getDescendants_spread w this _ _ _ Hthis).
  f_equal. unfold traverseGraph_spread, TraverseGraph.for_of.
  set (roots := if excludeSelf then children_of w this else [this]).
  destruct (constructor_ready roots false type) as (Hready & Hdf & Hvis).
  destruct (graph_loop_endless (children_of w) B Hclosed fuel _ _ [] Hready Hvis)
    as [acc' ->]; [|done].
  destruct (Hclosed this HB) as (c & Hc & HBc).
  subst roots. destruct excludeSelf.
  - exists c. split; [|done]. rewrite (elem_of_pending_after (children_of w)). by left.
  - exists this. split; [|done]. rewrite (elem_of_pending_after (children_of w)). left. by left.
Qed.
(** * The nodes of a hierarchy *)

Section FrozenFacts.
Context {Item : Type}.
Implicit Types (w : World Item).

(** A branded node cannot be detached, by itself or by its parent. *)
Lemma branded_detachSelf_throws w n :
  is_Some (brand_of w n) → ∃ e, Node.detachSelf n w = (Throw e, w).
Proof.
  intros [o Ho]. destruct (detachSelf_cases w n) as [H|(p & _ & Hb & _)]; [done|].
  congruence.
Qed.

Lemma branded_detach_throws w p cs n :
  is_Some (brand_of w n) → n ∈ cs → ∃ e, Node.detach p cs w = (Throw e, w).
Proof.
  intros [o Ho] Hn.
  destruct (detach_outcome w p cs) as [(e & E & _)|(w' & _ & _ & _ & Hbr & _)];
    [by exists e|].
  apply (some_false _ _ _ reads_isBranded Hbr) in Hn.
  apply isBranded_false in Hn as [_ Hn]. congruence.
Qed.

(** Under a branded node nothing can be attached that is unbranded or
    branded by an owner without [Equals]. *)
Lemma branded_attach_throws w p cs :
  is_Some (brand_of w p) →
  (∀ c, c ∈ cs →
     brand_of w c = None ∨ ∃ o, brand_of w c = Some o ∧ owner_Equals o = None) →
  ∃ e, Node.attach p cs w = (Throw e, w).
Proof.
  intros [op Hp] Hcs.
  destruct (attach_outcome w p cs) as [H|(w' & _ & Hne & _ & Hcompat)]; [done|].
  destruct cs as [|c cs]; [done|].
  apply (every_true _ _ _ (λ x, reads_isBrandCompatible x p)) with (x := c)
    in Hcompat; [|by left].
  destruct (isBrandCompatible_valid _ _ _ _ Hcompat) as [[nc Ec] [np Ep]].
  apply (isBrandCompatible_true_iff w c p nc np Ec Ep) in Hcompat.
  rewrite (brand_of_lookup _ _ _ Ep) in Hp.
  destruct Hcompat as [[_ Hnone]|(mine & theirs & equals & Hmine & _ & Hequals & _)];
    [congruence|].
  destruct (Hcs c) as [Hc|(o & Hc & Ho)]; [by left| |];
    rewrite (brand_of_lookup _ _ _ Ec) in Hc; congruence.
Qed.
End FrozenFacts.

(** X23. What [attachRoot] has taken in is frozen. After a successful
    [attachRoot] every node of the trees carries the hierarchy as its brand,
    so that [detachSelf] on it throws, [detach] of a list that names it
    throws, and [attach] under it throws for children that are unbranded or
    carry a brand without [Equals] (such as a hierarchy); each time the store
    stays as it is. The release delegates are kept in a private map of the
    hierarchy that no method reads. *)
Theorem hierarchy_nodes_are_frozen {Item Id} `{EqDecision Id}
    (h : Hierarchy.t Item Id) (w : World Item) (roots out : list nat) (fuel : nat) :
  (∀ r, r ∈ roots → parent_of w r = None) →
  levels (children_of w) roots out →
  NoDup out →
  (∀ n, n ∈ out → brand_of w n = None ∧ is_Some (item_of w n)) →
  (length out < fuel)%nat →
  ∃ st', Hierarchy.attachRoot roots fuel (h, w) = (Ok tt, st') ∧
    ∀ n, n ∈ out →
      (∃ e, Node.detachSelf n st'.2 = (Throw e, st'.2)) ∧
      (∀ p cs, n ∈ cs → ∃ e, Node.detach p cs st'.2 = (Throw e, st'.2)) ∧
      (∀ cs,
         (∀ c, c ∈ cs →
            brand_of st'.2 c = None ∨
            ∃ o, brand_of st'.2 c = Some o ∧ owner_Equals o = None) →
         ∃ e, Node.attach n cs st'.2 = (Throw e, st'.2)).
Proof.
  intros Hroots Hlevels Hnd Hout Hfuel.
  destruct (attachRoot_run h w roots out fuel Hroots Hlevels Hnd Hout Hfuel)
    as (h' & w1 & E & Hind).
  eexists. split; [exact E|]. intros n Hn. cbn [snd].
  destruct Hind as (_ & _ & _ & _ & _ & Hbrand & _).
  assert (is_Some (brand_of
            (array_mutate (Hierarchy.f_roots h)
               (array_contents w (Hierarchy.f_roots h) ++ roots) w1) n)) as Hb.
  { specialize (Hbrand n). cbn [fst snd] in Hbrand.
    rewrite decide_True in Hbrand by done.
    exists (Hierarchy.as_owner h). exact Hbrand. }
  split; [by apply branded_detachSelf_throws|].
  split; [intros p cs Hcs; by apply (branded_detach_throws _ p cs n)|].
  intros cs Hcs. by apply branded_attach_throws.
Qed.
(** * Depth-first traversal with cycle detection *)

Section RevisitFacts.
Context {TNode : Type} `{EqDecision TNode}.

(** One turn of the loop of [tryGetNext]. *)
Lemma tryGetNext_loop_turn fuel (sig sig1 : GraphSignal.t TNode) x :
  GraphSignal.tryGetNextInternal sig = (Ok (Some x), sig1) →
  GraphSignal.tryGetNext_loop (S fuel) sig =
    if JsSet.has (default [] (GraphSignal.visited sig1)) x
    then GraphSignal.tryGetNext_loop fuel sig1
    else (Ok (Some x),
          GraphSignal.set_visited
            (Some (JsSet.add x (default [] (GraphSignal.visited sig1)))) sig1).
Proof.
  intros E. simpl. rewrite (bind_ok _ _ _ _ _ E).
  rewrite (bind_ok get_state _ sig1 sig1 sig1 eq_refl).
  by destruct (JsSet.has _ x).
Qed.

(** A depth-first pull, on the fields. *)
Lemma tryGetNextInternal_depth_first vs (b : Linear.t TNode) depth v bc dc c sk x pend :
  Linear.isStack b = true → rev (Linear.items b) = x :: pend →
  GraphSignal.tryGetNextInternal (GraphSignal.mk vs true b depth (v :: bc) dc c sk)
  = (Ok (Some x),
     GraphSignal.mk vs true (Linear.mk true (rev pend))
       (Z.of_nat (length (v :: bc)) - 1) ((v - 1) :: bc) dc c false).
Proof.
  intros Hst Hitems. unfold GraphSignal.tryGetNextInternal.
  cbn [GraphSignal.nodes].
  rewrite (tryDetach_pending b x pend); [|by rewrite Hst, Hitems].
  by rewrite Hst.
Qed.
End RevisitFacts.

(** X24. Depth-first with cycle detection, dropping a node that was visited
    before corrupts the depth. [tryGetNext] pulls again without the cleanup
    that a yield would be followed by. When the dropped node [x] was the last
    pending node of its depth, its frame of the branch counts stays on the
    stack with the count 0; the next node [y], which is one level up, is
    handed out with the depth of [x], one more than its own, and the pull
    leaves the count -1 on top of the stack, which no cleanup removes. *)
Theorem depth_first_revisit_shifts_the_depth {TNode} `{EqDecision TNode}
    (sig : GraphSignal.t TNode) (vs : list TNode) (x y : TNode) (frame : list TNode)
    (frames : list (list TNode)) :
  GraphSignal.isDepthFirst sig = true →
  GraphSignal.visited sig = Some vs →
  Linear.isStack (GraphSignal.nodes sig) = true →
  rev (Linear.items (GraphSignal.nodes sig)) = concat ([x] :: (y :: frame) :: frames) →
  GraphSignal.branchCount sig
    = (λ f, Z.of_nat (length f)) <$> ([x] :: (y :: frame) :: frames) →
  x ∈ vs → y ∉ vs →
  ∃ sig', GraphSignal.tryGetNext sig = (Ok (Some y), sig') ∧
    GraphSignal.depth sig' = Z.of_nat (length frames) + 1 ∧
    GraphSignal.branchCount sig'
      = -1 :: Z.of_nat (length (y :: frame))
           :: ((λ f, Z.of_nat (length f)) <$> frames) ∧
    GraphSignal.visited sig' = Some (vs ++ [y]).
Proof.
  intros Hdf Hvis Hst Hitems Hbc Hx Hy.
  destruct sig as [vs0 df b depth bc dc c sk].
  cbn [GraphSignal.isDepthFirst GraphSignal.visited GraphSignal.nodes
       GraphSignal.branchCount] in Hdf, Hvis, Hst, Hitems, Hbc.
  subst df vs0 bc. cbn [concat app] in Hitems.
  unfold GraphSignal.tryGetNext. cbn [GraphSignal.visited GraphSignal.nodes].
  assert (∃ k, length (Linear.items b) = S (S k)) as [k ->].
  { exists (length (frame ++ concat frames)).
    by rewrite <- length_rev, Hitems. }
  cbn [fmap list_fmap].
  rewrite (tryGetNext_loop_turn _ _ _ x
             (tryGetNextInternal_depth_first _ b _ _ _ _ _ _ x _ Hst Hitems)).
  cbn [GraphSignal.visited default]. unfold JsSet.has at 1.
  rewrite bool_decide_eq_true_2 by done.
  erewrite tryGetNext_loop_turn; last first.
  { apply tryGetNextInternal_depth_first; [reflexivity | apply rev_involutive]. }
  cbn [GraphSignal.visited default]. unfold JsSet.has at 1.
  rewrite bool_decide_eq_false_2 by done.
  eexists. split; [reflexivity|].
  cbn [GraphSignal.depth GraphSignal.branchCount GraphSignal.visited
       GraphSignal.set_visited].
  unfold JsSet.add, JsSet.has. rewrite bool_decide_eq_false_2 by done.
  split; [|split; [|done]].
  - cbn [length]. rewrite length_fmap. lia.
  - reflexivity.
Qed.
(** * The order in which [dismantle] detaches *)

Section CascadeFacts.
Context {Item : Type}.
Variable w : World Item.
Hypothesis Hw : well_linked w.

Lemma cut_off_valid ns st r :
  cut_off ns w st → is_Some (w_nodes w !! r) → is_Some (w_nodes st !! r).
Proof.
  intros (_ & _ & _ & _ & Hlen & _) Hr.
  apply lookup_lt_is_Some. rewrite Hlen. by apply lookup_lt_is_Some.
Qed.

Lemma cut_off_parent ns st x p :
  cut_off ns w st → parent_of st x = Some p → (x ∉ ns) ∧ parent_of w x = Some p.
Proof.
  intros (Hparent & _) Hp. rewrite Hparent in Hp.
  by destruct (decide (x ∈ ns)).
Qed.

(** Removing the link of a node to its parent cuts one more node off. *)
Lemma cut_off_unlinked ns x p st st1 :
  cut_off ns w st → parent_of st x = Some p → unlinked x p st st1 →
  cut_off (ns ++ [x]) w st1.
Proof.
  intros Hcut Hp Hun.
  destruct (cut_off_parent ns st x p Hcut Hp) as (Hx & Hpw).
  destruct Hcut as (Hparent & Hchildren & Hbrand & Hitem & Hlen & Harr & Hobj).
  destruct Hun as (Hparent' & Hchildren' & Hbrand' & Hitem' & Hlen' & Harr' & Hobj').
  destruct Hw as (Hlink & _).
  split; [|split; [|split; [|split; [|split; [|split]]]]]; try congruence.
  - intros r. rewrite Hparent'. destruct (decide (r = x)) as [->|Hne].
    + rewrite decide_True; [done|]. apply elem_of_app. right. by left.
    + rewrite Hparent. destruct (decide (r ∈ ns)) as [Hin|Hnin].
      * rewrite decide_True; [done|]. apply elem_of_app. by left.
      * rewrite decide_False; [done|].
        intros [?|Hr%list_elem_of_singleton]%elem_of_app; done.
  - intros r. rewrite Hchildren'. destruct (decide (r = p)) as [->|Hne].
    + rewrite Hchildren, list_filter_filter. apply list_filter_iff.
      intros c. rewrite elem_of_app, list_elem_of_singleton. tauto.
    + rewrite Hchildren. apply filter_agree.
      intros c Hc. rewrite elem_of_app, list_elem_of_singleton.
      split; [|tauto]. intros Hnin [Hin|Heq]; [done|]. subst c.
      apply Hlink in Hc. congruence.
Qed.

(** The turn of an unbranded node that is still linked: [detachSelf] cuts
    it off. *)
Lemma cut_turn ns x st :
  cut_off ns w st → x ∉ ns → is_Some (parent_of w x) → brand_of w x = None →
  ∃ st', Node.detachSelf x st = (Ok x, st') ∧ cut_off (ns ++ [x]) w st'.
Proof.
  intros Hcut Hx [p Hp] Hb.
  pose proof Hcut as (Hparent & Hchildren & Hbrand & _).
  destruct Hw as (Hlink & _).
  assert (parent_of st x = Some p) as Hp' by (by rewrite Hparent, decide_False).
  destruct (detachSelf_ok st x p) as (st' & E & Hun); [done|..].
  { by rewrite Hbrand. }
  { rewrite Hchildren. apply list_elem_of_filter. split; [done|]. by apply Hlink. }
  exists st'. split; [done|]. by apply (cut_off_unlinked ns x p st st').
Qed.

(** The turn of a branded node that is still linked: [detachSelf] throws
    and changes nothing. *)
Lemma cut_stop ns b st :
  cut_off ns w st → b ∉ ns → is_Some (parent_of w b) → is_Some (brand_of w b) →
  Node.detachSelf b st = (Throw branded_error, st).
Proof.
  intros (Hparent & _ & Hbrand & _) Hb Hp Hbr. apply detachSelf_branded.
  - by rewrite Hparent, decide_False.
  - by rewrite Hbrand.
Qed.

(** The loop over a listing stops at its first branded node, with the
    nodes before it cut off. *)
Lemma for_each_cut_to pre : ∀ ns st rest,
  cut_off ns w st → NoDup (ns ++ pre ++ rest) →
  (∀ x, x ∈ pre ++ rest → is_Some (parent_of w x)) →
  (∀ m, m ∈ pre → brand_of w m = None) →
  (rest = [] ∨ ∃ b post, rest = b :: post ∧ is_Some (brand_of w b)) →
  ∃ st', for_each (λ descendant, Node.detachSelf descendant;; mret tt)
           (pre ++ rest) st
         = (match rest with [] => Ok tt | _ => Throw branded_error end, st') ∧
         cut_off (ns ++ pre) w st'.
Proof.
  induction pre as [|x pre IH]; intros ns st rest Hcut Hnd Hparents Hpre Hrest.
  - rewrite app_nil_r. simpl in *.
    destruct Hrest as [->|(b & post & -> & Hb)]; [by exists st|].
    exists st. split; [|done]. simpl.
    apply bind_throw, bind_throw. apply (cut_stop ns); try done.
    + apply NoDup_app in Hnd as (_ & Hdisj & _). intros Hin.
      apply (Hdisj b Hin). by left.
    + apply Hparents. by left.
  - assert (x ∉ ns) as Hx.
    { apply NoDup_app in Hnd as (_ & Hdisj & _). intros Hin.
      apply (Hdisj x Hin). by left. }
    destruct (cut_turn ns x st Hcut Hx) as (st1 & E & Hcut1).
    { apply Hparents. by left. }
    { apply Hpre. by left. }
    destruct (IH (ns ++ [x]) st1 rest Hcut1) as (st' & E' & Hcut'); try done.
    { by rewrite <- app_assoc. }
    { intros y Hy. apply Hparents. by right. }
    { intros m Hm. apply Hpre. by right. }
    exists st'. split; [|by rewrite <- app_assoc in Hcut'].
    simpl. rewrite (bind_ok _ _ st tt st1); [done|].
    by rewrite (bind_ok _ _ _ _ _ E).
Qed.

(** Every node of a listing below linked nodes is linked. *)
Lemma listed_parent roots below :
  levels (children_of w) roots below →
  (∀ r, r ∈ roots → is_Some (parent_of w r)) →
  ∀ x, x ∈ below → is_Some (parent_of w x).
Proof.
  intros Hlevels Hroots x Hx. destruct Hw as (Hlink & _).
  apply list_elem_of_split in Hx as (pre & post & ->).
  destruct (levels_discovered _ _ _ Hlevels pre x post eq_refl) as [Hr|(q & _ & Hc)].
  - by apply Hroots.
  - exists q. by apply Hlink.
Qed.

(** The traversal of [dismantle], started from the children the node still
    has, is the plain loop over their listing. *)
Lemma for_descendants_cut ns n below st fuel :
  levels (children_of w) (filter (λ c, c ∉ ns) (children_of w n)) below →
  cut_off ns w st → NoDup (ns ++ below) →
  is_Some (w_nodes w !! n) → (length below < fuel)%nat →
  Node.for_descendants id n true BreadthFirst
    (λ descendant, Node.detachSelf descendant;; mret tt) fuel st
  = for_each (λ descendant, Node.detachSelf descendant;; mret tt) below st.
Proof.
  intros Hlevels Hcut Hnd Hvalid Hfuel.
  destruct (cut_off_valid ns st n Hcut Hvalid) as [rec En].
  unfold Node.for_descendants.
  rewrite (bind_ok _ _ st (filter (λ c, c ∉ ns) (children_of w n)) st); last first.
  { unfold Node.on_world. simpl.
    rewrite (bind_ok _ _ _ _ _ (read_ok _ _ _ En)). simpl.
    rewrite <- (children_of_lookup _ _ _ En).
    destruct Hcut as (_ & Hchildren & _). by rewrite Hchildren. }
  apply (for_of_levels (λ st : World Item, Node.next_children (id st))
           (children_of w) _
           (λ st rest, ∃ pre, below = pre ++ rest ∧ cut_off (ns ++ pre) w st));
    try done.
  - intros st0 x rest (pre & Hout & (_ & Hchildren & _)).
    change (children_of st0 x = children_of w x).
    rewrite Hchildren. apply filter_all. intros c Hc Hin.
    pose proof (levels_later _ _ _ Hlevels pre x rest c Hout Hc) as Hpost.
    rewrite Hout, app_assoc in Hnd. apply NoDup_app in Hnd as (_ & Hdisj & _).
    apply (Hdisj c Hin). by right.
  - intros st0 x rest st' (pre & Hout & Hcut0) E.
    destruct (detachSelf_cases st0 x) as [(e & Ee)|(p & Hp & Hb & Hc)].
    { by rewrite (bind_throw _ _ _ _ _ Ee) in E. }
    destruct (detachSelf_ok st0 x p Hp Hb Hc) as (st1 & E1 & Hun).
    rewrite (bind_ok _ _ _ _ _ E1) in E. injection E as <-.
    exists (pre ++ [x]). split; [by rewrite <- app_assoc|].
    rewrite app_assoc. by apply (cut_off_unlinked _ x p st0 st1).
  - exists []. split; [done|]. by rewrite app_nil_r.
Qed.

(** The loop over the descendants stops at the first branded one, with the
    nodes before it cut off. *)
Lemma descend_to ns n below st fuel pre rest :
  levels (children_of w) (filter (λ c, c ∉ ns) (children_of w n)) below →
  cut_off ns w st → NoDup (ns ++ below) →
  is_Some (w_nodes w !! n) → (length below < fuel)%nat →
  below = pre ++ rest →
  (∀ m, m ∈ pre → brand_of w m = None) →
  (rest = [] ∨ ∃ b post, rest = b :: post ∧ is_Some (brand_of w b)) →
  ∃ st', Node.for_descendants id n true BreadthFirst
           (λ descendant, Node.detachSelf descendant;; mret tt) fuel st
         = (match rest with [] => Ok tt | _ => Throw branded_error end, st') ∧
         cut_off (ns ++ pre) w st'.
Proof.
  intros Hlevels Hcut Hnd Hvalid Hfuel Hbelow Hpre Hrest.
  rewrite (for_descendants_cut ns n below st fuel); try done.
  rewrite Hbelow. apply for_each_cut_to; try done.
  - by rewrite <- Hbelow.
  - rewrite <- Hbelow. apply (listed_parent _ _ Hlevels).
    intros r Hr. apply list_elem_of_filter in Hr as (_ & Hr).
    exists n. by apply Hw.
Qed.

Lemma then_ret {A} (m : M (World Item) unit) (a : A) (rest : list nat) st st' :
  m st = (match rest with [] => Ok tt | _ => Throw branded_error end, st') →
  (m;; mret a) st = (match rest with [] => Ok a | _ => Throw branded_error end, st').
Proof.
  intros E. destruct rest.
  - by rewrite (bind_ok _ _ _ _ _ E).
  - by rewrite (bind_throw _ _ _ _ _ E).
Qed.

(** [dismantle] follows the order of [cascade]: it stops at the first
    branded node of the order, with the nodes before it cut off, and
    returns when there is none. *)
Lemma cascade_run done n includeAncestry order :
  cascade w done n includeAncestry order →
  ∀ st fuel pre rest,
    cut_off done w st → NoDup (done ++ order) →
    is_Some (w_nodes w !! n) → (S (length order) < fuel)%nat →
    order = pre ++ rest →
    (∀ m, m ∈ pre → brand_of w m = None) →
    (rest = [] ∨ ∃ b post, rest = b :: post ∧ is_Some (brand_of w b)) →
    ∃ st', Node.dismantle fuel n includeAncestry st
           = (match rest with [] => Ok n | _ => Throw branded_error end, st') ∧
           cut_off (done ++ pre) w st'.
Proof.
  induction 1 as [done n incl below Hroot Hlevels
                 |done n p above below Hp Hn Hup IH Hlevels];
    intros st fuel pre rest Hcut Hnd Hvalid Hfuel Horder Hpre Hrest.
  - destruct fuel as [|fuel]; [lia|].
    destruct (cut_off_valid done st n Hcut Hvalid) as [rec En].
    rewrite dismantle_S, (bind_ok _ _ _ _ _ (read_ok _ _ _ En)).
    rewrite (bind_ok _ _ st tt st); last first.
    { assert (parent_of st n = None ∨ incl = false) as Hr.
      { destruct Hcut as (Hparent & _). rewrite Hparent.
        destruct Hroot as [Hr|[Hr|Hr]]; [|left; by rewrite decide_True|by right].
        left. by destruct (decide (n ∈ done)). }
      rewrite (parent_of_lookup _ _ _ En) in Hr.
      destruct (f_parent rec); [|done]. by destruct Hr as [?| ->]. }
    destruct (descend_to done n below st fuel pre rest) as (st' & E & Hcut');
      try done; [lia|].
    exists st'. split; [|done]. by apply then_ret.
  - destruct fuel as [|fuel]; [lia|].
    destruct (cut_off_valid done st n Hcut Hvalid) as [rec En].
    assert (parent_of st n = Some p) as Hp'.
    { destruct Hcut as (Hparent & _). by rewrite Hparent, decide_False. }
    rewrite dismantle_S, (bind_ok _ _ _ _ _ (read_ok _ _ _ En)).
    rewrite (parent_of_lookup _ _ _ En) in Hp'. rewrite Hp'.
    assert (is_Some (w_nodes w !! p)) as Hpvalid.
    { destruct (w_nodes w !! p) eqn:Ep; [by eexists|].
      destruct Hw as (Hlink & _). apply Hlink in Hp.
      rewrite (children_of_invalid _ _ Ep) in Hp. by apply elem_of_nil in Hp. }
    simpl in Hfuel. rewrite length_app in Hfuel.
    destruct pre as [|x pre].
    { simpl in Horder. subst rest.
      destruct Hrest as [?|(b & post & [= <- <-] & Hb)]; [done|].
      exists st. split; [|by rewrite app_nil_r].
      apply bind_throw, bind_throw.
      apply (cut_stop done); first [done | by eexists]. }
    injection Horder as <- Horder.
    destruct (cut_turn done n st Hcut Hn) as (st1 & E1 & Hcut1); [by eexists|..].
    { apply Hpre. by left. }
    assert (NoDup ((done ++ [n]) ++ above)) as Hnd1.
    { assert (done ++ n :: above ++ below = ((done ++ [n]) ++ above) ++ below) as Eq
        by (by rewrite <- !app_assoc).
      rewrite Eq in Hnd. by apply NoDup_app in Hnd as (Hnd & _). }
    assert (NoDup ((done ++ n :: above) ++ below)) as Hnd2.
    { by rewrite <- app_assoc. }
    assert (∀ k, above ++ k = pre → below = k ++ rest →
            ∃ st', ((Node.detachSelf n;; Node.dismantle fuel p true;; mret tt);;
                    Node.for_descendants id n true BreadthFirst
                      (λ descendant, Node.detachSelf descendant;; mret tt) fuel;;
                    mret n) st
                   = (match rest with [] => Ok n | _ => Throw branded_error end, st') ∧
                   cut_off (done ++ n :: pre) w st') as Hbelow.
    { intros k <- Hk.
      destruct (IH st1 fuel above [] Hcut1 Hnd1 Hpvalid) as (st2 & E2 & Hcut2);
        [lia|by rewrite app_nil_r| |by left|].
      { intros m Hm. apply Hpre. right. apply elem_of_app. by left. }
      rewrite <- app_assoc in Hcut2. simpl in Hcut2.
      destruct (descend_to (done ++ n :: above) n below st2 fuel k rest)
        as (st' & E & Hcut'); try done.
      { lia. }
      { intros m Hm. apply Hpre. right. apply elem_of_app. by right. }
      exists st'. split.
      - rewrite (bind_ok _ _ st tt st2); [by apply then_ret|].
        rewrite (bind_ok _ _ _ _ _ E1). by rewrite (bind_ok _ _ _ _ _ E2).
      - rewrite <- app_assoc in Hcut'. exact Hcut'. }
    apply app_eq_app in Horder as [k [[Habove Hk]|[Hpre1 Hk]]].
    + destruct k as [|b k].
      { rewrite app_nil_r in Habove. subst above. simpl in Hk. subst rest.
        destruct (Hbelow [] (app_nil_r _) eq_refl) as (st' & E & Hcut').
        by exists st'. }
      destruct (IH st1 fuel pre (b :: k) Hcut1 Hnd1 Hpvalid) as (st2 & E2 & Hcut2);
        [lia|done| |..].
      { intros m Hm. apply Hpre. by right. }
      { right. exists b, k. split; [done|]. subst rest.
        by destruct Hrest as [?|(b' & post & [= <- <-] & Hb)]. }
      exists st2. split; [|by rewrite <- app_assoc in Hcut2].
      subst rest. simpl.
      apply bind_throw. rewrite (bind_ok _ _ _ _ _ E1).
      by apply bind_throw.
    + destruct (Hbelow k (eq_sym Hpre1) Hk) as (st' & E & Hcut'). by exists st'.
Qed.
End CascadeFacts.

Section BrandStructure.
Context {Item : Type}.

(** Putting a brand on a node changes no link. *)
Lemma write_brand_well_linked (w : World Item) r b :
  well_linked w → well_linked (write r (set_brand b) w).2.
Proof.
  intros (Hlink & Hnodup & Hne).
  split; [|split].
  - intros p c.
    rewrite children_of_write_keep, parent_of_write_keep by done. apply Hlink.
  - intros p. rewrite children_of_write_keep by done. apply Hnodup.
  - intros r' n. rewrite lookup_write.
    destruct (decide (r = r')) as [->|_]; [|apply Hne].
    destruct (w_nodes w !! r') as [n0|] eqn:E; [|done].
    simpl. intros [= <-]. simpl. by apply (Hne r' n0).
Qed.
End BrandStructure.

(** The claim C3 fails on the code: nothing is validated before the first
    mutation. In the scenario with [B] branded, [D.dismantle(true)] meets a
    branded node in the affected set (its parent [B]) and throws, but only
    after it has detached [D] from [B]; with no amount of fuel does it throw
    and leave the store unchanged. In the scenario with [C] branded,
    [A.dismantle(false)] meets the branded child [C] and throws, but only
    after it has detached the child [B] that comes before it; again with no
    amount of fuel does it throw and leave the store unchanged. *)
Lemma C3_dismantle_mutates_before_error :
  parent_of scenario_B_branded 3%nat = Some 1%nat ∧
  is_Some (brand_of scenario_B_branded 1%nat) ∧
  (∃ w', Node.dismantle 8 3%nat true scenario_B_branded = (Throw branded_error, w') ∧
     parent_of w' 3%nat = None ∧ children_of w' 1%nat = []) ∧
  (¬ ∃ fuel e,
       Node.dismantle fuel 3%nat true scenario_B_branded = (Throw e, scenario_B_branded)) ∧
  children_of scenario_C_branded 0%nat = [1; 2]%nat ∧
  parent_of scenario_C_branded 1%nat = Some 0%nat ∧
  brand_of scenario_C_branded 1%nat = None ∧
  is_Some (brand_of scenario_C_branded 2%nat) ∧
  (∃ w', Node.dismantle 8 0%nat false scenario_C_branded = (Throw branded_error, w') ∧
     parent_of w' 1%nat = None ∧ children_of w' 0%nat = [2%nat] ∧
     parent_of w' 2%nat = Some 0%nat ∧ parent_of w' 3%nat = Some 1%nat) ∧
  (¬ ∃ fuel e,
       Node.dismantle fuel 0%nat false scenario_C_branded = (Throw e, scenario_C_branded)).
Proof.
  split; [by vm_compute|]. split; [vm_compute; by eexists|]. split.
  { eexists. split; [by vm_compute|]. split; by vm_compute. }
  split.
  { intros ([|[|fuel]] & e & E); vm_compute in E; discriminate E. }
  split; [by vm_compute|]. split; [by vm_compute|]. split; [by vm_compute|].
  split; [vm_compute; by eexists|]. split.
  { eexists. split; [by vm_compute|]. repeat split; by vm_compute. }
  intros ([|[|[|fuel]]] & e & E); vm_compute in E; discriminate E.
Qed.

(** C3, as the code has it. [n.dismantle(includeAncestry)] validates nothing
    beforehand: it calls [detachSelf] on one node after the other, in the
    order of [cascade] (with a parent and [includeAncestry]: [n], then what
    the call on the parent gives, then the descendants of [n]; otherwise the
    descendants of [n], level by level), and stops at the first branded one.
    It throws the brand error and leaves the store unchanged when the first
    node it has to detach is branded: [n] itself when it has a parent and
    [includeAncestry] is set, otherwise the first child of [n]. On a
    well-linked store, a branded node met later in the order is reported with
    exactly the nodes before it cut from their parents; with no branded node
    in the order the call returns [n] with all of them cut off. Whatever the
    outcome, the call has only removed links. *)
Theorem C3_dismantle_aborts_at_first_branded_node {Item} (w : World Item) (n : nat) :
  (∀ fuel,
     is_Some (parent_of w n) → is_Some (brand_of w n) →
     Node.dismantle (S fuel) n true w = (Throw branded_error, w)) ∧
  (∀ fuel includeAncestry c rest,
     is_Some (w_nodes w !! n) →
     parent_of w n = None ∨ includeAncestry = false →
     children_of w n = c :: rest →
     is_Some (parent_of w c) → is_Some (brand_of w c) →
     Node.dismantle (S (S fuel)) n includeAncestry w = (Throw branded_error, w)) ∧
  (∀ fuel includeAncestry order pre b post,
     well_linked w → is_Some (w_nodes w !! n) →
     cascade w [] n includeAncestry order → NoDup order →
     order = pre ++ b :: post →
     (∀ m, m ∈ pre → brand_of w m = None) → is_Some (brand_of w b) →
     (S (length order) < fuel)%nat →
     ∃ w', Node.dismantle fuel n includeAncestry w = (Throw branded_error, w') ∧
           cut_off pre w w') ∧
  (∀ fuel includeAncestry order,
     well_linked w → is_Some (w_nodes w !! n) →
     cascade w [] n includeAncestry order → NoDup order →
     (∀ m, m ∈ order → brand_of w m = None) →
     (S (length order) < fuel)%nat →
     ∃ w', Node.dismantle fuel n includeAncestry w = (Ok n, w') ∧
           cut_off order w w') ∧
  (∀ fuel includeAncestry o w',
     Node.dismantle fuel n includeAncestry w = (o, w') → only_unlinks w w').
Proof.
  split; [|split; [|split; [|split]]].
  - intros fuel Hp Hb. pose proof (detachSelf_branded w n Hp Hb) as Hd.
    unfold parent_of in Hp. destruct Hp as [p Hp].
    destruct (w_nodes w !! n) as [rec|] eqn:En; [|done]. simpl in Hp.
    rewrite dismantle_S, (bind_ok _ _ _ _ _ (read_ok _ _ _ En)), Hp.
    erewrite bind_throw; [done|]. by apply bind_throw.
  - intros fuel incl c rest [rec En] Hroot Hc Hp Hb.
    pose proof (detachSelf_branded w c Hp Hb) as Hd.
    rewrite dismantle_S, (bind_ok _ _ _ _ _ (read_ok _ _ _ En)).
    erewrite bind_ok; last first.
    { instantiate (1 := w). instantiate (1 := tt).
      destruct Hroot as [Hroot| ->].
      - unfold parent_of in Hroot. rewrite En in Hroot. simpl in Hroot.
        by rewrite Hroot.
      - by destruct (f_parent rec). }
    unfold Node.for_descendants.
    erewrite bind_throw; [done|].
    erewrite bind_ok; last first.
    { unfold Node.on_world. cbn [id].
      by rewrite (bind_ok _ _ _ _ _ (read_ok _ _ _ En)). }
    assert (Node.children_list rec = c :: rest) as ->.
    { rewrite <- Hc. unfold children_of, Node.children_list. rewrite En. simpl.
      by destruct (f_children rec). }
    unfold TraverseGraph.for_of. cbn.
    by rewrite (bind_throw _ _ _ _ _ Hd).
  - intros fuel incl order pre b post Hw Hvalid Hcascade Hnd Horder Hpre Hb Hfuel.
    destruct (cascade_run w Hw [] n incl order Hcascade w fuel pre (b :: post))
      as (w' & E & Hcut); try done.
    + apply cut_off_nil.
    + right. by exists b, post.
    + by exists w'.
  - intros fuel incl order Hw Hvalid Hcascade Hnd Hfree Hfuel.
    destruct (cascade_run w Hw [] n incl order Hcascade w fuel order [])
      as (w' & E & Hcut); try done.
    + apply cut_off_nil.
    + by rewrite app_nil_r.
    + by left.
    + by exists w'.
  - intros fuel incl o w'. apply dismantle_only_unlinks.
Qed.
(** * The further properties at work on the scenarios *)

(** Splits a membership in a list that is given in full into its cases. *)
Ltac each_member H :=
  rewrite ?elem_of_cons, ?elem_of_nil in H;
  repeat (destruct H as [H|H]); try (exfalso; exact H); subst.

(** Decides a closed decidable proposition by evaluation. *)
Ltac by_evaluation :=
  lazymatch goal with
  | |- ?P => apply (bool_decide_unpack P); vm_compute; exact I
  end.

(** The nodes of the scenario, made step by step. *)
Lemma scenario_assembled_steps :
  scenario_assembled.2 =
    (Node.attach 1%nat [3%nat]
       (Node.constructor "D"
          (Node.attach 0%nat [2%nat]
             (Node.constructor "C"
                (Node.attach 0%nat [1%nat]
                   (Node.constructor "B"
                      (Node.constructor "A" (mkWorld [] [] 0)).2).2).2).2).2).2).2.
Proof. vm_compute. reflexivity. Qed.

Lemma scenario_assembled_well_linked : well_linked scenario_assembled.2.
Proof.
  rewrite scenario_assembled_steps.
  eapply attach_well_linked; [|apply surjective_pairing].
  apply well_linked_constructor.
  eapply attach_well_linked; [|apply surjective_pairing].
  apply well_linked_constructor.
  eapply attach_well_linked; [|apply surjective_pairing].
  do 2 apply well_linked_constructor. apply well_linked_empty.
Qed.

Lemma two_nodes_well_linked : well_linked two_nodes.
Proof. do 2 apply well_linked_constructor. apply well_linked_empty. Qed.

(** [A.detach(D)] in the scenario: [D] is no child of [A]. *)
Lemma detach_validates_scenario :
  ([3%nat] = [] ∨
   (∃ c, c ∈ [3%nat] ∧ c ∉ children_of scenario_assembled.2 0%nat) ∨
   (∃ c, c ∈ [3%nat] ∧ is_Some (brand_of scenario_assembled.2 c))) ∧
  ∃ e, Node.detach 0%nat [3%nat] scenario_assembled.2 = (Throw e, scenario_assembled.2).
Proof.
  assert (∃ c, c ∈ [3%nat] ∧ c ∉ children_of scenario_assembled.2 0%nat) as H.
  { exists 3%nat. split; [by left | by_evaluation]. }
  split; [right; left; exact H|].
  exact (detach_validates_before_mutating scenario_assembled.2 0%nat [3%nat]
           (or_intror (or_introl H))).
Defined.

(** [A.detach([B, C])] in the scenario. *)
Lemma detach_unlinks_scenario :
  [1; 2]%nat ≠ [] ∧
  (∀ c, c ∈ [1; 2]%nat → c ∈ children_of scenario_assembled.2 0%nat) ∧
  (∀ c, c ∈ [1; 2]%nat →
     is_Some (w_nodes scenario_assembled.2 !! c) ∧ brand_of scenario_assembled.2 c = None) ∧
  ∃ w', Node.detach 0%nat [1; 2]%nat scenario_assembled.2 = (Ok 0%nat, w') ∧
    unlinked_all [1; 2]%nat 0%nat scenario_assembled.2 w' ∧
    (children_of w' 0%nat = [] → ∃ n, w_nodes w' !! 0%nat = Some n ∧ f_children n = None).
Proof.
  assert ([1; 2]%nat ≠ []) as Hne by discriminate.
  assert (∀ c, c ∈ [1; 2]%nat → c ∈ children_of scenario_assembled.2 0%nat) as Hin.
  { intros c Hc. each_member Hc; by_evaluation. }
  assert (∀ c, c ∈ [1; 2]%nat →
     is_Some (w_nodes scenario_assembled.2 !! c) ∧ brand_of scenario_assembled.2 c = None)
    as Hfree.
  { intros c Hc. each_member Hc; (split; [vm_compute; by eexists | reflexivity]). }
  split; [exact Hne|]. split; [exact Hin|]. split; [exact Hfree|].
  exact (detach_unlinks_the_children scenario_assembled.2 0%nat [1; 2]%nat Hne Hin Hfree).
Defined.

(** [D.detachSelf()] and [B.detach(D)] in the scenario. *)
Lemma detachSelf_is_detach_scenario :
  parent_of scenario_assembled.2 3%nat = Some 1%nat ∧
  brand_of scenario_assembled.2 3%nat = None ∧
  3%nat ∈ children_of scenario_assembled.2 1%nat ∧
  ∃ w', Node.detachSelf 3%nat scenario_assembled.2 = (Ok 3%nat, w') ∧
        Node.detach 1%nat [3%nat] scenario_assembled.2 = (Ok 1%nat, w').
Proof.
  assert (3%nat ∈ children_of scenario_assembled.2 1%nat) as Hin by by_evaluation.
  split; [reflexivity|]. split; [reflexivity|]. split; [exact Hin|].
  exact (detachSelf_is_detach_by_the_parent scenario_assembled.2 3%nat 1%nat
           eq_refl eq_refl Hin).
Defined.

(** Branding [B] again where it is branded. *)
Lemma brand_refuses_scenario :
  (Some (mkOwner 9 None) = None ∨ is_Some (brand_of scenario_B_branded 1%nat)) ∧
  ∃ e, Node.brand 1%nat (Some (mkOwner 9 None)) scenario_B_branded
       = (Throw (Error e), scenario_B_branded).
Proof.
  assert (is_Some (brand_of scenario_B_branded 1%nat)) as Hb
    by (vm_compute; by eexists).
  split; [right; exact Hb|].
  exact (brand_refuses_undefined_and_rebranding scenario_B_branded 1%nat
           (Some (mkOwner 9 None)) (or_intror Hb)).
Defined.

(** Branding [X] and releasing it. *)
Lemma brand_then_release_two_nodes :
  is_Some (w_nodes two_nodes !! 0%nat) ∧ brand_of two_nodes 0%nat = None ∧
  ∃ release w1,
    Node.brand 0%nat (Some (mkOwner 7 None)) two_nodes = (Ok release, w1) ∧
    brand_of w1 0%nat = Some (mkOwner 7 None) ∧
    Node.isBranded 0%nat w1 = (Ok true, w1) ∧
    Node.call_DeBrand release w1 = (Ok tt, two_nodes) ∧
    Node.isBranded 0%nat two_nodes = (Ok false, two_nodes).
Proof.
  assert (is_Some (w_nodes two_nodes !! 0%nat)) as H0 by (vm_compute; by eexists).
  split; [exact H0|]. split; [reflexivity|].
  exact (brand_then_release_restores_the_store two_nodes 0%nat (mkOwner 7 None)
           H0 eq_refl).
Defined.

(** [X] and [Y], both unbranded, are compatible. *)
Lemma isBrandCompatible_two_nodes :
  w_nodes two_nodes !! 0%nat = Some (mkNode "X" None None None) ∧
  w_nodes two_nodes !! 1%nat = Some (mkNode "Y" None None None) ∧
  Node.isBrandCompatible 0%nat 1%nat two_nodes = (Ok true, two_nodes).
Proof.
  split; [reflexivity|]. split; [reflexivity|].
  apply (proj1 (isBrandCompatible_answers two_nodes 0%nat 1%nat
                  (mkNode "X" None None None) (mkNode "Y" None None None)
                  eq_refl eq_refl)).
  left. split; reflexivity.
Defined.

(** [X.attach(Y)]. *)
Lemma attach_links_two_nodes :
  [1%nat] ≠ [] ∧
  (∀ c, c ∈ [1%nat] → is_Some (w_nodes two_nodes !! c) ∧ parent_of two_nodes c = None) ∧
  (∀ c, c ∈ [1%nat] → Node.isBrandCompatible c 0%nat two_nodes = (Ok true, two_nodes)) ∧
  ∃ w', Node.attach 0%nat [1%nat] two_nodes = (Ok 0%nat, w') ∧
        linked_all [1%nat] 0%nat two_nodes w'.
Proof.
  assert ([1%nat] ≠ []) as Hne by discriminate.
  assert (∀ c, c ∈ [1%nat] →
            is_Some (w_nodes two_nodes !! c) ∧ parent_of two_nodes c = None) as Hroots.
  { intros c Hc. each_member Hc. split; [vm_compute; by eexists | reflexivity]. }
  assert (∀ c, c ∈ [1%nat] →
            Node.isBrandCompatible c 0%nat two_nodes = (Ok true, two_nodes)) as Hcompat.
  { intros c Hc. each_member Hc. reflexivity. }
  split; [exact Hne|]. split; [exact Hroots|]. split; [exact Hcompat|].
  exact (attach_links_the_children two_nodes 0%nat [1%nat] Hne Hroots Hcompat).
Defined.

(** The nodes of the scenario keep the invariant under [B.dismantle(true)]. *)
Lemma link_operations_scenario :
  well_linked scenario_assembled.2 ∧
  well_linked (Node.dismantle 8 1%nat true scenario_assembled.2).2.
Proof.
  split; [exact scenario_assembled_well_linked|].
  exact (proj2 (proj2 (proj2 (proj2
           (link_operations_keep_the_structure scenario_assembled.2
              scenario_assembled_well_linked))))
           8%nat 1%nat true _ _ (surjective_pairing _)).
Defined.

(** [D.attach(A)] in the scenario closes the cycle [A, B, D]. *)
Lemma attach_ancestor_scenario :
  is_Some (w_nodes scenario_assembled.2 !! 0%nat) ∧
  parent_of scenario_assembled.2 0%nat = None ∧
  brand_of scenario_assembled.2 0%nat = None ∧
  brand_of scenario_assembled.2 3%nat = None ∧
  ancestry scenario_assembled.2 (Some 3%nat) [3; 1; 0]%nat ∧
  0%nat ∈ [3; 1; 0]%nat ∧
  ∃ w', Node.attach 3%nat [0%nat] scenario_assembled.2 = (Ok 3%nat, w') ∧
    parent_of w' 0%nat = Some 3%nat ∧
    ∀ fuel, Node.getAncestors 0%nat false fuel w' = (OutOfFuel, w').
Proof.
  assert (is_Some (w_nodes scenario_assembled.2 !! 0%nat)) as H0
    by (vm_compute; by eexists).
  assert (ancestry scenario_assembled.2 (Some 3%nat) [3; 1; 0]%nat) as Hchain
    by walk_chain.
  assert (0%nat ∈ [3; 1; 0]%nat) as Hin by by_evaluation.
  split; [exact H0|]. do 3 (split; [reflexivity|]).
  split; [exact Hchain|]. split; [exact Hin|].
  exact (attach_accepts_an_ancestor_as_child scenario_assembled.2 0%nat 3%nat
           [3; 1; 0]%nat H0 eq_refl eq_refl eq_refl Hchain Hin).
Defined.

(** Checks a given breadth-first listing with depths and ranks of a graph
    that is given in full. *)
Ltac walk_levels_from :=
  lazymatch goal with
  | |- levels_from _ _ _ [] [] => apply levels_from_end
  | |- levels_from ?nx ?d ?k ?lv ?out =>
      let rest := eval vm_compute in (drop (length lv) out) in
      change (levels_from nx d k lv (numbered d k lv ++ rest));
      apply levels_from_more; [done|];
      let below := eval vm_compute in (lv ≫= nx) in
      change (lv ≫= nx) with below;
      let d' := eval vm_compute in (d + 1) in
      change (d + 1) with d';
      let k' := eval vm_compute in (k + Z.of_nat (length lv)) in
      change (k + Z.of_nat (length lv)) with k';
      walk_levels_from
  end.

(** [attachRoot([A])] on the new hierarchy of the scenario. *)
Lemma attachRoot_takes_in_scenario :
  (∀ r, r ∈ [0%nat] → parent_of scenario_created.2 r = None) ∧
  levels (children_of scenario_created.2) [0%nat] [0; 1; 2; 3]%nat ∧
  NoDup [0; 1; 2; 3]%nat ∧
  (∀ n, n ∈ [0; 1; 2; 3]%nat →
     brand_of scenario_created.2 n = None ∧ is_Some (item_of scenario_created.2 n)) ∧
  (length [0; 1; 2; 3]%nat < 8)%nat ∧
  ∃ h' w1,
    Hierarchy.attachRoot [0%nat] 8
      (Hierarchy.mk 0 (λ id : string, id) 0 [] [], scenario_created.2)
    = (Ok tt, (h', array_mutate 0 (array_contents scenario_created.2 0 ++ [0%nat]) w1)) ∧
    indexed [0; 1; 2; 3]%nat
      (Hierarchy.mk 0 (λ id : string, id) 0 [] [], scenario_created.2) (h', w1).
Proof.
  assert (∀ r, r ∈ [0%nat] → parent_of scenario_created.2 r = None) as Hroots.
  { intros r Hr. each_member Hr. reflexivity. }
  assert (levels (children_of scenario_created.2) [0%nat] [0; 1; 2; 3]%nat) as Hlevels
    by walk_levels.
  assert (NoDup [0; 1; 2; 3]%nat) as Hnd by by_evaluation.
  assert (∀ n, n ∈ [0; 1; 2; 3]%nat →
     brand_of scenario_created.2 n = None ∧ is_Some (item_of scenario_created.2 n))
    as Hfree.
  { intros n Hn. each_member Hn; (split; [reflexivity | vm_compute; by eexists]). }
  assert (length [0; 1; 2; 3]%nat < 8)%nat as Hfuel by (simpl; lia).
  split; [exact Hroots|]. split; [exact Hlevels|]. split; [exact Hnd|].
  split; [exact Hfree|]. split; [exact Hfuel|].
  exact (attachRoot_takes_in_the_trees (Hierarchy.mk 0 (λ id : string, id) 0 [] [])
           scenario_created.2 [0%nat] [0; 1; 2; 3]%nat 8%nat
           Hroots Hlevels Hnd Hfree Hfuel).
Defined.

(** After it [getNode("D")] is the node [D], and [getNode("Z")] throws. *)
Lemma attachRoot_then_getNode_scenario :
  (∀ r, r ∈ [0%nat] → parent_of scenario_created.2 r = None) ∧
  levels (children_of scenario_created.2) [0%nat] [0; 1; 2; 3]%nat ∧
  NoDup [0; 1; 2; 3]%nat ∧
  (∀ n, n ∈ [0; 1; 2; 3]%nat →
     brand_of scenario_created.2 n = None ∧ is_Some (item_of scenario_created.2 n)) ∧
  (length [0; 1; 2; 3]%nat < 8)%nat ∧
  ∃ st',
    Hierarchy.attachRoot [0%nat] 8
      (Hierarchy.mk 0 (λ id : string, id) 0 [] [], scenario_created.2) = (Ok tt, st') ∧
    Hierarchy.getNode "D" st' = (Ok 3%nat, st') ∧
    Hierarchy.get "D" st' = (Ok "D", st') ∧
    Hierarchy.getNode "Z" st'
    = (Throw (Error "The 'id' must be a hierarchy member."), st').
Proof.
  assert (∀ r, r ∈ [0%nat] → parent_of scenario_created.2 r = None) as Hroots.
  { intros r Hr. each_member Hr. reflexivity. }
  assert (levels (children_of scenario_created.2) [0%nat] [0; 1; 2; 3]%nat) as Hlevels
    by walk_levels.
  assert (NoDup [0; 1; 2; 3]%nat) as Hnd by by_evaluation.
  assert (∀ n, n ∈ [0; 1; 2; 3]%nat →
     brand_of scenario_created.2 n = None ∧ is_Some (item_of scenario_created.2 n))
    as Hfree.
  { intros n Hn. each_member Hn; (split; [reflexivity | vm_compute; by eexists]). }
  assert (length [0; 1; 2; 3]%nat < 8)%nat as Hfuel by (simpl; lia).
  split; [exact Hroots|]. split; [exact Hlevels|]. split; [exact Hnd|].
  split; [exact Hfree|]. split; [exact Hfuel|].
  destruct (attachRoot_then_getNode (Hierarchy.mk 0 (λ id : string, id) 0 [] [])
              scenario_created.2 [0%nat] [0; 1; 2; 3]%nat 8%nat
              Hroots Hlevels Hnd Hfree Hfuel) as (st' & E & Hfound & Hmissing).
  exists st'. split; [exact E|].
  destruct (Hfound 3%nat "D") as [Hnode Hitem].
  - by_evaluation.
  - reflexivity.
  - intros m Hm. each_member Hm; intros Hid;
      first [reflexivity | vm_compute in Hid; congruence].
  - split; [exact Hnode|]. split; [exact Hitem|].
    apply Hmissing; [|reflexivity].
    intros m Hm. each_member Hm; vm_compute; congruence.
Defined.

(** With [B] branded, [attachRoot([A])] stops at [B]; [A] stays branded and
    indexed. *)
Lemma attachRoot_stops_scenario :
  (∀ r, r ∈ [0%nat] → parent_of scenario_B_branded r = None) ∧
  levels (children_of scenario_B_branded) [0%nat] ([0%nat] ++ 1%nat :: [2; 3]%nat) ∧
  NoDup [0%nat] ∧
  (∀ n, n ∈ [0%nat] →
     brand_of scenario_B_branded n = None ∧ is_Some (item_of scenario_B_branded n)) ∧
  is_Some (item_of scenario_B_branded 1%nat) ∧
  (is_Some (brand_of scenario_B_branded 1%nat) ∨ 1%nat ∈ [0%nat]) ∧
  (∀ r, r ∈ [0%nat] → is_Some (item_of scenario_B_branded r)) ∧
  (length ([0%nat] ++ 1%nat :: [2; 3]%nat) < 8)%nat ∧
  ∃ st',
    Hierarchy.attachRoot [0%nat] 8
      (Hierarchy.mk 0 (λ id : string, id) 0 [] [], scenario_B_branded)
    = (Throw rebrand_error, st') ∧
    indexed [0%nat] (Hierarchy.mk 0 (λ id : string, id) 0 [] [], scenario_B_branded) st'.
Proof.
  assert (∀ r, r ∈ [0%nat] → parent_of scenario_B_branded r = None) as Hroots.
  { intros r Hr. each_member Hr. reflexivity. }
  assert (levels (children_of scenario_B_branded) [0%nat]
            ([0%nat] ++ 1%nat :: [2; 3]%nat)) as Hlevels.
  { change ([0%nat] ++ 1%nat :: [2; 3]%nat) with [0; 1; 2; 3]%nat. walk_levels. }
  assert (NoDup [0%nat]) as Hnd by by_evaluation.
  assert (∀ n, n ∈ [0%nat] →
     brand_of scenario_B_branded n = None ∧ is_Some (item_of scenario_B_branded n))
    as Hfree.
  { intros n Hn. each_member Hn. split; [reflexivity | vm_compute; by eexists]. }
  assert (is_Some (item_of scenario_B_branded 1%nat)) as Hitem
    by (vm_compute; by eexists).
  assert (is_Some (brand_of scenario_B_branded 1%nat)) as Hbrand
    by (vm_compute; by eexists).
  assert (∀ r, r ∈ [0%nat] → is_Some (item_of scenario_B_branded r)) as Hitems.
  { intros r Hr. each_member Hr. vm_compute. by eexists. }
  assert (length ([0%nat] ++ 1%nat :: [2; 3]%nat) < 8)%nat as Hfuel by (simpl; lia).
  split; [exact Hroots|]. split; [exact Hlevels|]. split; [exact Hnd|].
  split; [exact Hfree|]. split; [exact Hitem|]. split; [left; exact Hbrand|].
  split; [exact Hitems|]. split; [exact Hfuel|].
  exact (attachRoot_stops_at_a_branded_node (Hierarchy.mk 0 (λ id : string, id) 0 [] [])
           scenario_B_branded [0%nat] [0%nat] [2; 3]%nat 1%nat 8%nat
           Hroots Hlevels Hnd Hfree Hitem (or_introl Hbrand) Hitems Hfuel).
Defined.

(** [A.dismantle(true)] in the scenario takes [B], [C] and [D] apart. *)
Lemma dismantle_scenario :
  well_linked scenario_assembled.2 ∧
  is_Some (w_nodes scenario_assembled.2 !! 0%nat) ∧
  (parent_of scenario_assembled.2 0%nat = None ∨ true = false) ∧
  levels (children_of scenario_assembled.2) (children_of scenario_assembled.2 0%nat)
    [1; 2; 3]%nat ∧
  NoDup [1; 2; 3]%nat ∧
  (∀ n, n ∈ [1; 2; 3]%nat → brand_of scenario_assembled.2 n = None) ∧
  (S (length [1; 2; 3]%nat) < 8)%nat ∧
  ∃ w', Node.dismantle 8 0%nat true scenario_assembled.2 = (Ok 0%nat, w') ∧
        cut_off [1; 2; 3]%nat scenario_assembled.2 w' ∧
        (∀ r, r = 0%nat ∨ r ∈ [1; 2; 3]%nat → child_set_of w' r = None).
Proof.
  assert (is_Some (w_nodes scenario_assembled.2 !! 0%nat)) as H0
    by (vm_compute; by eexists).
  assert (levels (children_of scenario_assembled.2)
            (children_of scenario_assembled.2 0%nat) [1; 2; 3]%nat) as Hlevels.
  { change (children_of scenario_assembled.2 0%nat) with [1; 2]%nat. walk_levels. }
  assert (NoDup [1; 2; 3]%nat) as Hnd by by_evaluation.
  assert (∀ n, n ∈ [1; 2; 3]%nat → brand_of scenario_assembled.2 n = None) as Hfree.
  { intros n Hn. each_member Hn; reflexivity. }
  assert (S (length [1; 2; 3]%nat) < 8)%nat as Hfuel by (simpl; lia).
  split; [exact scenario_assembled_well_linked|]. split; [exact H0|].
  split; [left; reflexivity|]. split; [exact Hlevels|]. split; [exact Hnd|].
  split; [exact Hfree|]. split; [exact Hfuel|].
  exact (dismantle_takes_the_tree_apart scenario_assembled.2 0%nat [1; 2; 3]%nat true
           8%nat scenario_assembled_well_linked H0 (or_introl eq_refl) Hlevels Hnd
           Hfree Hfuel).
Defined.

(** Depths and counts in the scenario, breadth-first: [A] 0, [B] and [C] 1,
    [D] 2. *)
Lemma breadth_first_depth_scenario :
  levels_from (children_of scenario_assembled.2) 0 0 [0%nat]
    [(0%nat, 0, 0); (1%nat, 1, 1); (2%nat, 1, 2); (3%nat, 2, 3)] ∧
  (length [(0%nat, 0, 0); (1%nat, 1, 1); (2%nat, 1, 2); (3%nat, 2, 3)] < 8)%nat ∧
  observed (children_of scenario_assembled.2) 8
    (GraphSignal.constructor [0%nat] false BreadthFirst)
  = Ok [(0%nat, 0, 0); (1%nat, 1, 1); (2%nat, 1, 2); (3%nat, 2, 3)].
Proof.
  assert (levels_from (children_of scenario_assembled.2) 0 0 [0%nat]
            [(0%nat, 0, 0); (1%nat, 1, 1); (2%nat, 1, 2); (3%nat, 2, 3)]) as Hlevels
    by walk_levels_from.
  assert (length [(0%nat, 0, 0); (1%nat, 1, 1); (2%nat, 1, 2); (3%nat, 2, 3)] < 8)%nat
    as Hfuel by (simpl; lia).
  split; [exact Hlevels|]. split; [exact Hfuel|].
  exact (breadth_first_depth_and_count (children_of scenario_assembled.2) [0%nat]
           _ 8%nat Hlevels Hfuel).
Defined.

(** Depth-first: [A] 0, [C] 1, [B] 1, [D] 2. *)
Lemma depth_first_depth_scenario :
  branches_from (children_of scenario_assembled.2) 0 (rev [0%nat])
    [(0%nat, 0); (2%nat, 1); (1%nat, 1); (3%nat, 2)] ∧
  (length [(0%nat, 0); (2%nat, 1); (1%nat, 1); (3%nat, 2)] < 8)%nat ∧
  observed (children_of scenario_assembled.2) 8
    (GraphSignal.constructor [0%nat] false DepthFirst)
  = Ok [(0%nat, 0, 0); (2%nat, 1, 1); (1%nat, 1, 2); (3%nat, 2, 3)].
Proof.
  assert (branches_from (children_of scenario_assembled.2) 0 (rev [0%nat])
            [(0%nat, 0); (2%nat, 1); (1%nat, 1); (3%nat, 2)]) as Hbranches.
  { apply (branches_from_cons _ 0 0%nat []
             [(0%nat, 0); (2%nat, 1); (1%nat, 1); (3%nat, 2)] []);
      [|apply branches_from_nil].
    apply branch_from_node.
    change (rev (children_of scenario_assembled.2 0%nat)) with [2; 1]%nat.
    apply (branches_from_cons _ (0 + 1) 2%nat [1%nat] [(2%nat, 1)]
             [(1%nat, 1); (3%nat, 2)]).
    { apply branch_from_node. apply branches_from_nil. }
    apply (branches_from_cons _ (0 + 1) 1%nat [] [(1%nat, 1); (3%nat, 2)] []);
      [|apply branches_from_nil].
    apply (branch_from_node _ (0 + 1) 1%nat [(3%nat, 2)]).
    change (rev (children_of scenario_assembled.2 1%nat)) with [3%nat].
    apply (branches_from_cons _ (0 + 1 + 1) 3%nat [] [(3%nat, 2)] []);
      [|apply branches_from_nil].
    apply (branch_from_node _ (0 + 1 + 1) 3%nat []). apply branches_from_nil. }
  assert (length [(0%nat, 0); (2%nat, 1); (1%nat, 1); (3%nat, 2)] < 8)%nat
    as Hfuel by (simpl; lia).
  split; [exact Hbranches|]. split; [exact Hfuel|].
  exact (depth_first_depth_and_count (children_of scenario_assembled.2) [0%nat]
           _ 8%nat Hbranches Hfuel).
Defined.

(** Adding [X] and [Y] to the children of [A] in the child map of the
    scenario and removing them again. *)
Lemma MultiMap_add_then_remove_scenario :
  JsMap.get scenario_childMap "A" ≠ Some [] ∧
  NoDup ["X"; "Y"] ∧
  (∀ v, v ∈ ["X"; "Y"] → v ∉ default [] (JsMap.get scenario_childMap "A")) ∧
  MultiMap.remove "A" ["X"; "Y"] (MultiMap.add "A" ["X"; "Y"] scenario_childMap).2
  = (["X"; "Y"], scenario_childMap).
Proof.
  assert (JsMap.get scenario_childMap "A" ≠ Some []) as Hne by (vm_compute; congruence).
  assert (NoDup ["X"; "Y"]) as Hnd by by_evaluation.
  assert (∀ v, v ∈ ["X"; "Y"] → v ∉ default [] (JsMap.get scenario_childMap "A"))
    as Hfresh.
  { intros v Hv. each_member Hv; by_evaluation. }
  split; [exact Hne|]. split; [exact Hnd|]. split; [exact Hfresh|].
  exact (MultiMap_add_then_remove "A" ["X"; "Y"] scenario_childMap Hne Hnd Hfresh).
Defined.

(** The child map of the scenario, to relations and back. *)
Lemma Relations_round_trip_scenario :
  NoDup (JsMap.keys scenario_childMap) ∧
  (∀ p cs, (p, cs) ∈ scenario_childMap → cs ≠ [] ∧ NoDup cs) ∧
  Relations.fromChildMap scenario_childMap = [("A", "B"); ("A", "C"); ("B", "D")] ∧
  Relations.toChildMap (Relations.fromChildMap scenario_childMap) = scenario_childMap.
Proof.
  assert (NoDup (JsMap.keys scenario_childMap)) as Hnd by by_evaluation.
  assert (∀ p cs, (p, cs) ∈ scenario_childMap → cs ≠ [] ∧ NoDup cs) as Hsets.
  { intros p cs Hin.
    change scenario_childMap with [("A", ["B"; "C"]); ("B", ["D"])] in Hin.
    each_member Hin; injection Hin as -> ->; (split; [discriminate | by_evaluation]). }
  split; [exact Hnd|]. split; [exact Hsets|]. split; [reflexivity|].
  exact (Relations_round_trip scenario_childMap Hnd Hsets).
Defined.

(** Skipping [B] in the scenario: [D], below it, is still yielded. *)
Lemma skip_hides_scenario :
  levels (children_of scenario_assembled.2) [0%nat] [0; 1; 2; 3]%nat ∧
  (length [0; 1; 2; 3]%nat < 8)%nat ∧
  TraverseGraph.for_of [0%nat] false BreadthFirst
    (steering_callback (children_of scenario_assembled.2)
       (λ n, bool_decide (n = 1%nat)) (λ _, false))
    (λ n, modify (λ acc, acc ++ [n])) 8 []
  = (Ok tt, [0; 2; 3]%nat).
Proof.
  assert (levels (children_of scenario_assembled.2) [0%nat] [0; 1; 2; 3]%nat) as Hlevels
    by walk_levels.
  assert (length [0; 1; 2; 3]%nat < 8)%nat as Hfuel by (simpl; lia).
  split; [exact Hlevels|]. split; [exact Hfuel|].
  exact (skip_hides_the_node_only (children_of scenario_assembled.2)
           (λ n, bool_decide (n = 1%nat)) [0%nat] [0; 1; 2; 3]%nat BreadthFirst
           8%nat [] Hlevels Hfuel).
Defined.

(** Ending at [C] in the scenario: [D] is not reached. *)
Lemma end_stops_scenario :
  levels (children_of scenario_assembled.2) [0%nat] ([0; 1]%nat ++ 2%nat :: [3%nat]) ∧
  (∀ n, n ∈ [0; 1]%nat → bool_decide (n = 2%nat) = false) ∧
  bool_decide (2%nat = 2%nat) = true ∧
  (length ([0; 1]%nat ++ [2%nat]) < 8)%nat ∧
  TraverseGraph.for_of [0%nat] false BreadthFirst
    (steering_callback (children_of scenario_assembled.2)
       (λ _, false) (λ n, bool_decide (n = 2%nat)))
    (λ n, modify (λ acc, acc ++ [n])) 8 []
  = (Ok tt, [0; 1; 2]%nat).
Proof.
  assert (levels (children_of scenario_assembled.2) [0%nat]
            ([0; 1]%nat ++ 2%nat :: [3%nat])) as Hlevels.
  { change ([0; 1]%nat ++ 2%nat :: [3%nat]) with [0; 1; 2; 3]%nat. walk_levels. }
  assert (∀ n, n ∈ [0; 1]%nat → bool_decide (n = 2%nat) = false) as Hpre.
  { intros n Hn. each_member Hn; reflexivity. }
  assert (length ([0; 1]%nat ++ [2%nat]) < 8)%nat as Hfuel by (simpl; lia).
  split; [exact Hlevels|]. split; [exact Hpre|]. split; [reflexivity|].
  split; [exact Hfuel|].
  exact (end_stops_after_the_node (children_of scenario_assembled.2)
           (λ _, false) (λ n, bool_decide (n = 2%nat)) [0%nat] [0; 1]%nat [3%nat]
           2%nat 8%nat [] Hlevels Hpre eq_refl Hfuel).
Defined.

(** [X] attached beneath itself: its descendants are never all listed. *)
Lemma getDescendants_self_loop :
  is_Some (w_nodes (Node.attach 0%nat [0%nat] two_nodes).2 !! 0%nat) ∧
  (∀ n, n = 0%nat →
     ∃ c, c ∈ children_of (Node.attach 0%nat [0%nat] two_nodes).2 n ∧ c = 0%nat) ∧
  Node.getDescendants 0%nat false BreadthFirst 50
    (Node.attach 0%nat [0%nat] two_nodes).2
  = (OutOfFuel, (Node.attach 0%nat [0%nat] two_nodes).2).
Proof.
  assert (is_Some (w_nodes (Node.attach 0%nat [0%nat] two_nodes).2 !! 0%nat)) as H0
    by (vm_compute; by eexists).
  assert (∀ n, n = 0%nat →
     ∃ c, c ∈ children_of (Node.attach 0%nat [0%nat] two_nodes).2 n ∧ c = 0%nat)
    as Hclosed.
  { intros n ->. exists 0%nat. split; [by_evaluation | reflexivity]. }
  split; [exact H0|]. split; [exact Hclosed|].
  exact (getDescendants_of_a_cycle_never_ends (Node.attach 0%nat [0%nat] two_nodes).2
           0%nat (λ n, n = 0%nat) false BreadthFirst 50%nat H0 eq_refl Hclosed).
Defined.

(** On the graph [r -> p, q], [q -> r], after [r] and [q]: the pull drops
    [r], reached again from [q], and hands out [p], a child of the root, with
    the depth 2. *)
Lemma depth_first_revisit_scenario :
  GraphSignal.isDepthFirst revisit_signal = true ∧
  GraphSignal.visited revisit_signal = Some ["r"; "q"] ∧
  Linear.isStack (GraphSignal.nodes revisit_signal) = true ∧
  rev (Linear.items (GraphSignal.nodes revisit_signal))
    = concat (["r"] :: ("p" :: []) :: [[]]) ∧
  GraphSignal.branchCount revisit_signal
    = ((λ f : list string, Z.of_nat (length f)) <$> (["r"] :: ("p" :: []) :: [[]])) ∧
  "r" ∈ ["r"; "q"] ∧ ("p" ∉ ["r"; "q"]) ∧
  ∃ sig', GraphSignal.tryGetNext revisit_signal = (Ok (Some "p"), sig') ∧
    GraphSignal.depth sig' = 2 ∧
    GraphSignal.branchCount sig' = [-1; 1; 0] ∧
    GraphSignal.visited sig' = Some ["r"; "q"; "p"].
Proof.
  assert ("r" ∈ ["r"; "q"]) as Hr by by_evaluation.
  assert ("p" ∉ ["r"; "q"]) as Hp by by_evaluation.
  do 5 (split; [reflexivity|]). split; [exact Hr|]. split; [exact Hp|].
  exact (depth_first_revisit_shifts_the_depth revisit_signal ["r"; "q"] "r" "p" []
           [[]] eq_refl eq_refl eq_refl eq_refl eq_refl Hr Hp).
Defined.

(** The whole run on that graph: depth-first with cycle detection [p] is
    shown with the depth 2, breadth-first with its depth 1. *)
Lemma revisit_graph_depths :
  observed revisit_graph 8 (GraphSignal.constructor ["r"] true DepthFirst)
    = Ok [("r", 0, 0); ("q", 1, 1); ("p", 2, 2)] ∧
  observed revisit_graph 8 (GraphSignal.constructor ["r"] true BreadthFirst)
    = Ok [("r", 0, 0); ("p", 1, 1); ("q", 1, 2)].
Proof. split; by vm_compute. Qed.

(** After [attachRoot([A])] in the scenario none of [A], [B], [C], [D] can be
    detached, and nothing unbranded can be attached beneath them. *)
Lemma hierarchy_frozen_scenario :
  (∀ r, r ∈ [0%nat] → parent_of scenario_created.2 r = None) ∧
  levels (children_of scenario_created.2) [0%nat] [0; 1; 2; 3]%nat ∧
  NoDup [0; 1; 2; 3]%nat ∧
  (∀ n, n ∈ [0; 1; 2; 3]%nat →
     brand_of scenario_created.2 n = None ∧ is_Some (item_of scenario_created.2 n)) ∧
  (length [0; 1; 2; 3]%nat < 8)%nat ∧
  ∃ st',
    Hierarchy.attachRoot [0%nat] 8
      (Hierarchy.mk 0 (λ id : string, id) 0 [] [], scenario_created.2) = (Ok tt, st') ∧
    ∀ n, n ∈ [0; 1; 2; 3]%nat →
      (∃ e, Node.detachSelf n st'.2 = (Throw e, st'.2)) ∧
      (∀ p cs, n ∈ cs → ∃ e, Node.detach p cs st'.2 = (Throw e, st'.2)) ∧
      (∀ cs,
         (∀ c, c ∈ cs →
            brand_of st'.2 c = None ∨
            ∃ o, brand_of st'.2 c = Some o ∧ owner_Equals o = None) →
         ∃ e, Node.attach n cs st'.2 = (Throw e, st'.2)).
Proof.
  assert (∀ r, r ∈ [0%nat] → parent_of scenario_created.2 r = None) as Hroots.
  { intros r Hr. each_member Hr. reflexivity. }
  assert (levels (children_of scenario_created.2) [0%nat] [0; 1; 2; 3]%nat) as Hlevels
    by walk_levels.
  assert (NoDup [0; 1; 2; 3]%nat) as Hnd by by_evaluation.
  assert (∀ n, n ∈ [0; 1; 2; 3]%nat →
     brand_of scenario_created.2 n = None ∧ is_Some (item_of scenario_created.2 n))
    as Hfree.
  { intros n Hn. each_member Hn; (split; [reflexivity | vm_compute; by eexists]). }
  assert (length [0; 1; 2; 3]%nat < 8)%nat as Hfuel by (simpl; lia).
  split; [exact Hroots|]. split; [exact Hlevels|]. split; [exact Hnd|].
  split; [exact Hfree|]. split; [exact Hfuel|].
  exact (hierarchy_nodes_are_frozen (Hierarchy.mk 0 (λ id : string, id) 0 [] [])
           scenario_created.2 [0%nat] [0; 1; 2; 3]%nat 8%nat
           Hroots Hlevels Hnd Hfree Hfuel).
Defined.
(** * The cascade in the scenario *)

Lemma scenario_C_branded_well_linked : well_linked scenario_C_branded.
Proof.
  assert (scenario_C_branded
          = (write 2%nat (set_brand (Some (mkOwner 7 None))) scenario_assembled.2).2)
    as -> by (by vm_compute).
  apply write_brand_well_linked, scenario_assembled_well_linked.
Qed.

(** With [C] branded, the order of [D.dismantle(true)] is [D], [B], [C]: the
    call cuts [D] and [B] off and stops at [C]. With [B] branded,
    [B.dismantle(true)] stops at once. *)
Lemma C3_dismantle_aborts_scenario :
  well_linked scenario_C_branded ∧
  is_Some (w_nodes scenario_C_branded !! 3%nat) ∧
  cascade scenario_C_branded [] 3%nat true [3; 1; 2]%nat ∧
  NoDup [3; 1; 2]%nat ∧
  (∀ m, m ∈ [3; 1]%nat → brand_of scenario_C_branded m = None) ∧
  is_Some (brand_of scenario_C_branded 2%nat) ∧
  (S (length [3; 1; 2]%nat) < 8)%nat ∧
  (∃ w', Node.dismantle 8 3%nat true scenario_C_branded = (Throw branded_error, w') ∧
         cut_off [3; 1]%nat scenario_C_branded w') ∧
  is_Some (parent_of scenario_B_branded 1%nat) ∧
  is_Some (brand_of scenario_B_branded 1%nat) ∧
  Node.dismantle 1 1%nat true scenario_B_branded =
    (Throw branded_error, scenario_B_branded).
Proof.
  assert (is_Some (parent_of scenario_B_branded 1%nat)) as Hp
    by (vm_compute; by eexists).
  assert (is_Some (brand_of scenario_B_branded 1%nat)) as HbB
    by (vm_compute; by eexists).
  assert (is_Some (w_nodes scenario_C_branded !! 3%nat)) as Hvalid
    by (vm_compute; by eexists).
  assert (cascade scenario_C_branded [] 3%nat true [3; 1; 2]%nat) as Hcascade.
  { apply (cascade_up _ [] 3%nat 1%nat [1; 2]%nat []);
      [reflexivity | by_evaluation | | apply levels_end].
    apply (cascade_up _ [3%nat] 1%nat 0%nat [2%nat] []);
      [reflexivity | by_evaluation | | apply levels_end].
    apply cascade_down; [left; reflexivity|].
    change (filter _ (children_of scenario_C_branded 0%nat)) with [2%nat].
    walk_levels. }
  assert (NoDup [3; 1; 2]%nat) as Hnd by by_evaluation.
  assert (∀ m, m ∈ [3; 1]%nat → brand_of scenario_C_branded m = None) as Hfree.
  { intros m Hm. each_member Hm; reflexivity. }
  assert (is_Some (brand_of scenario_C_branded 2%nat)) as Hb
    by (vm_compute; by eexists).
  assert (S (length [3; 1; 2]%nat) < 8)%nat as Hfuel by (simpl; lia).
  split; [exact scenario_C_branded_well_linked|]. split; [exact Hvalid|].
  split; [exact Hcascade|]. split; [exact Hnd|]. split; [exact Hfree|].
  split; [exact Hb|]. split; [exact Hfuel|].
  split.
  - exact (proj1 (proj2 (proj2
             (C3_dismantle_aborts_at_first_branded_node scenario_C_branded 3%nat)))
             8%nat true [3; 1; 2]%nat [3; 1]%nat 2%nat []
             scenario_C_branded_well_linked Hvalid Hcascade Hnd eq_refl Hfree Hb Hfuel).
  - split; [exact Hp|]. split; [exact HbB|].
    exact (proj1 (C3_dismantle_aborts_at_first_branded_node scenario_B_branded 1%nat)
             0%nat Hp HbB).
Defined.
